(** * wmcc-core mempool: a shallow embedding of [src/mempool/mempool.js]

    The development follows the JavaScript source function by function.

    - JS numbers that hold integers are integers here ([Z]): the fees,
      sizes and times of the pool and their sums stay below 2^53, where
      doubles are exact.  The products that [cmpRate] and [useDesc] form
      can pass 2^53; they are rounded as doubles are ([roundDouble]).
    - A JS [Map] is an insertion-ordered association list ([JSMap] below):
      the pool iterates over [map.values()] and [orphans.keys()], so the
      order is part of the behaviour.
    - Pool entries are JS objects shared between [map], [spents] and the
      eviction heap.  The pool map is the store of these objects (one object
      per hash: [trackEntry] asserts the hash is new), and [spents] holds
      the hash of the entry it points to; [spents_ok] below shows that such
      a reference never dangles in a pool built by the tracking functions.
    - Exceptions and mutation are explicit: a computation takes the pool
      and ends with a value, with a thrown exception, or without result
      when the recursion budget [fuel] of the model is used up.  The pool
      is kept in the first two cases, because catch blocks
      continue from the state the throw left behind.
    - Collaborators whose code is outside [mempool.js] (chain, TX methods,
      policy constants, script flags, clock, random source, whether an
      'error' listener is attached to the pool) are fields of the
      environment [Env]; listeners are taken to return.  The model covers the default configuration in
      which the optional collaborators are absent: no fee estimator
      ([this.fees] is null), no address index ([indexAddress] unset) and no
      persistent cache ([cache.db] is null, so every cache call returns at
      once).  The logger is dropped. *)

From Stdlib Require Import List ZArith Lia Bool String QArith Qminmax.
Import ListNotations.
Open Scope string_scope.
Open Scope list_scope.
Open Scope Z_scope.

Set Implicit Arguments.

(** ** JS [Map]: insertion-ordered association lists *)

Section JSMap.
Variables (K V : Type) (eqb : K -> K -> bool).

Fixpoint mget (k : K) (m : list (K * V)) : option V :=
  match m with
  | [] => None
  | (k', v) :: r => if eqb k k' then Some v else mget k r
  end.

Definition mhas (k : K) (m : list (K * V)) : bool :=
  match mget k m with Some _ => true | None => false end.

(** [map.set]: an existing key keeps its position. *)
Fixpoint mset (k : K) (v : V) (m : list (K * V)) : list (K * V) :=
  match m with
  | [] => [(k, v)]
  | (k', v') :: r =>
      if eqb k k' then (k, v) :: r else (k', v') :: mset k v r
  end.

Fixpoint mdelete (k : K) (m : list (K * V)) : list (K * V) :=
  match m with
  | [] => []
  | (k', v') :: r =>
      if eqb k k' then mdelete k r else (k', v') :: mdelete k r
  end.

Definition mkeys (m : list (K * V)) : list K := List.map fst m.
End JSMap.


(** ** Data *)

(** A transaction hash in hex, as [tx.hash('hex')] gives it. *)
Definition Hash := string.

Record Outpoint := { op_hash : Hash; op_index : nat }.

(** [Outpoint.toKey(hash, index)]: the 36-byte key is in bijection with the
    pair. *)
Definition Key := (Hash * nat)%type.

Definition toKey (o : Outpoint) : Key := (op_hash o, op_index o).

Definition key_eqb (a b : Key) : bool :=
  String.eqb (fst a) (fst b) && Nat.eqb (snd a) (snd b).

Record Input := { prevout : Outpoint; sequence : Z }.

(** The part of a TX the pool reads directly.  [tx_outputs] is
    [tx.outputs.length]. *)
Record TX := {
  tx_hash : Hash;
  tx_inputs : list Input;
  tx_outputs : nat;
  tx_version : Z;
  tx_mutable : bool
}.

Record Coin := { coin_value : Z; coin_height : Z; coin_coinbase : bool }.

Inductive CoinEntry :=
| CoinOfTX (tx : TX) (index : nat) (height : Z)
| CoinOfChain (c : Coin).

(** Modelled from the spec: [CoinView] (coins/coinview.js is not among the
    sources) as the map of resolved outpoints; [hasEntry], [addIndex] and
    [addEntry] are the three operations of its contract the pool uses. *)
Definition CoinView := list (Key * CoinEntry).

Definition view_hasEntry (v : CoinView) (o : Outpoint) : bool :=
  mhas key_eqb (toKey o) v.

Definition view_addIndex (v : CoinView) (tx : TX) (index : nat) (height : Z)
  : CoinView :=
  mset key_eqb (tx_hash tx, index) (CoinOfTX tx index height) v.

Definition view_addEntry (v : CoinView) (o : Outpoint) (c : Coin) : CoinView :=
  mset key_eqb (toKey o) (CoinOfChain c) v.

Record MempoolEntry := {
  e_tx : TX;
  e_height : Z;
  e_size : Z;
  e_sigops : Z;
  e_priority : Z;
  e_fee : Z;
  e_deltaFee : Z;
  e_time : Z;
  e_coinbase : bool;
  e_descFee : Z;
  e_descSize : Z
}.

Definition e_hash (e : MempoolEntry) : Hash := tx_hash (e_tx e).

Definition set_desc (fee size : Z) (e : MempoolEntry) : MempoolEntry :=
  {| e_tx := e_tx e; e_height := e_height e; e_size := e_size e;
     e_sigops := e_sigops e; e_priority := e_priority e; e_fee := e_fee e;
     e_deltaFee := e_deltaFee e; e_time := e_time e;
     e_coinbase := e_coinbase e; e_descFee := fee; e_descSize := size |}.

(** ** Helpers at the end of mempool.js *)

Inductive FeeFn := Nop | AddFee | RemoveFee | PrePrioritise | PostPrioritise.

(** The callbacks mutate [parent]; the result is the parent after the call. *)
Definition apply_fn (f : FeeFn) (parent child : MempoolEntry) : MempoolEntry :=
  match f with
  | Nop => parent
  | AddFee =>
      set_desc (e_descFee parent + e_deltaFee child)
               (e_descSize parent + e_size child) parent
  | RemoveFee =>
      set_desc (e_descFee parent - e_descFee child)
               (e_descSize parent - e_descSize child) parent
  | PrePrioritise =>
      set_desc (e_descFee parent - e_deltaFee child) (e_descSize parent) parent
  | PostPrioritise =>
      set_desc (e_descFee parent + e_deltaFee child) (e_descSize parent) parent
  end.

(** [x * y] and [x - y] on JS numbers that hold integers: the operations
    of IEEE 754 doubles, that is the exact result rounded to 53
    significant bits, ties to the even significand.  (The magnitudes of
    the pool are far below 2^1024, where doubles overflow.) *)
Definition roundDouble (z : Z) : Z :=
  let m := Z.abs z in
  let e := Z.log2 m - 52 in
  if e <=? 0 then z
  else
    let q := m / 2 ^ e in
    let r := m mod 2 ^ e in
    let half := 2 ^ (e - 1) in
    let q' :=
      if r <? half then q
      else if half <? r then q + 1
      else if Z.even q then q else q + 1 in
    Z.sgn z * (q' * 2 ^ e).

Definition mulDouble (x y : Z) : Z := roundDouble (x * y).

Definition subDouble (x y : Z) : Z := roundDouble (x - y).

Definition useDesc (a : MempoolEntry) : bool :=
  let x := mulDouble (e_deltaFee a) (e_descSize a) in
  let y := mulDouble (e_descFee a) (e_size a) in
  y >? x.

Definition cmpRate (a b : MempoolEntry) : Z :=
  let xf := if useDesc a then e_descFee a else e_deltaFee a in
  let xs := if useDesc a then e_descSize a else e_size a in
  let yf := if useDesc b then e_descFee b else e_deltaFee b in
  let ys := if useDesc b then e_descSize b else e_size b in
  let x := mulDouble xf ys in
  let y := mulDouble xs yf in
  if x =? y then subDouble (e_time a) (e_time b) else subDouble x y.

(** ** Errors, events, orphans *)

(** [VerifyError(tx, code, reason, score, malleated)] of protocol/errors.js:
    its [type] is the constant ['VerifyError'], which is what the catch
    blocks test; the constructor arguments are kept as fields. *)
Record VerifyError := {
  ve_hash : Hash;
  ve_code : string;
  ve_reason : string;
  ve_score : Z;
  ve_malleated : bool
}.

(** What a JS [throw] can carry here: a [VerifyError], a failed [assert],
    or an error of a collaborator (chain or worker I/O). *)
Inductive Exn :=
| VerifyErr (e : VerifyError)
| AssertionErr (msg : string)
| ForeignErr (tag : string).

(** [err.type === 'VerifyError'] *)
Definition isVerifyError (e : Exn) : bool :=
  match e with VerifyErr _ => true | _ => false end.

Definition verifyError (tx : TX) (code reason : string) (score : Z)
  (malleated : bool) : Exn :=
  VerifyErr {| ve_hash := tx_hash tx; ve_code := code; ve_reason := reason;
               ve_score := score; ve_malleated := malleated |}.

(** [err.malleated = true] in the catch block of [verify]; the flag is only
    ever read on a [VerifyError]. *)
Definition set_malleated (e : Exn) : Exn :=
  match e with
  | VerifyErr v =>
      VerifyErr {| ve_hash := ve_hash v; ve_code := ve_code v;
                   ve_reason := ve_reason v; ve_score := ve_score v;
                   ve_malleated := true |}
  | _ => e
  end.

Inductive Res (A : Type) : Type :=
| Done (a : A)
| Failed (e : Exn).
Arguments Failed {A} e.

Record Block := { blk_hash : Hash; blk_prevBlock : Hash; blk_height : Z }.

(** The serialized transaction held by an orphan: bytes that decode to a
    transaction, or bytes that fail to decode ([orphan.toTX()] throws). *)
Inductive Raw :=
| RawTX (tx : TX)
| RawCorrupt.

Definition toRaw (tx : TX) : Raw := RawTX tx.

Record Orphan := { o_raw : Raw; o_missing : Z; o_id : Z }.

Definition toTX (o : Orphan) : option TX :=
  match o_raw o with RawTX tx => Some tx | RawCorrupt => None end.

Inductive Event :=
| EvTx (tx : TX) (view : CoinView)
| EvAddEntry (e : MempoolEntry)
| EvRemoveEntry (e : MempoolEntry)
| EvConfirmed (tx : TX) (b : Block)
| EvUnconfirmed (tx : TX) (b : Block)
| EvConflict (tx : TX)
| EvDoubleSpend (e : MempoolEntry)
| EvAddOrphan (tx : TX)
| EvRemoveOrphan (tx : TX)
| EvBadOrphan (err : VerifyError) (id : Z)
| EvError (err : Exn).

(** ** The mempool object *)

(** The fields of [Mempool] that change.  [mp_rejects] is the rolling
    filter; [mp_events] is the log of emitted events, newest first. *)
Record Mempool := {
  mp_size : Z;
  mp_freeCount : Q;
  mp_lastTime : Z;
  mp_lastFlush : Z;
  mp_tip : Hash;
  mp_waiting : list (Hash * list Hash);
  mp_orphans : list (Hash * Orphan);
  mp_map : list (Hash * MempoolEntry);
  mp_spents : list (Key * Hash);
  mp_rejects : list Hash;
  mp_events : list Event
}.

Definition with_size (v : Z) (s : Mempool) : Mempool :=
  {| mp_size := v; mp_freeCount := mp_freeCount s; mp_lastTime := mp_lastTime s;
     mp_lastFlush := mp_lastFlush s; mp_tip := mp_tip s;
     mp_waiting := mp_waiting s; mp_orphans := mp_orphans s;
     mp_map := mp_map s; mp_spents := mp_spents s;
     mp_rejects := mp_rejects s; mp_events := mp_events s |}.

Definition with_free (c : Q) (t : Z) (s : Mempool) : Mempool :=
  {| mp_size := mp_size s; mp_freeCount := c; mp_lastTime := t;
     mp_lastFlush := mp_lastFlush s; mp_tip := mp_tip s;
     mp_waiting := mp_waiting s; mp_orphans := mp_orphans s;
     mp_map := mp_map s; mp_spents := mp_spents s;
     mp_rejects := mp_rejects s; mp_events := mp_events s |}.

Definition with_lastFlush (v : Z) (s : Mempool) : Mempool :=
  {| mp_size := mp_size s; mp_freeCount := mp_freeCount s;
     mp_lastTime := mp_lastTime s; mp_lastFlush := v; mp_tip := mp_tip s;
     mp_waiting := mp_waiting s; mp_orphans := mp_orphans s;
     mp_map := mp_map s; mp_spents := mp_spents s;
     mp_rejects := mp_rejects s; mp_events := mp_events s |}.

Definition with_tip (v : Hash) (s : Mempool) : Mempool :=
  {| mp_size := mp_size s; mp_freeCount := mp_freeCount s;
     mp_lastTime := mp_lastTime s; mp_lastFlush := mp_lastFlush s; mp_tip := v;
     mp_waiting := mp_waiting s; mp_orphans := mp_orphans s;
     mp_map := mp_map s; mp_spents := mp_spents s;
     mp_rejects := mp_rejects s; mp_events := mp_events s |}.

Definition with_waiting (v : list (Hash * list Hash)) (s : Mempool) : Mempool :=
  {| mp_size := mp_size s; mp_freeCount := mp_freeCount s;
     mp_lastTime := mp_lastTime s; mp_lastFlush := mp_lastFlush s;
     mp_tip := mp_tip s; mp_waiting := v; mp_orphans := mp_orphans s;
     mp_map := mp_map s; mp_spents := mp_spents s;
     mp_rejects := mp_rejects s; mp_events := mp_events s |}.

Definition with_orphans (v : list (Hash * Orphan)) (s : Mempool) : Mempool :=
  {| mp_size := mp_size s; mp_freeCount := mp_freeCount s;
     mp_lastTime := mp_lastTime s; mp_lastFlush := mp_lastFlush s;
     mp_tip := mp_tip s; mp_waiting := mp_waiting s; mp_orphans := v;
     mp_map := mp_map s; mp_spents := mp_spents s;
     mp_rejects := mp_rejects s; mp_events := mp_events s |}.

Definition with_map (v : list (Hash * MempoolEntry)) (s : Mempool) : Mempool :=
  {| mp_size := mp_size s; mp_freeCount := mp_freeCount s;
     mp_lastTime := mp_lastTime s; mp_lastFlush := mp_lastFlush s;
     mp_tip := mp_tip s; mp_waiting := mp_waiting s;
     mp_orphans := mp_orphans s; mp_map := v; mp_spents := mp_spents s;
     mp_rejects := mp_rejects s; mp_events := mp_events s |}.

Definition with_spents (v : list (Key * Hash)) (s : Mempool) : Mempool :=
  {| mp_size := mp_size s; mp_freeCount := mp_freeCount s;
     mp_lastTime := mp_lastTime s; mp_lastFlush := mp_lastFlush s;
     mp_tip := mp_tip s; mp_waiting := mp_waiting s;
     mp_orphans := mp_orphans s; mp_map := mp_map s; mp_spents := v;
     mp_rejects := mp_rejects s; mp_events := mp_events s |}.

Definition with_rejects (v : list Hash) (s : Mempool) : Mempool :=
  {| mp_size := mp_size s; mp_freeCount := mp_freeCount s;
     mp_lastTime := mp_lastTime s; mp_lastFlush := mp_lastFlush s;
     mp_tip := mp_tip s; mp_waiting := mp_waiting s;
     mp_orphans := mp_orphans s; mp_map := mp_map s;
     mp_spents := mp_spents s; mp_rejects := v; mp_events := mp_events s |}.

Definition with_events (v : list Event) (s : Mempool) : Mempool :=
  {| mp_size := mp_size s; mp_freeCount := mp_freeCount s;
     mp_lastTime := mp_lastTime s; mp_lastFlush := mp_lastFlush s;
     mp_tip := mp_tip s; mp_waiting := mp_waiting s;
     mp_orphans := mp_orphans s; mp_map := mp_map s;
     mp_spents := mp_spents s; mp_rejects := mp_rejects s; mp_events := v |}.

(** ** Collaborators *)

Record Options := {
  maxSize : Z;
  maxOrphans : nat;
  maxAncestors : nat;
  expiryTime : Z;
  minRelay : Z;
  limitFree : bool;
  limitFreeRelay : Z;
  relayPriority : bool;
  requireStandard : bool;
  rejectAbsurdFees : bool;
  prematureWitness : bool;
  paranoidChecks : bool;
  replaceByFee : bool
}.

(** protocol/policy.js, script/script.js and blockchain/common.js: the
    constants and the one function the pool uses. *)
Record Policy := {
  MAX_TX_SIGOPS_COST : Z;
  MAX_TX_WEIGHT : Z;
  getMinFee : Z -> Z -> Z;
  STANDARD_LOCKTIME_FLAGS : Z;
  STANDARD_VERIFY_FLAGS : Z;
  ONLY_STANDARD_VERIFY_FLAGS : Z;
  MANDATORY_VERIFY_FLAGS : Z;
  VERIFY_WITNESS : Z;
  VERIFY_CLEANSTACK : Z
}.

(** The chain as the pool sees it while it holds the lock.  The calls the
    source awaits can fail with an error of their own. *)
Record Chain := {
  ch_height : Z;
  ch_tip : Hash;
  ch_hasCSV : bool;
  ch_hasWitness : bool;
  ch_verifyFinal : TX -> Z -> Res bool;
  ch_verifyLocks : TX -> CoinView -> Z -> Res bool;
  ch_hasCoins : TX -> Res bool;
  ch_readCoin : Outpoint -> Res (option Coin)
}.

(** Methods of [TX] and [MempoolEntry] (primitives/tx.js and
    mempool/mempoolentry.js are not among the sources). *)
Record Methods := {
  checkSanity : TX -> Z -> bool * string * Z;
  isCoinbase : TX -> bool;
  hasWitness : TX -> bool;
  checkStandard : TX -> bool * string * Z;
  isRBF : TX -> bool;
  getWeight : TX -> Z;
  hasStandardInputs : TX -> CoinView -> bool;
  hasStandardWitness : TX -> CoinView -> bool;
  checkInputs : TX -> CoinView -> Z -> Z * string * Z;
  verifyAsync : TX -> CoinView -> Z -> Res bool;
  getFee : TX -> CoinView -> Z;
  getSigopsCost : TX -> CoinView -> Z -> Z;
  getSigopsSize : TX -> Z -> Z;
  getPriority : TX -> CoinView -> Z -> Z -> Z;
  spendsCoinbase : TX -> CoinView -> bool;
  txMemUsage : TX -> Z;
  isFree : MempoolEntry -> Z -> bool
}.

Record Env := {
  options : Options;
  policy : Policy;
  chain : Chain;
  methods : Methods;
  now : Z;
  randomRange : nat -> nat -> nat;
  lockerHasPending : Hash -> bool;
  errorListener : bool
}.

(** Modelled from the spec: [entry.memUsage()] of the absent
    mempoolentry.js, a function of the immutable transaction the entry
    wraps (the bookkeeping fields do not enter it). *)
Definition memUsage (env : Env) (e : MempoolEntry) : Z :=
  txMemUsage (methods env) (e_tx e).

(** Modelled from the spec: [MempoolEntry.fromTX(tx, view, height)] of the
    absent mempoolentry.js: the entry records the height it is given, the
    clock, and the fee and size figures of the transaction; [deltaFee] and
    [descFee] start at the fee, [descSize] at the size. *)
Definition MempoolEntry_fromTX (env : Env) (tx : TX) (view : CoinView)
  (height : Z) : MempoolEntry :=
  let m := methods env in
  let sigops := getSigopsCost m tx view (STANDARD_VERIFY_FLAGS (policy env)) in
  let size := getSigopsSize m tx sigops in
  let fee := getFee m tx view in
  {| e_tx := tx; e_height := height; e_size := size; e_sigops := sigops;
     e_priority := getPriority m tx view height size; e_fee := fee;
     e_deltaFee := fee; e_time := now env;
     e_coinbase := spendsCoinbase m tx view;
     e_descFee := fee; e_descSize := size |}.

(** ** Computations on the pool *)

Inductive Outcome (A : Type) : Type :=
| Ret (a : A) (s : Mempool)
| Thr (e : Exn) (s : Mempool)
| OutOfFuel.
Arguments Thr {A} e s.
Arguments OutOfFuel {A}.

Definition M (A : Type) : Type := Mempool -> Outcome A.

Definition ret {A} (a : A) : M A := fun s => Ret a s.

Definition bind {A B} (m : M A) (k : A -> M B) : M B :=
  fun s =>
    match m s with
    | Ret a s' => k a s'
    | Thr e s' => Thr e s'
    | OutOfFuel => OutOfFuel
    end.

Definition throw {A} (e : Exn) : M A := fun s => Thr e s.

Definition outOfFuel {A} : M A := fun _ => OutOfFuel.

(** [try { m } catch (e) { h e }] *)
Definition try_catch {A} (m : M A) (h : Exn -> M A) : M A :=
  fun s =>
    match m s with
    | Ret a s' => Ret a s'
    | Thr e s' => h e s'
    | OutOfFuel => OutOfFuel
    end.

Definition gets {A} (f : Mempool -> A) : M A := fun s => Ret (f s) s.

Definition modify (f : Mempool -> Mempool) : M unit := fun s => Ret tt (f s).

Declare Scope pool_scope.
Delimit Scope pool_scope with pool.
Notation "x <- c1 ;; c2" := (bind c1 (fun x => c2))
  (at level 61, c1 at next level, right associativity) : pool_scope.
Notation "' pat <- c1 ;; c2" :=
  (bind c1 (fun x => match x with pat => c2 end))
  (at level 61, pat pattern, c1 at next level, right associativity)
  : pool_scope.
Notation "c1 ;; c2" := (bind c1 (fun _ => c2))
  (at level 61, right associativity) : pool_scope.
Open Scope pool_scope.

Definition assert (b : bool) (msg : string) : M unit :=
  if b then ret tt else throw (AssertionErr msg).

Definition when (b : bool) (m : M unit) : M unit :=
  if b then m else ret tt.

(** [await] of a collaborator's promise. *)
Definition await {A} (r : Res A) : M A :=
  match r with Done a => ret a | Failed e => throw e end.

Definition emit (ev : Event) : M unit :=
  modify (fun s => with_events (ev :: mp_events s) s).

(** [for (const x of l) body(x)], with [continue] as the end of the body. *)
Fixpoint forEach {A} (l : list A) (body : A -> M unit) : M unit :=
  match l with
  | [] => ret tt
  | x :: r => body x ;; forEach r body
  end.

(** A loop whose body can leave the function: [Some v] is [return v]. *)
Fixpoint forReturn {A R} (l : list A) (body : A -> M (option R))
  : M (option R) :=
  match l with
  | [] => ret None
  | x :: r =>
      o <- body x ;;
      match o with
      | Some v => ret (Some v)
      | None => forReturn r body
      end
  end.

(** [set.add(h)] on a JS [Set], kept in insertion order. *)
Definition set_has (h : Hash) (set : list Hash) : bool :=
  existsb (String.eqb h) set.

Definition set_add (h : Hash) (set : list Hash) : list Hash :=
  if set_has h set then set else set ++ [h].

Definition set_delete (h : Hash) (set : list Hash) : list Hash :=
  filter (fun x => negb (String.eqb h x)) set.

(** Modelled from the spec: the eviction queue [new Heap(cmpRate)]
    (utils/heap.js is not among the sources) as a min-priority queue:
    [insert] adds an entry, [shift] removes a least entry for the
    comparator, the one inserted first among equals. *)
Definition heap_insert (e : MempoolEntry) (q : list MempoolEntry)
  : list MempoolEntry := q ++ [e].

Fixpoint heap_shift (q : list MempoolEntry)
  : option (MempoolEntry * list MempoolEntry) :=
  match q with
  | [] => None
  | x :: r =>
      match heap_shift r with
      | None => Some (x, [])
      | Some (m, r') =>
          if cmpRate m x <? 0 then Some (m, x :: r') else Some (x, r)
      end
  end.

(** [this.size <= threshold] for [threshold = maxSize - (maxSize / 10)]:
    the JS division is not rounded, so the test is the exact comparison
    [size <= 9 * maxSize / 10], here cleared of the denominator. *)
Definition underThreshold (size maxSize : Z) : bool :=
  10 * size <=? 10 * maxSize - maxSize.

Section Pool.
Variable env : Env.

Definition getEntry (hash : Hash) : M (option MempoolEntry) :=
  gets (fun s => mget String.eqb hash (mp_map s)).

Definition hasEntry (hash : Hash) : M bool :=
  gets (fun s => mhas String.eqb hash (mp_map s)).

Definition getTX (hash : Hash) : M (option TX) :=
  entry <- getEntry hash ;;
  match entry with
  | None => ret None
  | Some entry => ret (Some (e_tx entry))
  end.

Definition isSpent (hash : Hash) (index : nat) : M bool :=
  gets (fun s => mhas key_eqb (hash, index) (mp_spents s)).

(** [this.spents.get(key)]: the entry object the key points to. *)
Definition getSpent (hash : Hash) (index : nat) : M (option MempoolEntry) :=
  gets (fun s =>
    match mget key_eqb (hash, index) (mp_spents s) with
    | Some h => mget String.eqb h (mp_map s)
    | None => None
    end).

Definition getOrphan (hash : Hash) : M (option Orphan) :=
  gets (fun s => mget String.eqb hash (mp_orphans s)).

Definition hasOrphan (hash : Hash) : M bool :=
  gets (fun s => mhas String.eqb hash (mp_orphans s)).

Definition exists_ (hash : Hash) : M bool :=
  if lockerHasPending env hash then ret true
  else
    o <- hasOrphan hash ;;
    if o then ret true else hasEntry hash.

(** Modelled from the spec: the rolling filter (utils/rollingfilter.js is
    not among the sources) as the set of hashes added since the last reset;
    the false positives of the real filter are left out. *)
Definition hasReject (hash : Hash) : M bool :=
  gets (fun s => set_has hash (mp_rejects s)).

Definition rejects_add (hash : Hash) : M unit :=
  modify (fun s => with_rejects (hash :: mp_rejects s) s).

Definition rejects_reset : M unit :=
  modify (fun s => with_rejects [] s).

(** *** trackEntry, untrackEntry *)

Definition trackEntry (entry : MempoolEntry) : M unit :=
  let tx := e_tx entry in
  let hash := tx_hash tx in
  has <- hasEntry hash ;;
  assert (negb has) "!this.map.has(hash)" ;;
  modify (fun s => with_map (mset String.eqb hash entry (mp_map s)) s) ;;
  assert (negb (isCoinbase (methods env) tx)) "!tx.isCoinbase()" ;;
  forEach (tx_inputs tx) (fun inp =>
    let key := toKey (prevout inp) in
    modify (fun s => with_spents (mset key_eqb key hash (mp_spents s)) s)) ;;
  modify (fun s => with_size (mp_size s + memUsage env entry) s).

Definition untrackEntry (entry : MempoolEntry) : M unit :=
  let tx := e_tx entry in
  let hash := tx_hash tx in
  has <- hasEntry hash ;;
  assert has "this.map.has(hash)" ;;
  modify (fun s => with_map (mdelete String.eqb hash (mp_map s)) s) ;;
  assert (negb (isCoinbase (methods env) tx)) "!tx.isCoinbase()" ;;
  forEach (tx_inputs tx) (fun inp =>
    let key := toKey (prevout inp) in
    modify (fun s => with_spents (mdelete key_eqb key (mp_spents s)) s)) ;;
  modify (fun s => with_size (mp_size s - memUsage env entry) s).

Definition removeEntry (entry : MempoolEntry) : M unit :=
  untrackEntry entry ;;
  emit (EvRemoveEntry entry).

Fixpoint removeSpenders (fuel : nat) (entry : MempoolEntry) {struct fuel}
  : M unit :=
  match fuel with
  | O => outOfFuel
  | S fuel' =>
      let hash := e_hash entry in
      forEach (seq 0 (tx_outputs (e_tx entry))) (fun i =>
        spender <- getSpent hash i ;;
        match spender with
        | None => ret tt
        | Some spender =>
            removeSpenders fuel' spender ;;
            removeEntry spender
        end)
  end.

(** *** Ancestor traversal *)

(** The fields of the object [child] at the time of a callback: those of
    the pool's entry when [child] is tracked, its own otherwise. *)
Definition live (child : MempoolEntry) (s : Mempool) : MempoolEntry :=
  match mget String.eqb (e_hash child) (mp_map s) with
  | Some c => c
  | None => child
  end.

(** [map(parent, child)] on the pool's object for [hash]. *)
Definition callFn (f : FeeFn) (hash : Hash) (child : MempoolEntry) : M unit :=
  modify (fun s =>
    match mget String.eqb hash (mp_map s) with
    | Some parent =>
        with_map
          (mset String.eqb hash (apply_fn f parent (live child s)) (mp_map s)) s
    | None => s
    end).

(** The loop of [_countAncestors]; [rec] is the recursive call.  The
    result is the visited [set], which the source mutates in place and
    whose size it returns. *)
Fixpoint countAncestors_loop
  (rec : MempoolEntry -> list Hash -> M (list Hash))
  (child : MempoolEntry) (f : FeeFn)
  (inputs : list Input) (set : list Hash) {struct inputs} : M (list Hash) :=
  match inputs with
  | [] => ret set
  | inp :: rest =>
      let hash := op_hash (prevout inp) in
      parent <- getEntry hash ;;
      match parent with
      | None => countAncestors_loop rec child f rest set
      | Some parent =>
          if set_has hash set then countAncestors_loop rec child f rest set
          else
            let set := hash :: set in
            callFn f hash child ;;
            if (maxAncestors (options env) <? List.length set)%nat then ret set
            else
              set <- rec parent set ;;
              if (maxAncestors (options env) <? List.length set)%nat then ret set
              else countAncestors_loop rec child f rest set
      end
  end.

Fixpoint _countAncestors (fuel : nat) (entry : MempoolEntry)
  (set : list Hash) (child : MempoolEntry) (f : FeeFn) {struct fuel}
  : M (list Hash) :=
  match fuel with
  | O => outOfFuel
  | S fuel' =>
      countAncestors_loop
        (fun parent set => _countAncestors fuel' parent set child f)
        child f (tx_inputs (e_tx entry)) set
  end.

(** The recursion of [_countAncestors] is at most [maxAncestors] deep (the
    set grows by one before each call and the call is skipped once it holds
    more than [maxAncestors] hashes), so this budget is never used up:
    see [countAncestors_fuel]. *)
Definition ancestorFuel : nat := S (maxAncestors (options env)).

Definition countAncestors (entry : MempoolEntry) : M nat :=
  set <- _countAncestors ancestorFuel entry [] entry Nop ;;
  ret (List.length set).

Definition updateAncestors (entry : MempoolEntry) (f : FeeFn) : M nat :=
  set <- _countAncestors ancestorFuel entry [] entry f ;;
  ret (List.length set).

Definition evictEntry (fuel : nat) (entry : MempoolEntry) : M unit :=
  removeSpenders fuel entry ;;
  updateAncestors entry RemoveFee ;;
  removeEntry entry.

Definition hasDepends (tx : TX) : M bool :=
  gets (fun s =>
    existsb (fun inp => mhas String.eqb (op_hash (prevout inp)) (mp_map s))
            (tx_inputs tx)).

(** *** limitSize *)

(** First loop of [limitSize], over the live [this.map.values()]: an entry
    deleted before the iteration reaches it is not visited. *)
Fixpoint limitSize_expire (fuel : nat) (hashes : list Hash)
  (queue : list MempoolEntry) : M (list MempoolEntry) :=
  match hashes with
  | [] => ret queue
  | hash :: rest =>
      entry <- getEntry hash ;;
      match entry with
      | None => limitSize_expire fuel rest queue
      | Some entry =>
          dep <- hasDepends (e_tx entry) ;;
          if dep then limitSize_expire fuel rest queue
          else if now env <? e_time entry + expiryTime (options env) then
            limitSize_expire fuel rest (heap_insert entry queue)
          else
            evictEntry fuel entry ;;
            limitSize_expire fuel rest queue
      end
  end.

(** Second loop: [while (queue.size() > 0)]; [n] counts the entries left in
    the queue. *)
Fixpoint limitSize_evict (fuel : nat) (n : nat) (queue : list MempoolEntry)
  : M unit :=
  match n with
  | O => ret tt
  | S n' =>
      match heap_shift queue with
      | None => ret tt
      | Some (entry, queue') =>
          let hash := e_hash entry in
          has <- hasEntry hash ;;
          assert has "this.hasEntry(hash)" ;;
          evictEntry fuel entry ;;
          size <- gets mp_size ;;
          if underThreshold size (maxSize (options env)) then ret tt
          else limitSize_evict fuel n' queue'
      end
  end.

Definition limitSize (fuel : nat) (added : Hash) : M bool :=
  let maxSize := maxSize (options env) in
  size <- gets mp_size ;;
  if size <=? maxSize then ret false
  else
    hashes <- gets (fun s => mkeys (mp_map s)) ;;
    queue <- limitSize_expire fuel hashes [] ;;
    size <- gets mp_size ;;
    if underThreshold size maxSize then
      has <- hasEntry added ;; ret (negb has)
    else
      limitSize_evict fuel (List.length queue) queue ;;
      has <- hasEntry added ;; ret (negb has).

(** *** Orphans *)

(** Modelled from the spec: [tx.getPrevout()] of the absent tx.js, the
    distinct parent hashes of the inputs, in input order. *)
Definition getPrevout (tx : TX) : list Hash :=
  fold_left (fun acc inp => set_add (op_hash (prevout inp)) acc)
            (tx_inputs tx) [].

Definition removeOrphan (hash : Hash) : M bool :=
  orphan <- getOrphan hash ;;
  match orphan with
  | None => ret false
  | Some orphan =>
      match toTX orphan with
      | None =>
          modify (fun s =>
            with_orphans (mdelete String.eqb hash (mp_orphans s)) s) ;;
          ret false
      | Some tx =>
          forEach (getPrevout tx) (fun prev =>
            set <- gets (fun s => mget String.eqb prev (mp_waiting s)) ;;
            match set with
            | None => ret tt
            | Some set =>
                assert (set_has hash set) "set.has(hash)" ;;
                let set := set_delete hash set in
                modify (fun s =>
                  with_waiting (mset String.eqb prev set (mp_waiting s)) s) ;;
                when (List.length set =? 0)%nat
                  (modify (fun s =>
                     with_waiting (mdelete String.eqb prev (mp_waiting s)) s))
            end) ;;
          modify (fun s =>
            with_orphans (mdelete String.eqb hash (mp_orphans s)) s) ;;
          emit (EvRemoveOrphan tx) ;;
          ret true
      end
  end.

(** The key the loop of [limitOrphans] stops at: the one at [index], or the
    last one when the keys run out first. *)
Fixpoint pickKey (index : nat) (keys : list Hash) (cur : option Hash)
  : option Hash :=
  match keys with
  | [] => cur
  | h :: r =>
      match index with
      | O => Some h
      | S i => pickKey i r (Some h)
      end
  end.

Definition limitOrphans : M bool :=
  n <- gets (fun s => List.length (mp_orphans s)) ;;
  if (n <? maxOrphans (options env))%nat then ret false
  else
    let index := randomRange env 0 n in
    keys <- gets (fun s => mkeys (mp_orphans s)) ;;
    match pickKey index keys None with
    | None => throw (AssertionErr "hash")
    | Some hash =>
        assert (negb (String.eqb hash "")) "hash" ;;
        removeOrphan hash ;;
        ret true
    end.

(** The first loop of [maybeOrphan].  [inl missing] is the early
    [return missing] (the array is still empty there); [inr hashes] is the
    set of parent hashes the loop ends with. *)
Fixpoint maybeOrphan_scan (tx : TX) (view : CoinView) (inputs : list Input)
  (hashes : list Hash) : M (list Hash + list Hash) :=
  match inputs with
  | [] => ret (inr hashes)
  | inp :: rest =>
      let prev := prevout inp in
      if view_hasEntry view prev then maybeOrphan_scan tx view rest hashes
      else
        rejected <- hasReject (op_hash prev) ;;
        if rejected then
          rejects_add (tx_hash tx) ;; ret (inl [])
        else
          inpool <- hasEntry (op_hash prev) ;;
          if inpool then
            rejects_add (tx_hash tx) ;; ret (inl [])
          else
            maybeOrphan_scan tx view rest (set_add (op_hash prev) hashes)
  end.

(** [null] is [None]; an array, empty or not, is [Some]. *)
Definition maybeOrphan (tx : TX) (view : CoinView) (id : Z)
  : M (option (list Hash)) :=
  r <- maybeOrphan_scan tx view (tx_inputs tx) [] ;;
  match r with
  | inl missing => ret (Some missing)
  | inr hashes =>
      if (List.length hashes =? 0)%nat then ret None
      else if MAX_TX_WEIGHT (policy env) <? getWeight (methods env) tx then
        when (negb (hasWitness (methods env) tx)) (rejects_add (tx_hash tx)) ;;
        ret (Some [])
      else if (maxOrphans (options env) =? 0)%nat then ret (Some [])
      else
        limitOrphans ;;
        let hash := tx_hash tx in
        forEach hashes (fun prev =>
          modify (fun s =>
            let set :=
              match mget String.eqb prev (mp_waiting s) with
              | Some set => set
              | None => []
              end in
            with_waiting
              (mset String.eqb prev (set_add hash set) (mp_waiting s)) s)) ;;
        let missing := hashes in
        modify (fun s =>
          with_orphans
            (mset String.eqb hash
               {| o_raw := toRaw tx;
                  o_missing := Z.of_nat (List.length missing);
                  o_id := id |}
               (mp_orphans s)) s) ;;
        emit (EvAddOrphan tx) ;;
        ret (Some missing)
  end.

Fixpoint resolveOrphans_loop (hashes : list Hash) (resolved : list Orphan)
  : M (list Orphan) :=
  match hashes with
  | [] => ret resolved
  | hash :: rest =>
      orphan <- getOrphan hash ;;
      match orphan with
      | None => throw (AssertionErr "orphan")
      | Some orphan =>
          let orphan :=
            {| o_raw := o_raw orphan; o_missing := o_missing orphan - 1;
               o_id := o_id orphan |} in
          modify (fun s =>
            with_orphans (mset String.eqb hash orphan (mp_orphans s)) s) ;;
          if o_missing orphan =? 0 then
            modify (fun s =>
              with_orphans (mdelete String.eqb hash (mp_orphans s)) s) ;;
            resolveOrphans_loop rest (resolved ++ [orphan])
          else resolveOrphans_loop rest resolved
      end
  end.

Definition resolveOrphans (parent : TX) : M (list Orphan) :=
  let hash := tx_hash parent in
  set <- gets (fun s => mget String.eqb hash (mp_waiting s)) ;;
  match set with
  | None => ret []
  | Some set =>
      assert (0 <? List.length set)%nat "set.size > 0" ;;
      resolved <- resolveOrphans_loop set [] ;;
      modify (fun s =>
        with_waiting (mdelete String.eqb hash (mp_waiting s)) s) ;;
      ret resolved
  end.

(** The body of the loop of [handleOrphans] for one resolved orphan;
    [insertTX] is the function the orphan is replayed through. *)
Definition handleOrphans_step
  (insertTX : TX -> Z -> M (option (list Hash))) (orphan : Orphan) : M unit :=
  match toTX orphan with
  | None => ret tt
  | Some tx =>
      r <- try_catch
             (missing <- insertTX tx (o_id orphan) ;; ret (Some missing))
             (fun err =>
                match err with
                | VerifyErr v =>
                    when (negb (hasWitness (methods env) tx)
                          && negb (ve_malleated v))
                      (rejects_add (tx_hash tx)) ;;
                    emit (EvBadOrphan v (o_id orphan)) ;;
                    ret None
                | _ => throw err
                end) ;;
      match r with
      | Some (Some (_ :: _)) => removeOrphan (tx_hash tx) ;; ret tt
      | _ => ret tt
      end
  end.

Definition handleOrphans_body
  (insertTX : TX -> Z -> M (option (list Hash))) (parent : TX) : M unit :=
  resolved <- resolveOrphans parent ;;
  forEach resolved (handleOrphans_step insertTX).

(** *** Admission *)

Definition isDoubleSpend (tx : TX) : M bool :=
  gets (fun s =>
    existsb (fun inp => mhas key_eqb (toKey (prevout inp)) (mp_spents s))
            (tx_inputs tx)).

Fixpoint getCoinView_loop (inputs : list Input) (view : CoinView)
  : M CoinView :=
  match inputs with
  | [] => ret view
  | inp :: rest =>
      let hash := op_hash (prevout inp) in
      let index := op_index (prevout inp) in
      tx <- getTX hash ;;
      match tx with
      | Some tx =>
          if (index <? tx_outputs tx)%nat then
            getCoinView_loop rest (view_addIndex view tx index (-1))
          else getCoinView_loop rest view
      | None =>
          coin <- await (ch_readCoin (chain env) (prevout inp)) ;;
          match coin with
          | Some coin =>
              getCoinView_loop rest (view_addEntry view (prevout inp) coin)
          | None => getCoinView_loop rest view
          end
      end
  end.

Definition getCoinView (tx : TX) : M CoinView :=
  getCoinView_loop (tx_inputs tx) [].

Definition verifyInputs (tx : TX) (view : CoinView) (flags : Z) : M unit :=
  ok <- await (verifyAsync (methods env) tx view flags) ;;
  if ok then ret tt
  else
    let only := ONLY_STANDARD_VERIFY_FLAGS (policy env) in
    when (negb (Z.land flags only =? 0))
      (let flags := Z.land flags (Z.lnot only) in
       ok <- await (verifyAsync (methods env) tx view flags) ;;
       when ok
         (throw (verifyError tx "nonstandard"
                   "non-mandatory-script-verify-flag" 0 false))) ;;
    throw (verifyError tx "nonstandard" "mandatory-script-verify-flag"
             100 false).

Definition verifyResult (tx : TX) (view : CoinView) (flags : Z) : M bool :=
  try_catch (verifyInputs tx view flags ;; ret true)
    (fun err => if isVerifyError err then ret false else throw err).

Definition verify (entry : MempoolEntry) (view : CoinView) : M unit :=
  let opt := options env in
  let pol := policy env in
  let m := methods env in
  let height := ch_height (chain env) + 1 in
  let lockFlags := STANDARD_LOCKTIME_FLAGS pol in
  let tx := e_tx entry in
  locks <- await (ch_verifyLocks (chain env) tx view lockFlags) ;;
  when (negb locks)
    (throw (verifyError tx "nonstandard" "non-BIP68-final" 0 false)) ;;
  when (requireStandard opt)
    (when (negb (hasStandardInputs m tx view))
       (throw (verifyError tx "nonstandard" "bad-txns-nonstandard-inputs"
                 0 false)) ;;
     when (ch_hasWitness (chain env))
       (when (negb (hasStandardWitness m tx view))
          (throw (verifyError tx "nonstandard" "bad-witness-nonstandard"
                    0 true)))) ;;
  when (MAX_TX_SIGOPS_COST pol <? e_sigops entry)
    (throw (verifyError tx "nonstandard" "bad-txns-too-many-sigops"
              0 false)) ;;
  let minFee := getMinFee pol (e_size entry) (minRelay opt) in
  when (relayPriority opt && (e_fee entry <? minFee))
    (when (negb (isFree m entry height))
       (throw (verifyError tx "insufficientfee" "insufficient priority"
                 0 false))) ;;
  when (limitFree opt && (e_fee entry <? minFee))
    (let now := now env in
     modify (fun s =>
       with_free
         (mp_freeCount s * Qpower (1 - 1 / 600) (now - mp_lastTime s))%Q
         now s) ;;
     count <- gets mp_freeCount ;;
     when (negb (Qle_bool count (inject_Z (limitFreeRelay opt * 10 * 1000))))
       (throw (verifyError tx "insufficientfee"
                 "rate limited free transaction" 0 false)) ;;
     modify (fun s =>
       with_free (mp_freeCount s + inject_Z (e_size entry))%Q
                 (mp_lastTime s) s)) ;;
  when (rejectAbsurdFees opt && (minFee * 10000 <? e_fee entry))
    (throw (verifyError tx "highfee" "absurdly-high-fee" 0 false)) ;;
  count <- countAncestors entry ;;
  when (maxAncestors opt <? count + 1)%nat
    (throw (verifyError tx "nonstandard" "too-long-mempool-chain" 0 false)) ;;
  let '(fee, reason, score) := checkInputs m tx view height in
  when (fee =? -1) (throw (verifyError tx "invalid" reason score false)) ;;
  let flags := STANDARD_VERIFY_FLAGS pol in
  try_catch (verifyInputs tx view flags)
    (fun err =>
       if hasWitness m tx then throw err
       else
         let flags := Z.land flags (Z.lnot (VERIFY_WITNESS pol)) in
         let flags := Z.land flags (Z.lnot (VERIFY_CLEANSTACK pol)) in
         ok <- verifyResult tx view flags ;;
         if negb ok then throw err
         else
           let flags := Z.lor flags (VERIFY_CLEANSTACK pol) in
           ok <- verifyResult tx view flags ;;
           if ok then throw err
           else throw (set_malleated err)) ;;
  when (paranoidChecks opt)
    (ok <- verifyResult tx view (MANDATORY_VERIFY_FLAGS pol) ;;
     assert ok "BUG: Verify failed for mandatory but not standard.").

Definition addEntry_body
  (insertTX : TX -> Z -> M (option (list Hash)))
  (entry : MempoolEntry) (view : CoinView) : M unit :=
  let tx := e_tx entry in
  trackEntry entry ;;
  updateAncestors entry AddFee ;;
  emit (EvTx tx view) ;;
  emit (EvAddEntry entry) ;;
  handleOrphans_body insertTX tx.

(** Lines 801-886 of [insertTX]: the checks that come before the
    double-spend test. *)
Definition insertTX_gates (tx : TX) : M unit :=
  let opt := options env in
  let m := methods env in
  assert (negb (tx_mutable tx)) "Cannot add mutable TX to mempool." ;;
  let lockFlags := STANDARD_LOCKTIME_FLAGS (policy env) in
  let height := ch_height (chain env) in
  let hash := tx_hash tx in
  let '(valid, reason, score) := checkSanity m tx height in
  when (negb valid) (throw (verifyError tx "invalid" reason score false)) ;;
  when (isCoinbase m tx)
    (throw (verifyError tx "invalid" "coinbase" 100 false)) ;;
  when (requireStandard opt)
    (when (negb (ch_hasCSV (chain env)) && (2 <=? tx_version tx))
       (throw (verifyError tx "nonstandard" "premature-version2-tx"
                 0 false))) ;;
  when (negb (ch_hasWitness (chain env)) && negb (prematureWitness opt))
    (when (hasWitness m tx)
       (throw (verifyError tx "nonstandard" "no-witness-yet" 0 true))) ;;
  when (requireStandard opt)
    (let '(valid, reason, score) := checkStandard m tx in
     when (negb valid)
       (throw (verifyError tx "nonstandard" reason score false)) ;;
     when (negb (replaceByFee opt))
       (when (isRBF m tx)
          (throw (verifyError tx "nonstandard" "replace-by-fee" 0 false)))) ;;
  final <- await (ch_verifyFinal (chain env) tx lockFlags) ;;
  when (negb final)
    (throw (verifyError tx "nonstandard" "non-final" 0 false)) ;;
  known <- exists_ hash ;;
  when known
    (throw (verifyError tx "alreadyknown" "txn-already-in-mempool" 0 false)) ;;
  coins <- await (ch_hasCoins (chain env) tx) ;;
  when coins
    (throw (verifyError tx "alreadyknown" "txn-already-known" 0 false)).

(** [insertTX]; [fuel] is passed on to the evictions of [limitSize] and
    [insertTX] in the argument is the call that replays orphans. *)
Definition insertTX_body (fuel : nat)
  (insertTX : TX -> Z -> M (option (list Hash)))
  (tx : TX) (id : Z) : M (option (list Hash)) :=
  let height := ch_height (chain env) in
  let hash := tx_hash tx in
  insertTX_gates tx ;;
  double <- isDoubleSpend tx ;;
  if double then
    emit (EvConflict tx) ;;
    throw (verifyError tx "duplicate" "bad-txns-inputs-spent" 0 false)
  else
    view <- getCoinView tx ;;
    missing <- maybeOrphan tx view id ;;
    match missing with
    | Some missing => ret (Some missing)
    | None =>
        let entry := MempoolEntry_fromTX env tx view height in
        verify entry view ;;
        addEntry_body insertTX entry view ;;
        full <- limitSize fuel hash ;;
        if full then
          throw (verifyError tx "insufficientfee" "mempool full" 0 false)
        else ret None
    end.

Fixpoint insertTX (fuel : nat) {struct fuel}
  : TX -> Z -> M (option (list Hash)) :=
  match fuel with
  | O => fun _ _ => outOfFuel
  | S fuel' => insertTX_body fuel' (insertTX fuel')
  end.

Definition handleOrphans (fuel : nat) (parent : TX) : M unit :=
  handleOrphans_body (insertTX fuel) parent.

Definition addEntry (fuel : nat) (entry : MempoolEntry) (view : CoinView)
  : M unit :=
  addEntry_body (insertTX fuel) entry view.

(** [id == null] is [None]. *)
Definition _addTX (fuel : nat) (tx : TX) (id : option Z)
  : M (option (list Hash)) :=
  let id := match id with Some id => id | None => -1 end in
  missing <-
    try_catch (insertTX fuel tx id)
      (fun err =>
         match err with
         | VerifyErr v =>
             when (negb (hasWitness (methods env) tx) && negb (ve_malleated v))
               (rejects_add (tx_hash tx))
         | _ => ret tt
         end ;;
         throw err) ;;
  last <- gets mp_lastFlush ;;
  when (10 <? now env - last)
    (modify (fun s => with_lastFlush (now env) s)) ;;
  ret missing.

(** *** Blocks *)

Definition removeDoubleSpends (fuel : nat) (tx : TX) : M unit :=
  forEach (tx_inputs tx) (fun inp =>
    spent <- getSpent (op_hash (prevout inp)) (op_index (prevout inp)) ;;
    match spent with
    | None => ret tt
    | Some spent =>
        evictEntry fuel spent ;;
        emit (EvDoubleSpend spent)
    end).

Definition addBlock_step (fuel : nat) (block : Block) (tx : TX) : M unit :=
  let hash := tx_hash tx in
  entry <- getEntry hash ;;
  match entry with
  | None =>
      removeOrphan hash ;;
      removeDoubleSpends fuel tx ;;
      waits <- gets (fun s => mhas String.eqb hash (mp_waiting s)) ;;
      when waits (handleOrphans fuel tx)
  | Some entry =>
      removeEntry entry ;;
      emit (EvConfirmed tx block)
  end.

(** [for (let i = txs.length - 1; i >= 1; i--)] visits [rev (tl txs)]. *)
Definition _addBlock (fuel : nat) (block : Block) (txs : list TX) : M unit :=
  n <- gets (fun s => List.length (mp_map s)) ;;
  if (n =? 0)%nat then modify (with_tip (blk_hash block))
  else
    forEach (rev (tl txs)) (addBlock_step fuel block) ;;
    rejects_reset ;;
    modify (with_tip (blk_hash block)).

(** [this.emit('error', e)]: the pool is a Node [EventEmitter], whose
    [emit] of the event 'error' calls the listeners of that event and,
    when none is attached, throws [e] itself. *)
Definition emitError (e : Exn) : M unit :=
  if errorListener env then emit (EvError e) else throw e.

(** The body of the loop of [_removeBlock] for one transaction.  The catch
    block has no test on the kind of error. *)
Definition removeBlock_step (fuel : nat) (block : Block) (tx : TX) : M unit :=
  let hash := tx_hash tx in
  has <- hasEntry hash ;;
  if has then ret tt
  else
    ok <- try_catch (insertTX fuel tx (-1) ;; ret true)
            (fun e => emitError e ;; ret false) ;;
    when ok (emit (EvUnconfirmed tx block)).

(** [for (let i = 1; i < txs.length; i++)] visits [tl txs]. *)
Definition _removeBlock (fuel : nat) (block : Block) (txs : list TX)
  : M unit :=
  n <- gets (fun s => List.length (mp_map s)) ;;
  if (n =? 0)%nat then modify (with_tip (blk_prevBlock block))
  else
    forEach (tl txs) (removeBlock_step fuel block) ;;
    rejects_reset ;;
    modify (with_tip (blk_prevBlock block)).

Definition _reset : M unit :=
  modify (fun s =>
    {| mp_size := 0; mp_freeCount := 0%Q; mp_lastTime := 0;
       mp_lastFlush := mp_lastFlush s; mp_tip := ch_tip (chain env);
       mp_waiting := []; mp_orphans := []; mp_map := []; mp_spents := [];
       mp_rejects := []; mp_events := mp_events s |}).

End Pool.

(** [new Mempool(options)]: the empty pool.  [genesis] is
    [network.genesis.hash]. *)
Definition Mempool_new (genesis : Hash) : Mempool :=
  {| mp_size := 0; mp_freeCount := 0%Q; mp_lastTime := 0; mp_lastFlush := 0;
     mp_tip := genesis; mp_waiting := []; mp_orphans := []; mp_map := [];
     mp_spents := []; mp_rejects := []; mp_events := [] |}.

(** ** Fee rates, for the statement about [cmpRate] *)

Definition sized (e : MempoolEntry) : Prop :=
  0 < e_size e /\ 0 < e_descSize e.

(** The fees of the entry are at most [F] and its sizes at most [S] in
    magnitude: with [F * S < 2^53] every product the comparator forms is
    an exact double. *)
Definition within (F S : Z) (e : MempoolEntry) : Prop :=
  Z.abs (e_deltaFee e) <= F /\ Z.abs (e_descFee e) <= F
  /\ Z.abs (e_size e) <= S /\ Z.abs (e_descSize e) <= S.

(** [deltaFee / size] *)
Definition directRate (e : MempoolEntry) : Q :=
  e_deltaFee e # Z.to_pos (e_size e).

(** [descFee / descSize] *)
Definition packageRate (e : MempoolEntry) : Q :=
  e_descFee e # Z.to_pos (e_descSize e).

(** The rate the comparator uses. *)
Definition evictionRate (e : MempoolEntry) : Q :=
  Qmax (directRate e) (packageRate e).

(** The rate the specification names: the lesser of the two. *)
Definition lesserRate (e : MempoolEntry) : Q :=
  Qmin (directRate e) (packageRate e).

(** [a] sorts before [b] exactly when its rate is lower, or equal with an
    older time. *)
Definition ordersBy (rate : MempoolEntry -> Q) (a b : MempoolEntry) : Prop :=
  cmpRate a b < 0 <->
  (rate a < rate b)%Q \/ ((rate a == rate b)%Q /\ e_time a < e_time b).

Definition mkEntry (hash : Hash) (inputs : list Input) (outputs : nat)
  (fee size time descFee descSize : Z) : MempoolEntry :=
  {| e_tx := {| tx_hash := hash; tx_inputs := inputs; tx_outputs := outputs;
                tx_version := 1; tx_mutable := false |};
     e_height := 100; e_size := size; e_sigops := 0; e_priority := 0;
     e_fee := fee; e_deltaFee := fee; e_time := time; e_coinbase := false;
     e_descFee := descFee; e_descSize := descSize |}.

(** ** A concrete node, for the examples *)

Definition demo_options : Options :=
  {| maxSize := 1000; maxOrphans := 10; maxAncestors := 25;
     expiryTime := 1000; minRelay := 1; limitFree := false;
     limitFreeRelay := 15; relayPriority := false; requireStandard := false;
     rejectAbsurdFees := false; prematureWitness := true;
     paranoidChecks := false; replaceByFee := true |}.

Definition demo_policy : Policy :=
  {| MAX_TX_SIGOPS_COST := 16000; MAX_TX_WEIGHT := 400000;
     getMinFee := fun size rate => size * rate / 1000;
     STANDARD_LOCKTIME_FLAGS := 3; STANDARD_VERIFY_FLAGS := 8191;
     ONLY_STANDARD_VERIFY_FLAGS := 8190; MANDATORY_VERIFY_FLAGS := 1;
     VERIFY_WITNESS := 2048; VERIFY_CLEANSTACK := 256 |}.

(** The chain knows one unspent transaction, ["utxo"]; reading the coins of the
    transaction ["io"] fails. *)
Definition demo_chain : Chain :=
  {| ch_height := 100; ch_tip := "tip"; ch_hasCSV := true;
     ch_hasWitness := true;
     ch_verifyFinal := fun _ _ => Done true;
     ch_verifyLocks := fun _ _ _ => Done true;
     ch_hasCoins := fun tx =>
       if String.eqb (tx_hash tx) "io"
       then Failed (ForeignErr "database read failed") else Done false;
     ch_readCoin := fun o =>
       if String.eqb (op_hash o) "utxo"
       then Done (Some {| coin_value := 5000; coin_height := 1;
                          coin_coinbase := false |})
       else Done None |}.

(** Every transaction has 400 bytes of memory usage, size 250 and a fee of
    1000 times its version; one without input stands for a coinbase. *)
Definition demo_methods : Methods :=
  {| checkSanity := fun _ _ => (true, "", 0);
     isCoinbase := fun tx =>
       match tx_inputs tx with [] => true | _ => false end;
     hasWitness := fun _ => false;
     checkStandard := fun _ => (true, "", 0);
     isRBF := fun _ => false;
     getWeight := fun _ => 1000;
     hasStandardInputs := fun _ _ => true;
     hasStandardWitness := fun _ _ => true;
     checkInputs := fun _ _ _ => (1000, "", 0);
     verifyAsync := fun _ _ _ => Done true;
     getFee := fun tx _ => 1000 * tx_version tx;
     getSigopsCost := fun _ _ _ => 0;
     getSigopsSize := fun _ _ => 250;
     getPriority := fun _ _ _ _ => 0;
     spendsCoinbase := fun _ _ => false;
     txMemUsage := fun _ => 400;
     isFree := fun _ _ => false |}.

Definition demo_env : Env :=
  {| options := demo_options; policy := demo_policy; chain := demo_chain;
     methods := demo_methods; now := 5000;
     randomRange := fun _ _ => O; lockerHasPending := fun _ => false;
     errorListener := true |}.

Definition mkInput (hash : Hash) (index : nat) : Input :=
  {| prevout := {| op_hash := hash; op_index := index |};
     sequence := 4294967295 |}.

Definition mkTX (hash : Hash) (inputs : list Input) (outputs : nat) : TX :=
  {| tx_hash := hash; tx_inputs := inputs; tx_outputs := outputs;
     tx_version := 1; tx_mutable := false |}.

(** The pool an outcome ends in. *)
Definition poolOf {A} (o : Outcome A) (default : Mempool) : Mempool :=
  match o with
  | Ret _ s => s
  | Thr _ s => s
  | OutOfFuel => default
  end.

Definition demo_new : Mempool := Mempool_new "genesis".

(** ** Hoare triples over pool computations *)

(** From a pool in [P], [m] ends in [Q] when it returns and in [E] when it
    throws. *)
Definition hoare {A} (P : Mempool -> Prop) (m : M A)
  (Q : A -> Mempool -> Prop) (E : Exn -> Mempool -> Prop) : Prop :=
  forall s, P s ->
    match m s with
    | Ret a s' => Q a s'
    | Thr e s' => E e s'
    | OutOfFuel => True
    end.

(** [m] keeps [I], also when it throws. *)
Definition preserves {A} (I : Mempool -> Prop) (m : M A) : Prop :=
  hoare I m (fun _ => I) (fun _ => I).

(** [m] ends, with a value or an exception, on every pool. *)
Definition total {A} (m : M A) : Prop :=
  forall s, m s <> OutOfFuel.

(** ** Notions used in the statements *)

(** Some input of [tx] spends an outpoint that is a key of [spents]. *)
Definition spendsSpent (tx : TX) (s : Mempool) : Prop :=
  exists inp, In inp (tx_inputs tx) /\
    mhas key_eqb (toKey (prevout inp)) (mp_spents s) = true.

(** The input's outpoint does not resolve in the coin view. *)
Definition unresolved (view : CoinView) (inp : Input) : bool :=
  negb (view_hasEntry view (prevout inp)).

(** The input's parent hash is in the reject filter or the parent is in the
    pool map. *)
Definition badParent (s : Mempool) (inp : Input) : bool :=
  set_has (op_hash (prevout inp)) (mp_rejects s)
  || mhas String.eqb (op_hash (prevout inp)) (mp_map s).

Definition dropsOnParent (view : CoinView) (s : Mempool) (tx : TX) : bool :=
  existsb (fun inp => unresolved view inp && badParent s inp) (tx_inputs tx).

Definition hasMissing (view : CoinView) (tx : TX) : bool :=
  existsb (unresolved view) (tx_inputs tx).

Definition overweight (env : Env) (tx : TX) : bool :=
  MAX_TX_WEIGHT (policy env) <? getWeight (methods env) tx.

(** The four ways [maybeOrphan] drops a transaction. *)
Definition dropPath (env : Env) (tx : TX) (view : CoinView) (s : Mempool)
  : bool :=
  dropsOnParent view s tx
  || (hasMissing view tx
      && (overweight env tx || (maxOrphans (options env) =? 0)%nat)).

(** The parent hashes the first loop of [maybeOrphan] collects. *)
Definition scanHashes (view : CoinView) (inputs : list Input)
  (hashes : list Hash) : list Hash :=
  fold_left
    (fun acc inp =>
       if unresolved view inp then set_add (op_hash (prevout inp)) acc
       else acc)
    inputs hashes.

Definition demo_T1 : TX := mkTX "t1" [mkInput "utxo" 0] 2.
Definition demo_T1x : TX := mkTX "t1x" [mkInput "utxo" 0] 1.
Definition demo_T2 : TX := mkTX "t2" [mkInput "t1" 0] 1.
Definition demo_T4 : TX := mkTX "t4" [mkInput "utxo" 1] 1.
Definition demo_T9 : TX := mkTX "t9" [mkInput "utxo" 9] 1.
Definition demo_io : TX := mkTX "io" [mkInput "utxo" 5] 1.
Definition demo_coinbase : TX := mkTX "cb" [] 1.
Definition demo_block : Block :=
  {| blk_hash := "b1"; blk_prevBlock := "tip"; blk_height := 101 |}.

(** The pool after [addTX(T1)] on a new pool. *)
Definition demo_pool1 : Mempool :=
  Eval vm_compute in
    poolOf (_addTX demo_env 5 demo_T1 None demo_new) demo_new.

(** The same node with no 'error' listener attached to the pool, and the
    VerifyError [insertTX] throws for a coinbase. *)
Definition demo_deaf_env : Env :=
  {| options := demo_options; policy := demo_policy; chain := demo_chain;
     methods := demo_methods; now := 5000;
     randomRange := fun _ _ => O; lockerHasPending := fun _ => false;
     errorListener := false |}.

Definition demo_coinbase_error : Exn :=
  Eval vm_compute in
    match insertTX demo_deaf_env 5 demo_coinbase (-1) demo_pool1 with
    | Thr e _ => e
    | _ => ForeignErr "none"
    end.

(** The pool after [addTX(coinbase)] on a new pool: empty, with the
    coinbase's hash in the reject filter. *)
Definition demo_rejected : Mempool :=
  Eval vm_compute in
    poolOf (_addTX demo_env 5 demo_coinbase None demo_new) demo_new.

(** The pool with [T1] and its child [T2], and that pool once [T4] is added
    and before [limitSize] runs: three entries of 400 bytes against a
    [maxSize] of 1000. *)
Definition demo_pool12 : Mempool :=
  Eval vm_compute in
    poolOf (_addTX demo_env 5 demo_T2 None demo_pool1) demo_new.

Definition demo_full : Mempool :=
  Eval vm_compute in
    poolOf (addEntry demo_env 5
              (MempoolEntry_fromTX demo_env demo_T4 [] 100) [] demo_pool12)
           demo_new.

(** The same with a child [T3] of [T2] in place of [T4]. *)
Definition demo_T3 : TX := mkTX "t3" [mkInput "t2" 0] 1.

Definition demo_full3 : Mempool :=
  Eval vm_compute in
    poolOf (addEntry demo_env 5
              (MempoolEntry_fromTX demo_env demo_T3 [] 100) [] demo_pool12)
           demo_new.

(** The pool the handler of [handleOrphans] leaves after a VerifyError [v]
    thrown at pool [s1]. *)
Definition badOrphanPool (env : Env) (tx : TX) (id : Z) (v : VerifyError)
  (s1 : Mempool) : Mempool :=
  let s2 :=
    if negb (hasWitness (methods env) tx) && negb (ve_malleated v)
    then with_rejects (tx_hash tx :: mp_rejects s1) s1 else s1 in
  with_events (EvBadOrphan v id :: mp_events s2) s2.

(** Every entry of the pool [s] has height [H], or is an entry the pool [s0]
    already had under the same hash, with the same height. *)
Definition heightsFrom (H : Z) (s0 s : Mempool) : Prop :=
  forall h e,
    mget String.eqb h (mp_map s) = Some e ->
    e_height e = H \/
    exists e0, mget String.eqb h (mp_map s0) = Some e0 /\
               e_height e0 = e_height e.

(** ** Size consistency: the notions *)

(** The sum of [entry.memUsage()] over the pool map. *)
Definition sumMem (env : Env) (m : list (Hash * MempoolEntry)) : Z :=
  fold_right (fun he acc => memUsage env (snd he) + acc) 0 m.

Definition inputKeys (tx : TX) : list Key :=
  List.map (fun inp => toKey (prevout inp)) (tx_inputs tx).

(** A key of [spents] points to an entry of the pool map that has the key
    among its inputs: the reference does not dangle. *)
Definition spents_ok (s : Mempool) : Prop :=
  forall k h,
    mget key_eqb k (mp_spents s) = Some h ->
    exists e, mget String.eqb h (mp_map s) = Some e /\
              e_hash e = h /\ In k (inputKeys (e_tx e)).

Definition pool_ok (env : Env) (s : Mempool) : Prop :=
  mp_size s = sumMem env (mp_map s)
  /\ NoDup (mkeys (mp_map s))
  /\ (forall h e, mget String.eqb h (mp_map s) = Some e ->
        e_hash e = h /\ isCoinbase (methods env) (e_tx e) = false)
  /\ spents_ok s.

(** The object [e] held by a caller is the pool's object for its hash, as
    far as the transaction goes, if the pool still has one. *)
Definition agrees (e : MempoolEntry) (s : Mempool) : Prop :=
  forall e0, mget String.eqb (e_hash e) (mp_map s) = Some e0 ->
             e_tx e0 = e_tx e.

Definition okWith (env : Env) (K : list MempoolEntry) (s : Mempool) : Prop :=
  pool_ok env s /\ forall e, In e K -> agrees e s.

(** The operations of the claim: an admission tracks an entry; a removal
    takes the pool's entry for a hash, as [_addBlock] and [_handleReorg]
    do, and removes or evicts it. *)
Inductive Op :=
| OpTrack (e : MempoolEntry)
| OpRemove (h : Hash)
| OpEvict (h : Hash)
| OpReset.

Definition step (env : Env) (fuel : nat) (op : Op) : M unit :=
  match op with
  | OpTrack e => trackEntry env e
  | OpRemove h =>
      entry <- getEntry h ;;
      match entry with
      | Some e => removeEntry env e
      | None => ret tt
      end
  | OpEvict h =>
      entry <- getEntry h ;;
      match entry with
      | Some e => evictEntry env fuel e
      | None => ret tt
      end
  | OpReset => _reset env
  end.

(** The pool after a sequence of operations that all complete. *)
Fixpoint run (env : Env) (fuel : nat) (ops : list Op) (s : Mempool)
  : option Mempool :=
  match ops with
  | [] => Some s
  | op :: rest =>
      match step env fuel op s with
      | Ret _ s' => run env fuel rest s'
      | _ => None
      end
  end.

Definition demo_e1 : MempoolEntry := mkEntry "e1" [mkInput "utxo" 0] 2 10 100 1 10 100.
Definition demo_e2 : MempoolEntry := mkEntry "e2" [mkInput "e1" 0] 1 20 100 2 20 100.
Definition demo_e3 : MempoolEntry := mkEntry "e3" [mkInput "e2" 0; mkInput "e1" 1] 1 30 100 3 30 100.

Definition demo_ops : list Op :=
  [OpTrack demo_e1; OpTrack demo_e2; OpTrack demo_e3;
   OpEvict "e2"; OpTrack demo_e2; OpRemove "e1"].

Definition demo_after_ops : Mempool :=
  Eval vm_compute in
    match run demo_env 5 demo_ops demo_new with
    | Some s => s
    | None => demo_new
    end.

(** ** Ancestors: the notions *)

(** [p] is the hash of a parent of [tx] that is in the pool map. *)
Definition parentOf (m : list (Hash * MempoolEntry)) (tx : TX) (p : Hash)
  : Prop :=
  In p (List.map (fun inp => op_hash (prevout inp)) (tx_inputs tx))
  /\ mhas String.eqb p m = true.

(** The in-pool ancestors of [tx]: its in-pool parents, their in-pool
    parents, and so on. *)
Inductive Ancestor (m : list (Hash * MempoolEntry)) (tx : TX) : Hash -> Prop :=
| Anc_parent p : parentOf m tx p -> Ancestor m tx p
| Anc_grand a e p :
    Ancestor m tx a -> mget String.eqb a m = Some e ->
    parentOf m (e_tx e) p -> Ancestor m tx p.

(** [addFee(parent, child)] *)
Definition addFee (child parent : MempoolEntry) : MempoolEntry :=
  set_desc (e_descFee parent + e_deltaFee child)
           (e_descSize parent + e_size child) parent.

(** The hashes visited since [S] have all their in-pool parents in [S']. *)
Definition closedNew (m : list (Hash * MempoolEntry)) (S S' : list Hash)
  : Prop :=
  forall h, In h S' -> ~ In h S ->
  forall e, mget String.eqb h m = Some e ->
  forall p, parentOf m (e_tx e) p -> In p S'.

(** The contract of the ancestor traversal from [root] in the pool map
    [m0], with at most [maxA] ancestors; [J] relates the visited set to the
    pool. *)
Section TraversalContract.
Variable maxA : nat.
Variable m0 : list (Hash * MempoolEntry).
Variable root : TX.
Variable J : list Hash -> Mempool -> Prop.

Definition visitPre (W : list Hash) (s : Mempool) : Prop :=
  J W s /\ (List.length W <= maxA)%nat
  /\ NoDup W /\ (forall h, In h W -> Ancestor m0 root h).

Definition visitPost (cover : list Hash -> Prop) (W : list Hash)
  (o : Outcome (list Hash)) : Prop :=
  exists W' s',
    o = Ret W' s' /\ J W' s' /\ (exists N, W' = N ++ W) /\ NoDup W'
    /\ (forall h, In h W' -> Ancestor m0 root h)
    /\ (List.length W' <= S maxA)%nat
    /\ ((List.length W' <= maxA)%nat -> cover W' /\ closedNew m0 W W').

(** All in-pool parents among [inputs] are in [W']. *)
Definition coversInputs (inputs : list Input) (W' : list Hash) : Prop :=
  forall inp, In inp inputs ->
    mhas String.eqb (op_hash (prevout inp)) m0 = true ->
    In (op_hash (prevout inp)) W'.
End TraversalContract.

(** The pool during [updateAncestors(entry, addFee)] started at [st], when
    the hashes in [W] have been visited: the entries at the visited hashes
    have received the fee and size of [entry], nothing else has changed. *)
Definition addFeeSoFar (entry : MempoolEntry) (st : Mempool)
  (W : list Hash) (s : Mempool) : Prop :=
  (forall h,
     mget String.eqb h (mp_map s) =
     match mget String.eqb h (mp_map st) with
     | Some p => Some (if set_has h W then addFee entry p else p)
     | None => None
     end)
  /\ mkeys (mp_map s) = mkeys (mp_map st)
  /\ s = with_map (mp_map s) st.

(** The pool map keeps its keys and the transaction under each key. *)
Definition sameShape (m0 : list (Hash * MempoolEntry)) (s : Mempool) : Prop :=
  forall h,
    option_map e_tx (mget String.eqb h (mp_map s)) =
    option_map e_tx (mget String.eqb h m0).

(** A pool with a chain [a1 <- a2 <- a3] and a transaction [a4] that spends
    both [a3] and [a1]. *)
Definition demo_chain_pool : Mempool :=
  Eval vm_compute in
    match run demo_env 5
            [OpTrack (mkEntry "a1" [mkInput "utxo" 0] 2 10 100 1 10 100);
             OpTrack (mkEntry "a2" [mkInput "a1" 0] 1 20 100 2 20 100);
             OpTrack (mkEntry "a3" [mkInput "a2" 0] 1 30 100 3 30 100);
             OpTrack (mkEntry "a4" [mkInput "a3" 0; mkInput "a1" 1] 1
                        40 100 4 40 100)]
            demo_new with
    | Some s => s
    | None => demo_new
    end.

Definition demo_a4 : MempoolEntry :=
  mkEntry "a4" [mkInput "a3" 0; mkInput "a1" 1] 1 40 100 4 40 100.

(** The fee and size [cmpRate] takes for an entry. *)
Definition effFee (e : MempoolEntry) : Z :=
  if useDesc e then e_descFee e else e_deltaFee e.

Definition effSize (e : MempoolEntry) : Z :=
  if useDesc e then e_descSize e else e_size e.

(** The pool a drop leaves: only the reject filter can have changed. *)
Definition dropPool (env : Env) (tx : TX) (view : CoinView) (s : Mempool)
  : Mempool :=
  if dropsOnParent view s tx
     || (overweight env tx && negb (hasWitness (methods env) tx))
  then with_rejects (tx_hash tx :: mp_rejects s) s
  else s.

(** A pool with the entry ["x"] and the orphan ["o"] waiting for ["p"]; the
    transaction ["p"] pays no fee. *)
Definition demo_x : TX := mkTX "x" [mkInput "utxo" 0] 1.
Definition demo_o : TX := mkTX "o" [mkInput "p" 0] 1.
Definition demo_p : TX :=
  {| tx_hash := "p"; tx_inputs := [mkInput "utxo" 3]; tx_outputs := 1;
     tx_version := 0; tx_mutable := false |}.

Definition demo_waiting : Mempool :=
  Eval vm_compute in
    poolOf (_addTX demo_env 5 demo_o None
              (poolOf (_addTX demo_env 5 demo_x None demo_new) demo_new))
           demo_new.

(** The admission of ["p"] into [demo_waiting]: the view and the entry
    [insertTX] builds, and the pool in which it calls [limitSize], after
    the entry is verified and added and its orphan ["o"] is replayed. *)
Definition demo_p_view : CoinView :=
  Eval vm_compute in
    match getCoinView demo_env demo_p demo_waiting with
    | Ret v _ => v
    | _ => []
    end.

Definition demo_p_entry : MempoolEntry :=
  Eval vm_compute in
    MempoolEntry_fromTX demo_env demo_p demo_p_view
      (ch_height (chain demo_env)).

Definition demo_cascade : Mempool :=
  Eval vm_compute in
    poolOf ((verify demo_env demo_p_entry demo_p_view ;;
             addEntry demo_env 4 demo_p_entry demo_p_view) demo_waiting)
           demo_new.

(** ** The queries and the remaining operations of [Mempool] *)

(** [getCoin]: [Coin.fromTX(entry.tx, index, -1)] is the coin [CoinOfTX]
    stands for. *)
Definition getCoin (hash : Hash) (index : nat) : M (option CoinEntry) :=
  entry <- getEntry hash ;;
  match entry with
  | None => ret None
  | Some entry =>
      spent <- isSpent hash index ;;
      if spent then ret None
      else if (tx_outputs (e_tx entry) <=? index)%nat then ret None
      else ret (Some (CoinOfTX (e_tx entry) index (-1)))
  end.

Definition getSpentTX (hash : Hash) (index : nat) : M (option TX) :=
  entry <- getSpent hash index ;;
  match entry with
  | None => ret None
  | Some entry => ret (Some (e_tx entry))
  end.

Definition getDepends (tx : TX) : M (list Hash) :=
  gets (fun s =>
    filter (fun hash => mhas String.eqb hash (mp_map s)) (getPrevout tx)).

Definition getSnapshot : M (list Hash) :=
  gets (fun s => mkeys (mp_map s)).

Definition getHistory : M (list TX) :=
  gets (fun s => List.map (fun he => e_tx (snd he)) (mp_map s)).

Definition getSize : M Z := gets mp_size.

Definition getCount : M nat := gets (fun s => List.length (mp_map s)).

(** *** The unbounded traversals *)

(** The loop of [_getAncestors]; the accumulator is the array [entries]
    and the [set] of visited hashes, both in insertion order. *)
Fixpoint getAncestors_loop
  (rec : MempoolEntry -> list MempoolEntry * list Hash ->
         M (list MempoolEntry * list Hash))
  (inputs : list Input) (acc : list MempoolEntry * list Hash)
  {struct inputs} : M (list MempoolEntry * list Hash) :=
  match inputs with
  | [] => ret acc
  | inp :: rest =>
      let hash := op_hash (prevout inp) in
      parent <- getEntry hash ;;
      match parent with
      | None => getAncestors_loop rec rest acc
      | Some parent =>
          if set_has hash (snd acc) then getAncestors_loop rec rest acc
          else
            acc <- rec parent (fst acc ++ [parent], snd acc ++ [hash]) ;;
            getAncestors_loop rec rest acc
      end
  end.

Fixpoint _getAncestors (fuel : nat) (entry : MempoolEntry)
  (acc : list MempoolEntry * list Hash) {struct fuel}
  : M (list MempoolEntry * list Hash) :=
  match fuel with
  | O => outOfFuel
  | S fuel' =>
      getAncestors_loop (_getAncestors fuel') (tx_inputs (e_tx entry)) acc
  end.

(** Each call of the recursion has added a hash of the pool map to the
    set, so its depth is at most the number of entries. *)
Definition getAncestors (entry : MempoolEntry) : M (list MempoolEntry) :=
  n <- getCount ;;
  acc <- _getAncestors (S n) entry ([], []) ;;
  ret (fst acc).

(** The loop of [_getDescendants] and [_countDescendants] over the output
    indices. *)
Fixpoint getDescendants_loop
  (rec : MempoolEntry -> list MempoolEntry * list Hash ->
         M (list MempoolEntry * list Hash))
  (hash : Hash) (indices : list nat) (acc : list MempoolEntry * list Hash)
  {struct indices} : M (list MempoolEntry * list Hash) :=
  match indices with
  | [] => ret acc
  | i :: rest =>
      child <- getSpent hash i ;;
      match child with
      | None => getDescendants_loop rec hash rest acc
      | Some child =>
          let next := e_hash child in
          if set_has next (snd acc) then getDescendants_loop rec hash rest acc
          else
            acc <- rec child (fst acc ++ [child], snd acc ++ [next]) ;;
            getDescendants_loop rec hash rest acc
      end
  end.

Fixpoint _getDescendants (fuel : nat) (entry : MempoolEntry)
  (acc : list MempoolEntry * list Hash) {struct fuel}
  : M (list MempoolEntry * list Hash) :=
  match fuel with
  | O => outOfFuel
  | S fuel' =>
      getDescendants_loop (_getDescendants fuel') (e_hash entry)
        (seq 0 (tx_outputs (e_tx entry))) acc
  end.

Definition getDescendants (entry : MempoolEntry) : M (list MempoolEntry) :=
  n <- getCount ;;
  acc <- _getDescendants (S n) entry ([], []) ;;
  ret (fst acc).

(** [_countDescendants] is the same loop without the array. *)
Fixpoint countDescendants_loop
  (rec : MempoolEntry -> list Hash -> M (list Hash))
  (hash : Hash) (indices : list nat) (set : list Hash)
  {struct indices} : M (list Hash) :=
  match indices with
  | [] => ret set
  | i :: rest =>
      child <- getSpent hash i ;;
      match child with
      | None => countDescendants_loop rec hash rest set
      | Some child =>
          let next := e_hash child in
          if set_has next set then countDescendants_loop rec hash rest set
          else
            set <- rec child (set ++ [next]) ;;
            countDescendants_loop rec hash rest set
      end
  end.

Fixpoint _countDescendants (fuel : nat) (entry : MempoolEntry)
  (set : list Hash) {struct fuel} : M (list Hash) :=
  match fuel with
  | O => outOfFuel
  | S fuel' =>
      countDescendants_loop (_countDescendants fuel') (e_hash entry)
        (seq 0 (tx_outputs (e_tx entry))) set
  end.

Definition countDescendants (entry : MempoolEntry) : M nat :=
  n <- getCount ;;
  set <- _countDescendants (S n) entry [] ;;
  ret (List.length set).

(** *** prioritise *)

Definition set_priority (v : Z) (e : MempoolEntry) : MempoolEntry :=
  {| e_tx := e_tx e; e_height := e_height e; e_size := e_size e;
     e_sigops := e_sigops e; e_priority := v; e_fee := e_fee e;
     e_deltaFee := e_deltaFee e; e_time := e_time e;
     e_coinbase := e_coinbase e; e_descFee := e_descFee e;
     e_descSize := e_descSize e |}.

Definition set_fees (delta desc : Z) (e : MempoolEntry) : MempoolEntry :=
  {| e_tx := e_tx e; e_height := e_height e; e_size := e_size e;
     e_sigops := e_sigops e; e_priority := e_priority e; e_fee := e_fee e;
     e_deltaFee := delta; e_time := e_time e;
     e_coinbase := e_coinbase e; e_descFee := desc;
     e_descSize := e_descSize e |}.

(** A write to fields of the object [entry]: it lands in the pool's entry
    when [entry] is tracked, as for [live].  The result is the object after
    the write. *)
Definition writeEntry (entry : MempoolEntry)
  (g : MempoolEntry -> MempoolEntry) : M MempoolEntry :=
  fun s =>
    let e' := g (live entry s) in
    Ret e'
      (if mhas String.eqb (e_hash entry) (mp_map s)
       then with_map (mset String.eqb (e_hash entry) e' (mp_map s)) s
       else s).

Section Maintenance.
Variable env : Env.

(** [prioritise(entry, pri, fee)]; the result is the object [entry] after
    the call. *)
Definition prioritise (entry : MempoolEntry) (pri fee : Z) : M MempoolEntry :=
  cur <- gets (live entry) ;;
  let pri := if e_priority cur <? - pri then - e_priority cur else pri in
  entry <- writeEntry entry (fun e => set_priority (e_priority e + pri) e) ;;
  let fee := if e_deltaFee entry <? - fee then - e_deltaFee entry else fee in
  if fee =? 0 then ret entry
  else
    updateAncestors env entry PrePrioritise ;;
    entry <- writeEntry entry
               (fun e => set_fees (e_deltaFee e + fee) (e_descFee e + fee) e) ;;
    updateAncestors env entry PostPrioritise ;;
    gets (live entry).

(** [_handleReorg].  The collaborators that are neither in [mempool.js] nor
    in the environment are arguments: [isFinal tx height mtp] is
    [tx.isFinal(height, mtp)], [getMedianTime] is the awaited
    [chain.getMedianTime(chain.tip)] and [flag] is
    [consensus.SEQUENCE_DISABLE_FLAG].  On 32-bit values the JS [&] and
    [Z.land] give 0 for the same arguments. *)
Definition hasLocks (flag : Z) (tx : TX) : bool :=
  existsb (fun inp => Z.land (sequence inp) flag =? 0) (tx_inputs tx).

(** The decision of the first loop for one entry. *)
Definition reorgRemoves (isFinal : TX -> Z -> Z -> bool) (flag height mtp : Z)
  (entry : MempoolEntry) : bool :=
  let tx := e_tx entry in
  if negb (isFinal tx height mtp) then true
  else if (1 <? tx_version tx) && hasLocks flag tx then true
  else e_coinbase entry.

Definition _handleReorg (isFinal : TX -> Z -> Z -> bool)
  (getMedianTime : Res Z) (flag : Z) (fuel : nat) : M unit :=
  let height := ch_height (chain env) + 1 in
  mtp <- await getMedianTime ;;
  remove <- gets (fun s =>
    mkeys (filter (fun he => reorgRemoves isFinal flag height mtp (snd he))
                  (mp_map s))) ;;
  forEach remove (fun hash =>
    entry <- getEntry hash ;;
    match entry with
    | None => ret tt
    | Some entry => evictEntry env fuel entry
    end).

(** *** The pool under a sequence of calls *)

Inductive Call :=
| AddTX (tx : TX) (id : option Z)
| AddBlock (block : Block) (txs : list TX)
| RemoveBlock (block : Block) (txs : list TX)
| Reset.

Definition call (fuel : nat) (c : Call) : M unit :=
  match c with
  | AddTX tx id => _addTX env fuel tx id ;; ret tt
  | AddBlock block txs => _addBlock env fuel block txs
  | RemoveBlock block txs => _removeBlock env fuel block txs
  | Reset => _reset env
  end.

(** A call that throws leaves the pool as the throw found it, and the next
    call goes on from there. *)
Fixpoint calls (fuel : nat) (cs : list Call) (s : Mempool) : option Mempool :=
  match cs with
  | [] => Some s
  | c :: rest =>
      match call fuel c s with
      | Ret _ s' => calls fuel rest s'
      | Thr _ s' => calls fuel rest s'
      | OutOfFuel => None
      end
  end.
End Maintenance.

(** ** Graph walks: the notions *)

(** A walk over entries: [next e] lists the successors of [e] in the order
    the loop meets them, each with the hash the visited set records for
    it. *)
Section Walk.
Variable next : MempoolEntry -> list (Hash * MempoolEntry).
Variable node : Hash -> option MempoolEntry.

Fixpoint walk_loop
  (rec : MempoolEntry -> list (Hash * MempoolEntry) ->
         option (list (Hash * MempoolEntry)))
  (cands : list (Hash * MempoolEntry)) (seen : list (Hash * MempoolEntry))
  {struct cands} : option (list (Hash * MempoolEntry)) :=
  match cands with
  | [] => Some seen
  | (h, x) :: rest =>
      if set_has h (List.map fst seen) then walk_loop rec rest seen
      else
        match rec x (seen ++ [(h, x)]) with
        | Some seen' => walk_loop rec rest seen'
        | None => None
        end
  end.

Fixpoint walk (fuel : nat) (e : MempoolEntry)
  (seen : list (Hash * MempoolEntry)) {struct fuel}
  : option (list (Hash * MempoolEntry)) :=
  match fuel with
  | O => None
  | S fuel' => walk_loop (walk fuel') (next e) seen
  end.

(** The hashes reached from [e0] in one step or more. *)
Inductive Reach (e0 : MempoolEntry) : Hash -> Prop :=
| Reach_next h x : In (h, x) (next e0) -> Reach e0 h
| Reach_step a xa h x :
    Reach e0 a -> node a = Some xa -> In (h, x) (next xa) -> Reach e0 h.
End Walk.

(** The in-pool parents of an entry, by input. *)
Definition parents (s : Mempool) (e : MempoolEntry)
  : list (Hash * MempoolEntry) :=
  flat_map
    (fun inp =>
       match mget String.eqb (op_hash (prevout inp)) (mp_map s) with
       | Some p => [(op_hash (prevout inp), p)]
       | None => []
       end)
    (tx_inputs (e_tx e)).

(** The spenders of the outputs of an entry, by output index. *)
Definition spenders (s : Mempool) (e : MempoolEntry)
  : list (Hash * MempoolEntry) :=
  flat_map
    (fun i =>
       match mget key_eqb (e_hash e, i) (mp_spents s) with
       | Some h =>
           match mget String.eqb h (mp_map s) with
           | Some c => [(e_hash c, c)]
           | None => []
           end
       | None => []
       end)
    (seq 0 (tx_outputs (e_tx e))).

(** The in-pool descendants of [e]: the spenders of its outputs, their
    spenders, and so on. *)
Definition Descendant (s : Mempool) (e : MempoolEntry) (h : Hash) : Prop :=
  Reach (spenders s) (fun h => mget String.eqb h (mp_map s)) e h.

(** ** Consistency of the spent map: the notions *)

(** Every input of every entry of the pool is a key of [spents] that
    points to that entry. *)
Definition claims_ok (s : Mempool) : Prop :=
  forall h e, mget String.eqb h (mp_map s) = Some e ->
  forall k, In k (inputKeys (e_tx e)) ->
    mget key_eqb k (mp_spents s) = Some h.

Definition consistent (env : Env) (s : Mempool) : Prop :=
  pool_ok env s /\ claims_ok s.

(** ** Orphans: the notions *)

(** The body of the loop of [removeOrphan] for one parent hash. *)
Definition unlinkOrphan (hash prev : Hash) : M unit :=
  set <- gets (fun s => mget String.eqb prev (mp_waiting s)) ;;
  match set with
  | None => ret tt
  | Some set =>
      assert (set_has hash set) "set.has(hash)" ;;
      let set := set_delete hash set in
      modify (fun s =>
        with_waiting (mset String.eqb prev set (mp_waiting s)) s) ;;
      when (List.length set =? 0)%nat
        (modify (fun s =>
           with_waiting (mdelete String.eqb prev (mp_waiting s)) s))
  end.

(** What [removeOrphan(hash)] leaves of the waiting set of a parent of the
    orphan: the set without [hash], and no set when that is empty. *)
Definition withoutOrphan (hash : Hash) (set : option (list Hash))
  : option (list Hash) :=
  match set with
  | Some set =>
      let set := set_delete hash set in
      if (List.length set =? 0)%nat then None else Some set
  | None => None
  end.

(** The waiting map after the loop of [removeOrphan] over the parents
    [prevs]. *)
Definition unlinkAll (hash : Hash) (prevs : list Hash)
  (w : list (Hash * list Hash)) : list (Hash * list Hash) :=
  fold_left
    (fun w prev =>
       match mget String.eqb prev w with
       | None => w
       | Some set =>
           let set := set_delete hash set in
           if (List.length set =? 0)%nat
           then mdelete String.eqb prev (mset String.eqb prev set w)
           else mset String.eqb prev set w
       end)
    prevs w.

(** Every waiting set of a parent of the orphan's transaction holds the
    orphan: the condition under which [removeOrphan] passes its
    assertion. *)
Definition linked (hash : Hash) (tx : TX) (s : Mempool) : bool :=
  forallb
    (fun prev =>
       match mget String.eqb prev (mp_waiting s) with
       | Some set => set_has hash set
       | None => true
       end)
    (getPrevout tx).

(** The waiting map after [maybeOrphan] has enrolled [hash] under the
    parents [prevs]. *)
Definition linkAll (hash : Hash) (prevs : list Hash)
  (w : list (Hash * list Hash)) : list (Hash * list Hash) :=
  fold_left
    (fun w prev =>
       let set :=
         match mget String.eqb prev w with
         | Some set => set
         | None => []
         end in
       mset String.eqb prev (set_add hash set) w)
    prevs w.

(** The orphan [maybeOrphan] stores. *)
Definition orphanOf (tx : TX) (missing : list Hash) (id : Z) : Orphan :=
  {| o_raw := toRaw tx; o_missing := Z.of_nat (List.length missing);
     o_id := id |}.

(** The orphan ["o"] waits for ["p1"] and ["p3"]; ["p1"] arrives and is
    confirmed by the block ["b1"]; then ["o2"], which spends another output
    of ["p1"], arrives and waits for ["p1"] in its turn. *)
Definition demo_o13 : TX := mkTX "o" [mkInput "p1" 0; mkInput "p3" 0] 1.
Definition demo_x1 : TX := mkTX "x" [mkInput "utxo" 1] 1.
Definition demo_p1 : TX := mkTX "p1" [mkInput "utxo" 0] 2.
Definition demo_o2 : TX := mkTX "o2" [mkInput "p1" 1] 1.
Definition demo_block2 : Block :=
  {| blk_hash := "b2"; blk_prevBlock := "b1"; blk_height := 102 |}.

Definition demo_stale_calls : list Call :=
  [AddTX demo_o13 None; AddTX demo_x1 None; AddTX demo_p1 None;
   AddBlock demo_block [demo_coinbase; demo_p1]; AddTX demo_o2 None].

Definition demo_stale : Mempool :=
  Eval vm_compute in
    match calls demo_env 5 demo_stale_calls demo_new with
    | Some s => s
    | None => demo_new
    end.

(** The transactions [parents] resolved one after the other, as their
    admissions do; the result lists the orphans released. *)
Fixpoint resolveEach (parents : list TX) : M (list Orphan) :=
  match parents with
  | [] => ret []
  | parent :: rest =>
      first <- resolveOrphans parent ;;
      others <- resolveEach rest ;;
      ret (first ++ others)
  end.

(** The orphan object with one parent fewer to wait for. *)
Definition decremented (o : Orphan) : Orphan :=
  {| o_raw := o_raw o; o_missing := o_missing o - 1; o_id := o_id o |}.

(** The orphan map holds at most [maxOrphans] orphans. *)
Definition orphansCapped (env : Env) (s : Mempool) : Prop :=
  (List.length (mp_orphans s) <= maxOrphans (options env))%nat.

(** ** Frames: the notions *)

(** The pool map, the spent map and [size] are those of [s0]. *)
Definition sameCore (s0 s : Mempool) : Prop :=
  mp_map s = mp_map s0 /\ mp_spents s = mp_spents s0 /\
  mp_size s = mp_size s0.

(** Moreover the orphan and waiting maps are those of [s0]. *)
Definition untouched (s0 s : Mempool) : Prop :=
  sameCore s0 s /\ mp_orphans s = mp_orphans s0 /\
  mp_waiting s = mp_waiting s0.

(** [m] throws no [VerifyError]. *)
Definition noVerify {A} (m : M A) : Prop :=
  forall s, match m s with
            | Thr e _ => isVerifyError e = false
            | _ => True
            end.

(** The pool is consistent and the objects in [K], held by a caller, are
    those of the pool. *)
Definition sound (env : Env) (K : list MempoolEntry) (s : Mempool) : Prop :=
  okWith env K s /\ claims_ok s.

(** [tx] can be tracked: its hash is new, it is no coinbase and none of its
    inputs is a key of the spent map. *)
Definition trackable (env : Env) (tx : TX) (s : Mempool) : Prop :=
  mhas String.eqb (tx_hash tx) (mp_map s) = false
  /\ isCoinbase (methods env) tx = false
  /\ forall k, In k (inputKeys tx) -> mget key_eqb k (mp_spents s) = None.

(** No two entries of the pool spend the same outpoint. *)
Definition conflictFree (s : Mempool) : Prop :=
  forall h1 e1 h2 e2 k,
    mget String.eqb h1 (mp_map s) = Some e1 ->
    mget String.eqb h2 (mp_map s) = Some e2 ->
    In k (inputKeys (e_tx e1)) -> In k (inputKeys (e_tx e2)) ->
    h1 = h2.

(** The pool after [T1], the conflicting [T1x] (rejected) and [T2]. *)
Definition demo_pool12' : Mempool :=
  Eval vm_compute in
    match calls demo_env 5
            [AddTX demo_T1 None; AddTX demo_T1x None; AddTX demo_T2 None]
            demo_new with
    | Some s => s
    | None => demo_new
    end.

(** ** Graph walks: the contract *)

(** The entries reached from [e0] by following [next], each under the hash
    the walk records for it. *)
Inductive Path (next : MempoolEntry -> list (Hash * MempoolEntry))
  (e0 : MempoolEntry) : Hash -> MempoolEntry -> Prop :=
| Path_next h x : In (h, x) (next e0) -> Path next e0 h x
| Path_step a xa h x :
    Path next e0 a xa -> In (h, x) (next xa) -> Path next e0 h x.

(** What a walk over [cands] from the visited list [seen] gives: it adds
    entries reached from [root], records no hash twice, has seen every
    candidate, and has seen the successors of everything it added. *)
Definition walkPost (next : MempoolEntry -> list (Hash * MempoolEntry))
  (U : list Hash) (root : MempoolEntry)
  (cands seen : list (Hash * MempoolEntry))
  (out : option (list (Hash * MempoolEntry))) : Prop :=
  exists new,
    out = Some (seen ++ new)
    /\ NoDup (List.map fst (seen ++ new))
    /\ incl (List.map fst (seen ++ new)) U
    /\ (forall h x, In (h, x) new -> Path next root h x)
    /\ (forall h x, In (h, x) cands -> In h (List.map fst (seen ++ new)))
    /\ (forall a xa, In (a, xa) new ->
        forall h x, In (h, x) (next xa) ->
          In h (List.map fst (seen ++ new))).

(** The accumulator of [_getAncestors] and [_getDescendants] for a visited
    list, and the outcome of a traversal for the result of a walk. *)
Definition accOf (seen : list (Hash * MempoolEntry))
  : list MempoolEntry * list Hash :=
  (List.map snd seen, List.map fst seen).

Definition walked {A} (g : list (Hash * MempoolEntry) -> A) (s : Mempool)
  (o : option (list (Hash * MempoolEntry))) : Outcome A :=
  match o with
  | Some seen => Ret (g seen) s
  | None => OutOfFuel
  end.

(** The hashes of the entries of the pool map. *)
Definition entryHashes (s : Mempool) : list Hash :=
  List.map (fun he => e_hash (snd he)) (mp_map s).

(** The first entry of [demo_chain_pool]. *)
Definition demo_a1 : MempoolEntry :=
  mkEntry "a1" [mkInput "utxo" 0] 2 10 100 1 10 100.

(** ** Eviction: the notions *)

(** The hashes [evictEntry] is to remove for [root] in the pool [s0]: its
    own and those of its in-pool descendants. *)
Definition evicted (s0 : Mempool) (root : MempoolEntry) (h : Hash) : Prop :=
  h = e_hash root \/ Descendant s0 root h.

(** The pool [s] during an eviction started in [s0], of the hashes in [R]:
    the spent
    map has only lost keys and none dangles; the entries are entries of
    [s0], changed in [descFee] and [descSize] at most; only hashes in [R]
    are gone; and no
    output of an entry that is gone is still recorded as spent. *)
Definition evicting (s0 : Mempool) (R : Hash -> Prop) (s : Mempool)
  : Prop :=
  (forall k h, mget key_eqb k (mp_spents s) = Some h ->
     mget key_eqb k (mp_spents s0) = Some h /\
     mhas String.eqb h (mp_map s) = true)
  /\ (forall h e, mget String.eqb h (mp_map s) = Some e ->
        exists e0, mget String.eqb h (mp_map s0) = Some e0 /\
                   e_tx e0 = e_tx e /\
                   e = set_desc (e_descFee e) (e_descSize e) e0)
  /\ (forall h, mhas String.eqb h (mp_map s0) = true ->
        mhas String.eqb h (mp_map s) = false -> R h)
  /\ (forall h e0 i, mget String.eqb h (mp_map s0) = Some e0 ->
        mhas String.eqb h (mp_map s) = false ->
        (i < tx_outputs (e_tx e0))%nat ->
        mget key_eqb (h, i) (mp_spents s) = None).

(** The spent map of [s'] has no key that the one of [s] lacks. *)
Definition sparser (s s' : Mempool) : Prop :=
  forall k, mget key_eqb k (mp_spents s) = None ->
            mget key_eqb k (mp_spents s') = None.

(** None of the first [n] outputs of [h] is recorded as spent. *)
Definition cleared (h : Hash) (n : nat) (s : Mempool) : Prop :=
  forall i, (i < n)%nat -> mget key_eqb (h, i) (mp_spents s) = None.

(** The entry of [demo_T1] in [demo_pool12'], and the pool after its
    eviction. *)
Definition demo_t1_entry : MempoolEntry :=
  Eval vm_compute in
    match mget String.eqb "t1" (mp_map demo_pool12') with
    | Some e => e
    | None => demo_a4
    end.

Definition demo_pool12'_evicted : Mempool :=
  Eval vm_compute in
    poolOf (evictEntry demo_env 5 demo_t1_entry demo_pool12') demo_new.

(** A pool with the unrelated entries ["t1"] and ["t4"], and a chain for
    which ["t1"] is not final any more. *)
Definition demo_pool14 : Mempool :=
  Eval vm_compute in
    match calls demo_env 5 [AddTX demo_T1 None; AddTX demo_T4 None]
            demo_new with
    | Some s => s
    | None => demo_new
    end.

Definition demo_isFinal (tx : TX) (height mtp : Z) : bool :=
  negb (String.eqb (tx_hash tx) "t1").

Definition demo_reorged : Mempool :=
  Eval vm_compute in
    poolOf (_handleReorg demo_env demo_isFinal (Done 4000) 2147483648 5
              demo_pool14) demo_new.

(** The pool [demo_pool12'] after the double spenders of [demo_T1x], which
    spends the outpoint [demo_T1] spends, are removed. *)
Definition demo_pool12'_mined : Mempool :=
  Eval vm_compute in
    poolOf (removeDoubleSpends demo_env 5 demo_T1x demo_pool12') demo_new.

(** ** The coin view: the notions *)

(** The coin [getCoinView] records for the outpoint [o]: the output of the
    pool's transaction when the parent is in the pool and has that output,
    else the coin the chain reads, if any. *)
Definition coinFor (env : Env) (s : Mempool) (o : Outpoint)
  : option CoinEntry :=
  match mget String.eqb (op_hash o) (mp_map s) with
  | Some e =>
      if (op_index o <? tx_outputs (e_tx e))%nat
      then Some (CoinOfTX (e_tx e) (op_index o) (-1))
      else None
  | None =>
      match ch_readCoin (chain env) o with
      | Done (Some c) => Some (CoinOfChain c)
      | _ => None
      end
  end.

(** A transaction that spends an output of ["t1"], one ["t1"] does not
    have, a coin of the chain and a coin nobody knows. *)
Definition demo_mixed : TX :=
  mkTX "w" [mkInput "t1" 1; mkInput "t1" 7; mkInput "utxo" 1; mkInput "zz" 0]
       1.

Definition demo_mixed_view : CoinView :=
  Eval vm_compute in
    match getCoinView demo_env demo_mixed demo_pool12' with
    | Ret v _ => v
    | _ => []
    end.

(** ** Prioritisation: the notions *)

(** The pool during [updateAncestors] started at [st], when the hashes in
    [W] have been visited: the entries at the visited hashes have become
    [g] of what they were, nothing else has changed. *)
Definition mappedSoFar (g : MempoolEntry -> MempoolEntry) (st : Mempool)
  (W : list Hash) (s : Mempool) : Prop :=
  (forall h,
     mget String.eqb h (mp_map s) =
     match mget String.eqb h (mp_map st) with
     | Some p => Some (if set_has h W then g p else p)
     | None => None
     end)
  /\ mkeys (mp_map s) = mkeys (mp_map st)
  /\ s = with_map (mp_map s) st.

(** The callbacks that read only [deltaFee] and [size] of the child. *)
Definition readsFee (f : FeeFn) : bool :=
  match f with
  | RemoveFee => false
  | _ => true
  end.

(** The entry of [demo_T2] in [demo_pool12'], whose only ancestor is
    ["t1"], and the outcome of lowering its fee by more than it has. *)
Definition demo_t2_entry : MempoolEntry :=
  Eval vm_compute in
    match mget String.eqb "t2" (mp_map demo_pool12') with
    | Some e => e
    | None => demo_a4
    end.

(** The pool after the fee of ["t2"] is lowered by more than it has. *)
Definition demo_prioritised : Mempool :=
  Eval vm_compute in
    poolOf (prioritise demo_env demo_t2_entry 5 (-5000) demo_pool12')
           demo_new.

(** ** Orphans and the pool: the notions *)

(** Every orphan is stored under the hash of its transaction. *)
Definition orphanKeyed (s : Mempool) : Prop :=
  forall h o tx,
    mget String.eqb h (mp_orphans s) = Some o -> toTX o = Some tx ->
    tx_hash tx = h.

(** Orphans are stored under their hashes, no hash is in the pool map and
    in the orphan map at once, and the hashes in [X] are in neither. *)
Definition apart (X : list Hash) (s : Mempool) : Prop :=
  orphanKeyed s
  /\ (forall h, mhas String.eqb h (mp_map s) = true ->
                mhas String.eqb h (mp_orphans s) = false)
  /\ (forall h, In h X ->
        mhas String.eqb h (mp_map s) = false /\
        mhas String.eqb h (mp_orphans s) = false).

(** The pool map of [s] has no key that the one of [s0] lacks. *)
Definition keysSub (s0 s : Mempool) : Prop :=
  forall h, mhas String.eqb h (mp_map s) = true ->
            mhas String.eqb h (mp_map s0) = true.

(** The pool [demo_pool12'] after the block [demo_block] with [demo_T1]
    is connected. *)
Definition demo_pool12'_connected : Mempool :=
  Eval vm_compute in
    poolOf (_addBlock demo_env 5 demo_block [demo_coinbase; demo_T1]
              demo_pool12') demo_new.

(** No entry of the pool is its own descendant. *)
Definition acyclic (s : Mempool) : Prop :=
  forall h e, mget String.eqb h (mp_map s) = Some e -> ~ Descendant s e h.

(** The object [e] is an entry of the pool that has no parent in the pool:
    what the first loop of [limitSize] puts on the heap. *)
Definition rootOf (s : Mempool) (e : MempoolEntry) : Prop :=
  (exists e', mget String.eqb (e_hash e) (mp_map s) = Some e' /\
              e_tx e' = e_tx e)
  /\ existsb (fun inp => mhas String.eqb (op_hash (prevout inp)) (mp_map s))
       (tx_inputs (e_tx e)) = false.

(** A chain of [n] spending steps that starts at the entry of hash [h]:
    the depth the recursion of [removeSpenders] reaches. *)
Inductive spendChain (s : Mempool) : Hash -> nat -> Prop :=
| spendChain_O h : spendChain s h O
| spendChain_S h e k c n :
    mget String.eqb h (mp_map s) = Some e ->
    In (k, c) (spenders s e) -> spendChain s k n -> spendChain s h (S n).

(** The state in which an eviction can start: the pool is consistent, has
    no cycle, and the fuel covers its entries. *)
Definition evictable (env : Env) (fuel : nat) (s : Mempool) : Prop :=
  consistent env s /\ acyclic s
  /\ (List.length (mkeys (mp_map s)) <= fuel)%nat.

(** The eviction queue of [limitSize]: entries without parents in the
    pool, one per hash, none of them among the hashes still to visit. *)
Definition queue_ok (s : Mempool) (hashes : list Hash)
  (queue : list MempoolEntry) : Prop :=
  NoDup (List.map e_hash queue)
  /\ forall q, In q queue -> rootOf s q /\ ~ In (e_hash q) hashes.

(** A rank that grows along every recorded spend. *)
Definition ranked (rank : Hash -> nat) (s : Mempool) : bool :=
  forallb (fun kv => (rank (fst (fst kv)) <? rank (snd kv))%nat)
          (mp_spents s).

(** The node of the examples with room for one entry of 400 bytes only,
    and a rank of the hashes of the examples along which every spend goes
    up. *)
Definition demo_tight_env : Env :=
  {| options :=
       {| maxSize := 500; maxOrphans := 10; maxAncestors := 25;
          expiryTime := 1000; minRelay := 1; limitFree := false;
          limitFreeRelay := 15; relayPriority := false;
          requireStandard := false; rejectAbsurdFees := false;
          prematureWitness := true; paranoidChecks := false;
          replaceByFee := true |};
     policy := demo_policy; chain := demo_chain;
     methods := demo_methods; now := 5000;
     randomRange := fun _ _ => O; lockerHasPending := fun _ => false;
     errorListener := true |}.

Definition demo_rank (h : Hash) : nat :=
  if String.eqb h "utxo" then 0
  else if String.eqb h "t2" then 2 else 1.

Definition demo_pool14_limited : Mempool :=
  Eval vm_compute in
    poolOf (limitSize demo_tight_env 5 "t4" demo_pool14) demo_new.

(** ** The pool over time *)

(** The mempool object keeps its options, the policy constants and the
    methods of its transactions and entries; the clock, the chain, the
    random source, the locker and the listeners are those of the moment
    of a call. *)
Definition sameNode (env env' : Env) : Prop :=
  options env' = options env /\ policy env' = policy env
  /\ methods env' = methods env.

(** A history of the pool: each call is made in the environment of its
    moment and with a recursion budget of its own.  A call that throws
    leaves the pool as the throw found it, and the next call goes on from
    there. *)
Fixpoint history (cs : list (Env * nat * Call)) (s : Mempool)
  : option Mempool :=
  match cs with
  | [] => Some s
  | (env, fuel, c) :: rest =>
      match call env fuel c s with
      | Ret _ s' => history rest s'
      | Thr _ s' => history rest s'
      | OutOfFuel => None
      end
  end.

(** The node of the examples later on: the clock has advanced, the chain
    has a new tip one block higher, and no 'error' listener is attached. *)
Definition demo_later_env : Env :=
  {| options := demo_options; policy := demo_policy;
     chain :=
       {| ch_height := 101; ch_tip := "tip2"; ch_hasCSV := true;
          ch_hasWitness := true;
          ch_verifyFinal := ch_verifyFinal demo_chain;
          ch_verifyLocks := ch_verifyLocks demo_chain;
          ch_hasCoins := ch_hasCoins demo_chain;
          ch_readCoin := ch_readCoin demo_chain |};
     methods := demo_methods; now := 9000;
     randomRange := fun _ n => n; lockerHasPending := fun _ => false;
     errorListener := false |}.

Definition demo_history : list (Env * nat * Call) :=
  [(demo_env, 5%nat, AddTX demo_o13 None);
   (demo_env, 5%nat, AddTX demo_x1 None);
   (demo_later_env, 6%nat, AddTX demo_p1 None);
   (demo_later_env, 6%nat, AddBlock demo_block [demo_coinbase; demo_p1]);
   (demo_later_env, 7%nat, AddTX demo_o2 None)].

Definition demo_later : Mempool :=
  Eval vm_compute in
    match history demo_history demo_new with
    | Some s => s
    | None => demo_new
    end.

Definition demo_history12 : list (Env * nat * Call) :=
  [(demo_env, 5%nat, AddTX demo_T1 None);
   (demo_later_env, 5%nat, AddTX demo_T1x None);
   (demo_later_env, 6%nat, AddTX demo_T2 None)].

Definition demo_later12 : Mempool :=
  Eval vm_compute in
    match history demo_history12 demo_new with
    | Some s => s
    | None => demo_new
    end.

Definition demo_later12_connected : Mempool :=
  Eval vm_compute in
    poolOf (_addBlock demo_later_env 5 demo_block [demo_coinbase; demo_T1]
              demo_later12) demo_new.

(** * Facts *)

Unset Implicit Arguments.

Lemma key_eqb_spec a b : reflect (a = b) (key_eqb a b).
Proof.
  destruct a as [h i], b as [h' i']. unfold key_eqb. simpl.
  destruct (String.eqb_spec h h'), (Nat.eqb_spec i i'); simpl;
    constructor; congruence.
Qed.

Section JSMapFacts.
Context {K V : Type} (eqb : K -> K -> bool).
Hypothesis eqb_spec : forall a b, reflect (a = b) (eqb a b).
Implicit Types (k : K) (v : V) (m : list (K * V)).

Lemma eqb_refl' a : eqb a a = true.
Proof. destruct (eqb_spec a a); congruence. Qed.

Lemma mget_mset_eq k v m : mget eqb k (mset eqb k v m) = Some v.
Proof.
  induction m as [|[k' v'] r IH]; simpl.
  - now rewrite eqb_refl'.
  - destruct (eqb k k') eqn:E; simpl; rewrite ?eqb_refl', ?E; auto.
Qed.

Lemma mget_mset_ne k k' v m :
  k <> k' -> mget eqb k' (mset eqb k v m) = mget eqb k' m.
Proof.
  intros Hne. induction m as [|[k2 v2] r IH]; simpl.
  - destruct (eqb_spec k' k); congruence.
  - destruct (eqb_spec k k2) as [->|N]; simpl.
    + destruct (eqb_spec k' k2); congruence.
    + destruct (eqb k' k2); auto.
Qed.

Lemma mget_mdelete_eq k m : mget eqb k (mdelete eqb k m) = None.
Proof.
  induction m as [|[k' v'] r IH]; simpl; auto.
  destruct (eqb k k') eqn:E; simpl; rewrite ?E; auto.
Qed.

Lemma mget_mdelete_ne k k' m :
  k <> k' -> mget eqb k' (mdelete eqb k m) = mget eqb k' m.
Proof.
  intros Hne. induction m as [|[k2 v2] r IH]; simpl; auto.
  destruct (eqb_spec k k2) as [->|N]; simpl.
  - rewrite IH. destruct (eqb_spec k' k2); congruence.
  - destruct (eqb k' k2); auto.
Qed.

Lemma mget_In k v m : mget eqb k m = Some v -> In (k, v) m.
Proof.
  induction m as [|[k' v'] r IH]; simpl; [discriminate|].
  destruct (eqb_spec k k') as [->|N]; intros H.
  - inversion H; auto.
  - auto.
Qed.

Lemma mget_None_keys k m : mget eqb k m = None <-> ~ In k (mkeys m).
Proof.
  induction m as [|[k' v'] r IH]; simpl; [tauto|].
  destruct (eqb_spec k k') as [->|N].
  - split; [discriminate|]. intros H; exfalso; apply H; auto.
  - rewrite IH. split; intros H; [intros [E|I]; [congruence|auto]|auto].
Qed.

Lemma mhas_true k m : mhas eqb k m = true <-> exists v, mget eqb k m = Some v.
Proof.
  unfold mhas. destruct (mget eqb k m); split; eauto; try discriminate.
  intros [v H]; discriminate.
Qed.

Lemma mhas_false k m : mhas eqb k m = false <-> mget eqb k m = None.
Proof. unfold mhas. destruct (mget eqb k m); split; congruence. Qed.

Lemma mkeys_mset_has k v m :
  mhas eqb k m = true -> mkeys (mset eqb k v m) = mkeys m.
Proof.
  unfold mhas. induction m as [|[k' v'] r IH]; simpl; [discriminate|].
  destruct (eqb_spec k k') as [->|N]; simpl; auto.
  intros H. now rewrite IH.
Qed.

Lemma mkeys_mset_new k v m :
  mhas eqb k m = false -> mkeys (mset eqb k v m) = mkeys m ++ [k].
Proof.
  unfold mhas. induction m as [|[k' v'] r IH]; simpl; auto.
  destruct (eqb_spec k k') as [->|N]; simpl; [discriminate|].
  intros H. now rewrite IH.
Qed.

Lemma mkeys_mdelete k m :
  mkeys (mdelete eqb k m) = filter (fun x => negb (eqb k x)) (mkeys m).
Proof.
  induction m as [|[k' v'] r IH]; simpl; auto.
  destruct (eqb k k'); simpl; now rewrite IH.
Qed.

Lemma mdelete_absent k m : mget eqb k m = None -> mdelete eqb k m = m.
Proof.
  induction m as [|[k' v'] r IH]; simpl; auto.
  destruct (eqb k k'); [discriminate|]. intros H. now rewrite IH.
Qed.
End JSMapFacts.
(** ** The eviction comparator *)

Lemma roundDouble_exact z : Z.abs z < 2 ^ 53 -> roundDouble z = z.
Proof.
  intros H. unfold roundDouble. cbv zeta.
  destruct (Z.leb_spec (Z.log2 (Z.abs z) - 52) 0) as [L|L]; [reflexivity|].
  exfalso.
  assert (P : 0 < Z.abs z).
  { destruct (Z.eq_dec (Z.abs z) 0) as [E|N]; [|lia].
    rewrite E in L. simpl in L. lia. }
  pose proof (proj1 (Z.log2_lt_pow2 (Z.abs z) 53 P) H). lia.
Qed.

Lemma roundDouble_opp z : roundDouble (- z) = - roundDouble z.
Proof.
  unfold roundDouble. cbv zeta. rewrite Z.abs_opp, Z.sgn_opp.
  destruct (Z.log2 (Z.abs z) - 52 <=? 0); lia.
Qed.

(** Rounding keeps the sign. *)
Lemma roundDouble_neg z : roundDouble z < 0 <-> z < 0.
Proof.
  unfold roundDouble. cbv zeta.
  set (m := Z.abs z). set (e := Z.log2 m - 52).
  destruct (Z.leb_spec e 0) as [L|L]; [reflexivity|].
  assert (P : 0 < m).
  { destruct (Z.eq_dec m 0) as [E|N]; [|unfold m in *; lia].
    unfold e in L. rewrite E in L. simpl in L. lia. }
  assert (P2 : 0 < 2 ^ e) by (apply Z.pow_pos_nonneg; lia).
  assert (Hq : 0 < m / 2 ^ e).
  { apply Z.div_str_pos. split; [exact P2|].
    destruct (Z.log2_spec m P) as (Lo & _).
    apply Z.le_trans with (2 ^ Z.log2 m); [|exact Lo].
    apply Z.pow_le_mono_r; unfold e; lia. }
  set (q := m / 2 ^ e) in *.
  assert (Hq' : 0 < (if m mod 2 ^ e <? 2 ^ (e - 1) then q
                     else if 2 ^ (e - 1) <? m mod 2 ^ e then q + 1
                     else if Z.even q then q else q + 1) * 2 ^ e).
  { apply Z.mul_pos_pos; [|exact P2].
    destruct (_ <? _); [lia|]. destruct (_ <? _); [lia|].
    destruct (Z.even q); lia. }
  destruct z as [|p|p]; cbn [Z.sgn]; lia.
Qed.

Lemma roundDouble_zero z : roundDouble z = 0 <-> z = 0.
Proof.
  split; [|intros ->; reflexivity].
  intros H.
  destruct (Z.lt_trichotomy z 0) as [N|[E|P]]; [|exact E|].
  - apply roundDouble_neg in N. lia.
  - assert (N : - z < 0) by lia. apply roundDouble_neg in N.
    rewrite roundDouble_opp in N. lia.
Qed.

Lemma subDouble_neg x y : subDouble x y < 0 <-> x < y.
Proof. unfold subDouble. rewrite roundDouble_neg. lia. Qed.

Lemma subDouble_opp x y : subDouble y x = - subDouble x y.
Proof.
  unfold subDouble. rewrite <- roundDouble_opp. f_equal. lia.
Qed.

Lemma mulDouble_exact F S x y :
  F * S < 2 ^ 53 -> Z.abs x <= F -> Z.abs y <= S -> mulDouble x y = x * y.
Proof.
  intros H Hx Hy. unfold mulDouble. apply roundDouble_exact.
  rewrite Z.abs_mul.
  pose proof (Z.abs_nonneg x). pose proof (Z.abs_nonneg y). nia.
Qed.

Lemma mulDouble_exact' F S x y :
  F * S < 2 ^ 53 -> Z.abs x <= S -> Z.abs y <= F -> mulDouble x y = x * y.
Proof.
  intros H Hx Hy. unfold mulDouble. rewrite Z.mul_comm.
  now apply (mulDouble_exact F S y x).
Qed.

Lemma cmpRate_eff a b :
  cmpRate a b =
  if mulDouble (effFee a) (effSize b) =? mulDouble (effSize a) (effFee b)
  then subDouble (e_time a) (e_time b)
  else subDouble (mulDouble (effFee a) (effSize b))
                 (mulDouble (effSize a) (effFee b)).
Proof. reflexivity. Qed.

Lemma cmpRate_antisym a b : cmpRate b a = - cmpRate a b.
Proof.
  rewrite !cmpRate_eff. unfold mulDouble.
  replace (effFee b * effSize a) with (effSize a * effFee b) by lia.
  replace (effSize b * effFee a) with (effFee a * effSize b) by lia.
  rewrite (Z.eqb_sym (roundDouble (effSize a * effFee b))).
  destruct (_ =? _); apply subDouble_opp.
Qed.

Lemma cmpRate_refl a : cmpRate a a = 0.
Proof.
  rewrite cmpRate_eff. unfold mulDouble.
  replace (effFee a * effSize a) with (effSize a * effFee a) by lia.
  rewrite Z.eqb_refl. unfold subDouble. now rewrite Z.sub_diag.
Qed.

(** The comparator where its products are exact. *)
Section ExactProducts.
Variables F S : Z.
Hypothesis HFS : F * S < 2 ^ 53.

Lemma useDesc_iff e :
  within F S e ->
  (useDesc e = true <->
   e_descFee e * e_size e > e_deltaFee e * e_descSize e).
Proof.
  intros (Hd & Hf & Hs & Hds). unfold useDesc. cbv zeta.
  rewrite (mulDouble_exact F S _ _ HFS Hd Hds).
  rewrite (mulDouble_exact F S _ _ HFS Hf Hs).
  rewrite Z.gtb_lt. lia.
Qed.

Lemma useDesc_rates e :
  within F S e -> sized e ->
  (useDesc e = true <-> (directRate e < packageRate e)%Q).
Proof.
  intros W [Hs Hd]. rewrite (useDesc_iff e W).
  unfold Qlt, directRate, packageRate. simpl.
  rewrite !Z2Pos.id by assumption. lia.
Qed.

Lemma effFee_within e : within F S e -> Z.abs (effFee e) <= F.
Proof.
  intros (Hd & Hf & _). unfold effFee. destruct (useDesc e); assumption.
Qed.

Lemma effSize_within e : within F S e -> Z.abs (effSize e) <= S.
Proof.
  intros (_ & _ & Hs & Hds). unfold effSize. destruct (useDesc e); assumption.
Qed.

Lemma effSize_pos e : sized e -> 0 < effSize e.
Proof. intros [Hs Hd]. unfold effSize. destruct (useDesc e); assumption. Qed.

Lemma eff_rate e :
  within F S e -> sized e ->
  (effFee e # Z.to_pos (effSize e) == evictionRate e)%Q.
Proof.
  intros W Sz. pose proof (useDesc_rates e W Sz) as U.
  unfold effFee, effSize, evictionRate.
  destruct (useDesc e).
  - symmetry. apply Q.max_r. apply Qlt_le_weak. now apply U.
  - symmetry. apply Q.max_l. apply Qnot_lt_le. intros L.
    apply U in L. discriminate.
Qed.

Lemma eff_lt a b :
  within F S a -> within F S b -> sized a -> sized b ->
  (effFee a * effSize b < effSize a * effFee b <->
   (evictionRate a < evictionRate b)%Q).
Proof.
  intros Wa Wb Sa Sb. rewrite <- (eff_rate a Wa Sa), <- (eff_rate b Wb Sb).
  unfold Qlt. simpl.
  rewrite !Z2Pos.id by now apply effSize_pos. lia.
Qed.

Lemma eff_eq a b :
  within F S a -> within F S b -> sized a -> sized b ->
  (effFee a * effSize b = effSize a * effFee b <->
   (evictionRate a == evictionRate b)%Q).
Proof.
  intros Wa Wb Sa Sb. rewrite <- (eff_rate a Wa Sa), <- (eff_rate b Wb Sb).
  unfold Qeq. simpl.
  rewrite !Z2Pos.id by now apply effSize_pos. lia.
Qed.

(** The sign of the comparator is that of the exact cross products, or
    of the times when these are equal. *)
Lemma cmpRate_neg a b :
  within F S a -> within F S b ->
  (cmpRate a b < 0 <->
   if effFee a * effSize b =? effSize a * effFee b
   then e_time a < e_time b
   else effFee a * effSize b < effSize a * effFee b).
Proof.
  intros Wa Wb. rewrite cmpRate_eff.
  rewrite (mulDouble_exact F S _ _ HFS (effFee_within a Wa)
             (effSize_within b Wb)).
  rewrite (mulDouble_exact' F S _ _ HFS (effSize_within a Wa)
             (effFee_within b Wb)).
  destruct (_ =? _); apply subDouble_neg.
Qed.

Lemma cmpRate_ordersBy a b :
  within F S a -> within F S b -> sized a -> sized b ->
  ordersBy evictionRate a b.
Proof.
  intros Wa Wb Sa Sb. unfold ordersBy. rewrite (cmpRate_neg a b Wa Wb).
  pose proof (eff_lt a b Wa Wb Sa Sb) as L.
  pose proof (eff_eq a b Wa Wb Sa Sb) as E.
  destruct (Z.eqb_spec (effFee a * effSize b) (effSize a * effFee b)) as [H|H].
  - split.
    + intros T. right. split; [now apply E | lia].
    + intros [C|[_ T]]; [apply L in C; lia | lia].
  - split.
    + intros T. left. apply L. lia.
    + intros [C|[C _]]; [apply L in C; lia | apply E in C; contradiction].
Qed.

Lemma cmpRate_le_iff a b :
  within F S a -> within F S b -> sized a -> sized b ->
  (cmpRate a b <= 0 <->
   (evictionRate a < evictionRate b)%Q \/
   ((evictionRate a == evictionRate b)%Q /\ e_time a <= e_time b)).
Proof.
  intros Wa Wb Sa Sb.
  pose proof (cmpRate_ordersBy b a Wb Wa Sb Sa) as Hba. unfold ordersBy in Hba.
  rewrite (cmpRate_antisym a b) in Hba.
  split.
  - intros Hle.
    assert (N : ~ ((evictionRate b < evictionRate a)%Q \/
                   ((evictionRate b == evictionRate a)%Q /\
                    e_time b < e_time a))).
    { intros C. apply Hba in C. lia. }
    destruct (Q_dec (evictionRate a) (evictionRate b)) as [[L|G]|E].
    + now left.
    + exfalso. apply N. now left.
    + right. split; [exact E|].
      destruct (Z_lt_le_dec (e_time b) (e_time a)) as [T|T]; [|exact T].
      exfalso. apply N. right. split; [now symmetry | exact T].
  - intros H.
    destruct (Z_lt_le_dec 0 (cmpRate a b)) as [P|P]; [|exact P].
    exfalso.
    assert (C : - cmpRate a b < 0) by lia.
    apply Hba in C. destruct C as [C|[C T]].
    + destruct H as [H|[H _]].
      * exact (Qlt_irrefl _ (Qlt_trans _ _ _ H C)).
      * rewrite H in C. exact (Qlt_irrefl _ C).
    + destruct H as [H|[_ H]].
      * rewrite C in H. exact (Qlt_irrefl _ H).
      * lia.
Qed.
End ExactProducts.

(** C3, as amended: for entries with positive sizes whose fees are at most
    [F] and whose sizes are at most [S] in magnitude, with [F * S < 2^53]
    so that the products of the comparator are exact doubles, [cmpRate]
    orders by the GREATER of the direct rate [deltaFee/size] and the
    package rate [descFee/descSize]; the package view is used exactly when
    [descFee*size > deltaFee*descSize], that is when the package rate is
    the greater one; equal rates are ordered by older time first; and the
    comparator is antisymmetric. *)
Theorem cmpRate_orders_by_greater_rate (F S : Z) (a b : MempoolEntry) :
  F * S < 2 ^ 53 -> within F S a -> within F S b ->
  sized a -> sized b ->
  ordersBy evictionRate a b
  /\ (useDesc a = true <->
      e_descFee a * e_size a > e_deltaFee a * e_descSize a)
  /\ (useDesc a = true <-> (directRate a < packageRate a)%Q)
  /\ cmpRate b a = - cmpRate a b.
Proof.
  intros HFS Wa Wb Sa Sb.
  split; [now apply (cmpRate_ordersBy F S HFS)|].
  split; [now apply (useDesc_iff F S HFS)|].
  split; [now apply (useDesc_rates F S HFS)|].
  apply cmpRate_antisym.
Qed.

(** C3, as stated, fails: [a] has direct rate 1 and package rate 5, [b] has
    rate 3 both ways.  By the lesser rate [a] (1) sorts before [b] (3); the
    comparator uses 5 for [a] and sorts it after [b]. *)
Lemma cmpRate_not_by_lesser_rate :
  let a := mkEntry "a" [] 1 1 1 0 10 2 in
  let b := mkEntry "b" [] 1 3 1 0 3 1 in
  sized a /\ sized b /\ ~ ordersBy lesserRate a b /\ cmpRate a b = 4.
Proof.
  simpl. unfold sized, ordersBy. simpl.
  repeat split; try lia.
  intros [_ H]. assert (C : cmpRate (mkEntry "a" [] 1 1 1 0 10 2)
                                    (mkEntry "b" [] 1 3 1 0 3 1) < 0).
  { apply H. left. vm_compute. reflexivity. }
  vm_compute in C. discriminate.
Qed.

Lemma cmpRate_orders_witness :
  let a := mkEntry "a" [] 1 1 1 0 10 2 in
  let b := mkEntry "b" [] 1 3 1 0 3 1 in
  sized a /\ sized b /\ ordersBy evictionRate a b.
Proof.
  simpl. unfold sized. simpl.
  split; [lia|]. split; [lia|].
  apply (cmpRate_orders_by_greater_rate 10 2
           (mkEntry "a" [] 1 1 1 0 10 2) (mkEntry "b" [] 1 3 1 0 3 1));
    unfold sized, within; simpl; lia.
Defined.

(** Where the products pass 2^53 they are rounded: [b] has the higher rate
    (its cross product is greater by 3), the rounded products are equal,
    and the comparator sorts the older [b] first. *)
Example cmpRate_rounded_tie :
  let b := mkEntry "b" [] 1 180139202715 300006 2 180139202715 300006 in
  let c := mkEntry "c" [] 1 60047001357 100003 3 60047001357 100003 in
  e_deltaFee b * e_size c = e_size b * e_deltaFee c + 3
  /\ mulDouble (e_deltaFee b) (e_size c) = mulDouble (e_size b) (e_deltaFee c)
  /\ cmpRate b c = -1.
Proof. cbv zeta. repeat split; vm_compute; reflexivity. Qed.

(** ** Rules for Hoare triples *)

Section HoareRules.
Context {A B : Type}.
Implicit Types (P I : Mempool -> Prop) (E : Exn -> Mempool -> Prop).

Lemma hoare_conseq P P' (m : M A) (Q Q' : A -> Mempool -> Prop) E E' :
  hoare P' m Q' E' ->
  (forall s, P s -> P' s) ->
  (forall a s, Q' a s -> Q a s) ->
  (forall e s, E' e s -> E e s) ->
  hoare P m Q E.
Proof.
  intros H HP HQ HE s Hs. specialize (H s (HP s Hs)).
  destruct (m s); auto.
Qed.

Lemma hoare_ret P (a : A) (Q : A -> Mempool -> Prop) E :
  (forall s, P s -> Q a s) -> hoare P (ret a) Q E.
Proof. intros H s Hs. simpl. auto. Qed.

Lemma hoare_throw P e (Q : A -> Mempool -> Prop) E :
  (forall s, P s -> E e s) -> hoare P (throw e) Q E.
Proof. intros H s Hs. simpl. auto. Qed.

Lemma hoare_bind P (m : M A) (k : A -> M B) (Q1 : A -> Mempool -> Prop)
  (Q : B -> Mempool -> Prop) E :
  hoare P m Q1 E ->
  (forall a, hoare (Q1 a) (k a) Q E) ->
  hoare P (bind m k) Q E.
Proof.
  intros Hm Hk s Hs. unfold bind. specialize (Hm s Hs).
  destruct (m s) as [a s'|e s'|]; auto. now apply Hk.
Qed.

Lemma hoare_try_catch P (m : M A) (h : Exn -> M A)
  (Q : A -> Mempool -> Prop) E1 E :
  hoare P m Q E1 ->
  (forall e, hoare (E1 e) (h e) Q E) ->
  hoare P (try_catch m h) Q E.
Proof.
  intros Hm Hh s Hs. unfold try_catch. specialize (Hm s Hs).
  destruct (m s) as [a s'|e s'|]; auto. now apply Hh.
Qed.
End HoareRules.

Section PreservesRules.
Variable I : Mempool -> Prop.

Lemma preserves_ret {A} (a : A) : preserves I (ret a).
Proof. now apply hoare_ret. Qed.

Lemma preserves_throw {A} e : preserves I (@throw A e).
Proof. now apply hoare_throw. Qed.

Lemma preserves_outOfFuel {A} : preserves I (@outOfFuel A).
Proof. intros s _. exact Logic.I. Qed.

Lemma preserves_gets {A} (f : Mempool -> A) : preserves I (gets f).
Proof. intros s Hs. exact Hs. Qed.

Lemma preserves_modify f :
  (forall s, I s -> I (f s)) -> preserves I (modify f).
Proof. intros H s Hs. simpl. auto. Qed.

Lemma preserves_bind {A B} (m : M A) (k : A -> M B) :
  preserves I m -> (forall a, preserves I (k a)) -> preserves I (bind m k).
Proof. intros Hm Hk. eapply hoare_bind; [exact Hm | exact Hk]. Qed.

Lemma preserves_try_catch {A} (m : M A) (h : Exn -> M A) :
  preserves I m -> (forall e, preserves I (h e)) ->
  preserves I (try_catch m h).
Proof. intros Hm Hh. eapply hoare_try_catch; [exact Hm | exact Hh]. Qed.

Lemma preserves_assert b msg : preserves I (assert b msg).
Proof. destruct b; [apply preserves_ret | apply preserves_throw]. Qed.

Lemma preserves_when b m : preserves I m -> preserves I (when b m).
Proof. destruct b; [auto | intros _; apply preserves_ret]. Qed.

Lemma preserves_await {A} (r : Res A) : preserves I (await r).
Proof. destruct r; [apply preserves_ret | apply preserves_throw]. Qed.

Lemma preserves_forEach {A} (l : list A) body :
  (forall x, In x l -> preserves I (body x)) -> preserves I (forEach l body).
Proof.
  induction l as [|x r IH]; intros H; simpl.
  - apply preserves_ret.
  - apply preserves_bind; [apply H; now left|].
    intros _. apply IH. intros y Hy. apply H. now right.
Qed.

Lemma preserves_forReturn {A R} (l : list A) (body : A -> M (option R)) :
  (forall x, In x l -> preserves I (body x)) ->
  preserves I (forReturn l body).
Proof.
  induction l as [|x r IH]; intros H; simpl.
  - apply preserves_ret.
  - apply preserves_bind; [apply H; now left|].
    intros [v|]; [apply preserves_ret|]. apply IH. intros y Hy. apply H.
    now right.
Qed.
End PreservesRules.

(** What [preserves] gives at one pool. *)
Lemma preserves_at {A} (I : Mempool -> Prop) (m : M A) s :
  preserves I m -> I s ->
  match m s with
  | Ret _ s' => I s'
  | Thr _ s' => I s'
  | OutOfFuel => True
  end.
Proof. intros H Hs. exact (H s Hs). Qed.

(** Splits a computation along its syntax; what is left are the calls and
    the [modify] steps. *)
Ltac pres_step :=
  match goal with
  | |- preserves _ (ret _) => apply preserves_ret
  | |- preserves _ (throw _) => apply preserves_throw
  | |- preserves _ outOfFuel => apply preserves_outOfFuel
  | |- preserves _ (gets _) => apply preserves_gets
  | |- preserves _ (assert _ _) => apply preserves_assert
  | |- preserves _ (await _) => apply preserves_await
  | |- preserves _ (when _ _) => apply preserves_when
  | |- preserves _ (bind _ _) => apply preserves_bind; [|intros ?]
  | |- preserves _ (try_catch _ _) => apply preserves_try_catch; [|intros ?]
  | |- preserves _ (forEach _ _) => apply preserves_forEach; intros ? ?
  | |- preserves _ (match ?x with _ => _ end) => destruct x
  | |- preserves _ (let _ := _ in _) => cbv zeta
  end.

Ltac pres := repeat pres_step.

Lemma list_neq_cons {A} (x : A) (l : list A) : l <> x :: l.
Proof.
  intros H. apply (f_equal (@List.length A)) in H. simpl in H. lia.
Qed.

Section TotalRules.
Lemma total_ret {A} (a : A) : total (ret a).
Proof. intros s; discriminate. Qed.

Lemma total_throw {A} e : total (@throw A e).
Proof. intros s; discriminate. Qed.

Lemma total_gets {A} (f : Mempool -> A) : total (gets f).
Proof. intros s; discriminate. Qed.

Lemma total_modify f : total (modify f).
Proof. intros s; discriminate. Qed.

Lemma total_bind {A B} (m : M A) (k : A -> M B) :
  total m -> (forall a, total (k a)) -> total (bind m k).
Proof.
  intros Hm Hk s. unfold bind. specialize (Hm s).
  destruct (m s); [apply Hk | discriminate | congruence].
Qed.

Lemma total_try_catch {A} (m : M A) (h : Exn -> M A) :
  total m -> (forall e, total (h e)) -> total (try_catch m h).
Proof.
  intros Hm Hh s. unfold try_catch. specialize (Hm s).
  destruct (m s); [discriminate | apply Hh | congruence].
Qed.

Lemma total_assert b msg : total (assert b msg).
Proof. destruct b; [apply total_ret | apply total_throw]. Qed.

Lemma total_when b m : total m -> total (when b m).
Proof. destruct b; [auto | intros _; apply total_ret]. Qed.

Lemma total_await {A} (r : Res A) : total (await r).
Proof. destruct r; [apply total_ret | apply total_throw]. Qed.

Lemma total_forEach {A} (l : list A) body :
  (forall x, In x l -> total (body x)) -> total (forEach l body).
Proof.
  induction l as [|x r IH]; intros H; simpl.
  - apply total_ret.
  - apply total_bind; [apply H; now left|].
    intros _. apply IH. intros y Hy. apply H. now right.
Qed.
End TotalRules.

Ltac tot_step :=
  match goal with
  | |- total (ret _) => apply total_ret
  | |- total (throw _) => apply total_throw
  | |- total (gets _) => apply total_gets
  | |- total (modify _) => apply total_modify
  | |- total (assert _ _) => apply total_assert
  | |- total (await _) => apply total_await
  | |- total (when _ _) => apply total_when
  | |- total (bind _ _) => apply total_bind; [|intros ?]
  | |- total (try_catch _ _) => apply total_try_catch; [|intros ?]
  | |- total (forEach _ _) => apply total_forEach; intros ? ?
  | |- total (match ?x with _ => _ end) => destruct x
  | |- total (let _ := _ in _) => cbv zeta
  end.

Ltac tot := repeat tot_step.

(** ** The checks of [insertTX] before the double-spend test *)

Lemma exists_unchanged env hash s0 :
  preserves (fun s => s = s0) (exists_ env hash).
Proof. unfold exists_, hasOrphan, hasEntry. pres. Qed.

Lemma exists_total env hash : total (exists_ env hash).
Proof. unfold exists_, hasOrphan, hasEntry. tot. Qed.

Lemma gates_unchanged env tx s0 :
  preserves (fun s => s = s0) (insertTX_gates env tx).
Proof.
  unfold insertTX_gates. pres; try apply exists_unchanged.
Qed.

Lemma gates_total env tx : total (insertTX_gates env tx).
Proof. unfold insertTX_gates. tot; try apply exists_total. Qed.

(** The checks read the pool and leave it as it is. *)
Lemma gates_outcome env tx s :
  insertTX_gates env tx s = Ret tt s \/
  exists e, insertTX_gates env tx s = Thr e s.
Proof.
  pose proof (gates_unchanged env tx s s eq_refl) as H.
  pose proof (gates_total env tx s) as T.
  destruct (insertTX_gates env tx s) as [[] s'|e s'|]; subst; eauto.
  contradiction.
Qed.

Lemma exists_value env hash s :
  exists_ env hash s =
  Ret (lockerHasPending env hash || mhas String.eqb hash (mp_orphans s)
       || mhas String.eqb hash (mp_map s)) s.
Proof.
  unfold exists_, hasOrphan, hasEntry, bind, gets, ret.
  destruct (lockerHasPending env hash); simpl; auto.
  destruct (mhas String.eqb hash (mp_orphans s)); auto.
Qed.

(** Inversion of a computation that returned. *)
Lemma bind_Ret {A B} (m : M A) (k : A -> M B) s b s' :
  bind m k s = Ret b s' ->
  exists a s1, m s = Ret a s1 /\ k a s1 = Ret b s'.
Proof.
  unfold bind. destruct (m s) as [a s1|e s1|]; try discriminate. eauto.
Qed.

Lemma bind_Thr {A B} (m : M A) (k : A -> M B) s e s' :
  bind m k s = Thr e s' ->
  m s = Thr e s' \/ exists a s1, m s = Ret a s1 /\ k a s1 = Thr e s'.
Proof.
  unfold bind. destruct (m s) as [a s1|e1 s1|]; try discriminate.
  - intros H. right. eauto.
  - intros H. left. inversion H. reflexivity.
Qed.

Lemma when_throw_Ret b e s u s' :
  when b (throw e) s = Ret u s' -> b = false /\ s' = s.
Proof. destruct b; simpl; [discriminate|]. intros H; inversion H; auto. Qed.

Lemma assert_Ret b msg s u s' :
  assert b msg s = Ret u s' -> b = true /\ s' = s.
Proof. destruct b; simpl; [|discriminate]. intros H; inversion H; auto. Qed.

Lemma await_Ret {A} (r : Res A) s a s' :
  await r s = Ret a s' -> r = Done a /\ s' = s.
Proof. destruct r; simpl; [|discriminate]. intros H; inversion H; auto. Qed.

Lemma unchanged_Ret {A} (m : M A) s a s' :
  preserves (fun x => x = s) m -> m s = Ret a s' -> s' = s.
Proof. intros P H. specialize (P s eq_refl). now rewrite H in P. Qed.

Ltac inv_bind H :=
  let a := fresh "a" in
  let s := fresh "s" in
  let H1 := fresh "Hstep" in
  apply bind_Ret in H; destruct H as (a & s & H1 & H).

(** A transaction that passes the checks is neither in the pool nor among
    the orphans, and is not a coinbase. *)
Lemma gates_passed env tx s s' :
  insertTX_gates env tx s = Ret tt s' ->
  s' = s /\
  mhas String.eqb (tx_hash tx) (mp_map s) = false /\
  mhas String.eqb (tx_hash tx) (mp_orphans s) = false /\
  isCoinbase (methods env) tx = false /\
  tx_mutable tx = false.
Proof.
  intros H. pose proof (unchanged_Ret _ _ _ _ (gates_unchanged env tx s) H).
  subst s'. split; [reflexivity|].
  unfold insertTX_gates in H.
  inv_bind H. apply assert_Ret in Hstep as [Hmut ->].
  destruct (checkSanity (methods env) tx (ch_height (chain env)))
    as [[valid reason] score].
  inv_bind H. apply when_throw_Ret in Hstep as [_ ->].
  inv_bind H. apply when_throw_Ret in Hstep as [Hcb ->].
  inv_bind H.
  apply unchanged_Ret in Hstep; [subst|pres].
  inv_bind H.
  apply unchanged_Ret in Hstep; [subst|pres].
  inv_bind H.
  apply unchanged_Ret in Hstep; [subst|pres].
  inv_bind H. apply await_Ret in Hstep as [_ ->].
  inv_bind H. apply when_throw_Ret in Hstep as [_ ->].
  inv_bind H. rewrite exists_value in Hstep. inversion Hstep; subst; clear Hstep.
  inv_bind H. apply when_throw_Ret in Hstep as [Hknown ->].
  apply orb_false_elim in Hknown as [Hknown Hmap].
  apply orb_false_elim in Hknown as [_ Horph].
  apply negb_true_iff in Hmut. auto.
Qed.

(** ** Double spends (C4) *)

Lemma isDoubleSpend_true tx s :
  spendsSpent tx s -> isDoubleSpend tx s = Ret true s.
Proof.
  intros (inp & Hin & Hs). unfold isDoubleSpend, gets. f_equal.
  apply existsb_exists. eauto.
Qed.

Lemma insertTX_S env fuel tx id :
  insertTX env (S fuel) tx id =
  insertTX_body env fuel (insertTX env fuel) tx id.
Proof. reflexivity. Qed.

Lemma insertTX_body_rejected env fuel rec tx id s e s' :
  insertTX_gates env tx s = Thr e s' ->
  insertTX_body env fuel rec tx id s = Thr e s'.
Proof. intros G. unfold insertTX_body, bind. now rewrite G. Qed.

Lemma insertTX_body_conflict env fuel rec tx id s :
  insertTX_gates env tx s = Ret tt s ->
  spendsSpent tx s ->
  insertTX_body env fuel rec tx id s =
  Thr (verifyError tx "duplicate" "bad-txns-inputs-spent" 0 false)
      (with_events (EvConflict tx :: mp_events s) s).
Proof.
  intros G Hsp. unfold insertTX_body. unfold bind at 1. rewrite G.
  unfold bind at 1. now rewrite (isDoubleSpend_true tx s Hsp).
Qed.

(** C4, as amended: a transaction with an input whose outpoint is a key of
    [spents] and which passes the earlier checks of [insertTX] makes it
    emit 'conflict' and throw the VerifyError duplicate /
    bad-txns-inputs-spent, the pool being otherwise unchanged; and whatever
    check rejects such a transaction, [insertTX] throws and leaves the pool
    map, the spent map, the orphan map and the size as they were. *)
Theorem insertTX_double_spend env fuel tx id st :
  spendsSpent tx st ->
  (insertTX_gates env tx st = Ret tt st ->
   insertTX env (S fuel) tx id st =
   Thr (verifyError tx "duplicate" "bad-txns-inputs-spent" 0 false)
       (with_events (EvConflict tx :: mp_events st) st))
  /\ exists e st',
       insertTX env (S fuel) tx id st = Thr e st' /\
       mp_map st' = mp_map st /\ mp_spents st' = mp_spents st /\
       mp_orphans st' = mp_orphans st /\ mp_size st' = mp_size st.
Proof.
  intros Hsp. rewrite insertTX_S. split.
  - intros G. now apply insertTX_body_conflict.
  - destruct (gates_outcome env tx st) as [G|[e G]].
    + eexists _, _. split; [now apply insertTX_body_conflict|]. simpl. auto.
    + exists e, st. split; [now apply insertTX_body_rejected | auto].
Qed.

(** C4, as stated, fails: [T1] is in the pool, so its input is a key of
    [spents]; submitted again it is rejected as already known, without a
    'conflict' event. *)
Lemma insertTX_known_spender_not_duplicate :
  spendsSpent demo_T1 demo_pool1 /\
  insertTX demo_env 5 demo_T1 (-1) demo_pool1 =
  Thr (verifyError demo_T1 "alreadyknown" "txn-already-in-mempool" 0 false)
      demo_pool1.
Proof.
  split.
  - exists (mkInput "utxo" 0). split; [now left | vm_compute; reflexivity].
  - vm_compute. reflexivity.
Qed.

Lemma insertTX_double_spend_witness :
  spendsSpent demo_T1x demo_pool1 /\
  insertTX demo_env 5 demo_T1x (-1) demo_pool1 =
  Thr (verifyError demo_T1x "duplicate" "bad-txns-inputs-spent" 0 false)
      (with_events (EvConflict demo_T1x :: mp_events demo_pool1) demo_pool1).
Proof.
  assert (H : spendsSpent demo_T1x demo_pool1).
  { exists (mkInput "utxo" 0). split; [now left | vm_compute; reflexivity]. }
  split; [exact H|].
  apply (proj1 (insertTX_double_spend demo_env 4 demo_T1x (-1) demo_pool1 H)).
  vm_compute. reflexivity.
Defined.

(** ** The reject filter on a failed admission (C9) *)

(** C9: when [insertTX] throws a VerifyError, [_addTX] rethrows it, having
    added [tx.hash] to the reject filter exactly when the transaction has
    no witness and the error is not marked malleated; otherwise the pool is
    the one [insertTX] left. *)
Theorem addTX_reject_filter env fuel tx id v st st1 :
  insertTX env fuel tx (match id with Some id => id | None => -1 end) st
    = Thr (VerifyErr v) st1 ->
  _addTX env fuel tx id st =
    Thr (VerifyErr v)
        (if negb (hasWitness (methods env) tx) && negb (ve_malleated v)
         then with_rejects (tx_hash tx :: mp_rejects st1) st1 else st1)
  /\ (mp_rejects (poolOf (_addTX env fuel tx id st) st)
        = tx_hash tx :: mp_rejects st1
      <-> hasWitness (methods env) tx = false /\ ve_malleated v = false).
Proof.
  intros H.
  assert (E : _addTX env fuel tx id st =
    Thr (VerifyErr v)
        (if negb (hasWitness (methods env) tx) && negb (ve_malleated v)
         then with_rejects (tx_hash tx :: mp_rejects st1) st1 else st1)).
  { unfold _addTX, bind, try_catch. rewrite H. unfold when.
    destruct (negb (hasWitness (methods env) tx) && negb (ve_malleated v));
      reflexivity. }
  split; [exact E|]. rewrite E. simpl.
  destruct (hasWitness (methods env) tx), (ve_malleated v); simpl;
    split; intros C; try reflexivity; try (destruct C; discriminate);
    try (exfalso; eapply list_neq_cons; exact C); auto.
Qed.

Lemma addTX_reject_filter_witness :
  mp_rejects (poolOf (_addTX demo_env 5 demo_coinbase None demo_new) demo_new)
  = ["cb"].
Proof.
  apply (proj2 (addTX_reject_filter demo_env 5 demo_coinbase None
    {| ve_hash := "cb"; ve_code := "invalid"; ve_reason := "coinbase";
       ve_score := 100; ve_malleated := false |} demo_new demo_new
    eq_refl)).
  split; reflexivity.
Defined.

(** ** The drop paths of [maybeOrphan] (C10) *)

Lemma maybeOrphan_scan_eq tx view inputs hashes s :
  maybeOrphan_scan tx view inputs hashes s =
  if existsb (fun inp => unresolved view inp && badParent s inp) inputs
  then Ret (inl []) (with_rejects (tx_hash tx :: mp_rejects s) s)
  else Ret (inr (scanHashes view inputs hashes)) s.
Proof.
  revert hashes. induction inputs as [|inp rest IH]; intros hashes; simpl.
  - reflexivity.
  - unfold unresolved at 1 3, badParent at 1.
    destruct (view_hasEntry view (prevout inp)); simpl.
    + apply IH.
    + unfold bind, hasReject, hasEntry, gets.
      destruct (set_has (op_hash (prevout inp)) (mp_rejects s)); simpl;
        [reflexivity|].
      destruct (mhas String.eqb (op_hash (prevout inp)) (mp_map s)); simpl;
        [reflexivity|].
      apply IH.
Qed.

Lemma set_add_not_nil h set : set_add h set <> [].
Proof.
  unfold set_add. destruct set as [|x r]; simpl; [discriminate|].
  destruct (String.eqb h x || set_has h r); [discriminate|].
  discriminate.
Qed.

Lemma scanHashes_not_nil view inputs hashes :
  hashes <> [] \/ existsb (unresolved view) inputs = true ->
  scanHashes view inputs hashes <> [].
Proof.
  revert hashes. unfold scanHashes.
  induction inputs as [|inp rest IH]; intros hashes H; simpl in *.
  - destruct H; [assumption | discriminate].
  - apply IH. destruct (unresolved view inp); simpl in *.
    + left. apply set_add_not_nil.
    + exact H.
Qed.

Lemma maybeOrphan_drop_eq env tx view id s :
  dropPath env tx view s = true ->
  maybeOrphan env tx view id s = Ret (Some []) (dropPool env tx view s).
Proof.
  unfold dropPath, dropPool, maybeOrphan. intros H.
  unfold bind at 1. rewrite maybeOrphan_scan_eq.
  fold (dropsOnParent view s tx) in *.
  destruct (dropsOnParent view s tx); simpl in *; [reflexivity|].
  apply andb_true_iff in H as [Hm Hw].
  pose proof (scanHashes_not_nil view (tx_inputs tx) [] (or_intror Hm)) as N.
  destruct (scanHashes view (tx_inputs tx) []) as [|h r]; [congruence|].
  simpl. fold (overweight env tx).
  destruct (overweight env tx); simpl in *.
  - unfold bind, when. destruct (hasWitness (methods env) tx); reflexivity.
  - rewrite Hw. reflexivity.
Qed.

Lemma insertTX_body_orphan env fuel rec tx id view s missing s1 :
  insertTX_gates env tx s = Ret tt s ->
  isDoubleSpend tx s = Ret false s ->
  getCoinView env tx s = Ret view s ->
  maybeOrphan env tx view id s = Ret (Some missing) s1 ->
  insertTX_body env fuel rec tx id s = Ret (Some missing) s1.
Proof.
  intros G D V O. unfold insertTX_body.
  unfold bind at 1. rewrite G. unfold bind at 1. rewrite D.
  unfold bind at 1. rewrite V. unfold bind at 1. rewrite O. reflexivity.
Qed.

(** C10: on each drop path of [maybeOrphan] (an unresolved input whose
    parent hash is in the reject filter or whose parent is in the pool map;
    or, with some input unresolved, a weight over [MAX_TX_WEIGHT] or
    [maxOrphans = 0]) the result is the empty array and not null;
    [insertTX] returns it; [_addTX] returns it without throwing; and the
    transaction is then in neither the pool map nor the orphan map, which
    are as before. *)
Theorem maybeOrphan_drop_returns_empty env fuel tx id view st :
  insertTX_gates env tx st = Ret tt st ->
  isDoubleSpend tx st = Ret false st ->
  getCoinView env tx st = Ret view st ->
  dropPath env tx view st = true ->
  exists st1 st2,
    maybeOrphan env tx view id st = Ret (Some []) st1 /\
    insertTX env (S fuel) tx id st = Ret (Some []) st1 /\
    _addTX env (S fuel) tx (Some id) st = Ret (Some []) st2 /\
    mp_map st2 = mp_map st /\ mp_orphans st2 = mp_orphans st /\
    mhas String.eqb (tx_hash tx) (mp_map st2) = false /\
    mhas String.eqb (tx_hash tx) (mp_orphans st2) = false.
Proof.
  intros G D V P.
  pose proof (maybeOrphan_drop_eq env tx view id st P) as O.
  pose proof (insertTX_body_orphan env fuel (insertTX env fuel) tx id view
                st [] _ G D V O) as B.
  rewrite <- insertTX_S in B.
  destruct (gates_passed env tx st st G) as (_ & Hm & Ho & _).
  exists (dropPool env tx view st).
  exists (if 10 <? now env - mp_lastFlush (dropPool env tx view st)
          then with_lastFlush (now env) (dropPool env tx view st)
          else dropPool env tx view st).
  split; [exact O|]. split; [exact B|]. split.
  - unfold _addTX. unfold bind at 1. unfold try_catch. rewrite B.
    unfold bind, gets, when.
    destruct (10 <? now env - mp_lastFlush (dropPool env tx view st));
      reflexivity.
  - unfold dropPool.
    destruct (10 <? _); destruct (_ || _); simpl; auto.
Qed.

Lemma maybeOrphan_drop_witness :
  let tx := mkTX "t5" [mkInput "cb" 0] 1 in
  exists st2,
    _addTX demo_env 5 tx (Some 7) demo_rejected = Ret (Some []) st2 /\
    mhas String.eqb "t5" (mp_map st2) = false /\
    mhas String.eqb "t5" (mp_orphans st2) = false.
Proof.
  simpl.
  destruct (maybeOrphan_drop_returns_empty demo_env 4
              (mkTX "t5" [mkInput "cb" 0] 1) 7 [] demo_rejected
              eq_refl eq_refl eq_refl eq_refl)
    as (st1 & st2 & _ & _ & A & _ & _ & M & O).
  exists st2. split; [exact A|]. split; [exact M | exact O].
Defined.

(** ** The result of [limitSize] (C1) *)

(** C1, as amended: [limitSize(added)] returns false at once, changing
    nothing, when [size <= maxSize], whether [added] is in the pool or
    not.  Whenever it returns, it returns true exactly when the size was
    over [maxSize] at the call and [added] is no key of the pool map at
    the return; for a hash that is in the pool at the call this is:
    exactly when [added] is no key of the pool map at the return. *)
Theorem limitSize_true_iff_evicted env fuel added st :
  (mp_size st <= maxSize (options env) ->
   limitSize env fuel added st = Ret false st)
  /\ forall r st',
       limitSize env fuel added st = Ret r st' ->
       (r = true <->
        maxSize (options env) < mp_size st
        /\ mhas String.eqb added (mp_map st') = false)
       /\ (mhas String.eqb added (mp_map st) = true ->
           (r = true <-> mhas String.eqb added (mp_map st') = false)).
Proof.
  split.
  - intros Hle. apply Z.leb_le in Hle.
    unfold limitSize. unfold bind at 1. unfold gets at 1. now rewrite Hle.
  - intros r st'. unfold limitSize. unfold bind at 1. unfold gets at 1.
    destruct (Z.leb_spec (mp_size st) (maxSize (options env))) as [Hle|Hgt].
    + intros H. inversion H; subst. split.
      * split; [discriminate | intros (C & _); lia].
      * intros Hin. rewrite Hin. split; discriminate.
    + unfold bind, gets, hasEntry, ret.
      destruct (limitSize_expire env fuel (mkeys (mp_map st)) [] st)
        as [queue s1|e s1|]; try discriminate.
      destruct (underThreshold (mp_size s1) (maxSize (options env))).
      * intros H. inversion H; subst. rewrite negb_true_iff.
        split; [|intros _; reflexivity].
        split; [intros E; now split | intros (_ & E); exact E].
      * destruct (limitSize_evict env fuel (List.length queue) queue s1)
          as [[] s2|e s2|]; try discriminate.
        intros H. inversion H; subst. rewrite negb_true_iff.
        split; [|intros _; reflexivity].
        split; [intros E; now split | intros (_ & E); exact E].
Qed.

Lemma limitSize_true_iff_evicted_witness :
  let st' := poolOf (limitSize demo_env 5 "t3" demo_full3) demo_new in
  limitSize demo_env 5 "t3" demo_full3 = Ret true st' /\
  mhas String.eqb "t3" (mp_map st') = false.
Proof.
  assert (E : limitSize demo_env 5 "t3" demo_full3 =
              Ret true (poolOf (limitSize demo_env 5 "t3" demo_full3)
                          demo_new)) by (vm_compute; reflexivity).
  split; [exact E|].
  assert (H : mhas String.eqb "t3" (mp_map demo_full3) = true)
    by (vm_compute; reflexivity).
  exact (proj1 (proj2 (proj2 (limitSize_true_iff_evicted demo_env 5 "t3"
                                demo_full3) true _ E) H) eq_refl).
Defined.

(** C1, as stated, fails for the call [insertTX] makes after a cascade of
    orphans.  The admission of ["p"] into [demo_waiting] replays the
    orphan ["o"], whose own [limitSize] evicts ["p"] (and ["o"] with it).
    Back in the admission of ["p"], [limitSize("p")] is called on a pool
    that does not hold ["p"] and whose size is under [maxSize]: it returns
    false although no entry with that hash is in the pool map, and
    [insertTX] reports success. *)
Lemma limitSize_false_though_evicted :
  (verify demo_env demo_p_entry demo_p_view ;;
   addEntry demo_env 4 demo_p_entry demo_p_view) demo_waiting
  = Ret tt demo_cascade
  /\ mhas String.eqb "p" (mp_map demo_cascade) = false
  /\ limitSize demo_env 4 "p" demo_cascade = Ret false demo_cascade
  /\ insertTX demo_env 5 demo_p (-1) demo_waiting = Ret None demo_cascade.
Proof. repeat split; vm_compute; reflexivity. Qed.

(** ** Block connection (C6) *)

(** C6, as amended: when [_addBlock] completes, [tip] is [block.hash]; the
    reject filter has been reset when the pool map was not empty at the
    start; with an empty pool map the call only sets [tip] and the filter
    keeps its content. *)
Theorem addBlock_tip_and_rejects env fuel block txs st st' :
  _addBlock env fuel block txs st = Ret tt st' ->
  mp_tip st' = blk_hash block
  /\ (mp_map st <> [] -> mp_rejects st' = [])
  /\ (mp_map st = [] -> st' = with_tip (blk_hash block) st).
Proof.
  unfold _addBlock. unfold bind at 1. unfold gets at 1.
  destruct (mp_map st) as [|x m] eqn:Hm; simpl.
  - intros H. inversion H; subst. simpl. repeat split; congruence.
  - unfold bind, rejects_reset, modify.
    destruct (forEach (rev (tl txs)) (addBlock_step env fuel block) st)
      as [[] s1|e s1|]; try discriminate.
    intros H. inversion H; subst. simpl. repeat split; congruence.
Qed.

(** C6, as stated, fails on the empty pool: the filter holds the rejected
    coinbase before and after the block. *)
Lemma addBlock_empty_pool_keeps_rejects :
  mp_map demo_rejected = [] /\
  exists st',
    _addBlock demo_env 5 demo_block [demo_coinbase; demo_T1] demo_rejected
      = Ret tt st' /\
    mp_tip st' = "b1" /\ mp_rejects st' = ["cb"].
Proof.
  split; [reflexivity|]. eexists. split; [vm_compute; reflexivity|].
  split; reflexivity.
Qed.

Lemma addBlock_tip_and_rejects_witness :
  let st' :=
    poolOf (_addBlock demo_env 5 demo_block [demo_coinbase; demo_T1]
              demo_pool12) demo_new in
  mp_tip st' = "b1" /\ mp_rejects st' = [].
Proof.
  assert (E : _addBlock demo_env 5 demo_block [demo_coinbase; demo_T1]
                demo_pool12 =
              Ret tt (poolOf (_addBlock demo_env 5 demo_block
                                [demo_coinbase; demo_T1] demo_pool12)
                        demo_new)) by (vm_compute; reflexivity).
  destruct (addBlock_tip_and_rejects demo_env 5 demo_block
              [demo_coinbase; demo_T1] demo_pool12 _ E) as (T & R & _).
  split; [exact T|]. apply R. discriminate.
Defined.

(** ** Errors while replaying transactions (C8) *)

Lemma handleOrphans_step_throw env rec orphan tx e s s1 :
  toTX orphan = Some tx ->
  rec tx (o_id orphan) s = Thr e s1 ->
  handleOrphans_step env rec orphan s =
  match e with
  | VerifyErr v => Ret tt (badOrphanPool env tx (o_id orphan) v s1)
  | _ => Thr e s1
  end.
Proof.
  intros T H. unfold handleOrphans_step. rewrite T.
  unfold bind at 1. unfold try_catch. unfold bind at 1. rewrite H.
  destruct e as [v| |]; try reflexivity.
  unfold badOrphanPool, bind, when, rejects_add, emit, modify.
  destruct (negb (hasWitness (methods env) tx) && negb (ve_malleated v));
    reflexivity.
Qed.

Lemma removeBlock_step_throw env fuel block tx e s s1 :
  mhas String.eqb (tx_hash tx) (mp_map s) = false ->
  insertTX env fuel tx (-1) s = Thr e s1 ->
  removeBlock_step env fuel block tx s =
  if errorListener env
  then Ret tt (with_events (EvError e :: mp_events s1) s1)
  else Thr e s1.
Proof.
  intros Hm H.
  unfold removeBlock_step, bind, hasEntry, gets, try_catch, emitError.
  rewrite Hm, H. destruct (errorListener env); reflexivity.
Qed.

Lemma removeBlock_step_nothrow env fuel block tx s e s' :
  errorListener env = true ->
  removeBlock_step env fuel block tx s <> Thr e s'.
Proof.
  intros L.
  unfold removeBlock_step, bind, hasEntry, gets, try_catch, emitError.
  rewrite L.
  destruct (mhas String.eqb (tx_hash tx) (mp_map s)); [discriminate|].
  destruct (insertTX env fuel tx (-1) s) as [a s1|e1 s1|]; discriminate.
Qed.

Lemma forEach_nothrow {A} (l : list A) body :
  (forall x s e s', body x s <> Thr e s') ->
  forall s e s', forEach l body s <> Thr e s'.
Proof.
  intros H. induction l as [|x r IH]; intros s e s'; simpl; [discriminate|].
  unfold bind. specialize (H x s).
  destruct (body x s) as [a s1|e1 s1|]; [apply IH | | discriminate].
  exfalso. eapply H. reflexivity.
Qed.

Lemma removeBlock_nothrow env fuel block txs s e s' :
  errorListener env = true ->
  _removeBlock env fuel block txs s <> Thr e s'.
Proof.
  intros L.
  unfold _removeBlock. unfold bind at 1. unfold gets at 1.
  destruct (List.length (mp_map s) =? 0)%nat; [discriminate|].
  unfold bind at 1.
  pose proof (forEach_nothrow (tl txs) (removeBlock_step env fuel block)
                (fun tx s e s' =>
                   removeBlock_step_nothrow env fuel block tx s e s' L) s)
    as N.
  destruct (forEach (tl txs) (removeBlock_step env fuel block) s)
    as [a s1|e1 s1|]; [discriminate | | discriminate].
  exfalso. eapply N. reflexivity.
Qed.

(** C8, as amended: when [insertTX] throws [e] while one transaction is
    replayed,
    - in [handleOrphans] a VerifyError is caught, 'bad orphan' is emitted
      and the loop goes on with the remaining orphans, while any other
      exception leaves the loop and [handleOrphans];
    - in [_removeBlock] every exception, VerifyError or not, is caught and
      emitted as 'error'.  With an 'error' listener attached the loop goes
      on with the remaining transactions, and no exception leaves
      [_removeBlock]; with none attached, [emit] throws the exception
      again and it leaves the loop and [_removeBlock], VerifyError or
      not. *)
Theorem replay_error_handling env fuel tx id e s s1 :
  insertTX env fuel tx id s = Thr e s1 ->
  (forall orphan rest,
     toTX orphan = Some tx -> o_id orphan = id ->
     forEach (orphan :: rest) (handleOrphans_step env (insertTX env fuel)) s =
     match e with
     | VerifyErr v =>
         forEach rest (handleOrphans_step env (insertTX env fuel))
           (badOrphanPool env tx id v s1)
     | _ => Thr e s1
     end)
  /\ (forall parent s0 orphan rest,
        resolveOrphans parent s0 = Ret (orphan :: rest) s ->
        toTX orphan = Some tx -> o_id orphan = id ->
        isVerifyError e = false ->
        handleOrphans env fuel parent s0 = Thr e s1)
  /\ (id = -1 -> mhas String.eqb (tx_hash tx) (mp_map s) = false ->
      forall block rest,
        forEach (tx :: rest) (removeBlock_step env fuel block) s =
        if errorListener env
        then forEach rest (removeBlock_step env fuel block)
               (with_events (EvError e :: mp_events s1) s1)
        else Thr e s1)
  /\ (errorListener env = true ->
      forall block txs s2 e2 s3,
        _removeBlock env fuel block txs s2 <> Thr e2 s3)
  /\ (errorListener env = false ->
      id = -1 -> mhas String.eqb (tx_hash tx) (mp_map s) = false ->
      mp_map s <> [] ->
      forall block first rest,
        _removeBlock env fuel block (first :: tx :: rest) s = Thr e s1).
Proof.
  intros H.
  assert (L : forall orphan rest,
     toTX orphan = Some tx -> o_id orphan = id ->
     forEach (orphan :: rest) (handleOrphans_step env (insertTX env fuel)) s =
     match e with
     | VerifyErr v =>
         forEach rest (handleOrphans_step env (insertTX env fuel))
           (badOrphanPool env tx id v s1)
     | _ => Thr e s1
     end).
  { intros orphan rest T I. subst id. simpl. unfold bind at 1.
    rewrite (handleOrphans_step_throw env _ orphan tx e s s1 T H).
    destruct e; reflexivity. }
  assert (R : id = -1 -> mhas String.eqb (tx_hash tx) (mp_map s) = false ->
      forall block rest,
        forEach (tx :: rest) (removeBlock_step env fuel block) s =
        if errorListener env
        then forEach rest (removeBlock_step env fuel block)
               (with_events (EvError e :: mp_events s1) s1)
        else Thr e s1).
  { intros E Hm block rest. subst id. simpl. unfold bind at 1.
    rewrite (removeBlock_step_throw env fuel block tx e s s1 Hm H).
    destruct (errorListener env); reflexivity. }
  split; [exact L|]. split; [|split; [exact R|split]].
  - intros parent s0 orphan rest Rs T I V.
    unfold handleOrphans, handleOrphans_body. unfold bind at 1. rewrite Rs.
    rewrite (L orphan rest T I). destruct e; [discriminate | | ]; reflexivity.
  - intros Ls block txs s2 e2 s3. now apply removeBlock_nothrow.
  - intros Ls E Hm Hne block first rest.
    unfold _removeBlock. unfold bind at 1. unfold gets at 1.
    destruct (mp_map s) as [|x m] eqn:Em; [congruence|].
    cbn [List.length Nat.eqb tl]. unfold bind at 1.
    rewrite (R E Hm block rest), Ls. reflexivity.
Qed.

(** C8, as stated, fails for [_removeBlock]: reading the coins of ["io"]
    fails with an error that is not a VerifyError; [_removeBlock] emits it
    as 'error' (a listener is attached), goes on to reinsert [T9], and
    returns. *)
Lemma removeBlock_swallows_foreign_error :
  errorListener demo_env = true /\
  insertTX demo_env 5 demo_io (-1) demo_pool1 =
    Thr (ForeignErr "database read failed") demo_pool1 /\
  exists st',
    _removeBlock demo_env 5 demo_block [demo_coinbase; demo_io; demo_T9]
      demo_pool1 = Ret tt st' /\
    In (EvError (ForeignErr "database read failed")) (mp_events st') /\
    mhas String.eqb "t9" (mp_map st') = true.
Proof.
  split; [reflexivity|].
  split; [vm_compute; reflexivity|].
  eexists. split; [vm_compute; reflexivity|].
  split; [|reflexivity]. simpl. auto.
Qed.

Lemma replay_error_handling_witness :
  forEach [demo_io; demo_T9] (removeBlock_step demo_env 5 demo_block)
    demo_pool1 =
  forEach [demo_T9] (removeBlock_step demo_env 5 demo_block)
    (with_events (EvError (ForeignErr "database read failed")
                    :: mp_events demo_pool1) demo_pool1)
  /\ _removeBlock demo_deaf_env 5 demo_block
       [demo_coinbase; demo_coinbase; demo_T9] demo_pool1
     = Thr demo_coinbase_error demo_pool1.
Proof.
  assert (E : insertTX demo_env 5 demo_io (-1) demo_pool1 =
              Thr (ForeignErr "database read failed") demo_pool1)
    by (vm_compute; reflexivity).
  assert (H : mhas String.eqb (tx_hash demo_io) (mp_map demo_pool1) = false)
    by (vm_compute; reflexivity).
  assert (E' : insertTX demo_deaf_env 5 demo_coinbase (-1) demo_pool1 =
               Thr demo_coinbase_error demo_pool1)
    by (vm_compute; reflexivity).
  assert (H' : mhas String.eqb (tx_hash demo_coinbase) (mp_map demo_pool1)
               = false) by (vm_compute; reflexivity).
  split.
  - exact (proj1 (proj2 (proj2
      (replay_error_handling demo_env 5 demo_io (-1)
         (ForeignErr "database read failed") demo_pool1 demo_pool1 E)))
      eq_refl H demo_block [demo_T9]).
  - apply (proj2 (proj2 (proj2 (proj2
      (replay_error_handling demo_deaf_env 5 demo_coinbase (-1)
         demo_coinbase_error demo_pool1 demo_pool1 E')))));
      [reflexivity | reflexivity | exact H' | discriminate].
Defined.

(** ** Invariants of the pool map *)

(** The functions of the pool touch [map] in three ways only: [map.delete],
    a callback that rewrites [descFee]/[descSize] of an entry in place, and
    [map.set] of a new entry in [trackEntry].  A property of the pool map
    that the first two keep is kept by every function that removes
    entries; if the third keeps it for the entries [insertTX] builds, it is
    kept by admission and by the block functions as well. *)
Section MapInvariant.
Variable env : Env.
Variable I : Mempool -> Prop.

Hypothesis I_other : forall s s', mp_map s' = mp_map s -> I s -> I s'.
Hypothesis I_delete : forall s h,
  I s -> I (with_map (mdelete String.eqb h (mp_map s)) s).
Hypothesis I_update : forall s h p c f,
  mget String.eqb h (mp_map s) = Some p ->
  I s -> I (with_map (mset String.eqb h (apply_fn f p c) (mp_map s)) s).

Ltac pres_other :=
  apply preserves_modify; intros ? ?; eapply I_other; [|eassumption];
  reflexivity.

Ltac pres_io := pres; try pres_other.

Lemma inv_emit ev : preserves I (emit ev).
Proof. unfold emit. pres_other. Qed.

Lemma inv_rejects_add h : preserves I (rejects_add h).
Proof. unfold rejects_add. pres_other. Qed.

Lemma inv_untrackEntry e : preserves I (untrackEntry env e).
Proof.
  unfold untrackEntry, hasEntry. pres_io.
  apply preserves_modify. intros s Hs. now apply I_delete.
Qed.

Lemma inv_removeEntry e : preserves I (removeEntry env e).
Proof.
  unfold removeEntry. pres; [apply inv_untrackEntry | apply inv_emit].
Qed.

Lemma inv_removeSpenders fuel : forall e,
  preserves I (removeSpenders env fuel e).
Proof.
  induction fuel as [|fuel IH]; intros e; simpl.
  - apply preserves_outOfFuel.
  - unfold getSpent. pres; [apply IH | apply inv_removeEntry].
Qed.

Lemma inv_callFn f h c : preserves I (callFn f h c).
Proof.
  unfold callFn. apply preserves_modify. intros s Hs.
  destruct (mget String.eqb h (mp_map s)) eqn:G; [|exact Hs].
  now apply I_update.
Qed.

Lemma inv_countAncestors_loop rec child f :
  (forall p set, preserves I (rec p set)) ->
  forall inputs set,
    preserves I (countAncestors_loop env rec child f inputs set).
Proof.
  intros Hrec. induction inputs as [|inp rest IH]; intros set; simpl.
  - apply preserves_ret.
  - unfold getEntry. pres; try apply IH; try apply inv_callFn;
      try apply Hrec.
Qed.

Lemma inv__countAncestors fuel : forall e set child f,
  preserves I (_countAncestors env fuel e set child f).
Proof.
  induction fuel as [|fuel IH]; intros e set child f; simpl.
  - apply preserves_outOfFuel.
  - apply inv_countAncestors_loop. intros p set'. apply IH.
Qed.

Lemma inv_updateAncestors e f : preserves I (updateAncestors env e f).
Proof. unfold updateAncestors. pres. apply inv__countAncestors. Qed.

Lemma inv_countAncestors e : preserves I (countAncestors env e).
Proof. unfold countAncestors. pres. apply inv__countAncestors. Qed.

Lemma inv_evictEntry fuel e : preserves I (evictEntry env fuel e).
Proof.
  unfold evictEntry. pres;
    [apply inv_removeSpenders | apply inv_updateAncestors
    | apply inv_removeEntry].
Qed.

Lemma inv_limitSize_expire fuel : forall hashes queue,
  preserves I (limitSize_expire env fuel hashes queue).
Proof.
  induction hashes as [|h rest IH]; intros queue; simpl.
  - apply preserves_ret.
  - unfold getEntry, hasDepends. pres; try apply IH.
    apply inv_evictEntry.
Qed.

Lemma inv_limitSize_evict fuel : forall n queue,
  preserves I (limitSize_evict env fuel n queue).
Proof.
  induction n as [|n IH]; intros queue; simpl.
  - apply preserves_ret.
  - unfold hasEntry. pres; try apply IH. apply inv_evictEntry.
Qed.

Lemma inv_limitSize fuel added : preserves I (limitSize env fuel added).
Proof.
  unfold limitSize, hasEntry. pres;
    try apply inv_limitSize_expire; try apply inv_limitSize_evict.
Qed.

Lemma inv_removeOrphan h : preserves I (removeOrphan h).
Proof. unfold removeOrphan, getOrphan. pres_io; apply inv_emit. Qed.

Lemma inv_limitOrphans : preserves I (limitOrphans env).
Proof. unfold limitOrphans. pres. apply inv_removeOrphan. Qed.

Lemma inv_maybeOrphan_scan tx view : forall inputs hashes,
  preserves I (maybeOrphan_scan tx view inputs hashes).
Proof.
  induction inputs as [|inp rest IH]; intros hashes; simpl.
  - apply preserves_ret.
  - unfold hasReject, hasEntry. pres; try apply IH;
      apply inv_rejects_add.
Qed.

Lemma inv_maybeOrphan tx view id : preserves I (maybeOrphan env tx view id).
Proof.
  unfold maybeOrphan. pres_io; try apply inv_maybeOrphan_scan;
    try apply inv_rejects_add; try apply inv_limitOrphans;
    try apply inv_emit.
Qed.

Lemma inv_resolveOrphans_loop : forall hashes resolved,
  preserves I (resolveOrphans_loop hashes resolved).
Proof.
  induction hashes as [|h rest IH]; intros resolved; simpl.
  - apply preserves_ret.
  - unfold getOrphan. pres_io; apply IH.
Qed.

Lemma inv_resolveOrphans parent : preserves I (resolveOrphans parent).
Proof.
  unfold resolveOrphans. pres_io. apply inv_resolveOrphans_loop.
Qed.

Lemma inv_getCoinView_loop : forall inputs view,
  preserves I (getCoinView_loop env inputs view).
Proof.
  induction inputs as [|inp rest IH]; intros view; simpl.
  - apply preserves_ret.
  - unfold getTX, getEntry. pres; apply IH.
Qed.

Lemma inv_verifyInputs tx view flags :
  preserves I (verifyInputs env tx view flags).
Proof. unfold verifyInputs. pres. Qed.

Lemma inv_verifyResult tx view flags :
  preserves I (verifyResult env tx view flags).
Proof. unfold verifyResult. pres. apply inv_verifyInputs. Qed.

Lemma inv_verify e view : preserves I (verify env e view).
Proof.
  unfold verify. pres_io; try apply inv_countAncestors;
    try apply inv_verifyInputs; try apply inv_verifyResult.
Qed.

Lemma inv_gates tx : preserves I (insertTX_gates env tx).
Proof.
  unfold insertTX_gates, exists_, hasOrphan, hasEntry. pres.
Qed.

Lemma inv_removeDoubleSpends fuel tx :
  preserves I (removeDoubleSpends env fuel tx).
Proof.
  unfold removeDoubleSpends, getSpent. pres;
    [apply inv_evictEntry | apply inv_emit].
Qed.

(** *** With [map.set] of the entries [insertTX] builds *)

Hypothesis I_insert : forall s tx view,
  I s ->
  let e := MempoolEntry_fromTX env tx view (ch_height (chain env)) in
  I (with_map (mset String.eqb (e_hash e) e (mp_map s)) s).

Lemma inv_trackEntry tx view :
  preserves I
    (trackEntry env (MempoolEntry_fromTX env tx view (ch_height (chain env)))).
Proof.
  unfold trackEntry, hasEntry. pres_io.
  apply preserves_modify. intros s Hs. now apply I_insert.
Qed.

Lemma inv_handleOrphans_step rec orphan :
  (forall tx id, preserves I (rec tx id)) ->
  preserves I (handleOrphans_step env rec orphan).
Proof.
  intros Hrec. unfold handleOrphans_step. pres; try apply Hrec;
    try apply inv_rejects_add; try apply inv_emit;
    try apply inv_removeOrphan.
Qed.

Lemma inv_handleOrphans_body rec parent :
  (forall tx id, preserves I (rec tx id)) ->
  preserves I (handleOrphans_body env rec parent).
Proof.
  intros Hrec. unfold handleOrphans_body. pres;
    [apply inv_resolveOrphans | now apply inv_handleOrphans_step].
Qed.

Lemma inv_insertTX_body fuel rec tx id :
  (forall tx id, preserves I (rec tx id)) ->
  preserves I (insertTX_body env fuel rec tx id).
Proof.
  intros Hrec. unfold insertTX_body, addEntry_body, isDoubleSpend,
    getCoinView. pres;
    try apply inv_gates; try apply inv_emit; try apply inv_getCoinView_loop;
    try apply inv_maybeOrphan; try apply inv_verify;
    try apply inv_trackEntry; try apply inv_updateAncestors;
    try apply inv_limitSize; try now apply inv_handleOrphans_body.
Qed.

Lemma inv_insertTX fuel : forall tx id,
  preserves I (insertTX env fuel tx id).
Proof.
  induction fuel as [|fuel IH]; intros tx id; simpl.
  - apply preserves_outOfFuel.
  - now apply inv_insertTX_body.
Qed.

Lemma inv_addTX fuel tx id : preserves I (_addTX env fuel tx id).
Proof.
  unfold _addTX. pres_io; try apply inv_insertTX; apply inv_rejects_add.
Qed.

Lemma inv_removeBlock_step fuel block tx :
  preserves I (removeBlock_step env fuel block tx).
Proof.
  unfold removeBlock_step, hasEntry, emitError. pres;
    try apply inv_insertTX; apply inv_emit.
Qed.

Lemma inv_removeBlock fuel block txs :
  preserves I (_removeBlock env fuel block txs).
Proof.
  unfold _removeBlock, rejects_reset. pres_io.
  apply inv_removeBlock_step.
Qed.

Lemma inv_addBlock_step fuel block tx :
  preserves I (addBlock_step env fuel block tx).
Proof.
  unfold addBlock_step, getEntry, handleOrphans. pres;
    try apply inv_removeOrphan; try apply inv_removeDoubleSpends;
    try apply inv_removeEntry; try apply inv_emit.
  apply inv_handleOrphans_body. apply inv_insertTX.
Qed.

Lemma inv_addBlock fuel block txs :
  preserves I (_addBlock env fuel block txs).
Proof.
  unfold _addBlock, rejects_reset. pres_io.
  apply inv_addBlock_step.
Qed.
End MapInvariant.

(** ** Block disconnection (C7) *)

Lemma mget_mdelete h h' (m : list (Hash * MempoolEntry)) :
  mget String.eqb h' (mdelete String.eqb h m) =
  if String.eqb h h' then None else mget String.eqb h' m.
Proof.
  destruct (String.eqb_spec h h') as [->|N].
  - apply mget_mdelete_eq.
  - now apply mget_mdelete_ne; [apply String.eqb_spec|].
Qed.

Lemma mget_mset h h' (e : MempoolEntry) (m : list (Hash * MempoolEntry)) :
  mget String.eqb h' (mset String.eqb h e m) =
  if String.eqb h h' then Some e else mget String.eqb h' m.
Proof.
  destruct (String.eqb_spec h h') as [->|N].
  - apply mget_mset_eq, String.eqb_spec.
  - now apply mget_mset_ne; [apply String.eqb_spec|].
Qed.

Lemma apply_fn_height f p c : e_height (apply_fn f p c) = e_height p.
Proof. destruct f; reflexivity. Qed.

Lemma apply_fn_tx f p c : e_tx (apply_fn f p c) = e_tx p.
Proof. destruct f; reflexivity. Qed.

Lemma heightsFrom_refl H s : heightsFrom H s s.
Proof. intros h e G. right. eauto. Qed.

Lemma heightsFrom_other H s0 s s' :
  mp_map s' = mp_map s -> heightsFrom H s0 s -> heightsFrom H s0 s'.
Proof. intros E Hs h e G. rewrite E in G. now apply Hs. Qed.

Lemma heightsFrom_delete H s0 s h :
  heightsFrom H s0 s ->
  heightsFrom H s0 (with_map (mdelete String.eqb h (mp_map s)) s).
Proof.
  intros Hs h' e G. simpl in G. rewrite mget_mdelete in G.
  destruct (String.eqb h h'); [discriminate|]. now apply Hs.
Qed.

Lemma heightsFrom_update H s0 s h p c f :
  mget String.eqb h (mp_map s) = Some p ->
  heightsFrom H s0 s ->
  heightsFrom H s0
    (with_map (mset String.eqb h (apply_fn f p c) (mp_map s)) s).
Proof.
  intros Gp Hs h' e G. simpl in G. rewrite mget_mset in G.
  destruct (String.eqb_spec h h') as [->|N]; [|now apply Hs].
  inversion G; subst. rewrite apply_fn_height. now apply Hs.
Qed.

Lemma heightsFrom_insert env s0 s tx view :
  heightsFrom (ch_height (chain env)) s0 s ->
  let e := MempoolEntry_fromTX env tx view (ch_height (chain env)) in
  heightsFrom (ch_height (chain env)) s0
    (with_map (mset String.eqb (e_hash e) e (mp_map s)) s).
Proof.
  intros Hs e h' e' G. simpl in G. rewrite mget_mset in G.
  destruct (String.eqb (e_hash e) h'); [|now apply Hs].
  inversion G; subst. left. reflexivity.
Qed.

(** Every entry [insertTX] adds to the pool, directly or while it replays
    orphans, has the chain height. *)
Lemma heightsFrom_insertTX env fuel tx id s0 :
  preserves (heightsFrom (ch_height (chain env)) s0) (insertTX env fuel tx id).
Proof.
  apply inv_insertTX.
  - apply heightsFrom_other.
  - apply heightsFrom_delete.
  - apply heightsFrom_update.
  - apply heightsFrom_insert.
Qed.

Lemma heightsFrom_removeBlock env fuel block txs s0 :
  preserves (heightsFrom (ch_height (chain env)) s0)
    (_removeBlock env fuel block txs).
Proof.
  apply inv_removeBlock.
  - apply heightsFrom_other.
  - apply heightsFrom_delete.
  - apply heightsFrom_update.
  - apply heightsFrom_insert.
Qed.

Lemma removeBlock_step_absent env fuel block tx s :
  mhas String.eqb (tx_hash tx) (mp_map s) = false ->
  removeBlock_step env fuel block tx s =
  match insertTX env fuel tx (-1) s with
  | Ret _ s1 => Ret tt (with_events (EvUnconfirmed tx block :: mp_events s1) s1)
  | Thr e s1 =>
      if errorListener env
      then Ret tt (with_events (EvError e :: mp_events s1) s1)
      else Thr e s1
  | OutOfFuel => OutOfFuel
  end.
Proof.
  intros Hm.
  unfold removeBlock_step, bind, hasEntry, gets, try_catch, emitError.
  rewrite Hm. destruct (insertTX env fuel tx (-1) s); try reflexivity.
  destruct (errorListener env); reflexivity.
Qed.

Lemma removeBlock_step_present env fuel block tx s :
  mhas String.eqb (tx_hash tx) (mp_map s) = true ->
  removeBlock_step env fuel block tx s = Ret tt s.
Proof.
  intros Hm. unfold removeBlock_step, bind, hasEntry, gets.
  now rewrite Hm.
Qed.

(** C7, as amended: when [_removeBlock] completes, [tip] is
    [block.prevBlock].  With an empty pool map it does nothing else.
    Otherwise it goes through the transactions after the first one and, for
    each that is absent from the pool when reached, calls
    [insertTX(tx, -1)], where -1 is the origin peer id; the call's outcome
    is followed by 'unconfirmed' or 'error' (which, with no 'error'
    listener attached, throws the error again).  Every entry the call
    leaves in
    the pool that was not there before has the current chain height as its
    height. *)
Theorem removeBlock_reinserts_at_chain_height env fuel block txs st st' :
  _removeBlock env fuel block txs st = Ret tt st' ->
  mp_tip st' = blk_prevBlock block
  /\ (mp_map st = [] -> st' = with_tip (blk_prevBlock block) st)
  /\ (mp_map st <> [] ->
      exists s1,
        forEach (tl txs) (removeBlock_step env fuel block) st = Ret tt s1 /\
        st' = with_tip (blk_prevBlock block) (with_rejects [] s1))
  /\ (forall tx s,
        mhas String.eqb (tx_hash tx) (mp_map s) = false ->
        removeBlock_step env fuel block tx s =
        match insertTX env fuel tx (-1) s with
        | Ret _ s1 =>
            Ret tt (with_events (EvUnconfirmed tx block :: mp_events s1) s1)
        | Thr e s1 =>
            if errorListener env
            then Ret tt (with_events (EvError e :: mp_events s1) s1)
            else Thr e s1
        | OutOfFuel => OutOfFuel
        end)
  /\ (forall h e,
        mget String.eqb h (mp_map st') = Some e ->
        mhas String.eqb h (mp_map st) = false ->
        e_height e = ch_height (chain env)).
Proof.
  intros R.
  pose proof (heightsFrom_removeBlock env fuel block txs st st
                (heightsFrom_refl _ st)) as Hh.
  rewrite R in Hh.
  split; [|split; [|split; [|split]]].
  - revert R. unfold _removeBlock. unfold bind at 1. unfold gets at 1.
    destruct (List.length (mp_map st) =? 0)%nat.
    + intros R. inversion R. reflexivity.
    + unfold bind, rejects_reset, modify.
      destruct (forEach (tl txs) (removeBlock_step env fuel block) st)
        as [[] s1|e s1|]; try discriminate.
      intros R. inversion R. reflexivity.
  - intros Hm. revert R. unfold _removeBlock. unfold bind at 1.
    unfold gets at 1. rewrite Hm. simpl. intros R. now inversion R.
  - intros Hm. revert R. unfold _removeBlock. unfold bind at 1.
    unfold gets at 1. destruct (mp_map st) as [|x m]; [congruence|]. simpl.
    unfold bind, rejects_reset, modify.
    destruct (forEach (tl txs) (removeBlock_step env fuel block) st)
      as [[] s1|e s1|]; try discriminate.
    intros R. inversion R. eauto.
  - intros tx s. apply removeBlock_step_absent.
  - intros h e G Hm. destruct (Hh h e G) as [E|(e0 & G0 & _)]; [exact E|].
    unfold mhas in Hm. rewrite G0 in Hm. discriminate.
Qed.

(** C7, as stated, fails: the chain is at height 100 and the entry that
    [_removeBlock] reinstates for [T9] has height 100, not -1; and on an
    empty pool the same call reinstates nothing. *)
Lemma removeBlock_entry_not_at_minus_one :
  (exists st' e,
     _removeBlock demo_env 5 demo_block [demo_coinbase; demo_T9] demo_pool1
       = Ret tt st' /\
     mget String.eqb "t9" (mp_map st') = Some e /\
     e_height e = 100 /\ e_height e <> -1)
  /\ _removeBlock demo_env 5 demo_block [demo_coinbase; demo_T9] demo_new
     = Ret tt (with_tip "tip" demo_new).
Proof.
  split; [|vm_compute; reflexivity].
  eexists _, _. split; [vm_compute; reflexivity|].
  split; [vm_compute; reflexivity|]. split; [reflexivity | discriminate].
Qed.

Lemma removeBlock_reinserts_witness :
  let st' :=
    poolOf (_removeBlock demo_env 5 demo_block [demo_coinbase; demo_T9]
              demo_pool1) demo_new in
  mp_tip st' = "tip" /\
  forall e, mget String.eqb "t9" (mp_map st') = Some e -> e_height e = 100.
Proof.
  assert (E : _removeBlock demo_env 5 demo_block [demo_coinbase; demo_T9]
                demo_pool1 =
              Ret tt (poolOf (_removeBlock demo_env 5 demo_block
                                [demo_coinbase; demo_T9] demo_pool1)
                        demo_new)) by (vm_compute; reflexivity).
  destruct (removeBlock_reinserts_at_chain_height demo_env 5 demo_block
              [demo_coinbase; demo_T9] demo_pool1 _ E)
    as (T & _ & _ & _ & H).
  split; [exact T|]. intros e G. apply (H "t9" e G). reflexivity.
Defined.

(** ** Size consistency (C2) *)

Lemma forEach_modify {A} (l : list A) (g : A -> Mempool -> Mempool) s :
  forEach l (fun x => modify (fun s => g x s)) s =
  Ret tt (fold_left (fun s x => g x s) l s).
Proof.
  revert s. induction l as [|x r IH]; intros s; simpl; [reflexivity|].
  unfold bind, modify at 1. apply IH.
Qed.

Lemma trackEntry_eq env e s :
  trackEntry env e s =
  if mhas String.eqb (e_hash e) (mp_map s)
  then Thr (AssertionErr "!this.map.has(hash)") s
  else
    let s1 := with_map (mset String.eqb (e_hash e) e (mp_map s)) s in
    if isCoinbase (methods env) (e_tx e)
    then Thr (AssertionErr "!tx.isCoinbase()") s1
    else
      let s2 :=
        fold_left
          (fun s inp =>
             with_spents
               (mset key_eqb (toKey (prevout inp)) (e_hash e) (mp_spents s)) s)
          (tx_inputs (e_tx e)) s1 in
      Ret tt (with_size (mp_size s2 + memUsage env e) s2).
Proof.
  unfold trackEntry, e_hash. unfold bind at 1. unfold hasEntry, gets.
  destruct (mhas String.eqb (tx_hash (e_tx e)) (mp_map s)); [reflexivity|].
  simpl. unfold bind at 1. unfold modify at 1. unfold bind at 1.
  destruct (isCoinbase (methods env) (e_tx e)); [reflexivity|]. simpl.
  unfold ret. cbv beta iota zeta. unfold bind.
  pose proof (forEach_modify (tx_inputs (e_tx e))
    (fun inp s0 =>
       with_spents
         (mset key_eqb (toKey (prevout inp)) (tx_hash (e_tx e))
            (mp_spents s0)) s0)) as F.
  cbv beta in F. rewrite F. reflexivity.
Qed.

Lemma untrackEntry_eq env e s :
  untrackEntry env e s =
  if mhas String.eqb (e_hash e) (mp_map s)
  then
    let s1 := with_map (mdelete String.eqb (e_hash e) (mp_map s)) s in
    if isCoinbase (methods env) (e_tx e)
    then Thr (AssertionErr "!tx.isCoinbase()") s1
    else
      let s2 :=
        fold_left
          (fun s inp =>
             with_spents
               (mdelete key_eqb (toKey (prevout inp)) (mp_spents s)) s)
          (tx_inputs (e_tx e)) s1 in
      Ret tt (with_size (mp_size s2 - memUsage env e) s2)
  else Thr (AssertionErr "this.map.has(hash)") s.
Proof.
  unfold untrackEntry, e_hash. unfold bind at 1. unfold hasEntry, gets.
  destruct (mhas String.eqb (tx_hash (e_tx e)) (mp_map s)); [|reflexivity].
  simpl. unfold bind at 1. unfold modify at 1. unfold bind at 1.
  destruct (isCoinbase (methods env) (e_tx e)); [reflexivity|]. simpl.
  unfold ret. cbv beta iota zeta. unfold bind.
  pose proof (forEach_modify (tx_inputs (e_tx e))
    (fun inp s0 =>
       with_spents
         (mdelete key_eqb (toKey (prevout inp)) (mp_spents s0)) s0)) as F.
  cbv beta in F. rewrite F. reflexivity.
Qed.

(** The folds over the inputs touch [spents] only. *)
Lemma fold_spents_fields (g : Input -> list (Key * Hash) -> list (Key * Hash))
  inputs s :
  let s' := fold_left (fun s inp => with_spents (g inp (mp_spents s)) s)
              inputs s in
  mp_map s' = mp_map s /\ mp_size s' = mp_size s /\
  mp_spents s' = fold_left (fun sp inp => g inp sp) inputs (mp_spents s).
Proof.
  revert s. induction inputs as [|inp rest IH]; intros s; simpl; [auto|].
  specialize (IH (with_spents (g inp (mp_spents s)) s)). simpl in IH.
  exact IH.
Qed.

Lemma mget_spents_set hash inputs : forall (sp : list (Key * Hash)) k,
  mget key_eqb k
    (fold_left (fun sp inp => mset key_eqb (toKey (prevout inp)) hash sp)
       inputs sp) =
  if existsb (fun inp => key_eqb (toKey (prevout inp)) k) inputs
  then Some hash else mget key_eqb k sp.
Proof.
  induction inputs as [|inp rest IH]; intros sp k; simpl; [reflexivity|].
  rewrite IH.
  destruct (existsb (fun inp => key_eqb (toKey (prevout inp)) k) rest);
    [now rewrite orb_true_r|]. rewrite orb_false_r.
  destruct (key_eqb_spec (toKey (prevout inp)) k) as [->|N].
  - apply mget_mset_eq, key_eqb_spec.
  - apply mget_mset_ne; [apply key_eqb_spec | exact N].
Qed.

Lemma mget_spents_delete inputs : forall (sp : list (Key * Hash)) k,
  mget key_eqb k
    (fold_left (fun sp inp => mdelete key_eqb (toKey (prevout inp)) sp)
       inputs sp) =
  if existsb (fun inp => key_eqb (toKey (prevout inp)) k) inputs
  then None else mget key_eqb k sp.
Proof.
  induction inputs as [|inp rest IH]; intros sp k; simpl; [reflexivity|].
  rewrite IH.
  destruct (existsb (fun inp => key_eqb (toKey (prevout inp)) k) rest);
    [now rewrite orb_true_r|]. rewrite orb_false_r.
  destruct (key_eqb_spec (toKey (prevout inp)) k) as [->|N].
  - apply mget_mdelete_eq.
  - apply mget_mdelete_ne; [apply key_eqb_spec | exact N].
Qed.

Lemma existsb_inputKeys tx k :
  existsb (fun inp => key_eqb (toKey (prevout inp)) k) (tx_inputs tx) = true
  <-> In k (inputKeys tx).
Proof.
  unfold inputKeys. rewrite existsb_exists, in_map_iff. split.
  - intros (inp & Hin & E). exists inp. split; [|exact Hin].
    now destruct (key_eqb_spec (toKey (prevout inp)) k).
  - intros (inp & E & Hin). exists inp. split; [exact Hin|].
    now destruct (key_eqb_spec (toKey (prevout inp)) k).
Qed.

(** *** Sums over the map *)

Lemma sumMem_mset_absent env h e m :
  mget String.eqb h m = None ->
  sumMem env (mset String.eqb h e m) = sumMem env m + memUsage env e.
Proof.
  induction m as [|[h' e'] r IH]; simpl; [lia|].
  destruct (String.eqb h h'); [discriminate|]. intros G. simpl.
  rewrite (IH G). lia.
Qed.

Lemma sumMem_mset_present env h p p' m :
  mget String.eqb h m = Some p ->
  memUsage env p' = memUsage env p ->
  sumMem env (mset String.eqb h p' m) = sumMem env m.
Proof.
  intros G E. induction m as [|[h' e'] r IH]; simpl in *; [discriminate|].
  destruct (String.eqb h h').
  - inversion G; subst. simpl. lia.
  - simpl. now rewrite (IH G).
Qed.

Lemma sumMem_mdelete env h p m :
  NoDup (mkeys m) ->
  mget String.eqb h m = Some p ->
  sumMem env (mdelete String.eqb h m) = sumMem env m - memUsage env p.
Proof.
  induction m as [|[h' e'] r IH]; simpl; [discriminate|].
  intros ND G. inversion ND as [|? ? Hnin ND']; subst.
  destruct (String.eqb_spec h h') as [->|N].
  - inversion G; subst.
    rewrite (mdelete_absent String.eqb h' r).
    + lia.
    + apply (mget_None_keys String.eqb String.eqb_spec). exact Hnin.
  - simpl. rewrite (IH ND' G). lia.
Qed.

Lemma NoDup_mkeys_mdelete h (m : list (Hash * MempoolEntry)) :
  NoDup (mkeys m) -> NoDup (mkeys (mdelete String.eqb h m)).
Proof. intros ND. rewrite mkeys_mdelete. now apply NoDup_filter. Qed.

Lemma NoDup_mkeys_mset h (e : MempoolEntry) m :
  NoDup (mkeys m) -> NoDup (mkeys (mset String.eqb h e m)).
Proof.
  intros ND. destruct (mhas String.eqb h m) eqn:Hh.
  - rewrite (mkeys_mset_has String.eqb String.eqb_spec h e m Hh). exact ND.
  - rewrite (mkeys_mset_new String.eqb String.eqb_spec h e m Hh).
    apply NoDup_app; [exact ND | repeat constructor; intros [] |].
    intros x Hx [<-|[]]. apply mhas_false in Hh.
    apply (mget_None_keys String.eqb String.eqb_spec) in Hh. contradiction.
Qed.

(** *** The tracking functions keep the pool consistent *)

Lemma pool_ok_new genesis env : pool_ok env (Mempool_new genesis).
Proof.
  repeat split; simpl; try constructor; intros; discriminate.
Qed.

Lemma memUsage_tx env e e' : e_tx e = e_tx e' -> memUsage env e = memUsage env e'.
Proof. unfold memUsage. now intros ->. Qed.

Lemma trackEntry_ok env e :
  hoare (pool_ok env) (trackEntry env e) (fun _ => pool_ok env)
    (fun _ s => isCoinbase (methods env) (e_tx e) = false -> pool_ok env s).
Proof.
  intros s Hs. pose proof Hs as (Hsz & ND & Hent & Hsp).
  rewrite trackEntry_eq.
  destruct (mhas String.eqb (e_hash e) (mp_map s)) eqn:Hh.
  { intros _. exact Hs. }
  destruct (isCoinbase (methods env) (e_tx e)) eqn:Hcb; [discriminate|].
  cbv zeta.
  destruct (fold_spents_fields
              (fun inp sp => mset key_eqb (toKey (prevout inp)) (e_hash e) sp)
              (tx_inputs (e_tx e))
              (with_map (mset String.eqb (e_hash e) e (mp_map s)) s))
    as (Em & Es & Ep).
  simpl in Em, Es, Ep. apply mhas_false in Hh.
  unfold pool_ok, spents_ok. simpl. rewrite Em, Es, Ep.
  split; [|split; [|split]].
  - rewrite sumMem_mset_absent by assumption. lia.
  - now apply NoDup_mkeys_mset.
  - intros h e' G. rewrite mget_mset in G.
    destruct (String.eqb_spec (e_hash e) h) as [<-|N].
    + inversion G; subst. auto.
    + now apply Hent.
  - intros k h G. rewrite mget_spents_set in G.
    destruct (existsb _ (tx_inputs (e_tx e))) eqn:Ex.
    + inversion G; subst. exists e. rewrite mget_mset, String.eqb_refl.
      repeat split. now apply existsb_inputKeys.
    + destruct (Hsp k h G) as (e1 & G1 & H1 & K1). exists e1.
      rewrite mget_mset.
      destruct (String.eqb_spec (e_hash e) h) as [E|N]; [|auto].
      congruence.
Qed.

Lemma okWith_other env K s s' :
  mp_map s' = mp_map s -> mp_size s' = mp_size s ->
  mp_spents s' = mp_spents s -> okWith env K s -> okWith env K s'.
Proof.
  unfold okWith, pool_ok, spents_ok, agrees. intros -> -> ->. auto.
Qed.

Lemma untrackEntry_ok env e K :
  In e K -> preserves (okWith env K) (untrackEntry env e).
Proof.
  intros HK s Hs. pose proof Hs as ((Hsz & ND & Hent & Hsp) & Hag).
  rewrite untrackEntry_eq.
  destruct (mhas String.eqb (e_hash e) (mp_map s)) eqn:Hh; [|exact Hs].
  apply mhas_true in Hh as (e0 & G0).
  pose proof (Hag e HK e0 G0) as Etx.
  destruct (Hent _ _ G0) as (_ & Hcb). rewrite Etx in Hcb. rewrite Hcb.
  cbv zeta.
  destruct (fold_spents_fields
              (fun inp sp => mdelete key_eqb (toKey (prevout inp)) sp)
              (tx_inputs (e_tx e))
              (with_map (mdelete String.eqb (e_hash e) (mp_map s)) s))
    as (Em & Es & Ep).
  simpl in Em, Es, Ep.
  unfold okWith, pool_ok, spents_ok, agrees. simpl. rewrite Em, Es, Ep.
  split; [split; [|split; [|split]]|].
  - rewrite (sumMem_mdelete env _ e0) by assumption.
    rewrite (memUsage_tx env e0 e Etx). lia.
  - now apply NoDup_mkeys_mdelete.
  - intros h e' G. rewrite mget_mdelete in G.
    destruct (String.eqb (e_hash e) h); [discriminate|]. now apply Hent.
  - intros k h G. rewrite mget_spents_delete in G.
    destruct (existsb _ (tx_inputs (e_tx e))) eqn:Ex; [discriminate|].
    destruct (Hsp k h G) as (e1 & G1 & H1 & K1). exists e1.
    rewrite mget_mdelete.
    destruct (String.eqb_spec (e_hash e) h) as [E|N]; [|auto].
    exfalso. rewrite <- E in G1. rewrite G0 in G1. inversion G1; subst e1.
    rewrite Etx in K1. apply existsb_inputKeys in K1. congruence.
  - intros e' HK' e1 G. rewrite mget_mdelete in G.
    destruct (String.eqb (e_hash e) (e_hash e')); [discriminate|].
    now apply (Hag e' HK').
Qed.

Lemma okWith_emit env K ev : preserves (okWith env K) (emit ev).
Proof.
  unfold emit. apply preserves_modify. intros s Hs.
  now apply (okWith_other env K s).
Qed.

Lemma removeEntry_ok env e K :
  In e K -> preserves (okWith env K) (removeEntry env e).
Proof.
  intros HK. unfold removeEntry. apply preserves_bind.
  - now apply untrackEntry_ok.
  - intros _. apply okWith_emit.
Qed.

Lemma okWith_weaken env K K' s :
  (forall e, In e K -> In e K') -> okWith env K' s -> okWith env K s.
Proof. intros Hsub (Hok & Hag). split; auto. Qed.

Lemma preserves_weaken {A} env K K' (m : M A) :
  (forall e, In e K -> In e K') ->
  preserves (okWith env K') m ->
  forall s, okWith env K' s ->
    match m s with
    | Ret _ s' => okWith env K s'
    | Thr _ s' => okWith env K s'
    | OutOfFuel => True
    end.
Proof.
  intros Hsub P s Hs. specialize (P s Hs).
  destruct (m s); auto; now apply (okWith_weaken env K K').
Qed.

Lemma removeSpenders_ok env fuel : forall e K,
  preserves (okWith env K) (removeSpenders env fuel e).
Proof.
  induction fuel as [|fuel IH]; intros e K; simpl.
  - apply preserves_outOfFuel.
  - apply preserves_forEach. intros i _ s Hs.
    unfold bind at 1. unfold getSpent, gets.
    destruct (mget key_eqb (e_hash e, i) (mp_spents s)) as [h|]; [|exact Hs].
    destruct (mget String.eqb h (mp_map s)) as [sp|] eqn:G; [|exact Hs].
    assert (Hs' : okWith env (sp :: K) s).
    { destruct Hs as (Hok & Hag). split; [exact Hok|].
      intros e' [<-|HK]; [|now apply Hag].
      intros e0 G0. destruct Hok as (_ & _ & Hent & _).
      destruct (Hent _ _ G) as (Eh & _). rewrite Eh in G0. congruence. }
    apply (preserves_weaken env K (sp :: K)
             (bind (removeSpenders env fuel sp) (fun _ => removeEntry env sp)));
      [intros; now right | | exact Hs'].
    apply preserves_bind; [apply IH|]. intros _.
    apply removeEntry_ok. now left.
Qed.

Lemma updateAncestors_ok env e f K :
  preserves (okWith env K) (updateAncestors env e f).
Proof.
  apply inv_updateAncestors.
  intros s h p c f' Gp ((Hsz & ND & Hent & Hsp) & Hag).
  destruct (Hent _ _ Gp) as (Hp & Hcb).
  unfold okWith, pool_ok, spents_ok, agrees. simpl.
  split; [split; [|split; [|split]]|].
  - rewrite (sumMem_mset_present env h p) by
      (auto; apply memUsage_tx, apply_fn_tx). exact Hsz.
  - rewrite mkeys_mset_has; [exact ND | apply String.eqb_spec |].
    apply mhas_true. eauto.
  - intros h' e' G. rewrite mget_mset in G.
    destruct (String.eqb_spec h h') as [<-|N]; [|now apply Hent].
    inversion G; subst. unfold e_hash. rewrite apply_fn_tx. auto.
  - intros k h' G. destruct (Hsp k h' G) as (e1 & G1 & H1 & K1).
    rewrite mget_mset.
    destruct (String.eqb_spec h h') as [<-|N]; [|eauto].
    rewrite Gp in G1. inversion G1; subst e1. eexists. split; [reflexivity|].
    unfold e_hash. rewrite apply_fn_tx. auto.
  - intros e' HK e0 G. rewrite mget_mset in G.
    destruct (String.eqb_spec h (e_hash e')) as [E|N];
      [|now apply (Hag e' HK)].
    inversion G; subst e0. rewrite apply_fn_tx. apply (Hag e' HK).
    now rewrite <- E.
Qed.

Lemma evictEntry_ok env fuel e K :
  In e K -> preserves (okWith env K) (evictEntry env fuel e).
Proof.
  intros HK. unfold evictEntry. apply preserves_bind.
  - apply removeSpenders_ok.
  - intros _. apply preserves_bind.
    + apply updateAncestors_ok.
    + intros _. now apply removeEntry_ok.
Qed.

Lemma reset_ok env s : pool_ok env (poolOf (_reset env s) s).
Proof.
  simpl. repeat split; simpl; try constructor; intros; discriminate.
Qed.

(** An entry taken from the pool agrees with it. *)
Lemma okWith_live env s h e :
  pool_ok env s -> mget String.eqb h (mp_map s) = Some e -> okWith env [e] s.
Proof.
  intros Hok G. split; [exact Hok|]. intros e' [<-|[]] e0 G0.
  destruct Hok as (_ & _ & Hent & _). destruct (Hent _ _ G) as (Eh & _).
  rewrite Eh in G0. congruence.
Qed.

(** Each operation keeps the pool consistent when it returns; a removal
    or an eviction also when it throws. *)
Lemma step_ok env fuel op :
  hoare (pool_ok env) (step env fuel op) (fun _ => pool_ok env)
    (fun _ s => match op with OpTrack _ => True | _ => pool_ok env s end).
Proof.
  destruct op as [e|h|h|]; simpl.
  - eapply hoare_conseq; [apply trackEntry_ok | auto | auto | auto].
  - intros s Hs. unfold bind, getEntry, gets.
    destruct (mget String.eqb h (mp_map s)) as [e|] eqn:G; [|exact Hs].
    pose proof (removeEntry_ok env e [e] (or_introl eq_refl) s
                  (okWith_live env s h e Hs G)) as P.
    destruct (removeEntry env e s); auto; apply P.
  - intros s Hs. unfold bind, getEntry, gets.
    destruct (mget String.eqb h (mp_map s)) as [e|] eqn:G; [|exact Hs].
    pose proof (evictEntry_ok env fuel e [e] (or_introl eq_refl) s
                  (okWith_live env s h e Hs G)) as P.
    destruct (evictEntry env fuel e s); auto; apply P.
  - intros s Hs. apply (reset_ok env s).
Qed.

Lemma run_ok env fuel ops : forall s st,
  pool_ok env s -> run env fuel ops s = Some st -> pool_ok env st.
Proof.
  induction ops as [|op rest IH]; intros s st Hs; simpl.
  - intros E. inversion E; subst. exact Hs.
  - pose proof (step_ok env fuel op s Hs) as P.
    destruct (step env fuel op s) as [a s'|e s'|]; try discriminate.
    simpl in P. intros R. exact (IH s' st P R).
Qed.

(** C2: in every pool reached from a new pool by a sequence of admissions
    ([trackEntry]), removals ([removeEntry] or [evictEntry] of the pool's
    entry for a hash) and resets, [size] is the sum of [entry.memUsage()]
    over the entries of the pool map. *)
Theorem size_consistency env fuel genesis ops st :
  run env fuel ops (Mempool_new genesis) = Some st ->
  mp_size st = sumMem env (mp_map st).
Proof.
  intros R.
  exact (proj1 (run_ok env fuel ops _ st (pool_ok_new genesis env) R)).
Qed.

(** In such a pool no key of [spents] dangles, which is what lets the
    model keep hashes in [spents]. *)
Lemma spents_never_dangle env fuel genesis ops st :
  run env fuel ops (Mempool_new genesis) = Some st -> spents_ok st.
Proof.
  intros R.
  exact (proj2 (proj2 (proj2
    (run_ok env fuel ops _ st (pool_ok_new genesis env) R)))).
Qed.

Lemma size_consistency_witness :
  run demo_env 5 demo_ops demo_new = Some demo_after_ops /\
  mkeys (mp_map demo_after_ops) = ["e2"] /\
  mp_size demo_after_ops = sumMem demo_env (mp_map demo_after_ops).
Proof.
  assert (R : run demo_env 5 demo_ops demo_new = Some demo_after_ops)
    by (vm_compute; reflexivity).
  split; [exact R|]. split; [reflexivity|].
  exact (size_consistency demo_env 5 "genesis" demo_ops _ R).
Defined.

(** ** The ancestor traversal (C5) *)

Lemma set_has_In h S : set_has h S = true <-> In h S.
Proof.
  unfold set_has. rewrite existsb_exists. split.
  - intros (x & Hx & E). apply String.eqb_eq in E. now subst.
  - intros H. exists h. split; [exact H | apply String.eqb_refl].
Qed.

Lemma set_has_not_In h S : set_has h S = false <-> ~ In h S.
Proof.
  rewrite <- set_has_In. destruct (set_has h S); split; congruence.
Qed.

Lemma callFn_eq f h child s :
  callFn f h child s =
  Ret tt
    match mget String.eqb h (mp_map s) with
    | Some parent =>
        with_map
          (mset String.eqb h (apply_fn f parent (live child s)) (mp_map s)) s
    | None => s
    end.
Proof. reflexivity. Qed.

Section Traversal.
Variable env : Env.
Variables (child : MempoolEntry) (f : FeeFn).
Variable m0 : list (Hash * MempoolEntry).
Variable root : TX.

(** What relates the visited set to the pool during the traversal. *)
Variable J : list Hash -> Mempool -> Prop.

Hypothesis J_shape : forall W s, J W s -> forall h,
  option_map e_tx (mget String.eqb h (mp_map s)) =
  option_map e_tx (mget String.eqb h m0).

Hypothesis J_step : forall W s h p,
  J W s -> ~ In h W -> mget String.eqb h (mp_map s) = Some p ->
  J (h :: W)
    (with_map (mset String.eqb h (apply_fn f p (live child s)) (mp_map s)) s).

Let maxA : nat := maxAncestors (options env).

Local Abbreviation pre := (visitPre maxA m0 root J).
Local Abbreviation post := (visitPost maxA m0 root J).
Local Abbreviation covers := (coversInputs m0).

Lemma shape_Some W s h p :
  J W s -> mget String.eqb h (mp_map s) = Some p ->
  exists p0, mget String.eqb h m0 = Some p0 /\ e_tx p0 = e_tx p.
Proof.
  intros Hj G. pose proof (J_shape W s Hj h) as E. rewrite G in E.
  destruct (mget String.eqb h m0) as [p0|]; [|discriminate].
  exists p0. split; [reflexivity|]. simpl in E. congruence.
Qed.

Lemma shape_None W s h :
  J W s -> mget String.eqb h (mp_map s) = None ->
  mhas String.eqb h m0 = false.
Proof.
  intros Hj G. pose proof (J_shape W s Hj h) as E. rewrite G in E.
  unfold mhas. destruct (mget String.eqb h m0); [discriminate|reflexivity].
Qed.

Lemma closedNew_trans S1 S2 S3 :
  (forall h, In h S2 -> In h S3) ->
  closedNew m0 S1 S2 -> closedNew m0 S2 S3 -> closedNew m0 S1 S3.
Proof.
  intros Sub C12 C23 h H3 H1 e G p Hp.
  destruct (in_dec string_dec h S2) as [H2|H2].
  - apply Sub. exact (C12 h H2 H1 e G p Hp).
  - exact (C23 h H3 H2 e G p Hp).
Qed.

Ltac split_post :=
  split; [|split; [|split; [|split; [|split; [|split]]]]].

Lemma loop_ok k (rec : MempoolEntry -> list Hash -> M (list Hash)) :
  (forall e W s,
     pre W s -> (S maxA <= k + List.length W)%nat ->
     (forall p, parentOf m0 (e_tx e) p -> Ancestor m0 root p) ->
     post (fun W' => forall p, parentOf m0 (e_tx e) p -> In p W') W
          (rec e W s)) ->
  forall inputs W s,
    pre W s -> (maxA <= k + List.length W)%nat ->
    (forall inp, In inp inputs ->
       mhas String.eqb (op_hash (prevout inp)) m0 = true ->
       Ancestor m0 root (op_hash (prevout inp))) ->
    post (covers inputs) W
         (countAncestors_loop env rec child f inputs W s).
Proof.
  intros Hrec. induction inputs as [|inp rest IH]; intros W s Hpre Hk Hanc.
  - simpl. destruct Hpre as (Hj & Hle & ND & HS).
    exists W, s. split_post; auto.
    + now exists [].
    + intros _. split; [intros inp [] | intros h H1 H2; contradiction].
  - simpl. pose proof Hpre as (Hj & Hle & ND & HS).
    assert (Hanc' : forall i, In i rest ->
              mhas String.eqb (op_hash (prevout i)) m0 = true ->
              Ancestor m0 root (op_hash (prevout i))).
    { intros i Hi. apply Hanc. now right. }
    unfold bind at 1. unfold getEntry, gets.
    destruct (mget String.eqb (op_hash (prevout inp)) (mp_map s))
      as [parent|] eqn:G.
    2:{ (* the parent is not in the pool *)
      destruct (IH W s Hpre Hk Hanc')
        as (W' & s' & E & Hj' & HN & ND' & HS' & Hb & Hc).
      exists W', s'. split_post; auto.
      intros Hle'. destruct (Hc Hle') as (Hcov & Hcl). split; [|exact Hcl].
      intros i [<-|Hi] Hm.
      - rewrite (shape_None W s _ Hj G) in Hm. discriminate.
      - now apply Hcov. }
    destruct (set_has (op_hash (prevout inp)) W) eqn:Hhas.
    { (* already visited *)
      destruct (IH W s Hpre Hk Hanc')
        as (W' & s' & E & Hj' & HN & ND' & HS' & Hb & Hc).
      exists W', s'. split_post; auto.
      intros Hle'. destruct (Hc Hle') as (Hcov & Hcl). split; [|exact Hcl].
      intros i [<-|Hi] Hm.
      - destruct HN as (N & ->). apply in_or_app. right.
        now apply set_has_In.
      - now apply Hcov. }
    (* a new ancestor *)
    apply set_has_not_In in Hhas.
    destruct (shape_Some W s _ parent Hj G) as (p0 & G0 & Etx).
    assert (Hin0 : mhas String.eqb (op_hash (prevout inp)) m0 = true)
      by (apply mhas_true; eauto).
    assert (Ah : Ancestor m0 root (op_hash (prevout inp)))
      by (apply Hanc; [now left | exact Hin0]).
    unfold bind at 1. rewrite callFn_eq, G.
    remember (with_map
                (mset String.eqb (op_hash (prevout inp))
                   (apply_fn f parent (live child s)) (mp_map s)) s)
      as s1 eqn:Es1.
    assert (Hj1 : J (op_hash (prevout inp) :: W) s1)
      by (subst s1; now apply J_step).
    assert (ND1 : NoDup (op_hash (prevout inp) :: W)) by (now constructor).
    assert (HS1 : forall h, In h (op_hash (prevout inp) :: W) ->
                            Ancestor m0 root h).
    { intros h [<-|Hh]; auto. }
    fold maxA.
    destruct (Nat.ltb_spec maxA (S (List.length W))) as [Hover|Hunder].
    { (* the set is full: break *)
      exists (op_hash (prevout inp) :: W), s1. split_post; auto.
      - now exists [op_hash (prevout inp)].
      - simpl in *. lia.
      - intros C. simpl in *. lia. }
    assert (Hpre1 : pre (op_hash (prevout inp) :: W) s1).
    { unfold visitPre. simpl in *. repeat split; auto. }
    assert (Hk1 : (S maxA <= k + List.length (op_hash (prevout inp) :: W))%nat)
      by (simpl; lia).
    assert (Hpar : forall p, parentOf m0 (e_tx parent) p ->
                             Ancestor m0 root p).
    { intros p Hp. rewrite <- Etx in Hp.
      exact (Anc_grand Ah G0 Hp). }
    destruct (Hrec parent (op_hash (prevout inp) :: W) s1 Hpre1 Hk1 Hpar)
      as (S2 & s2 & E2 & Hj2 & (N2 & HN2) & ND2 & HS2 & Hb2 & Hc2).
    unfold bind at 1. rewrite E2.
    destruct (Nat.ltb_spec maxA (List.length S2)) as [Hover2|Hunder2].
    { (* full after the recursive call: break *)
      exists S2, s2. split_post; auto.
      - exists (N2 ++ [op_hash (prevout inp)]).
        rewrite HN2, <- app_assoc. reflexivity.
      - intros C. lia. }
    assert (Hpre2 : pre S2 s2) by (unfold pre; repeat split; auto).
    assert (Hk2 : (maxA <= k + List.length S2)%nat).
    { subst S2. rewrite length_app. simpl in *. lia. }
    destruct (IH S2 s2 Hpre2 Hk2 Hanc')
      as (S3 & s3 & E3 & Hj3 & (N3 & HN3) & ND3 & HS3 & Hb3 & Hc3).
    exists S3, s3. split_post; auto.
    { exists (N3 ++ N2 ++ [op_hash (prevout inp)]).
      rewrite HN3, HN2, <- !app_assoc. reflexivity. }
    intros Hle3. destruct (Hc3 Hle3) as (Hcov3 & Hcl3).
    destruct (Hc2 Hunder2) as (Hcov2 & Hcl2).
    assert (Sub23 : forall h, In h S2 -> In h S3).
    { intros h Hh. rewrite HN3. apply in_or_app. now right. }
    assert (Sub12 : forall h, In h (op_hash (prevout inp) :: W) -> In h S2).
    { intros h Hh. rewrite HN2. apply in_or_app. now right. }
    split.
    + intros i [<-|Hi] Hm.
      * apply Sub23, Sub12. now left.
      * now apply Hcov3.
    + apply (closedNew_trans W S2 S3 Sub23); [|exact Hcl3].
      intros h H2 HnS e Ge p Hp.
      destruct (string_dec h (op_hash (prevout inp))) as [->|Nh].
      * rewrite G0 in Ge. inversion Ge; subst e. rewrite Etx in Hp.
        now apply Hcov2.
      * apply (Hcl2 h H2) with (e := e); auto.
        intros [C|C]; [congruence | contradiction].
Qed.

Lemma visit_ok : forall fuel e W s,
  pre W s -> (S maxA <= fuel + List.length W)%nat ->
  (forall p, parentOf m0 (e_tx e) p -> Ancestor m0 root p) ->
  post (fun W' => forall p, parentOf m0 (e_tx e) p -> In p W') W
       (_countAncestors env fuel e W child f s).
Proof.
  induction fuel as [|fuel IH]; intros e W s Hpre Hfuel Hpar.
  - destruct Hpre as (_ & Hle & _). simpl in Hfuel. lia.
  - simpl.
    destruct (loop_ok fuel
                (fun parent set => _countAncestors env fuel parent set child f)
                IH (tx_inputs (e_tx e)) W s Hpre)
      as (W' & s' & E & Hj' & HN & ND' & HS' & Hb & Hc).
    { lia. }
    { intros inp Hin Hm. apply Hpar. split; [|exact Hm].
      apply in_map_iff. eauto. }
    exists W', s'. split_post; auto.
    intros Hle'. destruct (Hc Hle') as (Hcov & Hcl). split; [|exact Hcl].
    intros p (Hp & Hm).
    apply in_map_iff in Hp as (inp & <- & Hin). now apply Hcov.
Qed.

(** From the empty set: the traversal returns, with at most
    [maxAncestors + 1] hashes, all of them ancestors and no hash twice; and
    when it ends with at most [maxAncestors] hashes, these are all the
    ancestors. *)
Lemma traversal_ok e s :
  J [] s -> e_tx e = root ->
  exists V s',
    _countAncestors env (S maxA) e [] child f s = Ret V s' /\ J V s'
    /\ NoDup V /\ (forall h, In h V -> Ancestor m0 root h)
    /\ (List.length V <= S maxA)%nat
    /\ ((List.length V <= maxA)%nat -> forall h, Ancestor m0 root h -> In h V).
Proof.
  intros Hj Er.
  destruct (visit_ok (S maxA) e [] s)
    as (V & s' & E & Hj' & _ & ND & HS & Hb & Hc).
  - unfold visitPre. simpl. split; [exact Hj|]. split; [lia|].
    split; [constructor | intros h []].
  - simpl. lia.
  - intros p Hp. rewrite Er in Hp. now apply Anc_parent.
  - exists V, s'. repeat split; auto.
    intros Hle h Ha. destruct (Hc Hle) as (Hcov & Hcl).
    induction Ha as [p Hp | a e1 p Ha IHa G Hp].
    + apply Hcov. now rewrite Er.
    + apply (Hcl a IHa (fun C => C) e1 G p Hp).
Qed.
End Traversal.

Lemma mset_same (h : Hash) (p : MempoolEntry) m :
  mget String.eqb h m = Some p -> mset String.eqb h p m = m.
Proof.
  induction m as [|[h' e'] r IH]; simpl; [discriminate|].
  destruct (String.eqb_spec h h') as [->|N]; intros G.
  - now inversion G.
  - now rewrite IH.
Qed.

Lemma with_map_same s : with_map (mp_map s) s = s.
Proof. now destruct s. Qed.

(** [countAncestors] visits without changing the pool. *)
Lemma nop_step st W s h p c :
  s = st -> ~ In h W -> mget String.eqb h (mp_map s) = Some p ->
  with_map (mset String.eqb h (apply_fn Nop p c) (mp_map s)) s = st.
Proof.
  intros -> _ G. simpl. rewrite (mset_same h p _ G). apply with_map_same.
Qed.

Lemma sameShape_step f m0 child (W : list Hash) s h p :
  sameShape m0 s -> ~ In h W -> mget String.eqb h (mp_map s) = Some p ->
  sameShape m0
    (with_map (mset String.eqb h (apply_fn f p (live child s)) (mp_map s)) s).
Proof.
  intros Hs _ G h'. simpl. rewrite mget_mset.
  destruct (String.eqb_spec h h') as [<-|N]; [|apply Hs].
  rewrite <- (Hs h), G. simpl. now rewrite apply_fn_tx.
Qed.

Lemma addFeeSoFar_shape entry st W s :
  addFeeSoFar entry st W s -> sameShape (mp_map st) s.
Proof.
  intros (Hm & _) h. rewrite Hm.
  destruct (mget String.eqb h (mp_map st)) as [p|]; [|reflexivity].
  destruct (set_has h W); reflexivity.
Qed.

Lemma addFeeSoFar_start entry st : addFeeSoFar entry st [] st.
Proof.
  split; [|split; [reflexivity | symmetry; apply with_map_same]].
  intros h. now destruct (mget String.eqb h (mp_map st)).
Qed.

Lemma addFeeSoFar_step entry st W s h p :
  mget String.eqb (e_hash entry) (mp_map st) = Some entry ->
  addFeeSoFar entry st W s -> ~ In h W ->
  mget String.eqb h (mp_map s) = Some p ->
  addFeeSoFar entry st (h :: W)
    (with_map
       (mset String.eqb h (apply_fn AddFee p (live entry s)) (mp_map s)) s).
Proof.
  intros Hentry (Hm & Hk & Hs) Hn G.
  assert (Hp : mget String.eqb h (mp_map st) = Some p).
  { pose proof (Hm h) as E. rewrite G in E.
    destruct (mget String.eqb h (mp_map st)) as [p0|]; [|discriminate].
    apply set_has_not_In in Hn. rewrite Hn in E. congruence. }
  assert (Hlive : e_deltaFee (live entry s) = e_deltaFee entry /\
                  e_size (live entry s) = e_size entry).
  { unfold live. rewrite (Hm (e_hash entry)), Hentry.
    destruct (set_has (e_hash entry) W); simpl; auto. }
  assert (Happ : apply_fn AddFee p (live entry s) = addFee entry p).
  { unfold apply_fn, addFee. destruct Hlive as (-> & ->). reflexivity. }
  rewrite Happ. split; [|split].
  - intros h'. simpl. rewrite mget_mset.
    destruct (String.eqb_spec h h') as [<-|N].
    + rewrite Hp, String.eqb_refl. reflexivity.
    + rewrite Hm. destruct (mget String.eqb h' (mp_map st)); [|reflexivity].
      destruct (String.eqb_spec h' h); [congruence|]. reflexivity.
  - simpl. rewrite mkeys_mset_has; [exact Hk | apply String.eqb_spec |].
    apply mhas_true. eauto.
  - simpl. rewrite Hs at 2. reflexivity.
Qed.

(** The traversal always ends, with at most [maxAncestors + 1] hashes. *)
Lemma updateAncestors_bounded env entry f s :
  exists k s',
    updateAncestors env entry f s = Ret k s' /\
    (k <= S (maxAncestors (options env)))%nat.
Proof.
  destruct (traversal_ok env entry f (mp_map s) (e_tx entry)
              (fun _ => sameShape (mp_map s))
              (fun _ _ Hs => Hs)
              (sameShape_step f (mp_map s) entry)
              entry s (fun h => eq_refl) eq_refl)
    as (V & s' & E & _ & _ & _ & Hb & _).
  exists (List.length V), s'. split; [|exact Hb].
  unfold updateAncestors, ancestorFuel, bind. now rewrite E.
Qed.

(** [countAncestors] returns the number of distinct ancestors when that
    number is at most [maxAncestors], and leaves the pool as it is. *)
Lemma countAncestors_exact env entry s n s' :
  countAncestors env entry s = Ret n s' ->
  (n <= maxAncestors (options env))%nat ->
  s' = s /\
  exists V, NoDup V /\ List.length V = n /\
    forall h, Ancestor (mp_map s) (e_tx entry) h <-> In h V.
Proof.
  intros Hcount Hn.
  destruct (traversal_ok env entry Nop (mp_map s) (e_tx entry)
              (fun _ x => x = s)
              (fun _ x (E : x = s) h =>
                 f_equal (fun y => option_map e_tx
                                     (mget String.eqb h (mp_map y))) E)
              (fun W x h p => nop_step s W x h p (live entry x))
              entry s eq_refl eq_refl)
    as (V & sn & En & Jn & ND & H1 & _ & H2).
  unfold countAncestors, ancestorFuel, bind in Hcount.
  rewrite En in Hcount. inversion Hcount; subst.
  split; [reflexivity|]. exists V. split; [exact ND|].
  split; [reflexivity|].
  intros h. split; [now apply H2 | apply H1].
Qed.

(** The update, given any list of at most [maxAncestors] hashes that holds
    all the ancestors. *)
Lemma addFee_covers env entry st L :
  mget String.eqb (e_hash entry) (mp_map st) = Some entry ->
  (forall h, Ancestor (mp_map st) (e_tx entry) h -> In h L) ->
  (List.length L <= maxAncestors (options env))%nat ->
  exists k st',
    updateAncestors env entry AddFee st = Ret k st'
    /\ (k <= List.length L)%nat
    /\ (forall h p,
          mget String.eqb h (mp_map st) = Some p ->
          (Ancestor (mp_map st) (e_tx entry) h ->
           mget String.eqb h (mp_map st') = Some (addFee entry p))
          /\ (~ Ancestor (mp_map st) (e_tx entry) h ->
              mget String.eqb h (mp_map st') = Some p))
    /\ mkeys (mp_map st') = mkeys (mp_map st)
    /\ st' = with_map (mp_map st') st
    /\ exists V,
         NoDup V /\ List.length V = k /\
         forall h, In h V <-> Ancestor (mp_map st) (e_tx entry) h.
Proof.
  intros Hentry HL Hlen.
  destruct (traversal_ok env entry AddFee (mp_map st) (e_tx entry)
              (addFeeSoFar entry st)
              (addFeeSoFar_shape entry st)
              (fun W s h p => addFeeSoFar_step entry st W s h p Hentry)
              entry st (addFeeSoFar_start entry st) eq_refl)
    as (Va & sa & Ea & (Jm & Jk & Js) & NDa & Ha1 & _ & Ha2).
  assert (Hle : (List.length Va <= List.length L)%nat).
  { apply NoDup_incl_length; [exact NDa|]. intros h Hh. apply HL, Ha1, Hh. }
  assert (Hall : forall h, Ancestor (mp_map st) (e_tx entry) h -> In h Va).
  { apply Ha2. lia. }
  exists (List.length Va), sa. split; [|split; [|split; [|split; [|split]]]].
  - unfold updateAncestors, ancestorFuel, bind. now rewrite Ea.
  - exact Hle.
  - intros h p G. rewrite Jm, G. split.
    + intros A. apply Hall, set_has_In in A. now rewrite A.
    + intros A. destruct (set_has h Va) eqn:Hh; [|reflexivity].
      apply set_has_In in Hh. exfalso. apply A, Ha1, Hh.
  - exact Jk.
  - exact Js.
  - exists Va. split; [exact NDa|]. split; [reflexivity|].
    intros h. split; [apply Ha1 | apply Hall].
Qed.

(** Tracking the entry adds at most its own hash to its ancestors (and
    that only in a pool where an ancestor spends the entry itself). *)
Lemma Ancestor_after_track entry m h :
  mhas String.eqb (e_hash entry) m = false ->
  Ancestor (mset String.eqb (e_hash entry) entry m) (e_tx entry) h ->
  h = e_hash entry \/ Ancestor m (e_tx entry) h.
Proof.
  intros Hnew A.
  assert (Hpar : forall tx p,
            parentOf (mset String.eqb (e_hash entry) entry m) tx p ->
            p = e_hash entry \/ parentOf m tx p).
  { intros tx p (Hin & Hm). destruct (string_dec p (e_hash entry)) as [E|N];
      [now left|]. right. split; [exact Hin|].
    apply mhas_true in Hm as (e & G). rewrite mget_mset in G.
    destruct (String.eqb_spec (e_hash entry) p); [congruence|].
    apply mhas_true. eauto. }
  induction A as [p Hp | a e p A IH G Hp].
  - destruct (Hpar _ _ Hp) as [E|Hp']; [now left|]. right.
    now apply Anc_parent.
  - destruct (Hpar _ _ Hp) as [E|Hp']; [now left|]. right.
    rewrite mget_mset in G.
    destruct (String.eqb_spec (e_hash entry) a) as [Ea|Na].
    + inversion G; subst e. now apply Anc_parent.
    + destruct IH as [C|IH]; [congruence|].
      exact (Anc_grand IH G Hp').
Qed.

(** C5: let [entry] be in the pool and satisfy the admission bound
    [countAncestors(entry) + 1 <= maxAncestors], the count being taken on
    the pool as it is or, as [verify] does, on the pool just before the
    entry was tracked.  Then [updateAncestors(entry, addFee)] changes the
    pool in this way only: every in-pool ancestor of the entry has
    [descFee] increased by [entry.deltaFee] and [descSize] by [entry.size],
    once, and every other entry is as before.  It returns the number of
    distinct ancestors, which is the count itself when that was taken on
    the same pool.  Whatever the callback and the pool, the traversal ends
    after at most [maxAncestors + 1] visits. *)
Theorem updateAncestors_addFee env entry st sc n sc' :
  mget String.eqb (e_hash entry) (mp_map st) = Some entry ->
  countAncestors env entry sc = Ret n sc' ->
  (n + 1 <= maxAncestors (options env))%nat ->
  sc = st \/
  (mhas String.eqb (e_hash entry) (mp_map sc) = false /\
   mp_map st = mset String.eqb (e_hash entry) entry (mp_map sc)) ->
  (exists k st',
     updateAncestors env entry AddFee st = Ret k st'
     /\ (sc = st -> k = n)
     /\ (forall h p,
           mget String.eqb h (mp_map st) = Some p ->
           (Ancestor (mp_map st) (e_tx entry) h ->
            mget String.eqb h (mp_map st') = Some (addFee entry p))
           /\ (~ Ancestor (mp_map st) (e_tx entry) h ->
               mget String.eqb h (mp_map st') = Some p))
     /\ mkeys (mp_map st') = mkeys (mp_map st)
     /\ st' = with_map (mp_map st') st
     /\ exists V,
          NoDup V /\ List.length V = k /\
          forall h, In h V <-> Ancestor (mp_map st) (e_tx entry) h)
  /\ forall f s, exists k s',
       updateAncestors env entry f s = Ret k s' /\
       (k <= S (maxAncestors (options env)))%nat.
Proof.
  intros Hentry Hcount Hn Hsc. split; [|apply updateAncestors_bounded].
  destruct (countAncestors_exact env entry sc n sc' Hcount ltac:(lia))
    as (_ & Vc & NDc & Elen & Hc).
  destruct Hsc as [->|(Hnew & Emap)].
  - (* counted on the same pool *)
    destruct (addFee_covers env entry st Vc Hentry
                (fun h A => proj1 (Hc h) A) ltac:(lia))
      as (k & st' & E & Hk & Eff & Ek & Es & V & ND & EV & HV).
    exists k, st'. split; [exact E|]. split.
    + intros _.
      assert (Hge : (List.length Vc <= List.length V)%nat).
      { apply NoDup_incl_length; [exact NDc|].
        intros h Hh. apply HV, Hc, Hh. }
      lia.
    + split; [exact Eff|]. split; [exact Ek|]. split; [exact Es|].
      exists V. auto.
  - (* counted before the entry was tracked *)
    assert (HL : forall h, Ancestor (mp_map st) (e_tx entry) h ->
                           In h (e_hash entry :: Vc)).
    { intros h A. rewrite Emap in A.
      destruct (Ancestor_after_track entry (mp_map sc) h Hnew A) as [->|A'].
      - now left.
      - right. now apply Hc. }
    destruct (addFee_covers env entry st (e_hash entry :: Vc) Hentry HL
                ltac:(simpl; lia))
      as (k & st' & E & Hk & Eff & Ek & Es & HV).
    exists k, st'. split; [exact E|]. split.
    + intros ->. exfalso. apply mhas_false in Hnew. congruence.
    + split; [exact Eff|]. split; [exact Ek|]. split; [exact Es|].
      exact HV.
Qed.

Lemma updateAncestors_addFee_witness :
  exists k st',
    updateAncestors demo_env demo_a4 AddFee demo_chain_pool = Ret k st' /\
    k = 3%nat /\
    forall p,
      mget String.eqb "a1" (mp_map demo_chain_pool) = Some p ->
      mget String.eqb "a1" (mp_map st') = Some (addFee demo_a4 p).
Proof.
  assert (H : mget String.eqb (e_hash demo_a4) (mp_map demo_chain_pool)
              = Some demo_a4) by (vm_compute; reflexivity).
  assert (C : countAncestors demo_env demo_a4 demo_chain_pool
              = Ret 3%nat demo_chain_pool) by (vm_compute; reflexivity).
  assert (B : (3 + 1 <= maxAncestors (options demo_env))%nat)
    by (vm_compute; repeat constructor).
  destruct (proj1 (updateAncestors_addFee demo_env demo_a4 demo_chain_pool
                     demo_chain_pool 3%nat demo_chain_pool H C B
                     (or_introl eq_refl)))
    as (k & st' & E & Ek & Eff & _).
  exists k, st'. split; [exact E|]. split; [exact (Ek eq_refl)|].
  intros p G.
  apply (proj1 (Eff "a1" p G)). apply Anc_parent. split.
  - simpl. auto.
  - vm_compute. reflexivity.
Defined.

(** The figures of the example: [a4] has the three ancestors [a1], [a2],
    [a3]; each receives [a4]'s fee 40 and size 100 once, although [a1] is
    reached on two paths. *)
Example updateAncestors_demo :
  List.map (fun he => (fst he, e_descFee (snd he), e_descSize (snd he)))
    (mp_map (poolOf (updateAncestors demo_env demo_a4 AddFee demo_chain_pool)
               demo_new)) =
  [("a1", 50, 200); ("a2", 60, 200); ("a3", 70, 200); ("a4", 40, 100)].
Proof. vm_compute. reflexivity. Qed.

(** * Further properties of the code *)

(** ** The comparator as an ordering *)

(** X1: on entries with positive sizes whose fees are at most [F] and
    whose sizes are at most [S] in magnitude, with [F * S < 2^53] so that
    the products of the comparator are exact doubles, the comparator of
    the eviction heap is a consistent ordering: an entry compares equal to
    itself, and both [cmpRate a b < 0] and [cmpRate a b <= 0] are
    transitive. *)
Theorem cmpRate_transitive (F S : Z) (a b c : MempoolEntry) :
  F * S < 2 ^ 53 -> within F S a -> within F S b -> within F S c ->
  sized a -> sized b -> sized c ->
  cmpRate a a = 0
  /\ (cmpRate a b < 0 -> cmpRate b c < 0 -> cmpRate a c < 0)
  /\ (cmpRate a b <= 0 -> cmpRate b c <= 0 -> cmpRate a c <= 0).
Proof.
  intros HFS Wa Wb Wc Sa Sb Sc. split; [|split].
  - apply cmpRate_refl.
  - intros Hab Hbc.
    apply (cmpRate_ordersBy F S HFS a b Wa Wb Sa Sb) in Hab.
    apply (cmpRate_ordersBy F S HFS b c Wb Wc Sb Sc) in Hbc.
    apply (cmpRate_ordersBy F S HFS a c Wa Wc Sa Sc).
    destruct Hab as [Hab|[Eab Tab]], Hbc as [Hbc|[Ebc Tbc]].
    + left. exact (Qlt_trans _ _ _ Hab Hbc).
    + left. now rewrite <- Ebc.
    + left. now rewrite Eab.
    + right. split; [now rewrite Eab | lia].
  - intros Hab Hbc.
    apply (cmpRate_le_iff F S HFS a b Wa Wb Sa Sb) in Hab.
    apply (cmpRate_le_iff F S HFS b c Wb Wc Sb Sc) in Hbc.
    apply (cmpRate_le_iff F S HFS a c Wa Wc Sa Sc).
    destruct Hab as [Hab|[Eab Tab]], Hbc as [Hbc|[Ebc Tbc]].
    + left. exact (Qlt_trans _ _ _ Hab Hbc).
    + left. now rewrite <- Ebc.
    + left. now rewrite Eab.
    + right. split; [now rewrite Eab | lia].
Qed.

Lemma cmpRate_transitive_witness :
  let a := mkEntry "a" [] 1 1 1 0 1 1 in
  let b := mkEntry "b" [] 1 3 1 0 3 1 in
  let c := mkEntry "c" [] 1 1 1 0 10 2 in
  cmpRate a b < 0 /\ cmpRate b c < 0 /\ cmpRate a c < 0.
Proof.
  cbv zeta.
  assert (Sa : sized (mkEntry "a" [] 1 1 1 0 1 1)) by (unfold sized; simpl; lia).
  assert (Sb : sized (mkEntry "b" [] 1 3 1 0 3 1)) by (unfold sized; simpl; lia).
  assert (Sc : sized (mkEntry "c" [] 1 1 1 0 10 2)) by (unfold sized; simpl; lia).
  assert (Wa : within 10 2 (mkEntry "a" [] 1 1 1 0 1 1))
    by (unfold within; simpl; lia).
  assert (Wb : within 10 2 (mkEntry "b" [] 1 3 1 0 3 1))
    by (unfold within; simpl; lia).
  assert (Wc : within 10 2 (mkEntry "c" [] 1 1 1 0 10 2))
    by (unfold within; simpl; lia).
  assert (HFS : 10 * 2 < 2 ^ 53) by lia.
  assert (Hab : cmpRate (mkEntry "a" [] 1 1 1 0 1 1)
                        (mkEntry "b" [] 1 3 1 0 3 1) < 0)
    by (vm_compute; reflexivity).
  assert (Hbc : cmpRate (mkEntry "b" [] 1 3 1 0 3 1)
                        (mkEntry "c" [] 1 1 1 0 10 2) < 0)
    by (vm_compute; reflexivity).
  split; [exact Hab|]. split; [exact Hbc|].
  exact (proj1 (proj2 (cmpRate_transitive 10 2 _ _ _ HFS Wa Wb Wc Sa Sb Sc))
           Hab Hbc).
Defined.

(** Beyond the exact range the comparator is not transitive: [a] and [b]
    have the same rate and [a] is older; the products of [b] and [c] round
    to the same double and [b] is older; but [a] has a higher rate than
    [c], by exact products. *)
Example cmpRate_rounding_breaks_order :
  let a := mkEntry "a" [] 1 60046400905 100002 1 60046400905 100002 in
  let b := mkEntry "b" [] 1 180139202715 300006 2 180139202715 300006 in
  let c := mkEntry "c" [] 1 60047001357 100003 3 60047001357 100003 in
  cmpRate a b < 0 /\ cmpRate b c < 0 /\ cmpRate a c > 0.
Proof. cbv zeta. repeat split; vm_compute; reflexivity. Qed.

(** ** Orphans *)

Lemma smget_mset {V} h h' (v : V) (m : list (Hash * V)) :
  mget String.eqb h' (mset String.eqb h v m) =
  if String.eqb h h' then Some v else mget String.eqb h' m.
Proof.
  destruct (String.eqb_spec h h') as [->|N].
  - apply mget_mset_eq, String.eqb_spec.
  - now apply mget_mset_ne; [apply String.eqb_spec|].
Qed.

Lemma smget_mdelete {V} h h' (m : list (Hash * V)) :
  mget String.eqb h' (mdelete String.eqb h m) =
  if String.eqb h h' then None else mget String.eqb h' m.
Proof.
  destruct (String.eqb_spec h h') as [->|N].
  - apply mget_mdelete_eq.
  - now apply mget_mdelete_ne; [apply String.eqb_spec|].
Qed.

Lemma set_add_In h x set : In x (set_add h set) <-> x = h \/ In x set.
Proof.
  unfold set_add. destruct (set_has h set) eqn:E.
  - apply set_has_In in E. split; [auto | intros [->|H]; auto].
  - rewrite in_app_iff. simpl. split; [intros [H|[H|[]]]; auto | intros [->|H]; auto].
Qed.

Lemma set_add_NoDup h set : NoDup set -> NoDup (set_add h set).
Proof.
  intros ND. unfold set_add. destruct (set_has h set) eqn:E; [exact ND|].
  apply set_has_not_In in E. apply NoDup_app; [exact ND | |].
  - constructor; [intros [] | constructor].
  - intros x Hx [<-|[]]. contradiction.
Qed.

Lemma fold_set_add_NoDup {A} (g : A -> Hash) l : forall acc,
  NoDup acc -> NoDup (fold_left (fun acc x => set_add (g x) acc) l acc).
Proof.
  induction l as [|x r IH]; intros acc ND; simpl; [exact ND|].
  apply IH. now apply set_add_NoDup.
Qed.

Lemma getPrevout_NoDup tx : NoDup (getPrevout tx).
Proof. apply fold_set_add_NoDup. constructor. Qed.

Lemma fold_set_add_In {A} (g : A -> Hash) l : forall acc h,
  In h (fold_left (fun acc x => set_add (g x) acc) l acc) <->
  In h acc \/ exists x, In x l /\ g x = h.
Proof.
  induction l as [|x r IH]; intros acc h; simpl.
  - split; [auto | intros [H|(x & [] & _)]; exact H].
  - rewrite IH, set_add_In. split.
    + intros [[->|H]|(y & Hy & E)]; eauto.
    + intros [H|(y & [->|Hy] & E)]; eauto.
Qed.

Lemma getPrevout_In tx h :
  In h (getPrevout tx) <->
  exists inp, In inp (tx_inputs tx) /\ op_hash (prevout inp) = h.
Proof.
  unfold getPrevout. rewrite fold_set_add_In. simpl. tauto.
Qed.

Lemma set_delete_In h x set : In x (set_delete h set) <-> In x set /\ x <> h.
Proof.
  unfold set_delete. rewrite filter_In. split; intros [H1 H2]; split; auto.
  - intros ->. now rewrite String.eqb_refl in H2.
  - destruct (String.eqb_spec h x); [congruence | reflexivity].
Qed.

Lemma unlinkOrphan_eq hash prev s :
  unlinkOrphan hash prev s =
  match mget String.eqb prev (mp_waiting s) with
  | None => Ret tt s
  | Some set =>
      if set_has hash set
      then Ret tt (with_waiting (unlinkAll hash [prev] (mp_waiting s)) s)
      else Thr (AssertionErr "set.has(hash)") s
  end.
Proof.
  unfold unlinkOrphan, unlinkAll, bind, gets. simpl.
  destruct (mget String.eqb prev (mp_waiting s)) as [set|]; [|reflexivity].
  destruct (set_has hash set); simpl; [|reflexivity].
  destruct (List.length (set_delete hash set) =? 0)%nat; reflexivity.
Qed.

Lemma mget_unlinkAll (hash : Hash) (prevs : list Hash) : forall w (p : Hash),
  NoDup prevs ->
  mget String.eqb p (unlinkAll hash prevs w) =
  if set_has p prevs then withoutOrphan hash (mget String.eqb p w)
  else mget String.eqb p w.
Proof.
  unfold unlinkAll.
  induction prevs as [|prev rest IH]; intros w p ND; simpl; [reflexivity|].
  inversion ND as [|? ? Hnin ND']; subst.
  rewrite (IH _ p ND').
  destruct (String.eqb_spec p prev) as [->|N]; simpl.
  - apply set_has_not_In in Hnin. rewrite Hnin.
    destruct (mget String.eqb prev w) as [set|] eqn:G; simpl.
    + destruct (List.length (set_delete hash set) =? 0)%nat.
      * now rewrite smget_mdelete, String.eqb_refl.
      * now rewrite smget_mset, String.eqb_refl.
    + exact G.
  - assert (E : mget String.eqb p
                  match mget String.eqb prev w with
                  | Some set =>
                      if (List.length (set_delete hash set) =? 0)%nat
                      then mdelete String.eqb prev
                             (mset String.eqb prev (set_delete hash set) w)
                      else mset String.eqb prev (set_delete hash set) w
                  | None => w
                  end = mget String.eqb p w).
    { destruct (mget String.eqb prev w) as [set|]; [|reflexivity].
      destruct (List.length (set_delete hash set) =? 0)%nat.
      - rewrite smget_mdelete, smget_mset.
        destruct (String.eqb_spec prev p); [congruence | reflexivity].
      - rewrite smget_mset.
        destruct (String.eqb_spec prev p); [congruence | reflexivity]. }
    rewrite E. reflexivity.
Qed.

Lemma mp_waiting_with w s : mp_waiting (with_waiting w s) = w.
Proof. reflexivity. Qed.

Lemma NoDup_single {A} (x : A) : NoDup [x].
Proof. constructor; [intros [] | constructor]. Qed.

(** One step of the loop leaves the waiting sets of the other parents. *)
Lemma mget_unlink_other (hash prev : Hash) w (p : Hash) :
  p <> prev ->
  mget String.eqb p (unlinkAll hash [prev] w) = mget String.eqb p w.
Proof.
  intros N. rewrite mget_unlinkAll by apply NoDup_single.
  simpl. destruct (String.eqb_spec p prev); [contradiction | reflexivity].
Qed.

Lemma unlinkAll_cons (hash prev : Hash) (rest : list Hash) w :
  unlinkAll hash (prev :: rest) w =
  unlinkAll hash rest (unlinkAll hash [prev] w).
Proof. reflexivity. Qed.

Lemma unlinkAll_absent (hash prev : Hash) w :
  mget String.eqb prev w = None -> unlinkAll hash [prev] w = w.
Proof. intros G. unfold unlinkAll. simpl. now rewrite G. Qed.

Lemma unlink_loop_ok (hash : Hash) (prevs : list Hash) : forall s,
  NoDup prevs ->
  (forall prev set, In prev prevs ->
     mget String.eqb prev (mp_waiting s) = Some set ->
     set_has hash set = true) ->
  forEach prevs (unlinkOrphan hash) s =
  Ret tt (with_waiting (unlinkAll hash prevs (mp_waiting s)) s).
Proof.
  induction prevs as [|prev rest IH]; intros s ND H.
  - simpl. unfold ret. f_equal. now destruct s.
  - inversion ND as [|? ? Hnin ND']; subst.
    rewrite unlinkAll_cons. cbn [forEach]. unfold bind.
    rewrite unlinkOrphan_eq.
    destruct (mget String.eqb prev (mp_waiting s)) as [set|] eqn:G.
    + rewrite (H prev set (or_introl eq_refl) G).
      rewrite IH; [|exact ND'|].
      * reflexivity.
      * intros p set' Hp G'. rewrite mp_waiting_with in G'.
        apply (H p set'); [now right|].
        rewrite <- G'. symmetry. apply mget_unlink_other.
        intros ->. contradiction.
    + rewrite IH; [|exact ND'|].
      * do 3 f_equal. symmetry. now apply unlinkAll_absent.
      * intros p set' Hp. apply H. now right.
Qed.

Lemma unlink_loop_fail (hash : Hash) (prevs : list Hash) :
  forall s (prev : Hash) set,
  NoDup prevs -> In prev prevs ->
  mget String.eqb prev (mp_waiting s) = Some set ->
  set_has hash set = false ->
  exists s',
    forEach prevs (unlinkOrphan hash) s =
      Thr (AssertionErr "set.has(hash)") s'
    /\ s' = with_waiting (mp_waiting s') s.
Proof.
  induction prevs as [|p0 rest IH]; intros s prev set ND Hin G Hno.
  - destruct Hin.
  - inversion ND as [|? ? Hnin ND']; subst.
    simpl. unfold bind. rewrite unlinkOrphan_eq.
    destruct Hin as [->|Hin].
    + rewrite G, Hno. exists s. split; [reflexivity | now destruct s].
    + destruct (mget String.eqb p0 (mp_waiting s)) as [set0|] eqn:G0.
      * destruct (set_has hash set0).
        -- destruct (IH (with_waiting (unlinkAll hash [p0] (mp_waiting s)) s)
                        prev set ND' Hin) as (s' & E & Es); [|exact Hno|].
           { rewrite mp_waiting_with, <- G. apply mget_unlink_other.
             intros ->. contradiction. }
           exists s'. split; [exact E|]. rewrite Es. reflexivity.
        -- exists s. split; [reflexivity | now destruct s].
      * destruct (IH s prev set ND' Hin G Hno) as (s' & E & Es).
        exists s'. split; [exact E | exact Es].
Qed.

Lemma removeOrphan_eq hash s :
  removeOrphan hash s =
  match mget String.eqb hash (mp_orphans s) with
  | None => Ret false s
  | Some orphan =>
      match toTX orphan with
      | None =>
          Ret false (with_orphans (mdelete String.eqb hash (mp_orphans s)) s)
      | Some tx =>
          match forEach (getPrevout tx) (unlinkOrphan hash) s with
          | Ret _ s1 =>
              Ret true
                (with_events (EvRemoveOrphan tx :: mp_events s1)
                   (with_orphans (mdelete String.eqb hash (mp_orphans s1)) s1))
          | Thr e s1 => Thr e s1
          | OutOfFuel => OutOfFuel
          end
      end
  end.
Proof.
  unfold removeOrphan, bind at 1, getOrphan, gets.
  destruct (mget String.eqb hash (mp_orphans s)) as [o|]; [|reflexivity].
  destruct (toTX o) as [tx|]; [|reflexivity].
  unfold bind at 1.
  change (forEach (getPrevout tx) _ s)
    with (forEach (getPrevout tx) (unlinkOrphan hash) s).
  destruct (forEach (getPrevout tx) (unlinkOrphan hash) s); reflexivity.
Qed.

Lemma not_linked (hash : Hash) tx s :
  linked hash tx s = false ->
  exists (prev : Hash) set,
    In prev (getPrevout tx) /\
    mget String.eqb prev (mp_waiting s) = Some set /\
    set_has hash set = false.
Proof.
  unfold linked. intros L.
  induction (getPrevout tx) as [|p r IH]; simpl in L; [discriminate|].
  apply andb_false_iff in L as [L|L].
  - destruct (mget String.eqb p (mp_waiting s)) as [set|] eqn:G;
      [|discriminate].
    exists p, set. split; [now left | auto].
  - destruct (IH L) as (q & set & Hq & E). exists q, set.
    split; [now right | exact E].
Qed.

(** X2: what [removeOrphan(hash)] does, case by case.  Without an orphan
    under [hash] it returns false and changes nothing; an orphan whose
    bytes do not decode is deleted and the result is false.  Otherwise, if
    every waiting set of a parent of the orphan's transaction holds
    [hash], the result is true: the orphan is deleted, [hash] is taken out
    of the waiting sets of its parents, sets that become empty are
    dropped, the other waiting sets and orphans are as before and
    ['remove orphan'] is emitted.  If the waiting set of some parent lacks
    [hash], the assertion throws and the orphan stays in the orphan map. *)
Theorem removeOrphan_outcome (hash : Hash) (s : Mempool) :
  match mget String.eqb hash (mp_orphans s) with
  | None => removeOrphan hash s = Ret false s
  | Some orphan =>
      match toTX orphan with
      | None =>
          removeOrphan hash s =
          Ret false (with_orphans (mdelete String.eqb hash (mp_orphans s)) s)
      | Some tx =>
          if linked hash tx s then
            exists s',
              removeOrphan hash s = Ret true s'
              /\ (forall h, mget String.eqb h (mp_orphans s') =
                    if String.eqb hash h then None
                    else mget String.eqb h (mp_orphans s))
              /\ (forall p, mget String.eqb p (mp_waiting s') =
                    if set_has p (getPrevout tx)
                    then withoutOrphan hash (mget String.eqb p (mp_waiting s))
                    else mget String.eqb p (mp_waiting s))
              /\ mp_events s' = EvRemoveOrphan tx :: mp_events s
              /\ mp_map s' = mp_map s /\ mp_spents s' = mp_spents s
              /\ mp_size s' = mp_size s /\ mp_rejects s' = mp_rejects s
          else
            exists s',
              removeOrphan hash s = Thr (AssertionErr "set.has(hash)") s'
              /\ mp_orphans s' = mp_orphans s
              /\ mp_map s' = mp_map s /\ mp_spents s' = mp_spents s
              /\ mp_size s' = mp_size s /\ mp_events s' = mp_events s
      end
  end.
Proof.
  rewrite removeOrphan_eq.
  destruct (mget String.eqb hash (mp_orphans s)) as [o|]; [|reflexivity].
  destruct (toTX o) as [tx|]; [|reflexivity].
  destruct (linked hash tx s) eqn:L.
  - unfold linked in L. rewrite unlink_loop_ok.
    + eexists. split; [reflexivity|]. simpl.
      split; [intros h; apply smget_mdelete|].
      split; [|repeat split].
      intros p. apply mget_unlinkAll, getPrevout_NoDup.
    + apply getPrevout_NoDup.
    + intros prev set Hin G. rewrite forallb_forall in L.
      specialize (L prev Hin). now rewrite G in L.
  - destruct (not_linked hash tx s L) as (prev & set & Hin & G & Hp).
    destruct (unlink_loop_fail hash (getPrevout tx) s prev set
                (getPrevout_NoDup tx) Hin G Hp) as (s' & E & Es).
    rewrite E. exists s'. split; [reflexivity|].
    rewrite Es. simpl. repeat split.
Qed.

(** X3: [_addBlock] stops on a stale waiting set.  Let the pool be
    non-empty and the last transaction of the block be absent from the
    pool but stored as an orphan, and let the waiting set of one of that
    orphan's parents lack it (the parent was resolved once and other
    orphans wait for it again).  Then [removeOrphan] fails its assertion
    on the first transaction [_addBlock] visits and [_addBlock] throws:
    no transaction of the block is processed, the tip is not advanced and
    the reject filter is not reset. *)
Theorem addBlock_stale_waiting_set env fuel block (front : list TX) tx
  orphan otx (s : Mempool) :
  front <> [] ->
  mp_map s <> [] ->
  mget String.eqb (tx_hash tx) (mp_map s) = None ->
  mget String.eqb (tx_hash tx) (mp_orphans s) = Some orphan ->
  toTX orphan = Some otx ->
  linked (tx_hash tx) otx s = false ->
  exists s',
    _addBlock env fuel block (front ++ [tx]) s =
      Thr (AssertionErr "set.has(hash)") s'
    /\ mp_tip s' = mp_tip s /\ mp_rejects s' = mp_rejects s
    /\ mp_map s' = mp_map s /\ mp_spents s' = mp_spents s
    /\ mp_size s' = mp_size s /\ mp_orphans s' = mp_orphans s
    /\ mp_events s' = mp_events s.
Proof.
  intros Hfront Hmap Hno Ho Htx L.
  destruct (not_linked _ _ _ L) as (prev & set & Hin & G & Hp).
  destruct (unlink_loop_fail (tx_hash tx) (getPrevout otx) s prev set
              (getPrevout_NoDup otx) Hin G Hp) as (s' & E & Es).
  exists s'.
  assert (Hrev : exists r, rev (tl (front ++ [tx])) = tx :: r).
  { destruct front as [|c mid]; [congruence|]. simpl.
    rewrite rev_app_distr. simpl. eauto. }
  destruct Hrev as (r & Hrev).
  split.
  - assert (Hn : (List.length (mp_map s) =? 0)%nat = false)
      by (destruct (mp_map s); [congruence | reflexivity]).
    unfold _addBlock. unfold bind at 1. unfold gets. rewrite Hn, Hrev.
    cbn [forEach]. unfold bind at 1. unfold bind at 1.
    unfold addBlock_step. unfold bind at 1. unfold getEntry, gets.
    rewrite Hno.
    unfold bind at 1. rewrite removeOrphan_eq, Ho, Htx, E. reflexivity.
  - rewrite Es. simpl. repeat split.
Qed.

Lemma addBlock_stale_waiting_set_witness :
  calls demo_env 5 demo_stale_calls demo_new = Some demo_stale /\
  exists s',
    _addBlock demo_env 5 demo_block2 [demo_coinbase; demo_o13] demo_stale =
      Thr (AssertionErr "set.has(hash)") s' /\
    mp_tip s' = "b1".
Proof.
  split; [vm_compute; reflexivity|].
  assert (H1 : [demo_coinbase] <> []) by discriminate.
  assert (H2 : mp_map demo_stale <> []) by discriminate.
  assert (H3 : mget String.eqb (tx_hash demo_o13) (mp_map demo_stale) = None)
    by reflexivity.
  assert (H4 : mget String.eqb (tx_hash demo_o13) (mp_orphans demo_stale) =
               Some {| o_raw := RawTX demo_o13; o_missing := 1; o_id := -1 |})
    by reflexivity.
  assert (H6 : linked (tx_hash demo_o13) demo_o13 demo_stale = false)
    by reflexivity.
  destruct (addBlock_stale_waiting_set demo_env 5 demo_block2 [demo_coinbase]
              demo_o13 _ demo_o13 demo_stale H1 H2 H3 H4 eq_refl H6)
    as (s' & E & T & _).
  exists s'. split; [exact E | exact T].
Defined.

(** *** Enrolling an orphan *)

Lemma linkAll_cons (hash prev : Hash) (rest : list Hash) w :
  linkAll hash (prev :: rest) w = linkAll hash rest (linkAll hash [prev] w).
Proof. reflexivity. Qed.

Lemma mget_linkAll (hash : Hash) (prevs : list Hash) : forall w (p : Hash),
  NoDup prevs ->
  mget String.eqb p (linkAll hash prevs w) =
  if set_has p prevs
  then Some (set_add hash
               match mget String.eqb p w with
               | Some set => set
               | None => []
               end)
  else mget String.eqb p w.
Proof.
  induction prevs as [|prev rest IH]; intros w p ND; [reflexivity|].
  inversion ND as [|? ? Hnin ND']; subst.
  rewrite linkAll_cons, (IH _ p ND').
  unfold linkAll at 1 2. simpl. rewrite !smget_mset.
  destruct (String.eqb_spec p prev) as [->|N]; simpl.
  - apply set_has_not_In in Hnin. rewrite Hnin, String.eqb_refl. reflexivity.
  - destruct (String.eqb_spec prev p); [congruence | reflexivity].
Qed.

Lemma link_loop (hash : Hash) (prevs : list Hash) : forall s,
  forEach prevs (fun prev =>
    modify (fun s =>
      let set :=
        match mget String.eqb prev (mp_waiting s) with
        | Some set => set
        | None => []
        end in
      with_waiting
        (mset String.eqb prev (set_add hash set) (mp_waiting s)) s)) s =
  Ret tt (with_waiting (linkAll hash prevs (mp_waiting s)) s).
Proof.
  induction prevs as [|prev rest IH]; intros s.
  - simpl. unfold ret. f_equal. now destruct s.
  - rewrite linkAll_cons. cbn [forEach]. unfold bind, modify at 1.
    rewrite IH. reflexivity.
Qed.

Lemma dropPath_false env tx view s :
  dropPath env tx view s = false ->
  hasMissing view tx = true ->
  dropsOnParent view s tx = false /\ overweight env tx = false /\
  (maxOrphans (options env) =? 0)%nat = false.
Proof.
  unfold dropPath. intros H M. rewrite M in H. simpl in H.
  apply orb_false_elim in H as [H1 H2].
  apply orb_false_elim in H2 as [H2 H3]. auto.
Qed.

Lemma maybeOrphan_store_eq env tx view id s :
  dropPath env tx view s = false ->
  hasMissing view tx = true ->
  maybeOrphan env tx view id s =
  match limitOrphans env s with
  | Ret _ s1 =>
      let missing := scanHashes view (tx_inputs tx) [] in
      Ret (Some missing)
        (with_events (EvAddOrphan tx :: mp_events s1)
           (with_orphans
              (mset String.eqb (tx_hash tx) (orphanOf tx missing id)
                 (mp_orphans s1))
              (with_waiting (linkAll (tx_hash tx) missing (mp_waiting s1))
                 s1)))
  | Thr e s1 => Thr e s1
  | OutOfFuel => OutOfFuel
  end.
Proof.
  intros D M. destruct (dropPath_false env tx view s D M) as (P & W & O).
  unfold maybeOrphan. unfold bind at 1. rewrite maybeOrphan_scan_eq.
  fold (dropsOnParent view s tx). rewrite P.
  pose proof (scanHashes_not_nil view (tx_inputs tx) [] (or_intror M)) as N.
  destruct (scanHashes view (tx_inputs tx) []) as [|h r] eqn:E; [congruence|].
  cbn [List.length Nat.eqb]. fold (overweight env tx). rewrite W, O.
  unfold bind at 1.
  destruct (limitOrphans env s) as [b s1|e s1|]; try reflexivity.
  unfold bind at 1. rewrite link_loop. reflexivity.
Qed.

Lemma scanHashes_In view inputs : forall (acc : list Hash) (h : Hash),
  In h (scanHashes view inputs acc) <->
  In h acc \/
  exists inp, In inp inputs /\ unresolved view inp = true /\
              op_hash (prevout inp) = h.
Proof.
  unfold scanHashes.
  induction inputs as [|inp rest IH]; intros acc h; simpl.
  - split; [auto | intros [H|(x & [] & _)]; exact H].
  - rewrite IH. destruct (unresolved view inp) eqn:U.
    + rewrite set_add_In. split.
      * intros [[->|H]|(y & Hy & E1 & E2)].
        -- right. exists inp. auto.
        -- now left.
        -- right. exists y. auto.
      * intros [H|(y & [->|Hy] & E1 & E2)].
        -- left. now right.
        -- left. now left.
        -- right. exists y. auto.
    + split.
      * intros [H|(y & Hy & E1 & E2)]; [now left|].
        right. exists y. auto.
      * intros [H|(y & [->|Hy] & E1 & E2)]; [now left | congruence |].
        right. exists y. auto.
Qed.

Lemma scanHashes_NoDup view inputs : forall (acc : list Hash),
  NoDup acc -> NoDup (scanHashes view inputs acc).
Proof.
  unfold scanHashes.
  induction inputs as [|inp rest IH]; intros acc ND; simpl; [exact ND|].
  apply IH. destruct (unresolved view inp); [|exact ND].
  now apply set_add_NoDup.
Qed.

(** X4: when [maybeOrphan] stores a transaction (some input unresolved, no
    drop path taken, [limitOrphans] returned), it returns the distinct
    hashes of the parents of its unresolved inputs, none of which is in
    the pool or in the reject filter; the orphan map holds the transaction
    under its hash with that many parents missing and the sender's id; and
    the transaction's hash has joined the waiting set of each of these
    parents and of no other. *)
Theorem maybeOrphan_stores env tx view id (s s1 : Mempool) (b : bool) :
  dropPath env tx view s = false ->
  hasMissing view tx = true ->
  limitOrphans env s = Ret b s1 ->
  exists missing s',
    maybeOrphan env tx view id s = Ret (Some missing) s'
    /\ missing <> [] /\ NoDup missing
    /\ (forall p : Hash, In p missing <->
          exists inp, In inp (tx_inputs tx) /\ unresolved view inp = true /\
                      op_hash (prevout inp) = p)
    /\ (forall p : Hash, In p missing ->
          mhas String.eqb p (mp_map s) = false /\
          set_has p (mp_rejects s) = false)
    /\ (forall h : Hash, mget String.eqb h (mp_orphans s') =
          if String.eqb (tx_hash tx) h
          then Some {| o_raw := toRaw tx;
                       o_missing := Z.of_nat (List.length missing);
                       o_id := id |}
          else mget String.eqb h (mp_orphans s1))
    /\ (forall p : Hash, mget String.eqb p (mp_waiting s') =
          if set_has p missing
          then Some (set_add (tx_hash tx)
                       match mget String.eqb p (mp_waiting s1) with
                       | Some set => set
                       | None => []
                       end)
          else mget String.eqb p (mp_waiting s1))
    /\ mp_events s' = EvAddOrphan tx :: mp_events s1
    /\ mp_map s' = mp_map s1.
Proof.
  intros D M L.
  pose proof (maybeOrphan_store_eq env tx view id s D M) as E.
  rewrite L in E. cbv zeta in E.
  assert (ND : NoDup (scanHashes view (tx_inputs tx) []))
    by (apply scanHashes_NoDup; constructor).
  eexists. eexists. split; [exact E|].
  split; [apply scanHashes_not_nil; now right|].
  split; [exact ND|]. split; [|split; [|split; [|split; [|split]]]].
  - intros p. rewrite scanHashes_In. simpl. tauto.
  - intros p Hp. apply scanHashes_In in Hp as [[]|(inp & Hin & U & <-)].
    destruct (dropPath_false env tx view s D M) as (P & _).
    unfold dropsOnParent in P.
    assert (B : unresolved view inp && badParent s inp = false).
    { destruct (unresolved view inp && badParent s inp) eqn:C; [|reflexivity].
      rewrite <- P. symmetry. apply existsb_exists. eauto. }
    rewrite U in B. simpl in B. unfold badParent in B.
    apply orb_false_elim in B as [B1 B2]. auto.
  - intros h. simpl. apply smget_mset.
  - intros p. simpl. now apply mget_linkAll.
  - reflexivity.
  - reflexivity.
Qed.

Lemma maybeOrphan_stores_witness :
  exists missing s',
    maybeOrphan demo_env demo_o [] 7 demo_new = Ret (Some missing) s' /\
    missing <> [].
Proof.
  destruct (maybeOrphan_stores demo_env demo_o [] 7 demo_new demo_new false
              eq_refl eq_refl eq_refl) as (m & s' & E & N & _).
  exists m, s'. split; [exact E | exact N].
Defined.

(** *** Releasing an orphan *)

Lemma resolveOrphans_single (h : Hash) (parent : TX) o s :
  mget String.eqb (tx_hash parent) (mp_waiting s) = Some [h] ->
  mget String.eqb h (mp_orphans s) = Some o ->
  resolveOrphans parent s =
  Ret (if o_missing o - 1 =? 0 then [decremented o] else [])
      (with_waiting (mdelete String.eqb (tx_hash parent) (mp_waiting s))
         (with_orphans
            (if o_missing o - 1 =? 0
             then mdelete String.eqb h
                    (mset String.eqb h (decremented o) (mp_orphans s))
             else mset String.eqb h (decremented o) (mp_orphans s))
            s)).
Proof.
  intros W O. unfold resolveOrphans, bind at 1, gets. rewrite W.
  cbn [List.length Nat.ltb Nat.leb assert]. unfold bind at 1, ret at 1.
  cbn [resolveOrphans_loop]. unfold bind at 1. unfold bind at 1.
  unfold getOrphan, gets. rewrite O. unfold bind at 1, modify at 1.
  cbn [o_missing].
  destruct (o_missing o - 1 =? 0); reflexivity.
Qed.

Lemma resolveEach_counts (h : Hash) raw id : forall (F B : list TX) s,
  NoDup (List.map tx_hash (F ++ B)) ->
  mget String.eqb h (mp_orphans s) =
    Some {| o_raw := raw; o_missing := Z.of_nat (List.length (F ++ B));
            o_id := id |} ->
  (forall p, In p (F ++ B) ->
     mget String.eqb (tx_hash p) (mp_waiting s) = Some [h]) ->
  exists s',
    resolveEach F s =
      Ret match F, B with
          | _ :: _, [] => [{| o_raw := raw; o_missing := 0; o_id := id |}]
          | _, _ => []
          end s'
    /\ (forall k : Hash, mget String.eqb k (mp_orphans s') =
          if String.eqb h k
          then match F, B with
               | _ :: _, [] => None
               | _, _ =>
                   Some {| o_raw := raw;
                           o_missing := Z.of_nat (List.length B);
                           o_id := id |}
               end
          else mget String.eqb k (mp_orphans s))
    /\ (forall p : Hash, mget String.eqb p (mp_waiting s') =
          if set_has p (List.map tx_hash F) then None
          else mget String.eqb p (mp_waiting s))
    /\ mp_map s' = mp_map s /\ mp_spents s' = mp_spents s
    /\ mp_size s' = mp_size s /\ mp_rejects s' = mp_rejects s
    /\ mp_events s' = mp_events s /\ mp_tip s' = mp_tip s.
Proof.
  induction F as [|p F' IH]; intros B s ND O W.
  - exists s. split; [reflexivity|]. split; [|split; [|repeat split]].
    + intros k. destruct (String.eqb_spec h k) as [<-|N]; [|reflexivity].
      exact O.
    + reflexivity.
  - simpl in ND. inversion ND as [|? ? Hnin ND']; subst.
    pose proof (W p (or_introl eq_refl)) as Wp.
    cbn [resolveEach]. unfold bind at 1.
    rewrite (resolveOrphans_single h p _ s Wp O). cbn [o_missing].
    remember (F' ++ B) as R eqn:ER.
    assert (Hlen : Z.of_nat (List.length ((p :: F') ++ B)) - 1 =
                   Z.of_nat (List.length R)).
    { change ((p :: F') ++ B) with (p :: (F' ++ B)). rewrite <- ER.
      cbn [List.length]. lia. }
    rewrite Hlen.
    destruct R as [|q R'].
    + (* the last parent: the orphan is released *)
      symmetry in ER. apply app_eq_nil in ER as (-> & ->).
      cbn [List.length Z.of_nat Z.eqb resolveEach]. unfold bind, ret.
      eexists. split; [reflexivity|].
      split; [|split; [|repeat split]].
      * intros k. simpl. rewrite smget_mdelete, smget_mset.
        destruct (String.eqb h k); reflexivity.
      * intros q. simpl. rewrite smget_mdelete.
        rewrite (String.eqb_sym q). destruct (String.eqb (tx_hash p) q);
          reflexivity.
    + (* other parents are still missing *)
      assert (Hnz : (Z.of_nat (List.length (q :: R')) =? 0) = false)
        by (apply Z.eqb_neq; simpl; lia).
      rewrite Hnz.
      destruct (IH B
                  (with_waiting
                     (mdelete String.eqb (tx_hash p) (mp_waiting s))
                     (with_orphans
                        (mset String.eqb h
                           (decremented
                              {| o_raw := raw;
                                 o_missing :=
                                   Z.of_nat (List.length ((p :: F') ++ B));
                                 o_id := id |})
                           (mp_orphans s)) s)))
        as (s' & E & Ho & Hw & Hrest).
      * rewrite <- ER. exact ND'.
      * cbn [mp_orphans with_orphans with_waiting].
        rewrite smget_mset, String.eqb_refl. unfold decremented.
        cbn [o_raw o_missing o_id]. rewrite Hlen, ER. reflexivity.
      * intros p' Hp'. simpl. rewrite smget_mdelete.
        destruct (String.eqb_spec (tx_hash p) (tx_hash p')) as [Eq|Nq].
        -- exfalso. apply Hnin. rewrite Eq, ER. apply in_map. exact Hp'.
        -- apply W. now right.
      * unfold bind at 1. rewrite E. unfold ret. eexists.
        split.
        { f_equal. destruct F' as [|f F'']; destruct B as [|b' B'];
            try reflexivity. discriminate ER. }
        split; [|split; [|exact Hrest]].
        -- intros k. rewrite Ho. simpl. rewrite smget_mset.
           destruct (String.eqb h k); [|reflexivity].
           destruct F' as [|f F'']; destruct B as [|b' B'];
             try reflexivity. discriminate ER.
        -- intros p'. rewrite Hw. simpl. rewrite smget_mdelete.
           rewrite (String.eqb_sym p').
           destruct (String.eqb (tx_hash p) p'); simpl;
             [now destruct (set_has p' (List.map tx_hash F'))|reflexivity].
Qed.

Lemma limitOrphans_below env s :
  (List.length (mp_orphans s) < maxOrphans (options env))%nat ->
  limitOrphans env s = Ret false s.
Proof.
  intros H. unfold limitOrphans, bind, gets.
  apply Nat.ltb_lt in H. now rewrite H.
Qed.

(** X5: the count of missing parents releases an orphan exactly once, when
    the last of its parents is resolved.  Let [maybeOrphan] store [tx]
    (below the orphan limit, with no orphan under its hash yet) and let no
    other orphan wait for its missing parents.  Then resolving these
    parents one after the other releases nothing until the last one,
    which releases the orphan with its bytes and sender id and a count
    of 0; after that the orphan and waiting maps are as they were before
    the transaction arrived. *)
Theorem orphan_released_by_last_parent env tx view id (s : Mempool)
  (parents : list TX) :
  dropPath env tx view s = false ->
  hasMissing view tx = true ->
  (List.length (mp_orphans s) < maxOrphans (options env))%nat ->
  mget String.eqb (tx_hash tx) (mp_orphans s) = None ->
  List.map tx_hash parents = scanHashes view (tx_inputs tx) [] ->
  (forall p, In p parents ->
     mget String.eqb (tx_hash p) (mp_waiting s) = None) ->
  exists s1,
    maybeOrphan env tx view id s = Ret (Some (List.map tx_hash parents)) s1
    /\ (forall front back, parents = front ++ back ->
          exists s2,
            resolveEach front s1 =
            Ret match front, back with
                | _ :: _, [] =>
                    [{| o_raw := toRaw tx; o_missing := 0; o_id := id |}]
                | _, _ => []
                end s2)
    /\ exists s2,
         resolveEach parents s1 =
           Ret [{| o_raw := toRaw tx; o_missing := 0; o_id := id |}] s2
         /\ (forall k : Hash, mget String.eqb k (mp_orphans s2) =
                              mget String.eqb k (mp_orphans s))
         /\ (forall p : Hash, mget String.eqb p (mp_waiting s2) =
                              mget String.eqb p (mp_waiting s))
         /\ mp_map s2 = mp_map s /\ mp_spents s2 = mp_spents s
         /\ mp_size s2 = mp_size s /\ mp_rejects s2 = mp_rejects s
         /\ mp_events s2 = EvAddOrphan tx :: mp_events s.
Proof.
  intros D M Hlim Hnew Hpar Hfresh.
  pose proof (maybeOrphan_store_eq env tx view id s D M) as E.
  rewrite (limitOrphans_below env s Hlim) in E. cbv zeta in E.
  rewrite <- Hpar in E.
  assert (ND : NoDup (List.map tx_hash parents)).
  { rewrite Hpar. apply scanHashes_NoDup. constructor. }
  assert (Hne : parents <> []).
  { intros ->. symmetry in Hpar. revert Hpar.
    apply scanHashes_not_nil. now right. }
  match type of E with _ = Ret _ ?x => set (s1 := x) in * end.
  exists s1. split; [exact E|].
  assert (HO : mget String.eqb (tx_hash tx) (mp_orphans s1) =
               Some {| o_raw := toRaw tx;
                       o_missing := Z.of_nat (List.length parents);
                       o_id := id |}).
  { unfold s1. cbn [mp_orphans with_events with_orphans].
    rewrite smget_mset, String.eqb_refl. unfold orphanOf.
    now rewrite length_map. }
  assert (HW : forall p, In p parents ->
                 mget String.eqb (tx_hash p) (mp_waiting s1) =
                 Some [tx_hash tx]).
  { intros p Hp. unfold s1.
    cbn [mp_waiting with_events with_orphans with_waiting].
    rewrite mget_linkAll by exact ND.
    assert (Hs : set_has (tx_hash p) (List.map tx_hash parents) = true)
      by (apply set_has_In, in_map; exact Hp).
    rewrite Hs, (Hfresh p Hp). reflexivity. }
  assert (Ho1 : forall k : Hash, mget String.eqb k (mp_orphans s1) =
                  if String.eqb (tx_hash tx) k
                  then mget String.eqb k (mp_orphans s1)
                  else mget String.eqb k (mp_orphans s)).
  { intros k. unfold s1. cbn [mp_orphans with_events with_orphans].
    rewrite smget_mset. now destruct (String.eqb (tx_hash tx) k). }
  assert (Hw1 : forall p : Hash,
                  set_has p (List.map tx_hash parents) = false ->
                  mget String.eqb p (mp_waiting s1) =
                  mget String.eqb p (mp_waiting s)).
  { intros p Hs. unfold s1.
    cbn [mp_waiting with_events with_orphans with_waiting].
    rewrite mget_linkAll by exact ND. now rewrite Hs. }
  assert (Hev1 : mp_events s1 = EvAddOrphan tx :: mp_events s)
    by reflexivity.
  assert (Hfr1 : mp_map s1 = mp_map s /\ mp_spents s1 = mp_spents s /\
                 mp_size s1 = mp_size s /\ mp_rejects s1 = mp_rejects s)
    by (repeat split).
  clearbody s1. clear E.
  split.
  - intros front back EP. subst parents.
    destruct (resolveEach_counts (tx_hash tx) (toRaw tx) id front back s1
                ND HO HW) as (s2 & E2 & _).
    eauto.
  - rewrite <- (app_nil_r parents) in ND, HO, HW.
    destruct (resolveEach_counts (tx_hash tx) (toRaw tx) id parents [] s1
                ND HO HW)
      as (s2 & E2 & Ho & Hw & Hm & Hsp & Hsz & Hr & Hev & _).
    exists s2. destruct parents as [|p0 rest]; [congruence|].
    destruct Hfr1 as (F1 & F2 & F3 & F4).
    split; [exact E2|].
    split; [|split; [|repeat split; congruence]].
    + intros k. rewrite Ho.
      destruct (String.eqb_spec (tx_hash tx) k) as [<-|N].
      * now rewrite Hnew.
      * rewrite Ho1. destruct (String.eqb_spec (tx_hash tx) k);
          [contradiction | reflexivity].
    + intros p. rewrite Hw.
      destruct (set_has p (List.map tx_hash (p0 :: rest))) eqn:Hs.
      * apply set_has_In, in_map_iff in Hs as (q & <- & Hq).
        now rewrite Hfresh.
      * now apply Hw1.
Qed.

Lemma orphan_released_by_last_parent_witness :
  let p3 := mkTX "p3" [mkInput "utxo" 7] 1 in
  exists s1 s2,
    maybeOrphan demo_env demo_o13 [] 7 demo_new = Ret (Some ["p1"; "p3"]) s1 /\
    resolveEach [demo_p1] s1 = Ret [] s2 /\
    exists s3,
      resolveEach [demo_p1; p3] s1 =
      Ret [{| o_raw := RawTX demo_o13; o_missing := 0; o_id := 7 |}] s3.
Proof.
  cbv zeta.
  assert (Hlim : (List.length (mp_orphans demo_new)
                  < maxOrphans (options demo_env))%nat)
    by (vm_compute; repeat constructor).
  assert (Hfresh : forall p,
            In p [demo_p1; mkTX "p3" [mkInput "utxo" 7] 1] ->
            mget String.eqb (tx_hash p) (mp_waiting demo_new) = None)
    by (intros p _; reflexivity).
  destruct (orphan_released_by_last_parent demo_env demo_o13 [] 7 demo_new
              [demo_p1; mkTX "p3" [mkInput "utxo" 7] 1]
              eq_refl eq_refl Hlim eq_refl eq_refl Hfresh)
    as (s1 & E1 & Hpre & s3 & E3 & _).
  destruct (Hpre [demo_p1] [mkTX "p3" [mkInput "utxo" 7] 1] eq_refl)
    as (s2 & E2).
  exists s1, s2. split; [exact E1|]. split; [exact E2|].
  exists s3. exact E3.
Defined.

(** ** Invariants of the orphan and waiting maps *)

(** An invariant of the orphan and waiting maps that [removeOrphan],
    [maybeOrphan], [resolveOrphans] and [_reset] keep is kept by every
    call on the pool: nothing else writes to these maps. *)
Section OrphanInvariant.
Variable env : Env.
Variable I : Mempool -> Prop.

Hypothesis I_other : forall s s',
  mp_orphans s' = mp_orphans s -> mp_waiting s' = mp_waiting s ->
  I s -> I s'.
Hypothesis I_removeOrphan : forall h, preserves I (removeOrphan h).
Hypothesis I_maybeOrphan : forall tx view id,
  preserves I (maybeOrphan env tx view id).
Hypothesis I_resolveOrphans : forall parent,
  preserves I (resolveOrphans parent).
Hypothesis I_reset : forall s, I s -> I (poolOf (_reset env s) s).

Ltac pres_frame :=
  apply preserves_modify; intros ? ?; eapply I_other; [| |eassumption];
  reflexivity.

Ltac pres_o := pres; try pres_frame.

Lemma oinv_emit ev : preserves I (emit ev).
Proof. unfold emit. pres_frame. Qed.

Lemma oinv_rejects_add h : preserves I (rejects_add h).
Proof. unfold rejects_add. pres_frame. Qed.

Lemma oinv_trackEntry e : preserves I (trackEntry env e).
Proof. unfold trackEntry, hasEntry. pres_o. Qed.

Lemma oinv_untrackEntry e : preserves I (untrackEntry env e).
Proof. unfold untrackEntry, hasEntry. pres_o. Qed.

Lemma oinv_removeEntry e : preserves I (removeEntry env e).
Proof.
  unfold removeEntry. pres; [apply oinv_untrackEntry | apply oinv_emit].
Qed.

Lemma oinv_removeSpenders fuel : forall e,
  preserves I (removeSpenders env fuel e).
Proof.
  induction fuel as [|fuel IH]; intros e; simpl.
  - apply preserves_outOfFuel.
  - unfold getSpent. pres; [apply IH | apply oinv_removeEntry].
Qed.

Lemma oinv_callFn f h c : preserves I (callFn f h c).
Proof.
  unfold callFn. apply preserves_modify. intros s Hs.
  destruct (mget String.eqb h (mp_map s)); [|exact Hs].
  eapply I_other; [| |exact Hs]; reflexivity.
Qed.

Lemma oinv_countAncestors_loop rec child f :
  (forall p set, preserves I (rec p set)) ->
  forall inputs set,
    preserves I (countAncestors_loop env rec child f inputs set).
Proof.
  intros Hrec. induction inputs as [|inp rest IH]; intros set; simpl.
  - apply preserves_ret.
  - unfold getEntry. pres; try apply IH; try apply oinv_callFn;
      try apply Hrec.
Qed.

Lemma oinv__countAncestors fuel : forall e set child f,
  preserves I (_countAncestors env fuel e set child f).
Proof.
  induction fuel as [|fuel IH]; intros e set child f; simpl.
  - apply preserves_outOfFuel.
  - apply oinv_countAncestors_loop. intros p set'. apply IH.
Qed.

Lemma oinv_updateAncestors e f : preserves I (updateAncestors env e f).
Proof. unfold updateAncestors. pres. apply oinv__countAncestors. Qed.

Lemma oinv_countAncestors e : preserves I (countAncestors env e).
Proof. unfold countAncestors. pres. apply oinv__countAncestors. Qed.

Lemma oinv_evictEntry fuel e : preserves I (evictEntry env fuel e).
Proof.
  unfold evictEntry. pres;
    [apply oinv_removeSpenders | apply oinv_updateAncestors
    | apply oinv_removeEntry].
Qed.

Lemma oinv_limitSize_expire fuel : forall hashes queue,
  preserves I (limitSize_expire env fuel hashes queue).
Proof.
  induction hashes as [|h rest IH]; intros queue; simpl.
  - apply preserves_ret.
  - unfold getEntry, hasDepends. pres; try apply IH.
    apply oinv_evictEntry.
Qed.

Lemma oinv_limitSize_evict fuel : forall n queue,
  preserves I (limitSize_evict env fuel n queue).
Proof.
  induction n as [|n IH]; intros queue; simpl.
  - apply preserves_ret.
  - unfold hasEntry. pres; try apply IH. apply oinv_evictEntry.
Qed.

Lemma oinv_limitSize fuel added : preserves I (limitSize env fuel added).
Proof.
  unfold limitSize, hasEntry. pres;
    try apply oinv_limitSize_expire; try apply oinv_limitSize_evict.
Qed.

Lemma oinv_getCoinView_loop : forall inputs view,
  preserves I (getCoinView_loop env inputs view).
Proof.
  induction inputs as [|inp rest IH]; intros view; simpl.
  - apply preserves_ret.
  - unfold getTX, getEntry. pres; apply IH.
Qed.

Lemma oinv_verifyInputs tx view flags :
  preserves I (verifyInputs env tx view flags).
Proof. unfold verifyInputs. pres. Qed.

Lemma oinv_verifyResult tx view flags :
  preserves I (verifyResult env tx view flags).
Proof. unfold verifyResult. pres. apply oinv_verifyInputs. Qed.

Lemma oinv_verify e view : preserves I (verify env e view).
Proof.
  unfold verify. pres_o; try apply oinv_countAncestors;
    try apply oinv_verifyInputs; try apply oinv_verifyResult.
Qed.

Lemma oinv_gates tx : preserves I (insertTX_gates env tx).
Proof.
  unfold insertTX_gates, exists_, hasOrphan, hasEntry. pres.
Qed.

Lemma oinv_removeDoubleSpends fuel tx :
  preserves I (removeDoubleSpends env fuel tx).
Proof.
  unfold removeDoubleSpends, getSpent. pres;
    [apply oinv_evictEntry | apply oinv_emit].
Qed.

Lemma oinv_handleOrphans_step rec orphan :
  (forall tx id, preserves I (rec tx id)) ->
  preserves I (handleOrphans_step env rec orphan).
Proof.
  intros Hrec. unfold handleOrphans_step. pres; try apply Hrec;
    try apply oinv_rejects_add; try apply oinv_emit;
    try apply I_removeOrphan.
Qed.

Lemma oinv_handleOrphans_body rec parent :
  (forall tx id, preserves I (rec tx id)) ->
  preserves I (handleOrphans_body env rec parent).
Proof.
  intros Hrec. unfold handleOrphans_body. pres;
    [apply I_resolveOrphans | now apply oinv_handleOrphans_step].
Qed.

Lemma oinv_insertTX_body fuel rec tx id :
  (forall tx id, preserves I (rec tx id)) ->
  preserves I (insertTX_body env fuel rec tx id).
Proof.
  intros Hrec. unfold insertTX_body, addEntry_body, isDoubleSpend,
    getCoinView. pres;
    try apply oinv_gates; try apply oinv_emit;
    try apply oinv_getCoinView_loop;
    try apply I_maybeOrphan; try apply oinv_verify;
    try apply oinv_trackEntry; try apply oinv_updateAncestors;
    try apply oinv_limitSize; try now apply oinv_handleOrphans_body.
Qed.

Lemma oinv_insertTX fuel : forall tx id,
  preserves I (insertTX env fuel tx id).
Proof.
  induction fuel as [|fuel IH]; intros tx id; simpl.
  - apply preserves_outOfFuel.
  - now apply oinv_insertTX_body.
Qed.

Lemma oinv_addTX fuel tx id : preserves I (_addTX env fuel tx id).
Proof.
  unfold _addTX. pres_o; try apply oinv_insertTX; apply oinv_rejects_add.
Qed.

Lemma oinv_removeBlock_step fuel block tx :
  preserves I (removeBlock_step env fuel block tx).
Proof.
  unfold removeBlock_step, hasEntry, emitError. pres;
    try apply oinv_insertTX; apply oinv_emit.
Qed.

Lemma oinv_removeBlock fuel block txs :
  preserves I (_removeBlock env fuel block txs).
Proof.
  unfold _removeBlock, rejects_reset. pres_o.
  apply oinv_removeBlock_step.
Qed.

Lemma oinv_addBlock_step fuel block tx :
  preserves I (addBlock_step env fuel block tx).
Proof.
  unfold addBlock_step, getEntry, handleOrphans. pres;
    try apply I_removeOrphan; try apply oinv_removeDoubleSpends;
    try apply oinv_removeEntry; try apply oinv_emit.
  apply oinv_handleOrphans_body. apply oinv_insertTX.
Qed.

Lemma oinv_addBlock fuel block txs :
  preserves I (_addBlock env fuel block txs).
Proof.
  unfold _addBlock, rejects_reset. pres_o.
  apply oinv_addBlock_step.
Qed.

Lemma oinv_call fuel c : preserves I (call env fuel c).
Proof.
  destruct c as [tx id|block txs|block txs|]; simpl.
  - pres. apply oinv_addTX.
  - apply oinv_addBlock.
  - apply oinv_removeBlock.
  - intros s Hs. exact (I_reset s Hs).
Qed.

End OrphanInvariant.

(** *** The orphan limit *)

Lemma length_mdelete_le {V} (k : Hash) (m : list (Hash * V)) :
  (List.length (mdelete String.eqb k m) <= List.length m)%nat.
Proof.
  induction m as [|[k' v] r IH]; simpl; [(unfold Hash in *; lia)|].
  destruct (String.eqb k k'); simpl; (unfold Hash in *; lia).
Qed.

Lemma length_mdelete_lt {V} (k : Hash) (m : list (Hash * V)) v :
  mget String.eqb k m = Some v ->
  (List.length (mdelete String.eqb k m) < List.length m)%nat.
Proof.
  induction m as [|[k' v'] r IH]; simpl; [discriminate|].
  destruct (String.eqb k k'); simpl.
  - intros _. pose proof (length_mdelete_le k r). (unfold Hash in *; lia).
  - intros G. specialize (IH G). (unfold Hash in *; lia).
Qed.

Lemma length_mset_le {V} (k : Hash) (v : V) (m : list (Hash * V)) :
  (List.length (mset String.eqb k v m) <= S (List.length m))%nat.
Proof.
  induction m as [|[k' v'] r IH]; simpl; [(unfold Hash in *; lia)|].
  destruct (String.eqb k k'); simpl; (unfold Hash in *; lia).
Qed.

Lemma length_mset_present {V} (k : Hash) (v v0 : V) (m : list (Hash * V)) :
  mget String.eqb k m = Some v0 ->
  List.length (mset String.eqb k v m) = List.length m.
Proof.
  induction m as [|[k' v'] r IH]; simpl; [discriminate|].
  destruct (String.eqb k k'); simpl; [reflexivity|].
  intros G. now rewrite (IH G).
Qed.

Lemma pickKey_In index : forall (keys : list Hash) cur h,
  pickKey index keys cur = Some h -> In h keys \/ cur = Some h.
Proof.
  induction index as [|i IH]; intros keys cur h; destruct keys as [|k r];
    simpl; intros E; auto.
  - inversion E. left. now left.
  - destruct (IH r (Some k) h E) as [H|H].
    + left. now right.
    + inversion H. left. now left.
Qed.

Lemma pickKey_nonempty index : forall (keys : list Hash) cur,
  keys <> [] -> exists h, pickKey index keys cur = Some h.
Proof.
  induction index as [|i IH]; intros keys cur N; destruct keys as [|k r];
    try congruence; simpl; eauto.
  destruct r as [|k' r']; [destruct i; simpl; eauto|].
  apply IH. discriminate.
Qed.

Lemma In_mkeys_mget {V} (k : Hash) (m : list (Hash * V)) :
  In k (mkeys m) -> exists v, mget String.eqb k m = Some v.
Proof.
  intros H. destruct (mget String.eqb k m) as [v|] eqn:G; [eauto|].
  apply (mget_None_keys String.eqb String.eqb_spec) in G. contradiction.
Qed.

Lemma cap_removeOrphan N (h : Hash) :
  preserves (fun s => (List.length (mp_orphans s) <= N)%nat) (removeOrphan h).
Proof.
  unfold removeOrphan, getOrphan, emit. pres;
    apply preserves_modify; intros s Hs; simpl;
    first [ exact Hs
          | pose proof (length_mdelete_le h (mp_orphans s));
            unfold Hash in *; lia ].
Qed.

(** [limitOrphans] makes room for one orphan when it returns. *)
Lemma limitOrphans_room env :
  maxOrphans (options env) <> O ->
  hoare (orphansCapped env) (limitOrphans env)
    (fun _ s => (List.length (mp_orphans s) < maxOrphans (options env))%nat)
    (fun _ s => orphansCapped env s).
Proof.
  intros Hmax s Hs. unfold orphansCapped in *.
  unfold limitOrphans. unfold bind at 1. unfold gets.
  destruct (Nat.ltb_spec (List.length (mp_orphans s))
              (maxOrphans (options env))) as [Hlt|Hge]; [exact Hlt|].
  unfold bind at 1. unfold gets.
  assert (Hkeys : mkeys (mp_orphans s) <> []).
  { destruct (mp_orphans s); simpl in *; [lia | discriminate]. }
  destruct (pickKey_nonempty
              (randomRange env 0 (List.length (mp_orphans s)))
              (mkeys (mp_orphans s)) None Hkeys) as (h & Eh).
  rewrite Eh.
  destruct (pickKey_In _ _ _ _ Eh) as [Hin|C]; [|discriminate].
  destruct (In_mkeys_mget h _ Hin) as (o & Go).
  unfold bind at 1.
  destruct (negb (String.eqb h "")); simpl; [|exact Hs].
  unfold bind at 1. rewrite removeOrphan_eq, Go.
  destruct (toTX o) as [tx|].
  - pose proof (preserves_forEach (fun x => mp_orphans x = mp_orphans s)
                  (getPrevout tx) (unlinkOrphan h)) as P.
    assert (Hu : forall prev, In prev (getPrevout tx) ->
              preserves (fun x => mp_orphans x = mp_orphans s)
                (unlinkOrphan h prev)).
    { intros prev _. unfold unlinkOrphan. pres;
        apply preserves_modify; intros x Hx; exact Hx. }
    specialize (P Hu s eq_refl).
    destruct (forEach (getPrevout tx) (unlinkOrphan h) s) as [u s1|e s1|].
    + simpl. rewrite P. pose proof (length_mdelete_lt h _ o Go). (unfold Hash in *; lia).
    + now rewrite P.
    + exact Logic.I.
  - simpl. pose proof (length_mdelete_lt h _ o Go). (unfold Hash in *; lia).
Qed.

Lemma scanHashes_none view inputs :
  existsb (unresolved view) inputs = false ->
  forall acc : list Hash, scanHashes view inputs acc = acc.
Proof.
  unfold scanHashes. induction inputs as [|inp rest IH]; simpl; [auto|].
  intros H acc. apply orb_false_elim in H as [H1 H2]. rewrite H1.
  now apply IH.
Qed.

Lemma cap_maybeOrphan env tx view id :
  preserves (orphansCapped env) (maybeOrphan env tx view id).
Proof.
  intros s Hs.
  destruct (dropPath env tx view s) eqn:D.
  { rewrite (maybeOrphan_drop_eq env tx view id s D).
    unfold dropPool. destruct (_ || _); exact Hs. }
  destruct (hasMissing view tx) eqn:M.
  - rewrite (maybeOrphan_store_eq env tx view id s D M).
    destruct (dropPath_false env tx view s D M) as (_ & _ & O).
    apply Nat.eqb_neq in O.
    pose proof (limitOrphans_room env O s Hs) as P.
    destruct (limitOrphans env s) as [b s1|e s1|]; [|exact P|exact Logic.I].
    unfold orphansCapped. simpl.
    pose proof (length_mset_le (tx_hash tx)
                  (orphanOf tx (scanHashes view (tx_inputs tx) []) id)
                  (mp_orphans s1)). (unfold Hash in *; lia).
  - unfold dropPath in D. apply orb_false_elim in D as [P _].
    unfold maybeOrphan. unfold bind at 1. rewrite maybeOrphan_scan_eq.
    fold (dropsOnParent view s tx). rewrite P.
    unfold hasMissing in M. rewrite (scanHashes_none view _ M).
    simpl. exact Hs.
Qed.

Lemma cap_resolveOrphans_loop N : forall (hashes : list Hash) resolved,
  preserves (fun s => (List.length (mp_orphans s) <= N)%nat)
    (resolveOrphans_loop hashes resolved).
Proof.
  induction hashes as [|h rest IH]; intros resolved s Hs; simpl.
  - exact Hs.
  - unfold bind at 1. unfold getOrphan, gets.
    destruct (mget String.eqb h (mp_orphans s)) as [o|] eqn:G; [|exact Hs].
    unfold bind at 1. unfold modify at 1. simpl.
    destruct (o_missing o - 1 =? 0).
    + unfold bind at 1. unfold modify at 1. apply IH. simpl.
      pose proof (length_mdelete_le h
                    (mset String.eqb h
                       {| o_raw := o_raw o; o_missing := o_missing o - 1;
                          o_id := o_id o |} (mp_orphans s))) as L1.
      rewrite (length_mset_present h _ o _ G) in L1. (unfold Hash in *; lia).
    + apply IH. simpl. rewrite (length_mset_present h _ o _ G). exact Hs.
Qed.

Lemma cap_resolveOrphans N parent :
  preserves (fun s => (List.length (mp_orphans s) <= N)%nat)
    (resolveOrphans parent).
Proof.
  unfold resolveOrphans. pres; try apply cap_resolveOrphans_loop.
  apply preserves_modify. intros s Hs. exact Hs.
Qed.

(** ** What a call leaves untouched *)

Section NoVerifyRules.
Lemma nv_ret {A} (a : A) : noVerify (ret a).
Proof. intros s. exact Logic.I. Qed.

Lemma nv_throw {A} e : isVerifyError e = false -> noVerify (@throw A e).
Proof. intros H s. exact H. Qed.

Lemma nv_outOfFuel {A} : noVerify (@outOfFuel A).
Proof. intros s. exact Logic.I. Qed.

Lemma nv_gets {A} (f : Mempool -> A) : noVerify (gets f).
Proof. intros s. exact Logic.I. Qed.

Lemma nv_modify f : noVerify (modify f).
Proof. intros s. exact Logic.I. Qed.

Lemma nv_assert b msg : noVerify (assert b msg).
Proof. intros s. now destruct b. Qed.

Lemma nv_bind {A B} (m : M A) (k : A -> M B) :
  noVerify m -> (forall a, noVerify (k a)) -> noVerify (bind m k).
Proof.
  intros Hm Hk s. unfold bind. specialize (Hm s).
  destruct (m s) as [a s1|e s1|]; auto. apply Hk.
Qed.

(** The handler decides: whatever the block throws. *)
Lemma nv_try_catch {A} (m : M A) (h : Exn -> M A) :
  (forall e, noVerify (h e)) -> noVerify (try_catch m h).
Proof.
  intros Hh s. unfold try_catch. destruct (m s) as [a s1|e s1|]; auto.
  apply Hh.
Qed.

Lemma nv_when b m : noVerify m -> noVerify (when b m).
Proof. destruct b; [auto | intros _; apply nv_ret]. Qed.

Lemma nv_forEach {A} (l : list A) body :
  (forall x, In x l -> noVerify (body x)) -> noVerify (forEach l body).
Proof.
  induction l as [|x r IH]; intros H; simpl.
  - apply nv_ret.
  - apply nv_bind; [apply H; now left|].
    intros _. apply IH. intros y Hy. apply H. now right.
Qed.
End NoVerifyRules.

Ltac nv_step :=
  match goal with
  | |- noVerify (ret _) => apply nv_ret
  | |- noVerify (throw (AssertionErr _)) => apply nv_throw; reflexivity
  | |- noVerify outOfFuel => apply nv_outOfFuel
  | |- noVerify (gets _) => apply nv_gets
  | |- noVerify (modify _) => apply nv_modify
  | |- noVerify (emit _) => apply nv_modify
  | |- noVerify (rejects_add _) => apply nv_modify
  | |- noVerify (assert _ _) => apply nv_assert
  | |- noVerify (when _ _) => apply nv_when
  | |- noVerify (bind _ _) => apply nv_bind; [|intros ?]
  | |- noVerify (forEach _ _) => apply nv_forEach; intros ? ?
  | |- noVerify (match ?x with _ => _ end) => destruct x
  | |- noVerify (let _ := _ in _) => cbv zeta
  end.

Ltac nv := repeat nv_step.

Lemma nv_trackEntry env e : noVerify (trackEntry env e).
Proof. unfold trackEntry, hasEntry. nv. Qed.

Lemma nv_untrackEntry env e : noVerify (untrackEntry env e).
Proof. unfold untrackEntry, hasEntry. nv. Qed.

Lemma nv_removeEntry env e : noVerify (removeEntry env e).
Proof. unfold removeEntry. nv. apply nv_untrackEntry. Qed.

Lemma nv_removeSpenders env fuel : forall e,
  noVerify (removeSpenders env fuel e).
Proof.
  induction fuel as [|fuel IH]; intros e; simpl.
  - apply nv_outOfFuel.
  - unfold getSpent. nv; [apply IH | apply nv_removeEntry].
Qed.

Lemma nv_countAncestors_loop env rec child f :
  (forall p set, noVerify (rec p set)) ->
  forall inputs set,
    noVerify (countAncestors_loop env rec child f inputs set).
Proof.
  intros Hrec. induction inputs as [|inp rest IH]; intros set; simpl.
  - apply nv_ret.
  - unfold getEntry, callFn. nv; try apply IH; try apply Hrec.
Qed.

Lemma nv__countAncestors env fuel : forall e set child f,
  noVerify (_countAncestors env fuel e set child f).
Proof.
  induction fuel as [|fuel IH]; intros e set child f; simpl.
  - apply nv_outOfFuel.
  - apply nv_countAncestors_loop. intros p set'. apply IH.
Qed.

Lemma nv_updateAncestors env e f : noVerify (updateAncestors env e f).
Proof. unfold updateAncestors. nv. apply nv__countAncestors. Qed.

Lemma nv_evictEntry env fuel e : noVerify (evictEntry env fuel e).
Proof.
  unfold evictEntry. nv;
    [apply nv_removeSpenders | apply nv_updateAncestors
    | apply nv_removeEntry].
Qed.

Lemma nv_limitSize_expire env fuel : forall hashes queue,
  noVerify (limitSize_expire env fuel hashes queue).
Proof.
  induction hashes as [|h rest IH]; intros queue; simpl.
  - apply nv_ret.
  - unfold getEntry, hasDepends. nv; try apply IH. apply nv_evictEntry.
Qed.

Lemma nv_limitSize_evict env fuel : forall n queue,
  noVerify (limitSize_evict env fuel n queue).
Proof.
  induction n as [|n IH]; intros queue; simpl.
  - apply nv_ret.
  - unfold hasEntry. nv; try apply IH. apply nv_evictEntry.
Qed.

Lemma nv_limitSize env fuel added : noVerify (limitSize env fuel added).
Proof.
  unfold limitSize, hasEntry. nv;
    try apply nv_limitSize_expire; try apply nv_limitSize_evict.
Qed.

Lemma nv_removeOrphan h : noVerify (removeOrphan h).
Proof. unfold removeOrphan, getOrphan. nv. Qed.

Lemma nv_limitOrphans env : noVerify (limitOrphans env).
Proof. unfold limitOrphans. nv. apply nv_removeOrphan. Qed.

Lemma nv_maybeOrphan_scan tx view : forall inputs hashes,
  noVerify (maybeOrphan_scan tx view inputs hashes).
Proof.
  induction inputs as [|inp rest IH]; intros hashes; simpl.
  - apply nv_ret.
  - unfold hasReject, hasEntry. nv; apply IH.
Qed.

Lemma nv_maybeOrphan env tx view id : noVerify (maybeOrphan env tx view id).
Proof.
  unfold maybeOrphan. nv; try apply nv_maybeOrphan_scan;
    try apply nv_limitOrphans.
Qed.

Lemma nv_resolveOrphans_loop : forall hashes resolved,
  noVerify (resolveOrphans_loop hashes resolved).
Proof.
  induction hashes as [|h rest IH]; intros resolved; simpl.
  - apply nv_ret.
  - unfold getOrphan. nv; apply IH.
Qed.

Lemma nv_resolveOrphans parent : noVerify (resolveOrphans parent).
Proof. unfold resolveOrphans. nv. apply nv_resolveOrphans_loop. Qed.

(** Whatever the replay of an orphan throws, a [VerifyError] stops at the
    handler of [handleOrphans]. *)
Lemma nv_handleOrphans_step env rec orphan :
  noVerify (handleOrphans_step env rec orphan).
Proof.
  unfold handleOrphans_step. destruct (toTX orphan) as [tx|]; [|apply nv_ret].
  apply nv_bind.
  - apply nv_try_catch. intros [v|msg|tag]; nv; apply nv_throw; reflexivity.
  - intros r. nv. apply nv_removeOrphan.
Qed.

Lemma nv_handleOrphans_body env rec parent :
  noVerify (handleOrphans_body env rec parent).
Proof.
  unfold handleOrphans_body. nv;
    [apply nv_resolveOrphans | apply nv_handleOrphans_step].
Qed.

Lemma nv_addEntry_body env rec entry view :
  noVerify (addEntry_body env rec entry view).
Proof.
  unfold addEntry_body. nv;
    [apply nv_trackEntry | apply nv_updateAncestors
    | apply nv_handleOrphans_body].
Qed.

Lemma untouched_refl s : untouched s s.
Proof. repeat split. Qed.

Lemma countAncestors_pure env e s :
  exists n, countAncestors env e s = Ret n s.
Proof.
  destruct (traversal_ok env e Nop (mp_map s) (e_tx e)
              (fun _ x => x = s)
              (fun _ x (E : x = s) h =>
                 f_equal (fun y => option_map e_tx
                                     (mget String.eqb h (mp_map y))) E)
              (fun W x h p => nop_step s W x h p (live e x))
              e s eq_refl eq_refl)
    as (V & sn & En & Jn & _).
  exists (List.length V). unfold countAncestors, ancestorFuel, bind.
  rewrite En. now rewrite Jn.
Qed.

Lemma preserves_countAncestors I env e : preserves I (countAncestors env e).
Proof.
  intros s Hs. destruct (countAncestors_pure env e s) as (n & ->). exact Hs.
Qed.

Lemma getCoinView_loop_unchanged env s0 : forall inputs view,
  preserves (fun s => s = s0) (getCoinView_loop env inputs view).
Proof.
  induction inputs as [|inp rest IH]; intros view; simpl.
  - apply preserves_ret.
  - unfold getTX, getEntry. pres; apply IH.
Qed.

Lemma maybeOrphan_none_eq env tx view id s :
  dropsOnParent view s tx = false ->
  hasMissing view tx = false ->
  maybeOrphan env tx view id s = Ret None s.
Proof.
  intros P M. unfold maybeOrphan. unfold bind at 1.
  rewrite maybeOrphan_scan_eq. fold (dropsOnParent view s tx). rewrite P.
  unfold hasMissing in M. rewrite (scanHashes_none view _ M). reflexivity.
Qed.

(** [maybeOrphan] returns null only for a transaction with every input
    resolved, and then it has changed nothing. *)
Lemma maybeOrphan_None env tx view id s s' :
  maybeOrphan env tx view id s = Ret None s' ->
  s' = s /\ hasMissing view tx = false /\ dropsOnParent view s tx = false.
Proof.
  intros H. destruct (dropPath env tx view s) eqn:D.
  { rewrite (maybeOrphan_drop_eq env tx view id s D) in H. discriminate. }
  destruct (hasMissing view tx) eqn:Hm.
  { rewrite (maybeOrphan_store_eq env tx view id s D Hm) in H.
    cbv zeta in H. destruct (limitOrphans env s); discriminate. }
  unfold dropPath in D. apply orb_false_elim in D as [P _].
  rewrite (maybeOrphan_none_eq env tx view id s P Hm) in H.
  inversion H; subst. auto.
Qed.

Lemma verify_untouched env e view s0 :
  preserves (untouched s0) (verify env e view).
Proof.
  unfold verify, verifyResult, verifyInputs. pres;
    try apply preserves_countAncestors;
    apply preserves_modify; intros s Hs; exact Hs.
Qed.

Lemma limitSize_true env fuel added s s' :
  limitSize env fuel added s = Ret true s' ->
  mhas String.eqb added (mp_map s') = false.
Proof.
  unfold limitSize. unfold bind at 1. unfold gets at 1.
  destruct (mp_size s <=? maxSize (options env)); [discriminate|].
  unfold bind, gets, hasEntry, ret.
  destruct (limitSize_expire env fuel (mkeys (mp_map s)) [] s)
    as [queue s1|e s1|]; try discriminate.
  destruct (underThreshold (mp_size s1) (maxSize (options env))).
  - intros H. inversion H; subst. now apply negb_true_iff.
  - destruct (limitSize_evict env fuel (List.length queue) queue s1)
      as [[] s2|e s2|]; try discriminate.
    intros H. inversion H; subst. now apply negb_true_iff.
Qed.

Lemma noVerify_Thr {A} (m : M A) s v s' :
  noVerify m -> m s <> Thr (VerifyErr v) s'.
Proof. intros H E. specialize (H s). rewrite E in H. discriminate. Qed.

Lemma insertTX_body_validates env fuel rec tx id (s : Mempool) v s' :
  insertTX_body env fuel rec tx id s = Thr (VerifyErr v) s' ->
  untouched s s'
  \/ (VerifyErr v = verifyError tx "insufficientfee" "mempool full" 0 false
      /\ mhas String.eqb (tx_hash tx) (mp_map s') = false).
Proof.
  unfold insertTX_body. intros H.
  apply bind_Thr in H as [H|([] & s1 & G & H)].
  { left. pose proof (gates_unchanged env tx s s eq_refl) as P.
    rewrite H in P. subst. apply untouched_refl. }
  destruct (gates_passed env tx s s1 G) as (-> & _).
  apply bind_Thr in H as [H|(d & s2 & D & H)]; [discriminate|].
  unfold isDoubleSpend, gets in D. inversion D; subst s2. clear D.
  destruct d.
  { left. unfold bind, emit, modify, throw in H. inversion H; subst.
    repeat split. }
  apply bind_Thr in H as [H|(view & s3 & V & H)].
  { left. pose proof (getCoinView_loop_unchanged env s (tx_inputs tx) [] s
                        eq_refl) as P.
    unfold getCoinView in H. rewrite H in P. subst. apply untouched_refl. }
  assert (s3 = s).
  { pose proof (getCoinView_loop_unchanged env s (tx_inputs tx) [] s
                  eq_refl) as P.
    unfold getCoinView in V. now rewrite V in P. }
  subst s3.
  apply bind_Thr in H as [H|(missing & s4 & O & H)].
  { exfalso. exact (noVerify_Thr _ _ _ _ (nv_maybeOrphan env tx view id) H). }
  destruct missing as [missing|]; [discriminate|].
  apply maybeOrphan_None in O as (-> & _).
  apply bind_Thr in H as [H|([] & s5 & Ve & H)].
  { left.
    pose proof (verify_untouched env
                  (MempoolEntry_fromTX env tx view (ch_height (chain env)))
                  view s s (untouched_refl s)) as P.
    now rewrite H in P. }
  apply bind_Thr in H as [H|([] & s6 & Ad & H)].
  { exfalso.
    exact (noVerify_Thr _ _ _ _
             (nv_addEntry_body env rec
                (MempoolEntry_fromTX env tx view (ch_height (chain env)))
                view) H). }
  apply bind_Thr in H as [H|(full & s7 & L & H)].
  { exfalso.
    exact (noVerify_Thr _ _ _ _ (nv_limitSize env fuel (tx_hash tx)) H). }
  destruct full; [|discriminate].
  right. inversion H; subst. split; [reflexivity|].
  exact (limitSize_true env fuel _ _ _ L).
Qed.

(** X7: validate, then commit.  When [insertTX] throws a [VerifyError],
    either the pool map, the spent map, [size], the orphan map and the
    waiting map are exactly as before the call, or the error is
    ["mempool full"] ([insufficientfee], score 0) and the transaction is
    not in the pool map. *)
Theorem insertTX_validates_then_commits env fuel tx id (s : Mempool) v s' :
  insertTX env fuel tx id s = Thr (VerifyErr v) s' ->
  (mp_map s' = mp_map s /\ mp_spents s' = mp_spents s /\
   mp_size s' = mp_size s /\ mp_orphans s' = mp_orphans s /\
   mp_waiting s' = mp_waiting s)
  \/ (ve_code v = "insufficientfee" /\ ve_reason v = "mempool full" /\
      ve_score v = 0 /\
      mhas String.eqb (tx_hash tx) (mp_map s') = false).
Proof.
  destruct fuel as [|fuel]; [discriminate|].
  rewrite insertTX_S. intros H.
  destruct (insertTX_body_validates env fuel _ tx id s v s' H)
    as [((Hm & Hs & Hz) & Ho & Hw)|(E & Hno)].
  - left. auto.
  - right. inversion E; subst. auto.
Qed.

Lemma insertTX_validates_then_commits_witness :
  exists s',
    insertTX demo_env 5 demo_T1x 3 demo_pool1 =
      Thr (verifyError demo_T1x "duplicate" "bad-txns-inputs-spent" 0 false)
          s' /\
    mp_map s' = mp_map demo_pool1 /\ mp_size s' = mp_size demo_pool1.
Proof.
  assert (E : insertTX demo_env 5 demo_T1x 3 demo_pool1 =
              Thr (verifyError demo_T1x "duplicate" "bad-txns-inputs-spent"
                     0 false)
                  (with_events (EvConflict demo_T1x :: mp_events demo_pool1)
                     demo_pool1)) by (vm_compute; reflexivity).
  eexists. split; [exact E|].
  destruct (insertTX_validates_then_commits demo_env 5 demo_T1x 3 demo_pool1
              _ _ E) as [(Hm & _ & Hz & _)|(C & _)].
  - split; [exact Hm | exact Hz].
  - discriminate C.
Defined.

(** ** Consistency of the pool across the API *)

Lemma sameCore_refl s : sameCore s s.
Proof. repeat split. Qed.

Lemma sound_other env K s s' :
  sameCore s s' -> sound env K s -> sound env K s'.
Proof.
  intros (Em & Es & Ez) (Hok & Hcl). split.
  - now apply (okWith_other env K s).
  - unfold claims_ok in *. rewrite Em, Es. exact Hcl.
Qed.

Lemma sound_weaken env K K' s :
  (forall e, In e K -> In e K') -> sound env K' s -> sound env K s.
Proof.
  intros Hsub (Hok & Hcl). split; [|exact Hcl].
  now apply (okWith_weaken env K K').
Qed.

Lemma sound_nil env K s : sound env K s -> sound env [] s.
Proof. apply sound_weaken. intros e []. Qed.

(** An entry taken from the pool can join the objects held. *)
Lemma sound_live env K s h e :
  sound env K s -> mget String.eqb h (mp_map s) = Some e ->
  sound env (e :: K) s.
Proof.
  intros ((Hok & Hag) & Hcl) G. split; [|exact Hcl]. split; [exact Hok|].
  intros e' [<-|HK]; [|now apply Hag].
  intros e0 G0. destruct Hok as (_ & _ & Hent & _).
  destruct (Hent _ _ G) as (Eh & _). rewrite Eh in G0. congruence.
Qed.

Lemma hoare_weaken_sound {A} env K K' (m : M A) :
  (forall e, In e K -> In e K') ->
  preserves (sound env K') m ->
  forall s, sound env K' s ->
    match m s with
    | Ret _ s' => sound env K s'
    | Thr _ s' => sound env K s'
    | OutOfFuel => True
    end.
Proof.
  intros Hsub P s Hs. specialize (P s Hs).
  destruct (m s); auto; now apply (sound_weaken env K K').
Qed.

(** A computation that leaves the pool map, the spent map and [size]
    alone keeps the pool sound. *)
Lemma sound_frame {A} env K (m : M A) :
  (forall s0, preserves (sameCore s0) m) -> preserves (sound env K) m.
Proof.
  intros F s Hs. specialize (F s s (sameCore_refl s)).
  destruct (m s) as [a s'|e s'|]; auto; now apply (sound_other env K s).
Qed.

Lemma sound_emit env K ev : preserves (sound env K) (emit ev).
Proof.
  apply sound_frame. intros s0. unfold emit. apply preserves_modify.
  intros s Hs. exact Hs.
Qed.

Lemma untrackEntry_sound env e K :
  In e K -> preserves (sound env K) (untrackEntry env e).
Proof.
  intros HK s Hs. pose proof Hs as (Hok & Hcl).
  pose proof (untrackEntry_ok env e K HK s Hok) as P.
  pose proof Hok as ((Hsz & ND & Hent & Hsp) & Hag).
  rewrite untrackEntry_eq in *.
  destruct (mhas String.eqb (e_hash e) (mp_map s)) eqn:Hh; [|exact Hs].
  apply mhas_true in Hh as (e0 & G0).
  pose proof (Hag e HK e0 G0) as Etx.
  destruct (Hent _ _ G0) as (_ & Hcb). rewrite Etx in Hcb.
  rewrite Hcb in *. cbv zeta in *.
  split; [exact P|].
  destruct (fold_spents_fields
              (fun inp sp => mdelete key_eqb (toKey (prevout inp)) sp)
              (tx_inputs (e_tx e))
              (with_map (mdelete String.eqb (e_hash e) (mp_map s)) s))
    as (Em & Es & Ep).
  simpl in Em, Es, Ep.
  unfold claims_ok. simpl. rewrite Em, Ep.
  intros h' e' G k Hk. rewrite mget_mdelete in G.
  destruct (String.eqb_spec (e_hash e) h') as [E|N]; [discriminate|].
  rewrite mget_spents_delete.
  destruct (existsb _ (tx_inputs (e_tx e))) eqn:Ex.
  - exfalso. apply existsb_inputKeys in Ex. rewrite <- Etx in Ex.
    pose proof (Hcl _ _ G0 k Ex) as C1. pose proof (Hcl _ _ G k Hk) as C2.
    congruence.
  - exact (Hcl _ _ G k Hk).
Qed.

Lemma removeEntry_sound env e K :
  In e K -> preserves (sound env K) (removeEntry env e).
Proof.
  intros HK. unfold removeEntry. apply preserves_bind.
  - now apply untrackEntry_sound.
  - intros _. apply sound_emit.
Qed.

Lemma removeSpenders_sound env fuel : forall e K,
  preserves (sound env K) (removeSpenders env fuel e).
Proof.
  induction fuel as [|fuel IH]; intros e K; simpl.
  - apply preserves_outOfFuel.
  - apply preserves_forEach. intros i _ s Hs.
    unfold bind at 1. unfold getSpent, gets.
    destruct (mget key_eqb (e_hash e, i) (mp_spents s)) as [h|]; [|exact Hs].
    destruct (mget String.eqb h (mp_map s)) as [sp|] eqn:G; [|exact Hs].
    apply (hoare_weaken_sound env K (sp :: K)
             (bind (removeSpenders env fuel sp) (fun _ => removeEntry env sp)));
      [intros; now right | | exact (sound_live env K s h sp Hs G)].
    apply preserves_bind; [apply IH|]. intros _.
    apply removeEntry_sound. now left.
Qed.

Lemma updateAncestors_sound env e f K :
  preserves (sound env K) (updateAncestors env e f).
Proof.
  apply inv_updateAncestors.
  intros s h p c f' Gp (Hok & Hcl).
  pose proof Hok as ((Hsz & ND & Hent & Hsp) & Hag).
  destruct (Hent _ _ Gp) as (Hp & Hcb).
  split.
  - unfold okWith, pool_ok, spents_ok, agrees. simpl.
    split; [split; [|split; [|split]]|].
    + rewrite (sumMem_mset_present env h p) by
        (auto; apply memUsage_tx, apply_fn_tx). exact Hsz.
    + rewrite mkeys_mset_has; [exact ND | apply String.eqb_spec |].
      apply mhas_true. eauto.
    + intros h' e' G. rewrite mget_mset in G.
      destruct (String.eqb_spec h h') as [<-|N]; [|now apply Hent].
      inversion G; subst. unfold e_hash. rewrite apply_fn_tx. auto.
    + intros k h' G. destruct (Hsp k h' G) as (e1 & G1 & H1 & K1).
      rewrite mget_mset.
      destruct (String.eqb_spec h h') as [<-|N]; [|eauto].
      rewrite Gp in G1. inversion G1; subst e1. eexists.
      split; [reflexivity|].
      unfold e_hash. rewrite apply_fn_tx. auto.
    + intros e' HK e0 G. rewrite mget_mset in G.
      destruct (String.eqb_spec h (e_hash e')) as [E|N];
        [|now apply (Hag e' HK)].
      inversion G; subst e0. rewrite apply_fn_tx. apply (Hag e' HK).
      now rewrite <- E.
  - unfold claims_ok. simpl. intros h' e' G k Hk. rewrite mget_mset in G.
    destruct (String.eqb_spec h h') as [<-|N].
    + inversion G; subst e'. rewrite apply_fn_tx in Hk.
      exact (Hcl _ _ Gp k Hk).
    + exact (Hcl _ _ G k Hk).
Qed.

Lemma evictEntry_sound env fuel e K :
  In e K -> preserves (sound env K) (evictEntry env fuel e).
Proof.
  intros HK. unfold evictEntry. apply preserves_bind.
  - apply removeSpenders_sound.
  - intros _. apply preserves_bind.
    + apply updateAncestors_sound.
    + intros _. now apply removeEntry_sound.
Qed.

(** *** limitSize *)

Lemma heap_shift_In : forall q m r,
  heap_shift q = Some (m, r) ->
  In m q /\ forall x, In x r -> In x q.
Proof.
  induction q as [|x q IH]; intros m r; simpl; [discriminate|].
  destruct (heap_shift q) as [[m' r']|] eqn:E.
  - destruct (IH m' r' eq_refl) as (Hm & Hr).
    destruct (cmpRate m' x <? 0); intros H; inversion H; subst.
    + split; [now right|]. intros y [<-|Hy]; [now left | right; auto].
    + split; [now left|]. intros y Hy. now right.
  - intros H. inversion H; subst. split; [now left | intros y []].
Qed.

Lemma limitSize_expire_sound env fuel : forall hashes queue,
  hoare (sound env queue) (limitSize_expire env fuel hashes queue)
    (fun queue' s => sound env queue' s) (fun _ s => sound env [] s).
Proof.
  induction hashes as [|h rest IH]; intros queue s Hs; simpl.
  - exact Hs.
  - unfold bind at 1. unfold getEntry, gets.
    destruct (mget String.eqb h (mp_map s)) as [entry|] eqn:G;
      [|apply IH; exact Hs].
    unfold bind at 1. unfold hasDepends, gets.
    destruct (existsb _ (tx_inputs (e_tx entry))); [apply IH; exact Hs|].
    destruct (now env <? e_time entry + expiryTime (options env)).
    + apply IH. unfold heap_insert.
      apply (sound_weaken env _ (entry :: queue)).
      * intros e He. apply in_app_or in He as [He|[<-|[]]];
          [now right | now left].
      * exact (sound_live env queue s h entry Hs G).
    + unfold bind at 1.
      pose proof (hoare_weaken_sound env queue (entry :: queue)
                    (evictEntry env fuel entry)
                    (fun e He => or_intror He)
                    (evictEntry_sound env fuel entry (entry :: queue)
                       (or_introl eq_refl))
                    s (sound_live env queue s h entry Hs G)) as P.
      destruct (evictEntry env fuel entry s) as [[] s1|e s1|].
      * apply IH. exact P.
      * exact (sound_nil env queue s1 P).
      * exact Logic.I.
Qed.

Lemma limitSize_evict_sound env fuel : forall n queue,
  hoare (sound env queue) (limitSize_evict env fuel n queue)
    (fun _ s => sound env [] s) (fun _ s => sound env [] s).
Proof.
  induction n as [|n IH]; intros queue s Hs; simpl.
  - exact (sound_nil env queue s Hs).
  - destruct (heap_shift queue) as [[entry queue']|] eqn:E;
      [|exact (sound_nil env queue s Hs)].
    destruct (heap_shift_In queue entry queue' E) as (Hin & Hsub).
    unfold bind at 1. unfold hasEntry, gets.
    unfold bind at 1.
    destruct (mhas String.eqb (e_hash entry) (mp_map s)); simpl;
      [|exact (sound_nil env queue s Hs)].
    unfold bind at 1.
    pose proof (evictEntry_sound env fuel entry queue Hin s Hs) as P.
    destruct (evictEntry env fuel entry s) as [[] s1|e s1|];
      [|exact (sound_nil env queue s1 P)|exact Logic.I].
    unfold bind at 1. unfold gets.
    destruct (underThreshold (mp_size s1) (maxSize (options env))).
    + exact (sound_nil env queue s1 P).
    + apply IH. exact (sound_weaken env queue' queue s1 Hsub P).
Qed.

Lemma limitSize_sound env fuel added :
  preserves (sound env []) (limitSize env fuel added).
Proof.
  intros s Hs. unfold limitSize. unfold bind at 1. unfold gets at 1.
  destruct (mp_size s <=? maxSize (options env)); [exact Hs|].
  unfold bind at 1. unfold gets at 1. unfold bind at 1.
  pose proof (limitSize_expire_sound env fuel (mkeys (mp_map s)) [] s Hs) as P.
  destruct (limitSize_expire env fuel (mkeys (mp_map s)) [] s)
    as [queue s1|e s1|]; [|exact P|exact Logic.I].
  unfold bind at 1. unfold gets at 1.
  destruct (underThreshold (mp_size s1) (maxSize (options env))).
  - unfold bind, hasEntry, gets, ret. exact (sound_nil env queue s1 P).
  - unfold bind at 1.
    pose proof (limitSize_evict_sound env fuel (List.length queue) queue s1 P)
      as P2.
    destruct (limitSize_evict env fuel (List.length queue) queue s1)
      as [[] s2|e s2|]; [|exact P2|exact Logic.I].
    unfold bind, hasEntry, gets, ret. exact P2.
Qed.

(** *** The functions that do not touch the pool map *)

Ltac frame_modify :=
  apply preserves_modify; intros ? Hframe; exact Hframe.

Lemma core_removeOrphan s0 h : preserves (sameCore s0) (removeOrphan h).
Proof. unfold removeOrphan, getOrphan, emit. pres; frame_modify. Qed.

Lemma core_limitOrphans env s0 : preserves (sameCore s0) (limitOrphans env).
Proof. unfold limitOrphans. pres. apply core_removeOrphan. Qed.

Lemma core_maybeOrphan_scan s0 tx view : forall inputs hashes,
  preserves (sameCore s0) (maybeOrphan_scan tx view inputs hashes).
Proof.
  induction inputs as [|inp rest IH]; intros hashes; simpl.
  - apply preserves_ret.
  - unfold hasReject, hasEntry, rejects_add. pres; try apply IH;
      frame_modify.
Qed.

Lemma core_maybeOrphan env s0 tx view id :
  preserves (sameCore s0) (maybeOrphan env tx view id).
Proof.
  unfold maybeOrphan, rejects_add, emit. pres;
    try apply core_maybeOrphan_scan; try apply core_limitOrphans;
    frame_modify.
Qed.

Lemma core_resolveOrphans_loop s0 : forall hashes resolved,
  preserves (sameCore s0) (resolveOrphans_loop hashes resolved).
Proof.
  induction hashes as [|h rest IH]; intros resolved; simpl.
  - apply preserves_ret.
  - unfold getOrphan. pres; try apply IH; frame_modify.
Qed.

Lemma core_resolveOrphans s0 parent :
  preserves (sameCore s0) (resolveOrphans parent).
Proof.
  unfold resolveOrphans. pres; try apply core_resolveOrphans_loop.
  frame_modify.
Qed.

Lemma core_verify env e view s0 : preserves (sameCore s0) (verify env e view).
Proof.
  unfold verify, verifyResult, verifyInputs. pres;
    try apply preserves_countAncestors; frame_modify.
Qed.

(** *** Admission *)

Lemma trackable_core env tx s s' :
  sameCore s s' -> trackable env tx s -> trackable env tx s'.
Proof.
  intros (Em & Es & _) (H1 & H2 & H3). unfold trackable.
  rewrite Em, Es. auto.
Qed.

Lemma trackEntry_sound env e s :
  sound env [] s -> trackable env (e_tx e) s ->
  exists s', trackEntry env e s = Ret tt s' /\ sound env [] s'.
Proof.
  intros ((Hok & _) & Hcl) (Hnew & Hcb & Hfree).
  pose proof (trackEntry_ok env e s Hok) as P.
  rewrite trackEntry_eq in *. unfold e_hash in *. rewrite Hnew, Hcb in *.
  cbv zeta in *. eexists. split; [reflexivity|].
  split; [split; [exact P | intros e' []]|].
  destruct (fold_spents_fields
              (fun inp sp =>
                 mset key_eqb (toKey (prevout inp)) (tx_hash (e_tx e)) sp)
              (tx_inputs (e_tx e))
              (with_map (mset String.eqb (tx_hash (e_tx e)) e (mp_map s)) s))
    as (Em & Es & Ep).
  simpl in Em, Es, Ep.
  unfold claims_ok. simpl. rewrite Em, Ep.
  intros h' e' G k Hk. rewrite mget_mset in G. rewrite mget_spents_set.
  destruct (String.eqb_spec (tx_hash (e_tx e)) h') as [<-|N].
  - inversion G; subst e'. apply existsb_inputKeys in Hk. now rewrite Hk.
  - destruct (existsb _ (tx_inputs (e_tx e))) eqn:Ex.
    + exfalso. apply existsb_inputKeys in Ex.
      pose proof (Hcl _ _ G k Hk) as C. rewrite (Hfree k Ex) in C.
      discriminate.
    + exact (Hcl _ _ G k Hk).
Qed.

Section SoundReplay.
Variable env : Env.
Variable rec : TX -> Z -> M (option (list Hash)).
Hypothesis rec_sound : forall tx id, preserves (sound env []) (rec tx id).

Lemma handleOrphans_step_sound orphan :
  preserves (sound env []) (handleOrphans_step env rec orphan).
Proof.
  unfold handleOrphans_step, rejects_add. pres; try apply rec_sound;
    try apply sound_emit;
    try (apply sound_frame; intros s0; apply core_removeOrphan);
    apply sound_frame; intros s0; frame_modify.
Qed.

Lemma handleOrphans_body_sound parent :
  preserves (sound env []) (handleOrphans_body env rec parent).
Proof.
  unfold handleOrphans_body. pres.
  - apply sound_frame. intros s0. apply core_resolveOrphans.
  - apply handleOrphans_step_sound.
Qed.

Lemma addEntry_body_sound entry view :
  hoare (fun s => sound env [] s /\ trackable env (e_tx entry) s)
    (addEntry_body env rec entry view)
    (fun _ => sound env []) (fun _ => sound env []).
Proof.
  intros s (Hs & Ht). unfold addEntry_body. unfold bind at 1.
  destruct (trackEntry_sound env entry s Hs Ht) as (s1 & -> & Hs1).
  assert (P : preserves (sound env [])
                (updateAncestors env entry AddFee ;;
                 emit (EvTx (e_tx entry) view) ;;
                 emit (EvAddEntry entry) ;;
                 handleOrphans_body env rec (e_tx entry))).
  { pres; [apply updateAncestors_sound | apply sound_emit | apply sound_emit
          | apply handleOrphans_body_sound]. }
  exact (P s1 Hs1).
Qed.

Lemma insertTX_body_sound fuel tx id :
  preserves (sound env []) (insertTX_body env fuel rec tx id).
Proof.
  intros s Hs. unfold insertTX_body. unfold bind at 1.
  destruct (gates_outcome env tx s) as [G|(e & G)]; rewrite G;
    [|exact Hs].
  destruct (gates_passed env tx s s G) as (_ & Hnew & _ & Hcb & _).
  unfold bind at 1. unfold isDoubleSpend, gets.
  destruct (existsb _ (tx_inputs tx)) eqn:Hds.
  { unfold bind, emit, modify, throw.
    apply (sound_other env [] s); [repeat split | exact Hs]. }
  assert (Ht : trackable env tx s).
  { split; [exact Hnew|]. split; [exact Hcb|]. intros k Hk.
    unfold inputKeys in Hk. apply in_map_iff in Hk as (inp & <- & Hin).
    destruct (mget key_eqb (toKey (prevout inp)) (mp_spents s)) eqn:Gk;
      [|reflexivity].
    exfalso. assert (C : existsb
               (fun inp => mhas key_eqb (toKey (prevout inp)) (mp_spents s))
               (tx_inputs tx) = true).
    { apply existsb_exists. exists inp. split; [exact Hin|].
      unfold mhas. now rewrite Gk. }
    congruence. }
  unfold bind at 1.
  pose proof (getCoinView_loop_unchanged env s (tx_inputs tx) [] s eq_refl)
    as Pv. unfold getCoinView.
  destruct (getCoinView_loop env (tx_inputs tx) [] s) as [view s1|e s1|];
    [subst s1|subst s1; exact Hs|exact Logic.I].
  unfold bind at 1.
  pose proof (core_maybeOrphan env s tx view id s (sameCore_refl s)) as Po.
  destruct (maybeOrphan env tx view id s) as [missing s2|e s2|] eqn:Eo;
    [|exact (sound_other env [] s s2 Po Hs)|exact Logic.I].
  destruct missing as [missing|];
    [exact (sound_other env [] s s2 Po Hs)|].
  apply maybeOrphan_None in Eo as (-> & _).
  unfold bind at 1.
  pose proof (core_verify env
                (MempoolEntry_fromTX env tx view (ch_height (chain env)))
                view s s (sameCore_refl s)) as Pver.
  destruct (verify env _ view s) as [[] s3|e s3|];
    [|exact (sound_other env [] s s3 Pver Hs)|exact Logic.I].
  unfold bind at 1.
  pose proof (addEntry_body_sound
                (MempoolEntry_fromTX env tx view (ch_height (chain env)))
                view s3
                (conj (sound_other env [] s s3 Pver Hs)
                      (trackable_core env tx s s3 Pver Ht))) as Pa.
  destruct (addEntry_body env rec _ view s3) as [[] s4|e s4|];
    [|exact Pa|exact Logic.I].
  unfold bind at 1.
  pose proof (limitSize_sound env fuel (tx_hash tx) s4 Pa) as Pl.
  destruct (limitSize env fuel (tx_hash tx) s4) as [full s5|e s5|];
    [|exact Pl|exact Logic.I].
  destruct full; exact Pl.
Qed.
End SoundReplay.

Lemma insertTX_sound env fuel : forall tx id,
  preserves (sound env []) (insertTX env fuel tx id).
Proof.
  induction fuel as [|fuel IH]; intros tx id; simpl.
  - apply preserves_outOfFuel.
  - now apply insertTX_body_sound.
Qed.

Lemma addTX_sound env fuel tx id :
  preserves (sound env []) (_addTX env fuel tx id).
Proof.
  unfold _addTX, rejects_add. pres; try apply insertTX_sound;
    apply sound_frame; intros s0; frame_modify.
Qed.

Lemma removeBlock_sound env fuel block txs :
  preserves (sound env []) (_removeBlock env fuel block txs).
Proof.
  unfold _removeBlock, removeBlock_step, rejects_reset, hasEntry, emitError.
  pres;
    try apply insertTX_sound; try apply sound_emit;
    apply sound_frame; intros s0; frame_modify.
Qed.

Lemma removeDoubleSpends_sound env fuel tx :
  preserves (sound env []) (removeDoubleSpends env fuel tx).
Proof.
  unfold removeDoubleSpends. apply preserves_forEach. intros inp _ s Hs.
  unfold bind at 1. unfold getSpent, gets.
  destruct (mget key_eqb _ (mp_spents s)) as [h|]; [|exact Hs].
  destruct (mget String.eqb h (mp_map s)) as [spent|] eqn:G; [|exact Hs].
  apply (hoare_weaken_sound env [] [spent]
           (evictEntry env fuel spent ;; emit (EvDoubleSpend spent)));
    [intros e [] | | exact (sound_live env [] s h spent Hs G)].
  apply preserves_bind; [apply evictEntry_sound; now left|].
  intros _. apply sound_emit.
Qed.

Lemma addBlock_step_sound env fuel block tx :
  preserves (sound env []) (addBlock_step env fuel block tx).
Proof.
  intros s Hs. unfold addBlock_step. unfold bind at 1. unfold getEntry, gets.
  destruct (mget String.eqb (tx_hash tx) (mp_map s)) as [entry|] eqn:G.
  - apply (hoare_weaken_sound env [] [entry]
             (removeEntry env entry ;; emit (EvConfirmed tx block)));
      [intros e [] | | exact (sound_live env [] s _ entry Hs G)].
    apply preserves_bind; [apply removeEntry_sound; now left|].
    intros _. apply sound_emit.
  - assert (P : preserves (sound env [])
                  (removeOrphan (tx_hash tx) ;;
                   removeDoubleSpends env fuel tx ;;
                   waits <- gets (fun s =>
                              mhas String.eqb (tx_hash tx) (mp_waiting s)) ;;
                   when waits (handleOrphans env fuel tx))).
    { pres.
      - apply sound_frame. intros s0. apply core_removeOrphan.
      - apply removeDoubleSpends_sound.
      - apply handleOrphans_body_sound. apply insertTX_sound. }
    exact (P s Hs).
Qed.

Lemma addBlock_sound env fuel block txs :
  preserves (sound env []) (_addBlock env fuel block txs).
Proof.
  unfold _addBlock, rejects_reset. pres;
    try apply addBlock_step_sound;
    apply sound_frame; intros s0; frame_modify.
Qed.

Lemma sound_new genesis env : sound env [] (Mempool_new genesis).
Proof.
  split; [split; [apply pool_ok_new | intros e []]|].
  intros h e G. discriminate.
Qed.

Lemma reset_sound env s : sound env [] (poolOf (_reset env s) s).
Proof.
  split; [split; [apply reset_ok | intros e []]|].
  intros h e G. discriminate.
Qed.

Lemma call_sound env fuel c : preserves (sound env []) (call env fuel c).
Proof.
  destruct c as [tx id|block txs|block txs|]; simpl.
  - pres. apply addTX_sound.
  - apply addBlock_sound.
  - apply removeBlock_sound.
  - intros s _. apply (reset_sound env s).
Qed.

Lemma calls_sound env fuel cs : forall s st,
  sound env [] s -> calls env fuel cs s = Some st -> sound env [] st.
Proof.
  induction cs as [|c rest IH]; intros s st Hs; simpl.
  - intros E. inversion E; subst. exact Hs.
  - pose proof (call_sound env fuel c s Hs) as P.
    destruct (call env fuel c s) as [a s'|e s'|]; try discriminate;
      intros R; exact (IH s' st P R).
Qed.

(** ** What the result of [insertTX] tells the caller *)

Lemma limitSize_false env fuel added s s' :
  limitSize env fuel added s = Ret false s' ->
  s' = s \/ mhas String.eqb added (mp_map s') = true.
Proof.
  unfold limitSize. unfold bind at 1. unfold gets at 1.
  destruct (mp_size s <=? maxSize (options env)).
  { intros H. inversion H. now left. }
  unfold bind, gets, hasEntry, ret.
  destruct (limitSize_expire env fuel (mkeys (mp_map s)) [] s)
    as [queue s1|e s1|]; try discriminate.
  destruct (underThreshold (mp_size s1) (maxSize (options env))).
  - intros H. inversion H; subst. right. now apply negb_false_iff.
  - destruct (limitSize_evict env fuel (List.length queue) queue s1)
      as [[] s2|e s2|]; try discriminate.
    intros H. inversion H; subst. right. now apply negb_false_iff.
Qed.

Tactic Notation "inv_bind_as" hyp(H) ident(a) ident(s) ident(H1) :=
  apply bind_Ret in H; destruct H as (a & s & H1 & H).

Lemma fold_left_keeps {A B C : Type} (p : A -> C) (f : A -> B -> A) l :
  (forall s x, p (f s x) = p s) -> forall s, p (fold_left f l s) = p s.
Proof.
  intros Hf. induction l as [|x l IH]; intros s; simpl; [reflexivity|].
  now rewrite IH.
Qed.

(** The steps of [insertTX] up to [maybeOrphan], for a call that
    returns. *)
Lemma insertTX_body_Ret env fuel rec tx id s r s' :
  insertTX_body env fuel rec tx id s = Ret r s' ->
  exists view,
    insertTX_gates env tx s = Ret tt s /\
    isDoubleSpend tx s = Ret false s /\
    getCoinView env tx s = Ret view s /\
    match r with
    | Some missing => maybeOrphan env tx view id s = Ret (Some missing) s'
    | None =>
        maybeOrphan env tx view id s = Ret None s /\
        exists s1 s2,
          let entry :=
            MempoolEntry_fromTX env tx view (ch_height (chain env)) in
          verify env entry view s = Ret tt s1 /\
          addEntry_body env rec entry view s1 = Ret tt s2 /\
          limitSize env fuel (tx_hash tx) s2 = Ret false s'
    end.
Proof.
  unfold insertTX_body. intros H.
  inv_bind_as H u s0 G. destruct u.
  destruct (gates_passed env tx s s0 G) as (-> & _).
  inv_bind_as H d s0 D.
  assert (s0 = s) by (unfold isDoubleSpend, gets in D; now inversion D).
  subst s0.
  destruct d.
  { unfold bind, emit, modify, throw in H. discriminate. }
  inv_bind_as H view s0 V.
  pose proof (getCoinView_loop_unchanged env s (tx_inputs tx) [] s eq_refl)
    as Pv. unfold getCoinView in V. rewrite V in Pv. subst s0.
  exists view. split; [exact G|]. split; [exact D|]. split; [exact V|].
  inv_bind_as H m s0 O. destruct m as [m|].
  - inversion H; subst. exact O.
  - pose proof (maybeOrphan_None env tx view id s s0 O) as (-> & _).
    inv_bind_as H u s1 Ve. destruct u.
    inv_bind_as H u s2 Ad. destruct u.
    inv_bind_as H full s3 L.
    destruct full; [discriminate|]. inversion H; subst.
    split; [exact O|]. exists s1, s2. auto.
Qed.

(** X10: what the result of [insertTX] tells the caller.  An array means
    the transaction is not in the pool map, which is as before; it is
    stored as an orphan exactly when the array is not empty.  Null means
    the transaction was admitted: if no orphan was waiting for it, the
    pool map holds an entry for its hash that wraps it. *)
Theorem insertTX_result env fuel tx id (s : Mempool) r s' :
  insertTX env fuel tx id s = Ret r s' ->
  match r with
  | Some missing =>
      mp_map s' = mp_map s
      /\ mhas String.eqb (tx_hash tx) (mp_map s') = false
      /\ mhas String.eqb (tx_hash tx) (mp_orphans s') =
         negb (List.length missing =? 0)%nat
  | None =>
      mget String.eqb (tx_hash tx) (mp_waiting s) = None ->
      exists e, mget String.eqb (tx_hash tx) (mp_map s') = Some e /\
                e_tx e = tx
  end.
Proof.
  destruct fuel as [|fuel]; [discriminate|].
  rewrite insertTX_S. intros H.
  destruct (insertTX_body_Ret env fuel _ tx id s r s' H)
    as (view & G & D & V & Hr).
  destruct (gates_passed env tx s s G) as (_ & Hnew & Horph & Hcb & _).
  destruct r as [missing|].
  - (* not admitted *)
    pose proof (core_maybeOrphan env s tx view id s (sameCore_refl s)) as Pc.
    rewrite Hr in Pc. destruct Pc as (Em & _).
    split; [exact Em|]. split; [now rewrite Em|].
    destruct (dropPath env tx view s) eqn:Dp.
    + rewrite (maybeOrphan_drop_eq env tx view id s Dp) in Hr.
      inversion Hr; subst. simpl.
      unfold dropPool. destruct (_ || _); exact Horph.
    + destruct (hasMissing view tx) eqn:Hm.
      * pose proof (maybeOrphan_store_eq env tx view id s Dp Hm) as E.
        rewrite Hr in E. cbv zeta in E.
        destruct (limitOrphans env s) as [b s1|e s1|]; try discriminate.
        inversion E as [[Em' Es']].
        pose proof (scanHashes_not_nil view (tx_inputs tx) []
                      (or_intror Hm)) as N.
        destruct (scanHashes view (tx_inputs tx) []) as [|p ps];
          [congruence|].
        simpl. unfold mhas. simpl.
        now rewrite smget_mset, String.eqb_refl.
      * unfold dropPath in Dp. apply orb_false_elim in Dp as [P _].
        rewrite (maybeOrphan_none_eq env tx view id s P Hm) in Hr.
        discriminate.
  - (* admitted *)
    intros Hw. destruct Hr as (_ & s1 & s2 & Hver & Hadd & Hlim).
    cbv zeta in Hver, Hadd.
    set (entry := MempoolEntry_fromTX env tx view (ch_height (chain env)))
      in *.
    pose proof (verify_untouched env entry view s s (untouched_refl s))
      as Pver.
    rewrite Hver in Pver. destruct Pver as ((Em & _ & _) & _ & Ew).
    unfold addEntry_body in Hadd.
    inv_bind_as Hadd u s3 Htrack. destruct u.
    rewrite trackEntry_eq in Htrack.
    change (e_hash entry) with (tx_hash tx) in Htrack.
    change (e_tx entry) with tx in Htrack.
    rewrite Em, Hnew, Hcb in Htrack. cbv zeta in Htrack.
    inversion Htrack as [Es3]. clear Htrack.
    assert (Hin3 : exists e,
              mget String.eqb (tx_hash tx) (mp_map s3) = Some e /\ e_tx e = tx).
    { exists entry. rewrite <- Es3. cbn [mp_map with_size].
      rewrite (fold_left_keeps mp_map) by reflexivity. simpl.
      rewrite mget_mset, String.eqb_refl. auto. }
    assert (Hw3 : mget String.eqb (tx_hash tx) (mp_waiting s3) = None).
    { rewrite <- Es3. cbn [mp_waiting with_size].
      rewrite (fold_left_keeps mp_waiting) by reflexivity. simpl.
      rewrite Ew. exact Hw. }
    clear Es3.
    inv_bind_as Hadd n s4 Hupd.
    assert (Hin4 : exists e,
              mget String.eqb (tx_hash tx) (mp_map s4) = Some e /\ e_tx e = tx).
    { assert (P : preserves
                    (fun x => exists e,
                       mget String.eqb (tx_hash tx) (mp_map x) = Some e /\
                       e_tx e = tx)
                    (updateAncestors env entry AddFee)).
      { apply inv_updateAncestors. intros x h p c f Gp (e & Ge & Ee).
        simpl. rewrite mget_mset.
        destruct (String.eqb_spec h (tx_hash tx)) as [->|N]; [|eauto].
        eexists. split; [reflexivity|]. rewrite apply_fn_tx. congruence. }
      specialize (P s3 Hin3). now rewrite Hupd in P. }
    assert (Hw4 : mget String.eqb (tx_hash tx) (mp_waiting s4) = None).
    { assert (P : preserves
                    (fun x => mget String.eqb (tx_hash tx) (mp_waiting x)
                              = None)
                    (updateAncestors env entry AddFee)).
      { apply oinv_updateAncestors. intros x x' _ E Hx. now rewrite E. }
      specialize (P s3 Hw3). now rewrite Hupd in P. }
    inv_bind_as Hadd u s5 Hev1. inv_bind_as Hadd u' s6 Hev2.
    unfold emit, modify in Hev1, Hev2.
    inversion Hev1; subst s5. inversion Hev2; subst s6.
    unfold handleOrphans_body in Hadd. inv_bind_as Hadd resolved s7 Hres.
    unfold resolveOrphans, bind, gets in Hres. cbn in Hres.
    rewrite Hw4 in Hres. inversion Hres; subst resolved s7.
    cbn in Hadd. inversion Hadd as [Es2].
    assert (Hin2 : exists e,
              mget String.eqb (tx_hash tx) (mp_map s2) = Some e /\ e_tx e = tx)
      by (rewrite <- Es2; exact Hin4).
    destruct (limitSize_false env fuel _ _ _ Hlim) as [->|Hhas];
      [exact Hin2|].
    apply mhas_true in Hhas as (e & Ge). exists e. split; [exact Ge|].
    assert (P : preserves
                  (fun x => forall e,
                     mget String.eqb (tx_hash tx) (mp_map x) = Some e ->
                     e_tx e = tx)
                  (limitSize env fuel (tx_hash tx))).
    { apply inv_limitSize.
      - intros x x' E Hx. now rewrite E.
      - intros x h Hx e0. simpl. rewrite mget_mdelete.
        destruct (String.eqb h (tx_hash tx)); [discriminate | apply Hx].
      - intros x h p c f Gp Hx e0. simpl. rewrite mget_mset.
        destruct (String.eqb_spec h (tx_hash tx)) as [->|N]; [|apply Hx].
        intros E0. inversion E0. rewrite apply_fn_tx. now apply Hx. }
    assert (J : forall e0,
              mget String.eqb (tx_hash tx) (mp_map s2) = Some e0 ->
              e_tx e0 = tx).
    { destruct Hin2 as (e2 & G2 & E2). intros e0 G0. congruence. }
    specialize (P s2 J). rewrite Hlim in P. exact (P e Ge).
Qed.

Lemma insertTX_result_witness :
  exists s' e,
    insertTX demo_env 5 demo_T1 3 demo_new = Ret None s' /\
    mget String.eqb "t1" (mp_map s') = Some e /\ e_tx e = demo_T1.
Proof.
  assert (E : exists s', insertTX demo_env 5 demo_T1 3 demo_new = Ret None s')
    by (vm_compute; eexists; reflexivity).
  destruct E as (s' & E).
  destruct (insertTX_result demo_env 5 demo_T1 3 demo_new None s' E eq_refl)
    as (e & Ge & Ee).
  exists s', e. split; [exact E|]. split; [exact Ge | exact Ee].
Defined.

(** ** The unbounded traversals *)

(** A depth-first walk with a visited list, over a finite universe [U] of
    hashes: with more fuel than there are unvisited hashes it returns, and
    what it adds is what can be reached. *)
Section WalkFacts.
Variable next : MempoolEntry -> list (Hash * MempoolEntry).
Variable U : list Hash.
Hypothesis next_U : forall e h x, In (h, x) (next e) -> In h U.

Lemma Path_trans root h x h' x' :
  Path next root h x -> Path next x h' x' -> Path next root h' x'.
Proof.
  intros P P'. induction P' as [h' x' I | a xa h' x' _ IH I].
  - exact (@Path_step next root h x h' x' P I).
  - exact (@Path_step next root a xa h' x' IH I).
Qed.

Lemma walk_loop_spec fuel root :
  (forall e seen,
     NoDup (List.map fst seen) -> incl (List.map fst seen) U ->
     (List.length U < List.length seen + fuel)%nat ->
     walkPost next U e (next e) seen (walk next fuel e seen)) ->
  forall cands seen,
    (forall h x, In (h, x) cands -> In (h, x) (next root)) ->
    NoDup (List.map fst seen) -> incl (List.map fst seen) U ->
    (List.length U < List.length seen + S fuel)%nat ->
    walkPost next U root cands seen
      (walk_loop (walk next fuel) cands seen).
Proof.
  intros IHf. induction cands as [|[h x] rest IH];
    intros seen Hc ND Hin Hlen.
  - exists []. rewrite app_nil_r. simpl.
    repeat split; auto; intros ? ? [].
  - simpl. destruct (set_has h (List.map fst seen)) eqn:Hhas.
    + destruct (IH seen (fun h' x' I => Hc h' x' (or_intror I)) ND Hin Hlen)
        as (new & E & ND' & Hin' & HP & Hcov & Hcl).
      exists new. repeat split; auto.
      intros h' x' [I|I]; [|now apply (Hcov h' x')].
      inversion I; subst. rewrite map_app. apply in_or_app. left.
      now apply set_has_In.
    + apply set_has_not_In in Hhas.
      assert (ND1 : NoDup (List.map fst (seen ++ [(h, x)]))).
      { rewrite map_app. simpl. apply NoDup_app; [exact ND | | ].
        - apply NoDup_single.
        - intros a' Ia [<-|[]]. contradiction. }
      assert (Hin1 : incl (List.map fst (seen ++ [(h, x)])) U).
      { rewrite map_app. apply incl_app; [exact Hin|].
        intros a' [<-|[]]. apply (next_U root h x). apply Hc. now left. }
      assert (Hlen1 : (List.length U <
                       List.length (seen ++ [(h, x)]) + fuel)%nat).
      { rewrite length_app. simpl. lia. }
      destruct (IHf x _ ND1 Hin1 Hlen1)
        as (new1 & E1 & ND2 & Hin2 & HP1 & Hcov1 & Hcl1).
      rewrite E1.
      assert (Hlen2 : (List.length U <
                       List.length ((seen ++ [(h, x)]) ++ new1) + S fuel)%nat).
      { rewrite !length_app. rewrite length_app in Hlen1. simpl in *. lia. }
      destruct (IH _ (fun h' x' I => Hc h' x' (or_intror I)) ND2 Hin2 Hlen2)
        as (new2 & E2 & ND3 & Hin3 & HP2 & Hcov2 & Hcl2).
      assert (Eq : ((seen ++ [(h, x)]) ++ new1) ++ new2 =
                   seen ++ ((h, x) :: new1 ++ new2)).
      { rewrite <- !app_assoc. reflexivity. }
      rewrite Eq in *.
      assert (Hmono : forall a,
                In a (List.map fst ((seen ++ [(h, x)]) ++ new1)) ->
                In a (List.map fst (seen ++ (h, x) :: new1 ++ new2))).
      { intros a Ia. rewrite <- Eq. rewrite map_app. apply in_or_app.
        now left. }
      assert (Hroot : Path next root h x).
      { apply Path_next. apply Hc. now left. }
      exists ((h, x) :: new1 ++ new2). repeat split; auto.
      * intros h' x' [I|I].
        { inversion I; subst. exact Hroot. }
        apply in_app_or in I as [I|I]; [|now apply HP2].
        exact (Path_trans root h x h' x' Hroot (HP1 h' x' I)).
      * intros h' x' [I|I]; [|now apply (Hcov2 h' x')].
        inversion I; subst. apply Hmono. rewrite !map_app.
        apply in_or_app. left. apply in_or_app. right. now left.
      * intros a xa [I|I] h' x' Inx.
        { inversion I; subst. apply Hmono. exact (Hcov1 h' x' Inx). }
        apply in_app_or in I as [I|I].
        -- apply Hmono. exact (Hcl1 a xa I h' x' Inx).
        -- exact (Hcl2 a xa I h' x' Inx).
Qed.

Lemma walk_spec fuel : forall e seen,
  NoDup (List.map fst seen) -> incl (List.map fst seen) U ->
  (List.length U < List.length seen + fuel)%nat ->
  walkPost next U e (next e) seen (walk next fuel e seen).
Proof.
  induction fuel as [|fuel IH]; intros e seen ND Hin Hlen.
  - exfalso. pose proof (NoDup_incl_length ND Hin) as L.
    rewrite length_map in L. lia.
  - simpl. apply (walk_loop_spec fuel e IH); auto.
Qed.

(** The fuel [S (length U)] is enough from the empty visited list. *)
Lemma walk_returns e :
  exists l,
    walk next (S (List.length U)) e [] = Some l
    /\ walkPost next U e (next e) [] (Some l).
Proof.
  assert (P : walkPost next U e (next e) []
                (walk next (S (List.length U)) e [])).
  { apply walk_spec; [apply NoDup_nil | intros a [] | simpl; lia]. }
  pose proof P as (l & E & _). exists l. simpl in E.
  split; [exact E|]. now rewrite <- E.
Qed.

Variable node : Hash -> option MempoolEntry.
Hypothesis next_node : forall e h x, In (h, x) (next e) -> node h = Some x.

Lemma Path_node root h x : Path next root h x -> node h = Some x.
Proof. intros [h' x' I | a xa h' x' _ I]; eapply next_node; eauto. Qed.

Lemma Path_Reach root h x :
  Path next root h x <-> Reach next node root h /\ node h = Some x.
Proof.
  split.
  - intros P. split; [|exact (Path_node root h x P)].
    induction P as [h x I | a xa h x P IH I].
    + exact (@Reach_next next node root h x I).
    + exact (@Reach_step next node root a xa h x IH (Path_node _ _ _ P) I).
  - intros (R & N). destruct R as [h x' I | a xa h x' R Na I].
    + rewrite (next_node _ _ _ I) in N. inversion N; subst.
      now apply Path_next.
    + rewrite (next_node _ _ _ I) in N. inversion N; subst.
      apply (@Path_step next root a xa); [|exact I].
      clear I. revert xa Na.
      induction R as [a y I | b xb a y R IH Nb I]; intros xa Na.
      * rewrite (next_node _ _ _ I) in Na. inversion Na; subst.
        now apply Path_next.
      * rewrite (next_node _ _ _ I) in Na. inversion Na; subst.
        exact (@Path_step next root b xb a xa (IH xb Nb) I).
Qed.

(** From the empty visited list the walk returns the entries reached from
    [e], each once. *)
Lemma walk_reaches e :
  exists l,
    walk next (S (List.length U)) e [] = Some l
    /\ NoDup (List.map fst l)
    /\ (forall h x, In (h, x) l <-> Reach next node e h /\ node h = Some x).
Proof.
  destruct (walk_returns e) as (l & E & new & El & ND & _ & HP & Hcov & Hcl).
  simpl in El, ND, Hcov, Hcl. inversion El; subst new. clear El.
  exists l. split; [exact E|]. split; [exact ND|].
  assert (Hin : forall h x, Path next e h x -> In (h, x) l).
  { intros h x P. induction P as [h x I | a xa h x _ IH I].
    - pose proof (Hcov h x I) as Ih.
      apply in_map_iff in Ih as ([h' x'] & Eh & Ih). simpl in Eh. subst h'.
      pose proof (Path_node _ _ _ (HP h x' Ih)) as N.
      rewrite (next_node _ _ _ I) in N. inversion N; subst. exact Ih.
    - pose proof (Hcl a xa IH h x I) as Ih.
      apply in_map_iff in Ih as ([h' x'] & Eh & Ih). simpl in Eh. subst h'.
      pose proof (Path_node _ _ _ (HP h x' Ih)) as N.
      rewrite (next_node _ _ _ I) in N. inversion N; subst. exact Ih. }
  intros h x. rewrite <- Path_Reach. split; [apply HP | apply Hin].
Qed.
End WalkFacts.

(** *** Ancestors *)

Lemma parents_In s e h x :
  In (h, x) (parents s e) <->
  parentOf (mp_map s) (e_tx e) h /\ mget String.eqb h (mp_map s) = Some x.
Proof.
  unfold parents, parentOf. rewrite in_flat_map. split.
  - intros (inp & Ii & Ih).
    destruct (mget String.eqb (op_hash (prevout inp)) (mp_map s)) as [p|]
      eqn:G; [|destruct Ih].
    destruct Ih as [Ih|[]]. inversion Ih; subst. split; [split|exact G].
    + apply in_map_iff. eauto.
    + apply mhas_true. eauto.
  - intros ((Ii & _) & G). apply in_map_iff in Ii as (inp & <- & Ii).
    exists inp. split; [exact Ii|]. rewrite G. now left.
Qed.

Lemma parents_keys s e h x :
  In (h, x) (parents s e) -> In h (mkeys (mp_map s)).
Proof.
  intros I. apply parents_In in I as (_ & G).
  apply (mget_In String.eqb String.eqb_spec) in G. unfold mkeys.
  apply in_map_iff. exists (h, x). split; [reflexivity | exact G].
Qed.

Lemma parents_node s e h x :
  In (h, x) (parents s e) -> mget String.eqb h (mp_map s) = Some x.
Proof. intros I. now apply parents_In in I. Qed.

Lemma Reach_Ancestor s e h :
  Reach (parents s) (fun h => mget String.eqb h (mp_map s)) e h <->
  Ancestor (mp_map s) (e_tx e) h.
Proof.
  split.
  - intros R. induction R as [h x I | a xa h x _ IH Na I].
    + apply Anc_parent. now apply parents_In in I.
    + apply (@Anc_grand (mp_map s) (e_tx e) a xa h IH Na).
      now apply parents_In in I.
  - intros A. induction A as [p (Ii & Hh) | a xa p _ IH Na (Ii & Hh)].
    + apply mhas_true in Hh as (x & G).
      apply (@Reach_next _ _ e p x). apply parents_In.
      split; [split; [exact Ii | apply mhas_true; eauto] | exact G].
    + apply mhas_true in Hh as (x & G).
      apply (@Reach_step _ _ e a xa p x IH Na). apply parents_In.
      split; [split; [exact Ii | apply mhas_true; eauto] | exact G].
Qed.

Lemma accOf_snoc seen h x :
  (fst (accOf seen) ++ [x], snd (accOf seen) ++ [h]) =
  accOf (seen ++ [(h, x)]).
Proof. unfold accOf. simpl. now rewrite !map_app. Qed.

Lemma getAncestors_loop_walk s rec recw :
  (forall p seen, rec p (accOf seen) s = walked accOf s (recw p seen)) ->
  forall inputs seen,
    getAncestors_loop rec inputs (accOf seen) s =
    walked accOf s
      (walk_loop recw
         (flat_map
            (fun inp =>
               match mget String.eqb (op_hash (prevout inp)) (mp_map s) with
               | Some p => [(op_hash (prevout inp), p)]
               | None => []
               end) inputs) seen).
Proof.
  intros Hrec. induction inputs as [|inp rest IH]; intros seen;
    [reflexivity|].
  cbn [getAncestors_loop flat_map]. unfold bind at 1. unfold getEntry, gets.
  destruct (mget String.eqb (op_hash (prevout inp)) (mp_map s)) as [p|];
    [|apply IH].
  cbn [app walk_loop]. change (snd (accOf seen)) with (List.map fst seen).
  destruct (set_has (op_hash (prevout inp)) (List.map fst seen));
    [apply IH|].
  change (List.map fst seen) with (snd (accOf seen)).
  rewrite accOf_snoc. unfold bind. rewrite Hrec.
  destruct (recw p (seen ++ [(op_hash (prevout inp), p)])) as [seen'|];
    [apply IH | reflexivity].
Qed.

Lemma _getAncestors_walk s : forall fuel e seen,
  _getAncestors fuel e (accOf seen) s =
  walked accOf s (walk (parents s) fuel e seen).
Proof.
  induction fuel as [|fuel IH]; intros e seen; [reflexivity|].
  cbn [_getAncestors walk].
  exact (getAncestors_loop_walk s _ _ (IH) (tx_inputs (e_tx e)) seen).
Qed.

(** X11: [getAncestors] returns the pool's entries of the in-pool
    ancestors of [entry], one for each ancestor, and leaves the pool as it
    is: the result lists exactly the entries stored under the hashes of the
    parents that are in the pool, of their parents, and so on, none of
    them twice. *)
Theorem getAncestors_exact (entry : MempoolEntry) (s : Mempool) :
  exists l,
    getAncestors entry s = Ret (List.map snd l) s
    /\ NoDup (List.map fst l)
    /\ forall h p, In (h, p) l <->
         Ancestor (mp_map s) (e_tx entry) h /\
         mget String.eqb h (mp_map s) = Some p.
Proof.
  destruct (walk_reaches (parents s) (mkeys (mp_map s)) (parents_keys s)
              (fun h => mget String.eqb h (mp_map s)) (parents_node s) entry)
    as (l & E & ND & Hl).
  exists l. split; [|split; [exact ND|]].
  - unfold getAncestors, bind, getCount, gets, ret.
    change ([], []) with (accOf []).
    rewrite _getAncestors_walk.
    unfold mkeys in E. rewrite length_map in E. rewrite E. reflexivity.
  - intros h p. rewrite Hl. now rewrite Reach_Ancestor.
Qed.

(** *** Descendants *)

Lemma spenders_In s e h c :
  In (h, c) (spenders s e) <->
  exists i k, (i < tx_outputs (e_tx e))%nat
    /\ mget key_eqb (e_hash e, i) (mp_spents s) = Some k
    /\ mget String.eqb k (mp_map s) = Some c /\ h = e_hash c.
Proof.
  unfold spenders. rewrite in_flat_map. split.
  - intros (i & Ii & Ih). apply in_seq in Ii.
    destruct (mget key_eqb (e_hash e, i) (mp_spents s)) as [k|] eqn:G;
      [|destruct Ih].
    destruct (mget String.eqb k (mp_map s)) as [c'|] eqn:G';
      [|destruct Ih].
    destruct Ih as [Ih|[]]. inversion Ih; subst.
    exists i, k. repeat split; auto. lia.
  - intros (i & k & Hi & G & G' & ->). exists i.
    split; [apply in_seq; lia|]. rewrite G, G'. now left.
Qed.

Lemma spenders_hashes s e h c :
  In (h, c) (spenders s e) -> In h (entryHashes s).
Proof.
  intros I. apply spenders_In in I as (i & k & _ & _ & G & ->).
  apply (mget_In String.eqb String.eqb_spec) in G. unfold entryHashes.
  apply in_map_iff. exists (k, c). split; [reflexivity | exact G].
Qed.

Lemma getDescendants_loop_walk s rec recw hash :
  (forall p seen, rec p (accOf seen) s = walked accOf s (recw p seen)) ->
  forall indices seen,
    getDescendants_loop rec hash indices (accOf seen) s =
    walked accOf s
      (walk_loop recw
         (flat_map
            (fun i =>
               match mget key_eqb (hash, i) (mp_spents s) with
               | Some h =>
                   match mget String.eqb h (mp_map s) with
                   | Some c => [(e_hash c, c)]
                   | None => []
                   end
               | None => []
               end) indices) seen).
Proof.
  intros Hrec. induction indices as [|i rest IH]; intros seen;
    [reflexivity|].
  cbn [getDescendants_loop flat_map]. unfold bind at 1.
  unfold getSpent, gets.
  destruct (mget key_eqb (hash, i) (mp_spents s)) as [k|]; [|apply IH].
  destruct (mget String.eqb k (mp_map s)) as [c|]; [|apply IH].
  cbn [app walk_loop]. change (snd (accOf seen)) with (List.map fst seen).
  destruct (set_has (e_hash c) (List.map fst seen)); [apply IH|].
  change (List.map fst seen) with (snd (accOf seen)).
  rewrite accOf_snoc. unfold bind. rewrite Hrec.
  destruct (recw c (seen ++ [(e_hash c, c)])) as [seen'|];
    [apply IH | reflexivity].
Qed.

Lemma _getDescendants_walk s : forall fuel e seen,
  _getDescendants fuel e (accOf seen) s =
  walked accOf s (walk (spenders s) fuel e seen).
Proof.
  induction fuel as [|fuel IH]; intros e seen; [reflexivity|].
  cbn [_getDescendants walk].
  exact (getDescendants_loop_walk s _ _ (e_hash e) IH
           (seq 0 (tx_outputs (e_tx e))) seen).
Qed.

Lemma countDescendants_loop_walk s rec recw hash :
  (forall p seen,
     rec p (List.map fst seen) s = walked (List.map fst) s (recw p seen)) ->
  forall indices seen,
    countDescendants_loop rec hash indices (List.map fst seen) s =
    walked (List.map fst) s
      (walk_loop recw
         (flat_map
            (fun i =>
               match mget key_eqb (hash, i) (mp_spents s) with
               | Some h =>
                   match mget String.eqb h (mp_map s) with
                   | Some c => [(e_hash c, c)]
                   | None => []
                   end
               | None => []
               end) indices) seen).
Proof.
  intros Hrec. induction indices as [|i rest IH]; intros seen;
    [reflexivity|].
  cbn [countDescendants_loop flat_map]. unfold bind at 1.
  unfold getSpent, gets.
  destruct (mget key_eqb (hash, i) (mp_spents s)) as [k|]; [|apply IH].
  destruct (mget String.eqb k (mp_map s)) as [c|]; [|apply IH].
  cbn [app walk_loop].
  destruct (set_has (e_hash c) (List.map fst seen)); [apply IH|].
  replace (List.map fst seen ++ [e_hash c])
    with (List.map fst (seen ++ [(e_hash c, c)]))
    by (now rewrite map_app).
  unfold bind. rewrite Hrec.
  destruct (recw c (seen ++ [(e_hash c, c)])) as [seen'|];
    [apply IH | reflexivity].
Qed.

Lemma _countDescendants_walk s : forall fuel e seen,
  _countDescendants fuel e (List.map fst seen) s =
  walked (List.map fst) s (walk (spenders s) fuel e seen).
Proof.
  induction fuel as [|fuel IH]; intros e seen; [reflexivity|].
  cbn [_countDescendants walk].
  exact (countDescendants_loop_walk s _ _ (e_hash e) IH
           (seq 0 (tx_outputs (e_tx e))) seen).
Qed.

Lemma length_entryHashes s :
  List.length (entryHashes s) = List.length (mp_map s).
Proof. unfold entryHashes. apply length_map. Qed.

(** X12: [getDescendants] on a pool whose entries are stored under the
    hashes of their transactions returns the in-pool descendants of
    [entry], one entry for each, and leaves the pool as it is: the result
    lists exactly the spenders of the outputs of [entry], their spenders,
    and so on, none of them twice. *)
Theorem getDescendants_exact (entry : MempoolEntry) (s : Mempool) :
  (forall h e, mget String.eqb h (mp_map s) = Some e -> e_hash e = h) ->
  exists l,
    getDescendants entry s = Ret (List.map snd l) s
    /\ NoDup (List.map fst l)
    /\ forall h c, In (h, c) l <->
         Descendant s entry h /\ mget String.eqb h (mp_map s) = Some c.
Proof.
  intros Hkey.
  assert (Hnode : forall e h c, In (h, c) (spenders s e) ->
                    mget String.eqb h (mp_map s) = Some c).
  { intros e h c I. apply spenders_In in I as (i & k & _ & _ & G & ->).
    now rewrite (Hkey k c G). }
  destruct (walk_reaches (spenders s) (entryHashes s) (spenders_hashes s)
              (fun h => mget String.eqb h (mp_map s)) Hnode entry)
    as (l & E & ND & Hl).
  exists l. split; [|split; [exact ND|]].
  - unfold getDescendants, bind, getCount, gets, ret.
    change ([], []) with (accOf []).
    rewrite _getDescendants_walk.
    rewrite length_entryHashes in E. rewrite E. reflexivity.
  - intros h c. now rewrite Hl.
Qed.

(** X13: [countDescendants] counts what [getDescendants] lists.  On every
    pool both return and leave the pool as it is, the count is the length
    of the list, and it is at most the number of entries of the pool. *)
Theorem countDescendants_length (entry : MempoolEntry) (s : Mempool) :
  exists l,
    getDescendants entry s = Ret l s
    /\ countDescendants entry s = Ret (List.length l) s
    /\ (List.length l <= List.length (mp_map s))%nat.
Proof.
  destruct (walk_returns (spenders s) (entryHashes s) (spenders_hashes s)
              entry) as (l & E & new & El & ND & Hin & _).
  simpl in El, ND, Hin. inversion El; subst new. clear El.
  rewrite length_entryHashes in E.
  exists (List.map snd l). split; [|split].
  - unfold getDescendants, bind, getCount, gets, ret.
    change ([], []) with (accOf []).
    rewrite _getDescendants_walk, E. reflexivity.
  - unfold countDescendants, bind, getCount, gets, ret.
    change (@nil Hash) with (List.map fst (@nil (Hash * MempoolEntry))).
    rewrite _countDescendants_walk, E. simpl.
    now rewrite !length_map.
  - pose proof (NoDup_incl_length ND Hin) as L.
    rewrite length_entryHashes in L. now rewrite !length_map in *.
Qed.

Lemma getDescendants_exact_witness :
  exists l,
    getDescendants demo_a1 demo_chain_pool =
      Ret (List.map snd l) demo_chain_pool
    /\ NoDup (List.map fst l)
    /\ forall h c, In (h, c) l <->
         Descendant demo_chain_pool demo_a1 h /\
         mget String.eqb h (mp_map demo_chain_pool) = Some c.
Proof.
  apply (getDescendants_exact demo_a1 demo_chain_pool).
  intros h e G. unfold demo_chain_pool in G. cbn in G.
  repeat match type of G with
         | (if String.eqb h ?k then _ else _) = _ =>
             destruct (String.eqb_spec h k) as [->|_];
               [inversion G; reflexivity|]
         end.
  discriminate G.
Defined.

(** ** Eviction *)

Lemma spenders_version s a b :
  e_tx a = e_tx b -> spenders s a = spenders s b.
Proof. intros E. unfold spenders, e_hash. now rewrite E. Qed.

Section Evicting.
Variable env : Env.
Variable s0 : Mempool.
Variables root root0 : MempoolEntry.
Hypothesis Hok : pool_ok env s0.
Hypothesis Hroot : mget String.eqb (e_hash root) (mp_map s0) = Some root0.
Hypothesis Hrtx : e_tx root0 = e_tx root.

Lemma keyed0 h e : mget String.eqb h (mp_map s0) = Some e -> e_hash e = h.
Proof.
  destruct Hok as (_ & _ & Hent & _). intros G. now apply Hent in G.
Qed.

Lemma spent0 k h :
  mget key_eqb k (mp_spents s0) = Some h ->
  exists e, mget String.eqb h (mp_map s0) = Some e /\
            In k (inputKeys (e_tx e)).
Proof.
  destruct Hok as (_ & _ & _ & Hsp). intros G.
  destruct (Hsp k h G) as (e & Ge & _ & Ik). eauto.
Qed.

Lemma evicting_start R : evicting s0 R s0.
Proof.
  split; [|split; [|split]].
  - intros k h G. split; [exact G|].
    destruct (spent0 k h G) as (e & Ge & _). apply mhas_true. eauto.
  - intros h e G. exists e. split; [exact G|]. split; [reflexivity|].
    now destruct e.
  - intros h H1 H2. congruence.
  - intros h e0 i G H2. apply mhas_false in H2. congruence.
Qed.

(** The spenders of what is to be evicted are to be evicted. *)
Lemma evicted_spender h e0 i k :
  evicted s0 root h ->
  mget String.eqb h (mp_map s0) = Some e0 ->
  (i < tx_outputs (e_tx e0))%nat ->
  mget key_eqb (h, i) (mp_spents s0) = Some k ->
  Descendant s0 root k.
Proof.
  intros Hev G Hi Gk.
  destruct (spent0 _ _ Gk) as (c & Gc & _).
  pose proof (keyed0 _ _ Gc) as Kc. pose proof (keyed0 _ _ G) as Ke.
  assert (Is : In (k, c) (spenders s0 e0)).
  { apply spenders_In. exists i, k. rewrite Ke. auto. }
  destruct Hev as [->|D].
  - rewrite Hroot in G. inversion G; subst e0.
    rewrite (spenders_version s0 root0 root Hrtx) in Is.
    exact (@Reach_next _ _ root k c Is).
  - exact (@Reach_step _ _ root h e0 k c D G Is).
Qed.

Lemma removeEntry_evicting (R : Hash -> Prop) sp sp0 s s' :
  mget String.eqb (e_hash sp) (mp_map s0) = Some sp0 ->
  e_tx sp0 = e_tx sp ->
  R (e_hash sp) ->
  evicting s0 R s ->
  cleared (e_hash sp) (tx_outputs (e_tx sp)) s ->
  removeEntry env sp s = Ret tt s' ->
  evicting s0 R s' /\ sparser s s'
  /\ mhas String.eqb (e_hash sp) (mp_map s') = false
  /\ forall k, In k (inputKeys (e_tx sp)) ->
               mget key_eqb k (mp_spents s') = None.
Proof.
  intros G0 Etx Hev (HA & HB & HC & HD) Hcl H.
  unfold removeEntry in H. apply bind_Ret in H as ([] & s1 & H1 & H2).
  unfold emit, modify in H2. inversion H2; subst s'. clear H2.
  rewrite untrackEntry_eq in H1.
  destruct (mhas String.eqb (e_hash sp) (mp_map s)) eqn:Hh;
    [|discriminate].
  destruct (isCoinbase (methods env) (e_tx sp)); [discriminate|].
  cbv zeta in H1. injection H1 as E1.
  destruct (fold_spents_fields
              (fun inp spn => mdelete key_eqb (toKey (prevout inp)) spn)
              (tx_inputs (e_tx sp))
              (with_map (mdelete String.eqb (e_hash sp) (mp_map s)) s))
    as (Em & _ & Ep).
  cbn [mp_map mp_spents with_map] in Em, Ep.
  assert (Em1 : mp_map s1 = mdelete String.eqb (e_hash sp) (mp_map s))
    by (rewrite <- E1; exact Em).
  assert (Ep1 : forall k,
            mget key_eqb k (mp_spents s1) =
            if existsb (fun inp => key_eqb (toKey (prevout inp)) k)
                 (tx_inputs (e_tx sp))
            then None else mget key_eqb k (mp_spents s)).
  { intros k. rewrite <- E1. cbn [mp_spents with_size]. rewrite Ep.
    apply mget_spents_delete. }
  clear E1 Em Ep.
  unfold evicting, sparser. cbn [mp_map mp_spents with_events].
  assert (Hm : forall h,
            mhas String.eqb h (mp_map s1) =
            if String.eqb (e_hash sp) h then false
            else mhas String.eqb h (mp_map s)).
  { intros h. unfold mhas. rewrite Em1, mget_mdelete.
    now destruct (String.eqb (e_hash sp) h). }
  split; [split; [|split; [|split]]|split; [|split]].
  - intros k h G. rewrite Ep1 in G.
    destruct (existsb _ (tx_inputs (e_tx sp))) eqn:Ex; [discriminate|].
    destruct (HA k h G) as (G' & Hh'). split; [exact G'|].
    rewrite Hm. destruct (String.eqb_spec (e_hash sp) h) as [<-|N];
      [|exact Hh'].
    exfalso. destruct (spent0 _ _ G') as (e & Ge & Ik).
    rewrite G0 in Ge. inversion Ge; subst e. rewrite Etx in Ik.
    apply existsb_inputKeys in Ik. congruence.
  - intros h e G. rewrite Em1, mget_mdelete in G.
    destruct (String.eqb (e_hash sp) h); [discriminate|]. now apply HB.
  - intros h H1 H2. rewrite Hm in H2.
    destruct (String.eqb_spec (e_hash sp) h) as [<-|N]; [exact Hev|].
    now apply HC.
  - intros h e0 i G H2 Hi. rewrite Ep1.
    destruct (existsb _ (tx_inputs (e_tx sp))); [reflexivity|].
    rewrite Hm in H2.
    destruct (String.eqb_spec (e_hash sp) h) as [<-|N].
    + rewrite G0 in G. inversion G; subst e0. rewrite Etx in Hi.
      now apply Hcl.
    + now apply (HD h e0 i).
  - intros k Gk. rewrite Ep1, Gk.
    now destruct (existsb _ (tx_inputs (e_tx sp))).
  - rewrite Hm. now rewrite String.eqb_refl.
  - intros k Ik. rewrite Ep1.
    apply existsb_inputKeys in Ik. now rewrite Ik.
Qed.

Lemma removeSpenders_evicting fuel : forall e e0 s s',
  mget String.eqb (e_hash e) (mp_map s0) = Some e0 ->
  e_tx e0 = e_tx e ->
  evicted s0 root (e_hash e) ->
  evicting s0 (Descendant s0 root) s ->
  removeSpenders env fuel e s = Ret tt s' ->
  evicting s0 (Descendant s0 root) s' /\ sparser s s'
  /\ cleared (e_hash e) (tx_outputs (e_tx e)) s'.
Proof.
  induction fuel as [|fuel IH]; intros e e0 s s' G0 Etx Hev Hs H;
    [discriminate|].
  cbn [removeSpenders] in H.
  assert (Loop : forall idxs s s',
            (forall i, In i idxs -> (i < tx_outputs (e_tx e))%nat) ->
            evicting s0 (Descendant s0 root) s ->
            forEach idxs
              (fun i =>
                 spender <- getSpent (e_hash e) i ;;
                 match spender with
                 | None => ret tt
                 | Some spender =>
                     removeSpenders env fuel spender ;;
                     removeEntry env spender
                 end) s = Ret tt s' ->
            evicting s0 (Descendant s0 root) s' /\ sparser s s'
            /\ forall i, In i idxs ->
                 mget key_eqb (e_hash e, i) (mp_spents s') = None).
  { clear s s' Hs H. induction idxs as [|i rest IHl]; intros s s' Hi Hs H.
    - inversion H; subst. split; [exact Hs|]. split; [intros k; auto|].
      intros i [].
    - cbn [forEach] in H. apply bind_Ret in H as ([] & s1 & H1 & H2).
      assert (B1 : evicting s0 (Descendant s0 root) s1 /\ sparser s s1
                   /\ mget key_eqb (e_hash e, i) (mp_spents s1) = None).
      { unfold bind at 1 in H1. unfold getSpent, gets in H1.
        destruct (mget key_eqb (e_hash e, i) (mp_spents s)) as [k|] eqn:Gk.
        - pose proof Hs as (HA & HB & _).
          destruct (HA _ _ Gk) as (Gk0 & Hk).
          apply mhas_true in Hk as (sp & Gsp). rewrite Gsp in H1.
          destruct (HB _ _ Gsp) as (sp0 & Gsp0 & Etx' & _).
          assert (Ek : e_hash sp = k).
          { rewrite <- (keyed0 _ _ Gsp0). unfold e_hash. now rewrite Etx'. }
          assert (Hevk : Descendant s0 root k).
          { apply (evicted_spender (e_hash e) e0 i k Hev G0); [|exact Gk0].
            rewrite Etx. apply Hi. now left. }
          apply bind_Ret in H1 as ([] & s2 & H1 & H3).
          rewrite <- Ek in Gsp0, Hevk.
          destruct (IH sp sp0 s s2 Gsp0 Etx' (or_intror Hevk) Hs H1)
            as (Hs2 & Sp2 & Cl2).
          destruct (removeEntry_evicting _ sp sp0 s2 s1 Gsp0 Etx' Hevk Hs2
                      Cl2 H3) as (Hs1 & Sp1 & _ & In1).
          split; [exact Hs1|]. split; [intros k' N; auto|].
          apply In1. destruct (spent0 _ _ Gk0) as (c & Gc & Ic).
          rewrite Ek in Gsp0. rewrite Gsp0 in Gc. inversion Gc; subst c.
          now rewrite <- Etx'.
        - inversion H1; subst s1. split; [exact Hs|].
          split; [intros k; auto | exact Gk]. }
      destruct B1 as (Hs1 & Sp1 & Ci).
      destruct (IHl s1 s' (fun j Hj => Hi j (or_intror Hj)) Hs1 H2)
        as (Hs' & Sp' & Cr).
      split; [exact Hs'|]. split; [intros k N; auto|].
      intros j [<-|Hj]; [now apply Sp' | now apply Cr]. }
  destruct (Loop (seq 0 (tx_outputs (e_tx e))) s s') as (Hs' & Sp & Cl);
    auto.
  - intros i Hi. apply in_seq in Hi. lia.
  - split; [exact Hs'|]. split; [exact Sp|].
    intros i Hi. apply Cl. apply in_seq. lia.
Qed.

Lemma updateAncestors_evicting (R : Hash -> Prop) e f h n :
  preserves (fun s => evicting s0 R s /\ cleared h n s)
    (updateAncestors env e f).
Proof.
  apply inv_updateAncestors.
  intros s h' p c f' Gp ((HA & HB & HC & HD) & Hcl).
  assert (Hm : forall x,
            mhas String.eqb x
              (mset String.eqb h' (apply_fn f' p c) (mp_map s)) =
            mhas String.eqb x (mp_map s)).
  { intros x. unfold mhas. rewrite mget_mset.
    destruct (String.eqb_spec h' x) as [<-|N]; [now rewrite Gp | auto]. }
  split; [|exact Hcl].
  split; [|split; [|split]]; cbn [mp_map mp_spents with_map].
  - intros k x G. rewrite Hm. now apply HA.
  - intros x e' G. rewrite mget_mset in G.
    destruct (String.eqb_spec h' x) as [<-|N]; [|now apply HB].
    inversion G; subst e'. destruct (HB _ _ Gp) as (e0 & G0 & Etx & Eq).
    exists e0. split; [exact G0|]. split; [now rewrite apply_fn_tx|].
    destruct f'; cbn [apply_fn]; try exact Eq;
      rewrite Eq at 3; reflexivity.
  - intros x H1 H2. rewrite Hm in H2. now apply HC.
  - intros x e1 i G H2 Hi. rewrite Hm in H2. now apply (HD x e1 i).
Qed.

Lemma evicting_weaken (R R' : Hash -> Prop) s :
  (forall h, R h -> R' h) -> evicting s0 R s -> evicting s0 R' s.
Proof.
  intros HR (HA & HB & HC & HD). split; [exact HA|]. split; [exact HB|].
  split; [|exact HD]. intros h H1 H2. apply HR. now apply HC.
Qed.

(** Once [root] is gone and the claims of the remaining entries are all
    recorded, everything that was to be evicted is gone. *)
Lemma evicting_all_gone s :
  evicting s0 (evicted s0 root) s -> claims_ok s ->
  mhas String.eqb (e_hash root) (mp_map s) = false ->
  forall h, evicted s0 root h -> mhas String.eqb h (mp_map s) = false.
Proof.
  intros (HA & HB & HC & HD) Hcl Hr.
  assert (Step : forall a xa h c,
            mget String.eqb a (mp_map s0) = Some xa ->
            mhas String.eqb a (mp_map s) = false ->
            In (h, c) (spenders s0 xa) ->
            mhas String.eqb h (mp_map s) = false).
  { intros a xa h c Ga Ha Is.
    apply spenders_In in Is as (i & k & Hi & Gk & Gc & ->).
    rewrite (keyed0 _ _ Ga) in Gk. rewrite (keyed0 _ _ Gc).
    pose proof (HD a xa i Ga Ha Hi) as N.
    destruct (mhas String.eqb k (mp_map s)) eqn:Hk; [|reflexivity].
    exfalso. apply mhas_true in Hk as (c' & Gc').
    destruct (HB _ _ Gc') as (c0 & Gc0 & Etx & _).
    destruct (spent0 _ _ Gk) as (c1 & Gc1 & Ik).
    rewrite Gc0 in Gc1. inversion Gc1; subst c1. rewrite Etx in Ik.
    pose proof (Hcl _ _ Gc' _ Ik) as C. unfold Hash, Key in *.
    congruence. }
  intros h [->|D]; [exact Hr|].
  induction D as [h c Is | a xa h c _ IH Ga Is].
  - rewrite <- (spenders_version s0 root0 root Hrtx) in Is.
    exact (Step _ _ _ _ Hroot Hr Is).
  - exact (Step _ _ _ _ Ga IH Is).
Qed.
End Evicting.

(** The effect of an eviction that returns. *)
Lemma evictEntry_body_exact env fuel h entry entry0 (s s' : Mempool) :
  consistent env s ->
  mget String.eqb h (mp_map s) = Some entry0 ->
  e_tx entry0 = e_tx entry ->
  evictEntry env fuel entry s = Ret tt s' ->
  (forall h', mhas String.eqb h' (mp_map s') = true <->
              mhas String.eqb h' (mp_map s) = true /\ ~ evicted s entry h')
  /\ (forall h' e', mget String.eqb h' (mp_map s') = Some e' ->
        exists e0, mget String.eqb h' (mp_map s) = Some e0 /\
                   e' = set_desc (e_descFee e') (e_descSize e') e0)
  /\ consistent env s'
  /\ mhas String.eqb h (mp_map s') = false
  /\ (forall k x, mget key_eqb k (mp_spents s') = Some x ->
                  mget key_eqb k (mp_spents s) = Some x).
Proof.
  intros (Hok & Hcl) G Etx H.
  assert (Eh : e_hash entry = h).
  { rewrite <- (keyed0 env s Hok _ _ G). unfold e_hash. now rewrite Etx. }
  assert (Hroot : mget String.eqb (e_hash entry) (mp_map s) = Some entry0)
    by (now rewrite Eh).
  assert (Hsound : sound env [entry] s).
  { split; [split; [exact Hok|]|exact Hcl].
    intros e [<-|[]] e0 G0. rewrite Hroot in G0. inversion G0; subst e0.
    exact Etx. }
  pose proof (evictEntry_sound env fuel entry [entry] (or_introl eq_refl)
                s Hsound) as Ps.
  rewrite H in Ps. destruct Ps as ((Hok' & _) & Hcl').
  unfold evictEntry in H.
  apply bind_Ret in H as ([] & s1 & H1 & H).
  apply bind_Ret in H as (n & s2 & H2 & H3).
  destruct (removeSpenders_evicting env s entry entry0 Hok Hroot Etx fuel
              entry entry0 s s1 Hroot Etx (or_introl eq_refl)
              (evicting_start env s Hok _) H1) as (Hs1 & _ & Cl1).
  pose proof (updateAncestors_evicting env s _ entry RemoveFee
                (e_hash entry) (tx_outputs (e_tx entry)) s1
                (conj Hs1 Cl1)) as P2.
  rewrite H2 in P2. destruct P2 as (Hs2 & Cl2).
  apply (evicting_weaken s _ (evicted s entry) s2
           (fun h D => or_intror D)) in Hs2.
  destruct (removeEntry_evicting env s Hok _ entry entry0 s2 s'
              Hroot Etx (or_introl eq_refl) Hs2 Cl2 H3)
    as (Hs' & _ & Hgone & _).
  pose proof (evicting_all_gone env s entry entry0 Hok Hroot Etx s' Hs'
                Hcl' Hgone) as Hall.
  destruct Hs' as (HA & HB & HC & _).
  rewrite Eh in Hgone.
  split; [|split; [|split; [exact (conj Hok' Hcl')|split; [exact Hgone|]]]].
  3:{ intros k x Gk. now apply HA. }
  2:{ intros h' e' Ge'. destruct (HB _ _ Ge') as (e0 & Ge0 & _ & Eq).
      eauto. }
  intros h'. split.
  - intros Hh'. split.
    + apply mhas_true in Hh' as (e' & Ge').
      destruct (HB _ _ Ge') as (e0 & Ge0 & _). apply mhas_true. eauto.
    + intros Ev. rewrite (Hall h' Ev) in Hh'. discriminate.
  - intros (Hh' & Nev).
    destruct (mhas String.eqb h' (mp_map s')) eqn:Hm; [reflexivity|].
    exfalso. apply Nev. now apply HC.
Qed.

(** X14: [evictEntry] removes an entry and its descendants, and nothing
    else.  On a consistent pool, when [evictEntry] of the pool's entry for
    [h] returns, the pool map holds exactly the hashes it held before that
    are neither [h] nor a descendant of the entry; the entries that remain
    are as they were but for [descFee] and [descSize]; and the pool is
    consistent again. *)
Theorem evictEntry_exact env fuel h entry (s s' : Mempool) :
  consistent env s ->
  mget String.eqb h (mp_map s) = Some entry ->
  evictEntry env fuel entry s = Ret tt s' ->
  (forall h', mhas String.eqb h' (mp_map s') = true <->
              mhas String.eqb h' (mp_map s) = true /\ ~ evicted s entry h')
  /\ (forall h' e', mget String.eqb h' (mp_map s') = Some e' ->
        exists e0, mget String.eqb h' (mp_map s) = Some e0 /\
                   e' = set_desc (e_descFee e') (e_descSize e') e0)
  /\ consistent env s'.
Proof.
  intros Hc G H.
  destruct (evictEntry_body_exact env fuel h entry entry s s' Hc G eq_refl H)
    as (Hx & HB & Hc' & _).
  auto.
Qed.

Lemma evictEntry_exact_witness :
  mkeys (mp_map demo_pool12') = ["t1"; "t2"]
  /\ mp_map demo_pool12'_evicted = []
  /\ (forall h', mhas String.eqb h' (mp_map demo_pool12'_evicted) = true <->
        mhas String.eqb h' (mp_map demo_pool12') = true /\
        ~ evicted demo_pool12' demo_t1_entry h')
  /\ consistent demo_env demo_pool12'_evicted.
Proof.
  assert (R : calls demo_env 5
                [AddTX demo_T1 None; AddTX demo_T1x None; AddTX demo_T2 None]
                demo_new = Some demo_pool12') by (vm_compute; reflexivity).
  destruct (calls_sound demo_env 5 _ _ _ (sound_new "genesis" demo_env) R)
    as ((Hok & _) & Hcl).
  assert (G : mget String.eqb "t1" (mp_map demo_pool12') = Some demo_t1_entry)
    by (vm_compute; reflexivity).
  assert (E : evictEntry demo_env 5 demo_t1_entry demo_pool12' =
              Ret tt demo_pool12'_evicted) by (vm_compute; reflexivity).
  destruct (evictEntry_exact demo_env 5 "t1" demo_t1_entry demo_pool12'
              demo_pool12'_evicted (conj Hok Hcl) G E) as (Hx & _ & Hc).
  split; [reflexivity|]. split; [reflexivity|].
  split; [exact Hx | exact Hc].
Defined.

(** ** After a reorganisation *)

Lemma reorgRemoves_desc isFinal flag height mtp fee size e :
  reorgRemoves isFinal flag height mtp (set_desc fee size e) =
  reorgRemoves isFinal flag height mtp e.
Proof. reflexivity. Qed.

Lemma set_desc_twice e0 e1 e2 :
  e1 = set_desc (e_descFee e1) (e_descSize e1) e0 ->
  e2 = set_desc (e_descFee e2) (e_descSize e2) e1 ->
  e2 = set_desc (e_descFee e2) (e_descSize e2) e0.
Proof. intros E1 E2. rewrite E2 at 1. rewrite E1. reflexivity. Qed.

Lemma handleReorg_loop env fuel (s0 : Mempool) : forall remove s s',
  consistent env s ->
  (forall h e, mget String.eqb h (mp_map s) = Some e ->
     exists e0, mget String.eqb h (mp_map s0) = Some e0 /\
                e = set_desc (e_descFee e) (e_descSize e) e0) ->
  forEach remove
    (fun hash =>
       entry <- getEntry hash ;;
       match entry with
       | None => ret tt
       | Some entry => evictEntry env fuel entry
       end) s = Ret tt s' ->
  consistent env s'
  /\ (forall h e, mget String.eqb h (mp_map s') = Some e ->
        exists e0, mget String.eqb h (mp_map s0) = Some e0 /\
                   e = set_desc (e_descFee e) (e_descSize e) e0)
  /\ (forall h, mhas String.eqb h (mp_map s) = false ->
                mhas String.eqb h (mp_map s') = false)
  /\ forall h, In h remove -> mhas String.eqb h (mp_map s') = false.
Proof.
  induction remove as [|hash rest IH]; intros s s' Hc HB H.
  - inversion H; subst. split; [exact Hc|]. split; [exact HB|].
    split; [auto|]. intros h [].
  - cbn [forEach] in H. apply bind_Ret in H as ([] & s1 & H1 & H2).
    assert (B1 : consistent env s1
                 /\ (forall h e, mget String.eqb h (mp_map s1) = Some e ->
                       exists e0, mget String.eqb h (mp_map s0) = Some e0 /\
                                  e = set_desc (e_descFee e) (e_descSize e) e0)
                 /\ (forall h, mhas String.eqb h (mp_map s) = false ->
                               mhas String.eqb h (mp_map s1) = false)
                 /\ mhas String.eqb hash (mp_map s1) = false).
    { unfold bind, getEntry, gets in H1.
      destruct (mget String.eqb hash (mp_map s)) as [entry|] eqn:G.
      - destruct (evictEntry_body_exact env fuel hash entry entry s s1 Hc G
                    eq_refl H1)
          as (Hx & HB1 & Hc1 & Hgone & _).
        split; [exact Hc1|]. split; [|split; [|exact Hgone]].
        + intros h e Ge. destruct (HB1 h e Ge) as (e1 & Ge1 & E1).
          destruct (HB h e1 Ge1) as (e0 & Ge0 & E0).
          exists e0. split; [exact Ge0|].
          exact (set_desc_twice e0 e1 e E0 E1).
        + intros h Hh. destruct (mhas String.eqb h (mp_map s1)) eqn:Hm;
            [|reflexivity].
          apply Hx in Hm as (Hm & _). congruence.
      - inversion H1; subst s1. split; [exact Hc|]. split; [exact HB|].
        split; [auto|]. now apply mhas_false. }
    destruct B1 as (Hc1 & HB1 & Hm1 & Hg1).
    destruct (IH s1 s' Hc1 HB1 H2) as (Hc' & HB' & Hm' & Hg').
    split; [exact Hc'|]. split; [exact HB'|]. split; [auto|].
    intros h [<-|Hh]; auto.
Qed.

(** X15: [_handleReorg] leaves no entry it checks for.  On a consistent
    pool, when the median time is read and [_handleReorg] returns, no entry
    of the pool is non-final at the next height, has version 2 or more with
    an input whose sequence lock is enabled, or spends a coinbase; the
    entries that remain are entries of the pool before, as they were but
    for [descFee] and [descSize]; and the pool is consistent again. *)
Theorem handleReorg_sanitizes env isFinal mtp flag fuel (s s' : Mempool) :
  consistent env s ->
  _handleReorg env isFinal (Done mtp) flag fuel s = Ret tt s' ->
  (forall h e, mget String.eqb h (mp_map s') = Some e ->
     reorgRemoves isFinal flag (ch_height (chain env) + 1) mtp e = false
     /\ exists e0, mget String.eqb h (mp_map s) = Some e0 /\
                   e = set_desc (e_descFee e) (e_descSize e) e0)
  /\ consistent env s'.
Proof.
  intros Hc H. unfold _handleReorg in H. cbn [await] in H.
  unfold bind at 1 in H. unfold ret at 1 in H.
  unfold bind at 1 in H. unfold gets at 1 in H.
  assert (HB0 : forall h e, mget String.eqb h (mp_map s) = Some e ->
            exists e0, mget String.eqb h (mp_map s) = Some e0 /\
                       e = set_desc (e_descFee e) (e_descSize e) e0).
  { intros h e G. exists e. split; [exact G|]. now destruct e. }
  destruct (handleReorg_loop env fuel s _ s s' Hc HB0 H)
    as (Hc' & HB & _ & Hg).
  split; [|exact Hc'].
  intros h e G. destruct (HB h e G) as (e0 & G0 & E0).
  split; [|eauto].
  rewrite E0, reorgRemoves_desc.
  destruct (reorgRemoves isFinal flag (ch_height (chain env) + 1) mtp e0)
    eqn:Hr; [|reflexivity].
  exfalso. assert (Hin : In h (mkeys
             (filter (fun he => reorgRemoves isFinal flag
                                  (ch_height (chain env) + 1) mtp (snd he))
                     (mp_map s)))).
  { unfold mkeys. apply in_map_iff. exists (h, e0). split; [reflexivity|].
    apply filter_In. split; [|exact Hr].
    exact (mget_In String.eqb String.eqb_spec _ _ _ G0). }
  apply Hg in Hin. apply mhas_false in Hin. congruence.
Qed.

Lemma handleReorg_sanitizes_witness :
  mkeys (mp_map demo_pool14) = ["t1"; "t4"]
  /\ mkeys (mp_map demo_reorged) = ["t4"]
  /\ (forall h e, mget String.eqb h (mp_map demo_reorged) = Some e ->
        reorgRemoves demo_isFinal 2147483648
          (ch_height (chain demo_env) + 1) 4000 e = false
        /\ exists e0, mget String.eqb h (mp_map demo_pool14) = Some e0 /\
                      e = set_desc (e_descFee e) (e_descSize e) e0)
  /\ consistent demo_env demo_reorged.
Proof.
  assert (R : calls demo_env 5 [AddTX demo_T1 None; AddTX demo_T4 None]
                demo_new = Some demo_pool14) by (vm_compute; reflexivity).
  destruct (calls_sound demo_env 5 _ _ _ (sound_new "genesis" demo_env) R)
    as ((Hok & _) & Hcl).
  assert (E : _handleReorg demo_env demo_isFinal (Done 4000) 2147483648 5
                demo_pool14 = Ret tt demo_reorged)
    by (vm_compute; reflexivity).
  split; [reflexivity|]. split; [reflexivity|].
  exact (handleReorg_sanitizes demo_env demo_isFinal 4000 2147483648 5
           demo_pool14 demo_reorged (conj Hok Hcl) E).
Defined.

(** ** Double spenders of a mined transaction *)

Lemma removeDoubleSpends_loop env fuel (s0 : Mempool) : forall inputs s s',
  consistent env s ->
  (forall h e, mget String.eqb h (mp_map s) = Some e ->
     exists e0, mget String.eqb h (mp_map s0) = Some e0 /\
                e = set_desc (e_descFee e) (e_descSize e) e0) ->
  forEach inputs
    (fun inp =>
       spent <- getSpent (op_hash (prevout inp)) (op_index (prevout inp)) ;;
       match spent with
       | None => ret tt
       | Some spent => evictEntry env fuel spent ;; emit (EvDoubleSpend spent)
       end) s = Ret tt s' ->
  consistent env s'
  /\ (forall h e, mget String.eqb h (mp_map s') = Some e ->
        exists e0, mget String.eqb h (mp_map s0) = Some e0 /\
                   e = set_desc (e_descFee e) (e_descSize e) e0)
  /\ (forall k x, mget key_eqb k (mp_spents s') = Some x ->
                  mget key_eqb k (mp_spents s) = Some x)
  /\ forall inp, In inp inputs ->
       mhas key_eqb (toKey (prevout inp)) (mp_spents s') = false.
Proof.
  induction inputs as [|inp rest IH]; intros s s' Hc HB H.
  - inversion H; subst. split; [exact Hc|]. split; [exact HB|].
    split; [auto|]. intros inp [].
  - cbn [forEach] in H. apply bind_Ret in H as ([] & s1 & H1 & H2).
    assert (B1 : consistent env s1
                 /\ (forall h e, mget String.eqb h (mp_map s1) = Some e ->
                       exists e0, mget String.eqb h (mp_map s0) = Some e0 /\
                                  e = set_desc (e_descFee e) (e_descSize e) e0)
                 /\ (forall k x, mget key_eqb k (mp_spents s1) = Some x ->
                                 mget key_eqb k (mp_spents s) = Some x)
                 /\ mget key_eqb (toKey (prevout inp)) (mp_spents s1) = None).
    { unfold bind at 1 in H1. unfold getSpent, gets in H1.
      change (op_hash (prevout inp), op_index (prevout inp))
        with (toKey (prevout inp)) in H1.
      destruct (mget key_eqb (toKey (prevout inp)) (mp_spents s))
        as [h|] eqn:Gk.
      - pose proof Hc as ((_ & _ & _ & Hsp) & _).
        destruct (Hsp _ _ Gk) as (spent & Gs & _). rewrite Gs in H1.
        apply bind_Ret in H1 as ([] & s2 & H1 & H3).
        unfold emit, modify in H3. inversion H3; subst s1. clear H3.
        cbn [mp_map mp_spents with_events].
        destruct (evictEntry_body_exact env fuel h spent spent s s2 Hc Gs
                    eq_refl H1)
          as (_ & HB1 & Hc1 & Hgone & Hsub).
        split; [|split; [|split; [exact Hsub|]]].
        + exact Hc1.
        + intros h' e Ge. destruct (HB1 h' e Ge) as (e1 & Ge1 & E1).
          destruct (HB h' e1 Ge1) as (e0 & Ge0 & E0).
          exists e0. split; [exact Ge0|].
          exact (set_desc_twice e0 e1 e E0 E1).
        + destruct (mget key_eqb (toKey (prevout inp)) (mp_spents s2))
            as [x|] eqn:Gx; [|reflexivity].
          exfalso. pose proof (Hsub _ _ Gx) as Gx'.
          rewrite Gk in Gx'. inversion Gx'; subst x.
          destruct Hc1 as ((_ & _ & _ & Hsp1) & _).
          destruct (Hsp1 _ _ Gx) as (e & Ge & _).
          apply mhas_false in Hgone. congruence.
      - inversion H1; subst s1. split; [exact Hc|]. split; [exact HB|].
        split; [auto | exact Gk]. }
    destruct B1 as (Hc1 & HB1 & Hs1 & Hk1).
    destruct (IH s1 s' Hc1 HB1 H2) as (Hc' & HB' & Hs' & Hk').
    split; [exact Hc'|]. split; [exact HB'|]. split; [auto|].
    intros i [<-|Hi]; [|now apply Hk'].
    apply (mhas_false key_eqb).
    destruct (mget key_eqb (toKey (prevout inp)) (mp_spents s'))
      as [x|] eqn:Gx; [|reflexivity].
    apply Hs' in Gx. congruence.
Qed.

(** X16: [removeDoubleSpends] establishes what [isDoubleSpend] tests.  On
    a consistent pool, when [removeDoubleSpends(tx)] returns, no input of
    [tx] is a key of the spent map, so [isDoubleSpend(tx)] is false; the
    entries that remain are entries of the pool before, as they were but
    for [descFee] and [descSize]; and the pool is consistent again. *)
Theorem removeDoubleSpends_clears env fuel tx (s s' : Mempool) :
  consistent env s ->
  removeDoubleSpends env fuel tx s = Ret tt s' ->
  isDoubleSpend tx s' = Ret false s'
  /\ (forall h e, mget String.eqb h (mp_map s') = Some e ->
        exists e0, mget String.eqb h (mp_map s) = Some e0 /\
                   e = set_desc (e_descFee e) (e_descSize e) e0)
  /\ consistent env s'.
Proof.
  intros Hc H. unfold removeDoubleSpends in H.
  assert (HB0 : forall h e, mget String.eqb h (mp_map s) = Some e ->
            exists e0, mget String.eqb h (mp_map s) = Some e0 /\
                       e = set_desc (e_descFee e) (e_descSize e) e0).
  { intros h e G. exists e. split; [exact G|]. now destruct e. }
  destruct (removeDoubleSpends_loop env fuel s _ s s' Hc HB0 H)
    as (Hc' & HB & _ & Hk).
  split; [|split; [exact HB | exact Hc']].
  unfold isDoubleSpend, gets. f_equal.
  destruct (existsb _ (tx_inputs tx)) eqn:Ex; [|reflexivity].
  apply existsb_exists in Ex as (inp & Hi & Hm).
  rewrite (Hk inp Hi) in Hm. discriminate.
Qed.

Lemma removeDoubleSpends_clears_witness :
  mkeys (mp_map demo_pool12') = ["t1"; "t2"]
  /\ isDoubleSpend demo_T1x demo_pool12' = Ret true demo_pool12'
  /\ isDoubleSpend demo_T1x demo_pool12'_mined = Ret false demo_pool12'_mined
  /\ consistent demo_env demo_pool12'_mined.
Proof.
  assert (R : calls demo_env 5
                [AddTX demo_T1 None; AddTX demo_T1x None; AddTX demo_T2 None]
                demo_new = Some demo_pool12') by (vm_compute; reflexivity).
  destruct (calls_sound demo_env 5 _ _ _ (sound_new "genesis" demo_env) R)
    as ((Hok & _) & Hcl).
  assert (E : removeDoubleSpends demo_env 5 demo_T1x demo_pool12' =
              Ret tt demo_pool12'_mined) by (vm_compute; reflexivity).
  destruct (removeDoubleSpends_clears demo_env 5 demo_T1x demo_pool12'
              demo_pool12'_mined (conj Hok Hcl) E) as (Hd & _ & Hc).
  split; [reflexivity|]. split; [reflexivity|].
  split; [exact Hd | exact Hc].
Defined.

(** ** The coin view *)

Lemma kmget_mset {V} k k' (v : V) (m : list (Key * V)) :
  mget key_eqb k' (mset key_eqb k v m) =
  if key_eqb k k' then Some v else mget key_eqb k' m.
Proof.
  destruct (key_eqb_spec k k') as [->|N].
  - apply mget_mset_eq, key_eqb_spec.
  - now apply mget_mset_ne; [apply key_eqb_spec|].
Qed.

Lemma toKey_inj o o' : toKey o = toKey o' -> o = o'.
Proof. destruct o, o'. unfold toKey. simpl. congruence. Qed.

Lemma getCoinView_loop_resolves env (s : Mempool) :
  (forall h e, mget String.eqb h (mp_map s) = Some e -> e_hash e = h) ->
  forall inputs view view' s',
    (forall o c, mget key_eqb (toKey o) view = Some c ->
                 coinFor env s o = Some c) ->
    getCoinView_loop env inputs view s = Ret view' s' ->
    s' = s
    /\ forall o,
         mget key_eqb (toKey o) view' =
         if existsb (fun inp => key_eqb (toKey (prevout inp)) (toKey o)) inputs
         then coinFor env s o
         else mget key_eqb (toKey o) view.
Proof.
  intros Hkey. induction inputs as [|inp rest IH]; intros view view' s' Hv H.
  - inversion H; subst. auto.
  - cbn [getCoinView_loop existsb] in H |- *.
    unfold bind at 1 in H. unfold getTX, bind, getEntry, gets in H.
    assert (Step : forall view1,
              (forall o,
                 mget key_eqb (toKey o) view1 =
                 if key_eqb (toKey (prevout inp)) (toKey o)
                 then coinFor env s o else mget key_eqb (toKey o) view) ->
              getCoinView_loop env rest view1 s = Ret view' s' ->
              s' = s /\
              forall o,
                mget key_eqb (toKey o) view' =
                if key_eqb (toKey (prevout inp)) (toKey o)
                   || existsb
                        (fun inp => key_eqb (toKey (prevout inp)) (toKey o))
                        rest
                then coinFor env s o
                else mget key_eqb (toKey o) view).
    { intros view1 H1 H2.
      destruct (IH view1 view' s') as (-> & Hr); [|exact H2|].
      - intros o c G. rewrite H1 in G.
        destruct (key_eqb (toKey (prevout inp)) (toKey o)); auto.
      - split; [reflexivity|]. intros o. rewrite Hr, H1.
        destruct (existsb _ rest);
          destruct (key_eqb (toKey (prevout inp)) (toKey o)); reflexivity. }
    assert (Same : forall o,
              coinFor env s (prevout inp) = None ->
              mget key_eqb (toKey o) view =
              if key_eqb (toKey (prevout inp)) (toKey o)
              then coinFor env s o else mget key_eqb (toKey o) view).
    { intros o N.
      destruct (key_eqb_spec (toKey (prevout inp)) (toKey o)) as [E|_];
        [|reflexivity].
      apply toKey_inj in E. subst o.
      destruct (mget key_eqb (toKey (prevout inp)) view) as [c|] eqn:G;
        [|now rewrite N].
      apply Hv in G. congruence. }
    unfold coinFor in Same.
    destruct (mget String.eqb (op_hash (prevout inp)) (mp_map s))
      as [e|] eqn:Ge.
    + cbn [ret] in H. unfold ret in H.
      destruct (op_index (prevout inp) <? tx_outputs (e_tx e))%nat eqn:Hi.
      * apply (Step _) in H; [exact H|].
        intros o. unfold view_addIndex. rewrite kmget_mset.
        pose proof (Hkey _ _ Ge) as Ek. unfold e_hash in Ek. rewrite Ek.
        change (op_hash (prevout inp), op_index (prevout inp))
          with (toKey (prevout inp)).
        destruct (key_eqb_spec (toKey (prevout inp)) (toKey o)) as [E|_];
          [|reflexivity].
        apply toKey_inj in E. subst o. unfold coinFor. now rewrite Ge, Hi.
      * apply (Step _) in H; [exact H|]. intros o. now apply Same.
    + unfold ret at 1 in H. unfold await in H.
      destruct (ch_readCoin (chain env) (prevout inp)) as [[c|]|err] eqn:Hc;
        try discriminate.
      * unfold ret at 1 in H. apply (Step _) in H; [exact H|].
        intros o. unfold view_addEntry. rewrite kmget_mset.
        destruct (key_eqb_spec (toKey (prevout inp)) (toKey o)) as [E|_];
          [|reflexivity].
        apply toKey_inj in E. subst o. unfold coinFor. now rewrite Ge, Hc.
      * unfold ret at 1 in H. apply (Step _) in H; [exact H|].
        intros o. now apply Same.
Qed.

(** X17: what [getCoinView] resolves.  On a pool whose entries are stored
    under the hashes of their transactions, when [getCoinView(tx)] returns
    it has left the pool as it is, and the view holds, for every input of
    [tx], the output of the pool's transaction if the parent is in the pool
    and has that output, else the coin read from the chain if there is one,
    and nothing otherwise; it holds no other outpoint. *)
Theorem getCoinView_resolves env tx (s : Mempool) view s' :
  (forall h e, mget String.eqb h (mp_map s) = Some e -> e_hash e = h) ->
  getCoinView env tx s = Ret view s' ->
  s' = s
  /\ (forall inp, In inp (tx_inputs tx) ->
        mget key_eqb (toKey (prevout inp)) view =
        coinFor env s (prevout inp))
  /\ (forall o, view_hasEntry view o = true ->
        In (toKey o) (inputKeys tx)).
Proof.
  intros Hkey H. unfold getCoinView in H.
  destruct (getCoinView_loop_resolves env s Hkey (tx_inputs tx) [] view s')
    as (-> & Hv); [intros o c G; discriminate | exact H |].
  split; [reflexivity|]. split.
  - intros inp Hi. rewrite Hv.
    assert (Ex : existsb
                   (fun i => key_eqb (toKey (prevout i))
                               (toKey (prevout inp))) (tx_inputs tx) = true).
    { apply existsb_exists. exists inp. split; [exact Hi|].
      now destruct (key_eqb_spec (toKey (prevout inp))
                      (toKey (prevout inp))). }
    now rewrite Ex.
  - intros o Ho. unfold view_hasEntry, mhas in Ho. rewrite Hv in Ho.
    destruct (existsb _ (tx_inputs tx)) eqn:Ex; [|discriminate].
    now apply existsb_inputKeys in Ex.
Qed.

Lemma getCoinView_resolves_witness :
  getCoinView demo_env demo_mixed demo_pool12' =
    Ret demo_mixed_view demo_pool12'
  /\ List.map fst demo_mixed_view = [("t1", 1%nat); ("utxo", 1%nat)]
  /\ (forall inp, In inp (tx_inputs demo_mixed) ->
        mget key_eqb (toKey (prevout inp)) demo_mixed_view =
        coinFor demo_env demo_pool12' (prevout inp))
  /\ (forall o, view_hasEntry demo_mixed_view o = true ->
        In (toKey o) (inputKeys demo_mixed)).
Proof.
  assert (R : calls demo_env 5
                [AddTX demo_T1 None; AddTX demo_T1x None; AddTX demo_T2 None]
                demo_new = Some demo_pool12') by (vm_compute; reflexivity).
  destruct (calls_sound demo_env 5 _ _ _ (sound_new "genesis" demo_env) R)
    as ((Hok & _) & _).
  assert (E : getCoinView demo_env demo_mixed demo_pool12' =
              Ret demo_mixed_view demo_pool12') by (vm_compute; reflexivity).
  destruct (getCoinView_resolves demo_env demo_mixed demo_pool12'
              demo_mixed_view demo_pool12'
              (keyed0 demo_env demo_pool12' Hok) E) as (_ & Hv & Hn).
  split; [exact E|]. split; [reflexivity|]. split; [exact Hv | exact Hn].
Defined.

(** ** Prioritisation *)

Lemma apply_fn_fee f p c :
  e_deltaFee (apply_fn f p c) = e_deltaFee p /\
  e_size (apply_fn f p c) = e_size p.
Proof. destruct f; auto. Qed.

Lemma readsFee_same f p c c' :
  readsFee f = true ->
  e_deltaFee c = e_deltaFee c' -> e_size c = e_size c' ->
  apply_fn f p c = apply_fn f p c'.
Proof.
  intros Hf E1 E2. destruct f; try discriminate; cbn [apply_fn];
    now rewrite ?E1, ?E2.
Qed.

Lemma mappedSoFar_shape g st W s :
  (forall p, e_tx (g p) = e_tx p) ->
  mappedSoFar g st W s -> sameShape (mp_map st) s.
Proof.
  intros Hg (Hm & _) h. rewrite Hm.
  destruct (mget String.eqb h (mp_map st)) as [p|]; [|reflexivity].
  destruct (set_has h W); simpl; now rewrite ?Hg.
Qed.

Lemma mappedSoFar_start g st : mappedSoFar g st [] st.
Proof.
  split; [|split; [reflexivity | symmetry; apply with_map_same]].
  intros h. now destruct (mget String.eqb h (mp_map st)).
Qed.

Lemma mappedSoFar_step f child st W s h p :
  readsFee f = true ->
  mget String.eqb (e_hash child) (mp_map st) = Some child ->
  mappedSoFar (fun p => apply_fn f p child) st W s -> ~ In h W ->
  mget String.eqb h (mp_map s) = Some p ->
  mappedSoFar (fun p => apply_fn f p child) st (h :: W)
    (with_map
       (mset String.eqb h (apply_fn f p (live child s)) (mp_map s)) s).
Proof.
  intros Hf Hchild (Hm & Hk & Hs) Hn G.
  assert (Hp : mget String.eqb h (mp_map st) = Some p).
  { pose proof (Hm h) as E. rewrite G in E.
    destruct (mget String.eqb h (mp_map st)) as [p0|]; [|discriminate].
    apply set_has_not_In in Hn. rewrite Hn in E. congruence. }
  assert (Hlive : e_deltaFee (live child s) = e_deltaFee child /\
                  e_size (live child s) = e_size child).
  { unfold live. rewrite (Hm (e_hash child)), Hchild.
    destruct (set_has (e_hash child) W); [apply apply_fn_fee | auto]. }
  rewrite (readsFee_same f p (live child s) child Hf (proj1 Hlive)
             (proj2 Hlive)).
  split; [|split].
  - intros h'. simpl. rewrite mget_mset.
    destruct (String.eqb_spec h h') as [<-|N].
    + rewrite Hp, String.eqb_refl. reflexivity.
    + rewrite Hm. destruct (mget String.eqb h' (mp_map st)); [|reflexivity].
      destruct (String.eqb_spec h' h); [congruence|]. reflexivity.
  - simpl. rewrite mkeys_mset_has; [exact Hk | apply String.eqb_spec |].
    apply mhas_true. eauto.
  - simpl. rewrite Hs at 2. reflexivity.
Qed.

(** [updateAncestors] with a callback that reads [deltaFee] and [size] of
    the child, given any list of at most [maxAncestors] hashes that holds
    all the ancestors: the callback is applied to each ancestor once. *)
Lemma mapped_covers env child f st L :
  readsFee f = true ->
  mget String.eqb (e_hash child) (mp_map st) = Some child ->
  (forall h, Ancestor (mp_map st) (e_tx child) h -> In h L) ->
  (List.length L <= maxAncestors (options env))%nat ->
  exists k st',
    updateAncestors env child f st = Ret k st'
    /\ (forall h p,
          mget String.eqb h (mp_map st) = Some p ->
          (Ancestor (mp_map st) (e_tx child) h ->
           mget String.eqb h (mp_map st') = Some (apply_fn f p child))
          /\ (~ Ancestor (mp_map st) (e_tx child) h ->
              mget String.eqb h (mp_map st') = Some p))
    /\ mkeys (mp_map st') = mkeys (mp_map st)
    /\ st' = with_map (mp_map st') st.
Proof.
  intros Hf Hchild HL Hlen.
  destruct (traversal_ok env child f (mp_map st) (e_tx child)
              (mappedSoFar (fun p => apply_fn f p child) st)
              (fun W s => mappedSoFar_shape _ st W s
                             (fun p => apply_fn_tx f p child))
              (fun W s h p => mappedSoFar_step f child st W s h p Hf Hchild)
              child st (mappedSoFar_start _ st) eq_refl)
    as (Va & sa & Ea & (Jm & Jk & Js) & NDa & Ha1 & _ & Ha2).
  assert (Hle : (List.length Va <= List.length L)%nat).
  { apply NoDup_incl_length; [exact NDa|]. intros h Hh. apply HL, Ha1, Hh. }
  assert (Hall : forall h, Ancestor (mp_map st) (e_tx child) h -> In h Va).
  { apply Ha2. lia. }
  exists (List.length Va), sa. split; [|split; [|split]].
  - unfold updateAncestors, ancestorFuel, bind. now rewrite Ea.
  - intros h p G. rewrite Jm, G. split.
    + intros A. apply Hall, set_has_In in A. now rewrite A.
    + intros A. destruct (set_has h Va) eqn:Hh; [|reflexivity].
      apply set_has_In in Hh. exfalso. apply A, Ha1, Hh.
  - exact Jk.
  - exact Js.
Qed.

(** The ancestors depend on the keys of the pool map and on the
    transactions under them only. *)
Lemma Ancestor_shape m m' tx h :
  (forall x, option_map e_tx (mget String.eqb x m') =
             option_map e_tx (mget String.eqb x m)) ->
  Ancestor m tx h -> Ancestor m' tx h.
Proof.
  intros Hs.
  assert (Hp : forall tx p, parentOf m tx p -> parentOf m' tx p).
  { intros tx0 p (Hi & Hm). split; [exact Hi|].
    apply mhas_true in Hm as (e & G). pose proof (Hs p) as E.
    rewrite G in E. unfold mhas.
    destruct (mget String.eqb p m'); [reflexivity | discriminate]. }
  intros A. induction A as [p P | a e p _ IH G P].
  - apply Anc_parent. now apply Hp.
  - pose proof (Hs a) as E. rewrite G in E.
    destruct (mget String.eqb a m') as [e'|] eqn:G'; [|discriminate].
    simpl in E. inversion E as [Etx].
    apply (@Anc_grand m' tx a e' p IH G'). rewrite Etx. now apply Hp.
Qed.

Lemma shape_mset (h : Hash) (e e' : MempoolEntry) m :
  mget String.eqb h m = Some e -> e_tx e' = e_tx e ->
  forall x, option_map e_tx (mget String.eqb x (mset String.eqb h e' m)) =
            option_map e_tx (mget String.eqb x m).
Proof.
  intros G Etx x. rewrite mget_mset.
  destruct (String.eqb_spec h x) as [<-|N]; [|reflexivity].
  rewrite G. simpl. now rewrite Etx.
Qed.

Lemma writeEntry_in entry cur g s :
  mget String.eqb (e_hash entry) (mp_map s) = Some cur ->
  writeEntry entry g s =
  Ret (g cur)
      (with_map (mset String.eqb (e_hash entry) (g cur) (mp_map s)) s).
Proof.
  intros G. unfold writeEntry, live, mhas. now rewrite G.
Qed.

Lemma set_desc_same p : set_desc (e_descFee p) (e_descSize p) p = p.
Proof. now destruct p. Qed.

(** X18: what [prioritise] does.  Let [entry] be the pool's entry for its
    hash, with at most [maxAncestors] in-pool ancestors and not among
    them.  Then [prioritise(entry, pri, fee)] raises [priority] by [pri]
    and [deltaFee] by [fee], stopping each at zero; with [d] the change of
    [deltaFee], it raises [descFee] of the entry and of every in-pool
    ancestor by [d], once each; and it changes nothing else in the
    pool. *)
Theorem prioritise_effect env entry pri fee (s : Mempool) n s0 :
  mget String.eqb (e_hash entry) (mp_map s) = Some entry ->
  countAncestors env entry s = Ret n s0 ->
  (n <= maxAncestors (options env))%nat ->
  ~ Ancestor (mp_map s) (e_tx entry) (e_hash entry) ->
  let d := Z.max (e_deltaFee entry + fee) 0 - e_deltaFee entry in
  let entry' :=
    set_fees (Z.max (e_deltaFee entry + fee) 0) (e_descFee entry + d)
      (set_priority (Z.max (e_priority entry + pri) 0) entry) in
  exists s',
    prioritise env entry pri fee s = Ret entry' s'
    /\ mget String.eqb (e_hash entry) (mp_map s') = Some entry'
    /\ (forall h p, h <> e_hash entry ->
          mget String.eqb h (mp_map s) = Some p ->
          (Ancestor (mp_map s) (e_tx entry) h ->
           mget String.eqb h (mp_map s') =
             Some (set_desc (e_descFee p + d) (e_descSize p) p))
          /\ (~ Ancestor (mp_map s) (e_tx entry) h ->
              mget String.eqb h (mp_map s') = Some p))
    /\ mkeys (mp_map s') = mkeys (mp_map s)
    /\ s' = with_map (mp_map s') s.
Proof.
  intros Hentry Hcount Hn Hacyc d entry'.
  destruct (countAncestors_exact env entry s n s0 Hcount Hn)
    as (_ & V & _ & Elen & HV).
  set (pri' := if e_priority entry <? - pri then - e_priority entry else pri).
  set (e1 := set_priority (e_priority entry + pri') entry).
  set (fee' := if e_deltaFee e1 <? - fee then - e_deltaFee e1 else fee).
  assert (Ep : e_priority entry + pri' = Z.max (e_priority entry + pri) 0).
  { unfold pri'. destruct (Z.ltb_spec (e_priority entry) (- pri)); lia. }
  assert (Ed : fee' = d).
  { unfold fee', d, e1. cbn [e_deltaFee set_priority].
    destruct (Z.ltb_spec (e_deltaFee entry) (- fee)); lia. }
  set (s1 := with_map (mset String.eqb (e_hash entry) e1 (mp_map s)) s).
  assert (Hk1 : mkeys (mp_map s1) = mkeys (mp_map s)).
  { unfold s1. simpl. apply mkeys_mset_has; [apply String.eqb_spec|].
    apply mhas_true. eauto. }
  assert (H1 : prioritise env entry pri fee s =
               (if fee' =? 0 then ret e1
                else
                  updateAncestors env e1 PrePrioritise ;;
                  entry2 <- writeEntry e1
                    (fun e => set_fees (e_deltaFee e + fee')
                                (e_descFee e + fee') e) ;;
                  updateAncestors env entry2 PostPrioritise ;;
                  gets (live entry2)) s1).
  { unfold prioritise. unfold bind at 1. unfold gets at 1.
    assert (El : live entry s = entry) by (unfold live; now rewrite Hentry).
    rewrite El. cbv zeta. fold pri'. unfold bind at 1.
    rewrite (writeEntry_in entry entry _ s Hentry). reflexivity. }
  rewrite H1. clear H1.
  destruct (fee' =? 0) eqn:Hz.
  - (* nothing to do for the fees *)
    apply Z.eqb_eq in Hz. rewrite Ed in Hz.
    assert (E1 : e1 = entry').
    { unfold e1, entry'. rewrite Ep, Hz, Z.add_0_r.
      assert (Em : Z.max (e_deltaFee entry + fee) 0 = e_deltaFee entry)
        by (unfold d in Hz; lia).
      rewrite Em. now destruct entry. }
    exists s1. unfold ret. rewrite E1. split; [reflexivity|].
    split; [|split; [|split; [exact Hk1|]]].
    + unfold s1. simpl. rewrite mget_mset, String.eqb_refl.
      now rewrite E1.
    + intros h p Nh G. unfold s1. simpl. rewrite mget_mset.
      destruct (String.eqb_spec (e_hash entry) h) as [E|_]; [congruence|].
      rewrite Hz, Z.add_0_r, set_desc_same. auto.
    + unfold s1. simpl. reflexivity.
  - (* the fees change *)
    apply Z.eqb_neq in Hz.
    assert (Sh1 : forall x,
              option_map e_tx (mget String.eqb x (mp_map s1)) =
              option_map e_tx (mget String.eqb x (mp_map s)))
      by (apply (shape_mset _ entry); [exact Hentry | reflexivity]).
    assert (G1 : mget String.eqb (e_hash e1) (mp_map s1) = Some e1).
    { unfold s1. simpl.
      change (e_hash e1) with (e_hash entry).
      now rewrite mget_mset, String.eqb_refl. }
    assert (A1 : forall h, Ancestor (mp_map s1) (e_tx e1) h <->
                           Ancestor (mp_map s) (e_tx entry) h).
    { intros h. change (e_tx e1) with (e_tx entry). split.
      - apply Ancestor_shape. intros x. symmetry. apply Sh1.
      - apply Ancestor_shape. exact Sh1. }
    destruct (mapped_covers env e1 PrePrioritise s1 V eq_refl G1)
      as (k2 & s2 & U2 & M2 & K2 & W2).
    { intros h A. apply HV, A1, A. }
    { lia. }
    unfold bind at 1. rewrite U2.
    assert (G2 : mget String.eqb (e_hash e1) (mp_map s2) = Some e1).
    { apply (M2 _ _ G1). intros A. apply A1 in A. exact (Hacyc A). }
    unfold bind at 1. rewrite (writeEntry_in e1 e1 _ s2 G2).
    set (e2 := set_fees (e_deltaFee e1 + fee') (e_descFee e1 + fee') e1).
    set (s3 := with_map (mset String.eqb (e_hash e1) e2 (mp_map s2)) s2).
    assert (Sh2 : forall x,
              option_map e_tx (mget String.eqb x (mp_map s2)) =
              option_map e_tx (mget String.eqb x (mp_map s1))).
    { intros x. destruct (mget String.eqb x (mp_map s1)) as [p|] eqn:Gx.
      - destruct (M2 x p Gx) as (Ma & Mn).
        destruct (set_has x V) eqn:Hx.
        + apply set_has_In, HV, A1 in Hx. rewrite (Ma Hx).
          cbn [option_map]. now rewrite apply_fn_tx.
        + apply set_has_not_In in Hx. rewrite Mn; [reflexivity|].
          intros A. apply Hx, HV, A1, A.
      - assert (N2 : mget String.eqb x (mp_map s2) = None).
        { assert (Ek : In x (mkeys (mp_map s2)) ->
                       In x (mkeys (mp_map s1))) by (now rewrite K2).
          apply (mget_None_keys String.eqb String.eqb_spec).
          intros I. apply Ek in I. revert I.
          now apply (mget_None_keys String.eqb String.eqb_spec). }
        now rewrite N2. }
    assert (Sh3 : forall x,
              option_map e_tx (mget String.eqb x (mp_map s3)) =
              option_map e_tx (mget String.eqb x (mp_map s))).
    { intros x. unfold s3. cbn [mp_map with_map].
      rewrite (shape_mset _ e1 e2 _ G2 eq_refl). now rewrite Sh2, Sh1. }
    assert (G3 : mget String.eqb (e_hash e2) (mp_map s3) = Some e2).
    { unfold s3. simpl. change (e_hash e2) with (e_hash e1).
      now rewrite mget_mset, String.eqb_refl. }
    assert (A3 : forall h, Ancestor (mp_map s3) (e_tx e2) h <->
                           Ancestor (mp_map s) (e_tx entry) h).
    { intros h. change (e_tx e2) with (e_tx entry). split.
      - apply Ancestor_shape. intros x. symmetry. apply Sh3.
      - apply Ancestor_shape. exact Sh3. }
    destruct (mapped_covers env e2 PostPrioritise s3 V eq_refl G3)
      as (k4 & s4 & U4 & M4 & K4 & W4).
    { intros h A. apply HV, A3, A. }
    { lia. }
    unfold bind at 1. rewrite U4.
    assert (G4 : mget String.eqb (e_hash e2) (mp_map s4) = Some e2).
    { apply (M4 _ _ G3). intros A. apply A3 in A. exact (Hacyc A). }
    assert (E2 : e2 = entry').
    { unfold e2, entry', e1. cbn [e_deltaFee e_descFee set_priority].
      rewrite Ep, Ed. unfold d. f_equal. lia. }
    exists s4. unfold gets, live. rewrite G4, E2.
    split; [reflexivity|]. split; [|split; [|split]].
    + rewrite <- E2. exact G4.
    + intros h p Nh G.
      assert (Gh1 : mget String.eqb h (mp_map s1) = Some p).
      { unfold s1. simpl. rewrite mget_mset.
        destruct (String.eqb_spec (e_hash entry) h); [congruence | exact G]. }
      destruct (M2 h p Gh1) as (Ma2 & Mn2). split.
      * intros A. pose proof (Ma2 (proj2 (A1 h) A)) as Gh2.
        assert (Gh3 : mget String.eqb h (mp_map s3) =
                      Some (apply_fn PrePrioritise p e1)).
        { unfold s3. simpl. rewrite mget_mset.
          destruct (String.eqb_spec (e_hash e1) h) as [E|_];
            [exfalso; apply Nh; now rewrite <- E | exact Gh2]. }
        destruct (M4 h _ Gh3) as (Ma4 & _).
        rewrite (Ma4 (proj2 (A3 h) A)). f_equal.
        unfold apply_fn, set_desc, e2, e1. simpl. rewrite Ed.
        f_equal; lia.
      * intros A.
        assert (Gh2 : mget String.eqb h (mp_map s2) = Some p).
        { apply Mn2. intros A'. apply A, A1, A'. }
        assert (Gh3 : mget String.eqb h (mp_map s3) = Some p).
        { unfold s3. simpl. rewrite mget_mset.
          destruct (String.eqb_spec (e_hash e1) h) as [E|_];
            [exfalso; apply Nh; now rewrite <- E | exact Gh2]. }
        destruct (M4 h _ Gh3) as (_ & Mn4). apply Mn4.
        intros A'. apply A, A3, A'.
    + rewrite K4. unfold s3. cbn [mp_map with_map].
      rewrite mkeys_mset_has; [now rewrite K2 | apply String.eqb_spec |].
      apply mhas_true. eauto.
    + rewrite W4 at 1. unfold s3.
      change (with_map (mp_map s4) s2 = with_map (mp_map s4) s).
      rewrite W2 at 1. reflexivity.
Qed.

Lemma Ancestor_is_parent m tx h :
  Ancestor m tx h ->
  exists tx',
    (tx' = tx \/ exists a e, mget String.eqb a m = Some e /\ tx' = e_tx e)
    /\ parentOf m tx' h.
Proof.
  intros [p P | a e p _ G P].
  - exists tx. auto.
  - exists (e_tx e). split; [right; eauto | exact P].
Qed.

Lemma prioritise_effect_witness :
  e_deltaFee demo_t2_entry = 1000
  /\ exists e',
       prioritise demo_env demo_t2_entry 5 (-5000) demo_pool12' =
         Ret e' demo_prioritised
       /\ e_priority e' = 5 /\ e_deltaFee e' = 0
       /\ mget String.eqb "t2" (mp_map demo_prioritised) = Some e'
       /\ option_map e_descFee (mget String.eqb "t1" (mp_map demo_pool12'))
          = Some 2000
       /\ option_map e_descFee
            (mget String.eqb "t1" (mp_map demo_prioritised)) = Some 1000.
Proof.
  split; [reflexivity|].
  assert (G : mget String.eqb (e_hash demo_t2_entry) (mp_map demo_pool12') =
              Some demo_t2_entry) by (vm_compute; reflexivity).
  assert (C : countAncestors demo_env demo_t2_entry demo_pool12' =
              Ret 1%nat demo_pool12') by (vm_compute; reflexivity).
  assert (B : (1 <= maxAncestors (options demo_env))%nat)
    by (vm_compute; lia).
  assert (N : ~ Ancestor (mp_map demo_pool12') (e_tx demo_t2_entry)
                (e_hash demo_t2_entry)).
  { intros A.
    destruct (Ancestor_is_parent _ _ _ A)
      as (tx' & [->|(a & e & Ga & ->)] & (Hi & _)).
    - vm_compute in Hi. destruct Hi as [E|[]]. discriminate E.
    - unfold demo_pool12' in Ga. cbn in Ga.
      repeat match type of Ga with
             | (if String.eqb a ?k then _ else _) = _ =>
                 destruct (String.eqb a k);
                   [inversion Ga; subst e; vm_compute in Hi;
                    destruct Hi as [E|[]]; discriminate E|]
             end.
      discriminate Ga. }
  destruct (prioritise_effect demo_env demo_t2_entry 5 (-5000) demo_pool12'
              1%nat demo_pool12' G C B N) as (s' & E & G' & _).
  assert (Es : s' = demo_prioritised).
  { assert (P : poolOf (prioritise demo_env demo_t2_entry 5 (-5000)
                          demo_pool12') demo_new = demo_prioritised)
      by (vm_compute; reflexivity).
    rewrite E in P. exact P. }
  subst s'. eexists. split; [exact E|].
  split; [reflexivity|]. split; [reflexivity|].
  split; [exact G'|]. split; reflexivity.
Defined.

(** ** Orphans and the pool *)

Lemma apart_other X s s' :
  mp_map s' = mp_map s -> mp_orphans s' = mp_orphans s ->
  apart X s -> apart X s'.
Proof.
  intros Em Eo (HK & HD & HG). unfold apart, orphanKeyed.
  rewrite Em, Eo. auto.
Qed.

Lemma apart_shrink X s0 s :
  keysSub s0 s -> mp_orphans s = mp_orphans s0 -> apart X s0 -> apart X s.
Proof.
  intros Hsub Eo (HK & HD & HG). unfold apart, orphanKeyed. rewrite Eo.
  split; [exact HK|]. split.
  - intros h Hh. now apply HD, Hsub.
  - intros h Hh. destruct (HG h Hh) as (G1 & G2). split; [|exact G2].
    destruct (mhas String.eqb h (mp_map s)) eqn:Hm; [|reflexivity].
    apply Hsub in Hm. congruence.
Qed.

Lemma keysSub_other s0 s s' :
  mp_map s' = mp_map s -> keysSub s0 s -> keysSub s0 s'.
Proof. intros E H h. rewrite E. apply H. Qed.

Lemma keysSub_delete s0 s h :
  keysSub s0 s -> keysSub s0 (with_map (mdelete String.eqb h (mp_map s)) s).
Proof.
  intros H h'. simpl. unfold mhas at 1. rewrite mget_mdelete.
  destruct (String.eqb h h'); [discriminate|]. apply H.
Qed.

Lemma keysSub_update s0 s h p c f :
  mget String.eqb h (mp_map s) = Some p ->
  keysSub s0 s ->
  keysSub s0
    (with_map (mset String.eqb h (apply_fn f p c) (mp_map s)) s).
Proof.
  intros G H h'. simpl. unfold mhas at 1. rewrite mget_mset.
  destruct (String.eqb_spec h h') as [<-|N]; [|apply H].
  intros _. apply H. unfold mhas. now rewrite G.
Qed.

(** A computation that only removes or rewrites entries of the pool map
    and leaves the orphans alone keeps the three properties. *)
Lemma apart_map_only {A} X (m : M A) :
  (forall s0, preserves (keysSub s0) m) ->
  (forall s0, preserves (fun s => mp_orphans s = mp_orphans s0) m) ->
  preserves (apart X) m.
Proof.
  intros Hk Ho s Hs.
  specialize (Hk s s (fun h H => H)). specialize (Ho s s eq_refl).
  destruct (m s) as [a s'|e s'|]; auto;
    exact (apart_shrink X s s' Hk Ho Hs).
Qed.

Lemma orphans_frame (s0 s s' : Mempool) :
  mp_orphans s' = mp_orphans s -> mp_waiting s' = mp_waiting s ->
  mp_orphans s = mp_orphans s0 -> mp_orphans s' = mp_orphans s0.
Proof. intros E _ H. now rewrite E. Qed.

Lemma apart_emit X ev : preserves (apart X) (emit ev).
Proof.
  unfold emit. apply preserves_modify. intros s Hs.
  now apply (apart_other X s).
Qed.

Lemma apart_rejects_add X h : preserves (apart X) (rejects_add h).
Proof.
  unfold rejects_add. apply preserves_modify. intros s Hs.
  now apply (apart_other X s).
Qed.

Lemma apart_removeEntry env X e : preserves (apart X) (removeEntry env e).
Proof.
  apply apart_map_only; intros s0.
  - apply inv_removeEntry; [apply keysSub_other | apply keysSub_delete].
  - apply oinv_removeEntry. apply orphans_frame.
Qed.

Lemma apart_updateAncestors env X e f :
  preserves (apart X) (updateAncestors env e f).
Proof.
  apply apart_map_only; intros s0.
  - apply inv_updateAncestors. apply keysSub_update.
  - apply oinv_updateAncestors. apply orphans_frame.
Qed.

Lemma apart_limitSize env X fuel added :
  preserves (apart X) (limitSize env fuel added).
Proof.
  apply apart_map_only; intros s0.
  - apply inv_limitSize;
      [apply keysSub_other | apply keysSub_delete | apply keysSub_update].
  - apply oinv_limitSize. apply orphans_frame.
Qed.

Lemma apart_removeDoubleSpends env X fuel tx :
  preserves (apart X) (removeDoubleSpends env fuel tx).
Proof.
  apply apart_map_only; intros s0.
  - apply inv_removeDoubleSpends;
      [apply keysSub_other | apply keysSub_delete | apply keysSub_update].
  - apply oinv_removeDoubleSpends. apply orphans_frame.
Qed.

Lemma apart_verify env X e view : preserves (apart X) (verify env e view).
Proof.
  apply apart_map_only; intros s0.
  - apply inv_verify; [apply keysSub_other | apply keysSub_update].
  - apply oinv_verify. apply orphans_frame.
Qed.

(** *** The orphan map *)

Lemma apart_odelete X s h :
  apart X s ->
  apart X (with_orphans (mdelete String.eqb h (mp_orphans s)) s).
Proof.
  intros (HK & HD & HG).
  assert (Hm : forall x,
            mhas String.eqb x (mp_orphans s) = false ->
            mhas String.eqb x (mdelete String.eqb h (mp_orphans s)) = false).
  { intros x Hx. unfold mhas in *. rewrite smget_mdelete.
    now destruct (String.eqb h x). }
  unfold apart, orphanKeyed. cbn [mp_orphans mp_map with_orphans].
  split; [|split].
  - intros x o tx G. rewrite smget_mdelete in G.
    destruct (String.eqb h x); [discriminate|]. now apply HK.
  - intros x Hx. now apply Hm, HD.
  - intros x Hx. destruct (HG x Hx). split; [assumption | now apply Hm].
Qed.

Lemma apart_oupdate X s h o o' :
  mget String.eqb h (mp_orphans s) = Some o -> o_raw o' = o_raw o ->
  apart X s ->
  apart X (with_orphans (mset String.eqb h o' (mp_orphans s)) s).
Proof.
  intros G Er (HK & HD & HG).
  assert (Hm : forall x,
            mhas String.eqb x (mset String.eqb h o' (mp_orphans s)) =
            mhas String.eqb x (mp_orphans s)).
  { intros x. unfold mhas. rewrite smget_mset.
    destruct (String.eqb_spec h x) as [<-|N]; [now rewrite G | reflexivity]. }
  unfold apart, orphanKeyed. cbn [mp_orphans mp_map with_orphans].
  split; [|split].
  - intros x o1 tx G1 T. rewrite smget_mset in G1.
    destruct (String.eqb_spec h x) as [<-|N]; [|now apply (HK x o1)].
    inversion G1; subst o1. apply (HK h o tx G).
    unfold toTX in *. now rewrite <- Er.
  - intros x Hx. rewrite Hm. now apply HD.
  - intros x Hx. rewrite Hm. now apply HG.
Qed.

Lemma apart_ostore X s tx o :
  mhas String.eqb (tx_hash tx) (mp_map s) = false ->
  ~ In (tx_hash tx) X -> o_raw o = RawTX tx ->
  apart X s ->
  apart X (with_orphans (mset String.eqb (tx_hash tx) o (mp_orphans s)) s).
Proof.
  intros Hnew HX Er (HK & HD & HG).
  unfold apart, orphanKeyed. cbn [mp_orphans mp_map with_orphans].
  split; [|split].
  - intros x o1 tx1 G1 T. rewrite smget_mset in G1.
    destruct (String.eqb_spec (tx_hash tx) x) as [<-|N];
      [|now apply (HK x o1)].
    inversion G1; subst o1. unfold toTX in T. rewrite Er in T.
    now inversion T.
  - intros x Hx. unfold mhas. rewrite smget_mset.
    destruct (String.eqb_spec (tx_hash tx) x) as [<-|N]; [congruence|].
    now apply HD.
  - intros x Hx. destruct (HG x Hx) as (G1 & G2). split; [exact G1|].
    unfold mhas. rewrite smget_mset.
    destruct (String.eqb_spec (tx_hash tx) x) as [<-|N];
      [contradiction | exact G2].
Qed.

Lemma unlink_frame (hash : Hash) (m0 : list (Hash * MempoolEntry))
  (o0 : list (Hash * Orphan)) (prevs : list Hash) :
  preserves (fun s => mp_map s = m0 /\ mp_orphans s = o0)
    (forEach prevs (unlinkOrphan hash)).
Proof.
  apply preserves_forEach. intros prev _. unfold unlinkOrphan.
  pres; apply preserves_modify; intros s Hs; exact Hs.
Qed.

Lemma apart_removeOrphan X h : preserves (apart X) (removeOrphan h).
Proof.
  intros s Hs. rewrite removeOrphan_eq.
  destruct (mget String.eqb h (mp_orphans s)) as [o|]; [|exact Hs].
  destruct (toTX o) as [tx|]; [|now apply apart_odelete].
  pose proof (unlink_frame h (mp_map s) (mp_orphans s) (getPrevout tx) s
                (conj eq_refl eq_refl)) as P.
  destruct (forEach (getPrevout tx) (unlinkOrphan h) s) as [[] s1|e s1|];
    [|destruct P as (Em & Eo); now apply (apart_other X s)|exact Logic.I].
  destruct P as (Em & Eo).
  apply (apart_other X
           (with_orphans (mdelete String.eqb h (mp_orphans s1)) s1));
    [reflexivity | reflexivity |].
  apply apart_odelete. now apply (apart_other X s).
Qed.

(** When [removeOrphan] returns, the hash is not among the orphans, and
    the pool map is as before. *)
Lemma removeOrphan_gone h s b s' :
  removeOrphan h s = Ret b s' ->
  mhas String.eqb h (mp_orphans s') = false /\ mp_map s' = mp_map s.
Proof.
  rewrite removeOrphan_eq. intros H.
  destruct (mget String.eqb h (mp_orphans s)) as [o|] eqn:G.
  - destruct (toTX o) as [tx|].
    + pose proof (unlink_frame h (mp_map s) (mp_orphans s) (getPrevout tx) s
                    (conj eq_refl eq_refl)) as P.
      destruct (forEach (getPrevout tx) (unlinkOrphan h) s) as [[] s1|e s1|];
        try discriminate.
      destruct P as (Em & Eo). inversion H; subst. simpl.
      split; [|exact Em]. unfold mhas. now rewrite smget_mdelete,
        String.eqb_refl.
    + inversion H; subst. simpl. split; [|reflexivity].
      unfold mhas. now rewrite smget_mdelete, String.eqb_refl.
  - inversion H; subst. split; [|reflexivity]. unfold mhas. now rewrite G.
Qed.

Lemma apart_limitOrphans env X : preserves (apart X) (limitOrphans env).
Proof. unfold limitOrphans. pres. apply apart_removeOrphan. Qed.

(** The orphans [resolveOrphans] hands over were stored under the hashes
    of their transactions, which are not in [X]. *)
Lemma apart_resolveOrphans_loop X : forall hashes resolved,
  (forall o tx, In o resolved -> toTX o = Some tx -> ~ In (tx_hash tx) X) ->
  hoare (apart X) (resolveOrphans_loop hashes resolved)
    (fun res s =>
       apart X s /\
       forall o tx, In o res -> toTX o = Some tx -> ~ In (tx_hash tx) X)
    (fun _ => apart X).
Proof.
  induction hashes as [|h rest IH]; intros resolved Hr s Hs.
  - simpl. auto.
  - cbn [resolveOrphans_loop]. unfold bind at 1. unfold getOrphan, gets.
    destruct (mget String.eqb h (mp_orphans s)) as [o|] eqn:G; [|exact Hs].
    cbv zeta. unfold bind at 1. unfold modify at 1.
    set (o' := {| o_raw := o_raw o; o_missing := o_missing o - 1;
                  o_id := o_id o |}).
    assert (Hs1 : apart X
                    (with_orphans (mset String.eqb h o' (mp_orphans s)) s))
      by (apply (apart_oupdate X s h o o' G); [reflexivity | exact Hs]).
    assert (HX : forall tx, toTX o' = Some tx -> ~ In (tx_hash tx) X).
    { intros tx T HIn. destruct Hs as (HK & _ & HG).
      assert (Eh : tx_hash tx = h) by (apply (HK h o tx G); exact T).
      destruct (HG _ HIn) as (_ & N). rewrite Eh in N.
      unfold mhas in N. now rewrite G in N. }
    destruct (o_missing o' =? 0).
    + unfold bind at 1. unfold modify at 1.
      apply IH.
      * intros o1 tx I1 T. apply in_app_or in I1 as [I1|[<-|[]]];
          [now apply (Hr o1) | now apply HX].
      * now apply apart_odelete.
    + now apply IH.
Qed.

Lemma apart_resolveOrphans X parent :
  hoare (apart X) (resolveOrphans parent)
    (fun res s =>
       apart X s /\
       forall o tx, In o res -> toTX o = Some tx -> ~ In (tx_hash tx) X)
    (fun _ => apart X).
Proof.
  intros s Hs. unfold resolveOrphans. unfold bind at 1. unfold gets at 1.
  destruct (mget String.eqb (tx_hash parent) (mp_waiting s)) as [set|].
  - unfold bind at 1. unfold assert.
    destruct (0 <? List.length set)%nat; [|exact Hs].
    unfold ret at 1. unfold bind at 1.
    pose proof (apart_resolveOrphans_loop X set []
                  (fun o tx (I : In o []) => match I with end) s Hs) as P.
    destruct (resolveOrphans_loop set [] s) as [res s1|e s1|];
      [|exact P|exact Logic.I].
    destruct P as (Hs1 & Hres). unfold bind, modify, ret.
    split; [|exact Hres]. now apply (apart_other X s1).
  - unfold ret. split; [exact Hs|]. intros o tx [].
Qed.

(** *** Admission *)

Lemma apart_track X s (e : MempoolEntry) :
  mhas String.eqb (e_hash e) (mp_orphans s) = false ->
  ~ In (e_hash e) X ->
  apart X s ->
  apart X (with_map (mset String.eqb (e_hash e) e (mp_map s)) s).
Proof.
  intros Ho HX (HK & HD & HG).
  unfold apart, orphanKeyed. cbn [mp_orphans mp_map with_map].
  split; [exact HK|]. split.
  - intros h Hh. unfold mhas in Hh. rewrite mget_mset in Hh.
    destruct (String.eqb_spec (e_hash e) h) as [E|N]; [now subst h|].
    now apply HD.
  - intros h Hh. destruct (HG h Hh) as (G1 & G2). split; [|exact G2].
    unfold mhas. rewrite mget_mset.
    destruct (String.eqb_spec (e_hash e) h) as [E|N];
      [subst h; contradiction | exact G1].
Qed.

Lemma trackEntry_apart env X e :
  hoare (fun s => apart X s
                  /\ mhas String.eqb (e_hash e) (mp_orphans s) = false
                  /\ ~ In (e_hash e) X)
    (trackEntry env e) (fun _ => apart X) (fun _ => apart X).
Proof.
  intros s (Hs & Ho & HX). rewrite trackEntry_eq.
  destruct (mhas String.eqb (e_hash e) (mp_map s)); [exact Hs|].
  cbv zeta.
  pose proof (apart_track X s e Ho HX Hs) as H1.
  destruct (isCoinbase (methods env) (e_tx e)); [exact H1|].
  eapply apart_other; [| |exact H1]; cbn [mp_map mp_orphans with_size].
  - now rewrite (fold_left_keeps mp_map) by reflexivity.
  - now rewrite (fold_left_keeps mp_orphans) by reflexivity.
Qed.

Lemma maybeOrphan_apart env X tx view id :
  hoare (fun s => apart X s
                  /\ mhas String.eqb (tx_hash tx) (mp_map s) = false
                  /\ ~ In (tx_hash tx) X)
    (maybeOrphan env tx view id) (fun _ => apart X) (fun _ => apart X).
Proof.
  intros s (Hs & Hnew & HX).
  destruct (dropPath env tx view s) eqn:Dp.
  - rewrite (maybeOrphan_drop_eq env tx view id s Dp).
    apply (apart_other X s); [| |exact Hs];
      unfold dropPool; now destruct (_ || _).
  - destruct (hasMissing view tx) eqn:Hm.
    + rewrite (maybeOrphan_store_eq env tx view id s Dp Hm).
      pose proof (apart_limitOrphans env X s Hs) as P.
      pose proof (inv_limitOrphans env (fun x => mp_map x = mp_map s)
                    (fun x x' E H => eq_trans E H) s eq_refl) as Pm.
      destruct (limitOrphans env s) as [b s1|e s1|];
        [|exact P|exact Logic.I].
      cbv zeta.
      eapply apart_other;
        [| |apply (apart_ostore X
                    (with_waiting
                       (linkAll (tx_hash tx)
                          (scanHashes view (tx_inputs tx) [])
                          (mp_waiting s1)) s1) tx
                    (orphanOf tx (scanHashes view (tx_inputs tx) []) id))];
        try reflexivity.
      * cbn [mp_map with_waiting]. now rewrite Pm.
      * exact HX.
      * now apply (apart_other X s1).
    + unfold dropPath in Dp. apply orb_false_elim in Dp as [P _].
      rewrite (maybeOrphan_none_eq env tx view id s P Hm). exact Hs.
Qed.

Section ApartReplay.
Variable env : Env.
Variable X : list Hash.
Variable rec : TX -> Z -> M (option (list Hash)).
Hypothesis rec_apart : forall tx id,
  ~ In (tx_hash tx) X -> preserves (apart X) (rec tx id).

Lemma handleOrphans_step_apart orphan :
  (forall tx, toTX orphan = Some tx -> ~ In (tx_hash tx) X) ->
  preserves (apart X) (handleOrphans_step env rec orphan).
Proof.
  intros HX. unfold handleOrphans_step.
  destruct (toTX orphan) as [tx|]; [|apply preserves_ret].
  specialize (HX tx eq_refl).
  pres; try (apply rec_apart; exact HX); try apply apart_rejects_add;
    try apply apart_emit; apply apart_removeOrphan.
Qed.

Lemma handleOrphans_body_apart parent :
  preserves (apart X) (handleOrphans_body env rec parent).
Proof.
  intros s Hs. unfold handleOrphans_body, bind.
  pose proof (apart_resolveOrphans X parent s Hs) as P.
  destruct (resolveOrphans parent s) as [res s1|e s1|];
    [|exact P|exact Logic.I].
  destruct P as (Hs1 & Hres).
  assert (Pf : preserves (apart X)
                 (forEach res (handleOrphans_step env rec))).
  { apply preserves_forEach. intros o Ho.
    apply handleOrphans_step_apart. intros tx T. exact (Hres o tx Ho T). }
  exact (Pf s1 Hs1).
Qed.

Lemma addEntry_body_apart entry view :
  hoare (fun s => apart X s
                  /\ mhas String.eqb (e_hash entry) (mp_orphans s) = false
                  /\ ~ In (e_hash entry) X)
    (addEntry_body env rec entry view)
    (fun _ => apart X) (fun _ => apart X).
Proof.
  intros s Hs. unfold addEntry_body. unfold bind at 1.
  pose proof (trackEntry_apart env X entry s Hs) as P.
  destruct (trackEntry env entry s) as [[] s1|e s1|];
    [|exact P|exact Logic.I].
  assert (Pr : preserves (apart X)
                 (updateAncestors env entry AddFee ;;
                  emit (EvTx (e_tx entry) view) ;;
                  emit (EvAddEntry entry) ;;
                  handleOrphans_body env rec (e_tx entry))).
  { pres; [apply apart_updateAncestors | apply apart_emit | apply apart_emit
          | apply handleOrphans_body_apart]. }
  exact (Pr s1 P).
Qed.

Lemma insertTX_body_apart fuel tx id :
  ~ In (tx_hash tx) X ->
  preserves (apart X) (insertTX_body env fuel rec tx id).
Proof.
  intros HX s Hs. unfold insertTX_body. unfold bind at 1.
  destruct (gates_outcome env tx s) as [G|(e & G)]; rewrite G;
    [|exact Hs].
  destruct (gates_passed env tx s s G) as (_ & Hnew & Horph & _).
  unfold bind at 1. unfold isDoubleSpend, gets.
  destruct (existsb _ (tx_inputs tx)).
  { unfold bind, emit, modify, throw. now apply (apart_other X s). }
  unfold bind at 1.
  pose proof (getCoinView_loop_unchanged env s (tx_inputs tx) [] s eq_refl)
    as Pv. unfold getCoinView.
  destruct (getCoinView_loop env (tx_inputs tx) [] s) as [view s1|e s1|];
    [subst s1|subst s1; exact Hs|exact Logic.I].
  unfold bind at 1.
  pose proof (maybeOrphan_apart env X tx view id s
                (conj Hs (conj Hnew HX))) as Po.
  destruct (maybeOrphan env tx view id s) as [missing s2|e s2|] eqn:Eo;
    [|exact Po|exact Logic.I].
  destruct missing as [missing|]; [exact Po|].
  apply maybeOrphan_None in Eo as (-> & _).
  unfold bind at 1.
  set (entry := MempoolEntry_fromTX env tx view (ch_height (chain env))).
  pose proof (apart_verify env X entry view s Hs) as Pver.
  pose proof (verify_untouched env entry view s s (untouched_refl s))
    as Pun.
  destruct (verify env entry view s) as [[] s3|e s3|];
    [|exact Pver|exact Logic.I].
  destruct Pun as (_ & Eo3 & _).
  unfold bind at 1.
  assert (Ho3 : mhas String.eqb (e_hash entry) (mp_orphans s3) = false)
    by (rewrite Eo3; exact Horph).
  pose proof (addEntry_body_apart entry view s3
                (conj Pver (conj Ho3 HX))) as Pa.
  destruct (addEntry_body env rec entry view s3) as [[] s4|e s4|];
    [|exact Pa|exact Logic.I].
  unfold bind at 1.
  pose proof (apart_limitSize env X fuel (tx_hash tx) s4 Pa) as Pl.
  destruct (limitSize env fuel (tx_hash tx) s4) as [full s5|e s5|];
    [|exact Pl|exact Logic.I].
  destruct full; exact Pl.
Qed.
End ApartReplay.

Lemma insertTX_apart env X fuel : forall tx id,
  ~ In (tx_hash tx) X -> preserves (apart X) (insertTX env fuel tx id).
Proof.
  induction fuel as [|fuel IH]; intros tx id HX; simpl.
  - apply preserves_outOfFuel.
  - now apply insertTX_body_apart.
Qed.

Lemma apart_modify_other X f :
  (forall s, mp_map (f s) = mp_map s) ->
  (forall s, mp_orphans (f s) = mp_orphans s) ->
  preserves (apart X) (modify f).
Proof.
  intros Em Eo. apply preserves_modify. intros s Hs.
  now apply (apart_other X s).
Qed.

Lemma addTX_apart env fuel tx id :
  preserves (apart []) (_addTX env fuel tx id).
Proof.
  unfold _addTX. pres;
    try (apply insertTX_apart; intros []);
    try apply apart_rejects_add;
    apply apart_modify_other; reflexivity.
Qed.

Lemma removeBlock_apart env fuel block txs :
  preserves (apart []) (_removeBlock env fuel block txs).
Proof.
  unfold _removeBlock, removeBlock_step, rejects_reset, hasEntry, emitError.
  pres;
    try (apply insertTX_apart; intros []); try apply apart_emit;
    apply apart_modify_other; reflexivity.
Qed.

Lemma addBlock_step_apart env X fuel block tx :
  preserves (apart X) (addBlock_step env fuel block tx).
Proof.
  unfold addBlock_step, getEntry, handleOrphans. pres;
    try apply apart_removeEntry; try apply apart_emit;
    try apply apart_removeOrphan; try apply apart_removeDoubleSpends.
  apply handleOrphans_body_apart. intros tx' id'. apply insertTX_apart.
Qed.

Lemma addBlock_apart env fuel block txs :
  preserves (apart []) (_addBlock env fuel block txs).
Proof.
  unfold _addBlock, rejects_reset. pres;
    try apply addBlock_step_apart;
    apply apart_modify_other; reflexivity.
Qed.

Lemma apart_new genesis : apart [] (Mempool_new genesis).
Proof.
  split; [|split].
  - intros h o tx G. discriminate.
  - intros h Hh. discriminate.
  - intros h [].
Qed.

Lemma call_apart env fuel c : preserves (apart []) (call env fuel c).
Proof.
  destruct c as [tx id|block txs|block txs|]; simpl.
  - pres. apply addTX_apart.
  - apply addBlock_apart.
  - apply removeBlock_apart.
  - intros s _. split; [|split].
    + intros h o tx G. discriminate.
    + intros h Hh. discriminate.
    + intros h [].
Qed.

(** *** A connected block *)

Lemma apart_cons X h s :
  apart X s ->
  mhas String.eqb h (mp_map s) = false ->
  mhas String.eqb h (mp_orphans s) = false ->
  apart (h :: X) s.
Proof.
  intros (HK & HD & HG) Hm Ho. split; [exact HK|]. split; [exact HD|].
  intros x [<-|Hx]; auto.
Qed.

Lemma removeEntry_gone env e s s' :
  removeEntry env e s = Ret tt s' ->
  mhas String.eqb (e_hash e) (mp_map s') = false
  /\ mp_orphans s' = mp_orphans s.
Proof.
  intros H. unfold removeEntry in H.
  apply bind_Ret in H as ([] & s1 & H1 & H2).
  unfold emit, modify in H2. inversion H2; subst s'. clear H2.
  rewrite untrackEntry_eq in H1.
  destruct (mhas String.eqb (e_hash e) (mp_map s)); [|discriminate].
  destruct (isCoinbase (methods env) (e_tx e)); [discriminate|].
  cbv zeta in H1. injection H1 as E1. rewrite <- E1.
  cbn [mp_map mp_orphans with_events with_size].
  rewrite (fold_left_keeps mp_map) by reflexivity.
  rewrite (fold_left_keeps mp_orphans) by reflexivity.
  cbn [mp_map mp_orphans with_map]. split; [|reflexivity].
  unfold mhas. now rewrite mget_mdelete, String.eqb_refl.
Qed.

Lemma addBlock_step_clears env X fuel block tx s s' :
  (forall h e, mget String.eqb h (mp_map s) = Some e -> e_hash e = h) ->
  apart X s ->
  addBlock_step env fuel block tx s = Ret tt s' ->
  apart (tx_hash tx :: X) s'.
Proof.
  intros Hkey Hs H. unfold addBlock_step in H. cbv zeta in H.
  unfold bind at 1 in H. unfold getEntry in H. unfold gets at 1 in H.
  destruct (mget String.eqb (tx_hash tx) (mp_map s)) as [entry|] eqn:G.
  - apply bind_Ret in H as ([] & s1 & H1 & H2).
    unfold emit, modify in H2. inversion H2; subst s'. clear H2.
    pose proof (apart_removeEntry env X entry s Hs) as P.
    rewrite H1 in P.
    destruct (removeEntry_gone env entry s s1 H1) as (Hm & Eo).
    rewrite (Hkey _ _ G) in Hm.
    apply (apart_other (tx_hash tx :: X) s1); [reflexivity | reflexivity |].
    apply apart_cons; [exact P | exact Hm |].
    rewrite Eo. destruct Hs as (_ & HD & _). apply HD.
    unfold mhas. now rewrite G.
  - apply bind_Ret in H as (b & s1 & H1 & H2).
    pose proof (apart_removeOrphan X (tx_hash tx) s Hs) as P.
    rewrite H1 in P.
    destruct (removeOrphan_gone _ _ _ _ H1) as (Ho & Em).
    assert (Hs1 : apart (tx_hash tx :: X) s1).
    { apply apart_cons; [exact P | | exact Ho].
      rewrite Em. unfold mhas. now rewrite G. }
    assert (Pr : preserves (apart (tx_hash tx :: X))
                   (removeDoubleSpends env fuel tx ;;
                    waits <- gets (fun s =>
                               mhas String.eqb (tx_hash tx) (mp_waiting s)) ;;
                    when waits (handleOrphans env fuel tx))).
    { unfold handleOrphans. pres; [apply apart_removeDoubleSpends|].
      apply handleOrphans_body_apart. intros tx' id'. apply insertTX_apart. }
    specialize (Pr s1 Hs1). now rewrite H2 in Pr.
Qed.

Lemma addBlock_loop_clears env fuel block : forall l X s s',
  sound env [] s -> apart X s ->
  forEach l (addBlock_step env fuel block) s = Ret tt s' ->
  exists X',
    apart X' s' /\ incl X X' /\ forall tx, In tx l -> In (tx_hash tx) X'.
Proof.
  induction l as [|tx rest IH]; intros X s s' Hsound Hs H.
  - inversion H; subst. exists X. split; [exact Hs|].
    split; [apply incl_refl | intros tx []].
  - cbn [forEach] in H. apply bind_Ret in H as ([] & s1 & H1 & H2).
    assert (Hkey : forall h e,
              mget String.eqb h (mp_map s) = Some e -> e_hash e = h).
    { destruct Hsound as ((Hok & _) & _). exact (keyed0 env s Hok). }
    pose proof (addBlock_step_clears env X fuel block tx s s1 Hkey Hs H1)
      as Hs1.
    pose proof (addBlock_step_sound env fuel block tx s Hsound) as Hsound1.
    rewrite H1 in Hsound1.
    destruct (IH _ s1 s' Hsound1 Hs1 H2) as (X' & Hs' & Hincl & Hall).
    exists X'. split; [exact Hs'|]. split.
    + intros x Hx. apply Hincl. now right.
    + intros tx' [<-|Hin]; [apply Hincl; now left | now apply Hall].
Qed.

(** ** The queries *)

(** X21: the spent-output queries answer for the pool.  On a consistent
    pool, [isSpent(hash, index)] is true exactly when some entry of the
    pool has the outpoint among its inputs; [getSpentTX] returns the
    transaction of that entry and null when there is none; and [getCoin]
    returns the coin of output [index] of the pool's transaction [hash]
    exactly when that output exists and no entry of the pool spends it. *)
Theorem spent_queries env (s : Mempool) hash index :
  consistent env s ->
  let spender tx :=
    exists h e, mget String.eqb h (mp_map s) = Some e /\ e_tx e = tx /\
                In (hash, index) (inputKeys tx) in
  exists b o c,
    isSpent hash index s = Ret b s
    /\ getSpentTX hash index s = Ret o s
    /\ getCoin hash index s = Ret c s
    /\ (b = true <-> exists tx, spender tx)
    /\ (forall tx, o = Some tx <-> spender tx)
    /\ (forall coin, c = Some coin <->
          exists e, mget String.eqb hash (mp_map s) = Some e /\
                    (index < tx_outputs (e_tx e))%nat /\
                    coin = CoinOfTX (e_tx e) index (-1) /\
                    ~ exists tx, spender tx).
Proof.
  intros ((_ & _ & _ & Hsp) & Hcl) spender.
  assert (Hs : forall tx, spender tx ->
            exists h e, mget key_eqb (hash, index) (mp_spents s) = Some h /\
                        mget String.eqb h (mp_map s) = Some e /\ e_tx e = tx).
  { intros tx (h & e & Ge & <- & Ik). exists h, e.
    split; [exact (Hcl h e Ge _ Ik) | auto]. }
  assert (Hk : forall h, mget key_eqb (hash, index) (mp_spents s) = Some h ->
            exists e, mget String.eqb h (mp_map s) = Some e /\
                      spender (e_tx e)).
  { intros h G. destruct (Hsp _ _ G) as (e & Ge & _ & Ik).
    exists e. split; [exact Ge|]. exists h, e. auto. }
  assert (Hb : mhas key_eqb (hash, index) (mp_spents s) = true <->
               exists tx, spender tx).
  { split.
    - intros Hm. apply (mhas_true key_eqb) in Hm as (h & G).
      destruct (Hk h G) as (e & _ & S). eauto.
    - intros (tx & S). destruct (Hs tx S) as (h & e & G & _).
      apply (mhas_true key_eqb). eauto. }
  exists (mhas key_eqb (hash, index) (mp_spents s)).
  exists (match mget key_eqb (hash, index) (mp_spents s) with
          | Some h =>
              match mget String.eqb h (mp_map s) with
              | Some e => Some (e_tx e)
              | None => None
              end
          | None => None
          end).
  exists (match mget String.eqb hash (mp_map s) with
          | Some e =>
              if mhas key_eqb (hash, index) (mp_spents s) then None
              else if (tx_outputs (e_tx e) <=? index)%nat then None
              else Some (CoinOfTX (e_tx e) index (-1))
          | None => None
          end).
  split; [reflexivity|]. split; [|split].
  { unfold getSpentTX, getSpent, bind, gets, ret.
    destruct (mget key_eqb (hash, index) (mp_spents s)) as [h|];
      [|reflexivity].
    now destruct (mget String.eqb h (mp_map s)). }
  { unfold getCoin, getEntry, isSpent, bind, gets, ret.
    destruct (mget String.eqb hash (mp_map s)) as [e|]; [|reflexivity].
    destruct (mhas key_eqb (hash, index) (mp_spents s)); [reflexivity|].
    now destruct (tx_outputs (e_tx e) <=? index)%nat. }
  split; [exact Hb|]. split.
  - intros tx. split.
    + intros E.
      destruct (mget key_eqb (hash, index) (mp_spents s)) as [h|] eqn:G;
        [|discriminate].
      destruct (Hk h eq_refl) as (e & Ge & S). rewrite Ge in E.
      inversion E; subst tx. exact S.
    + intros S. destruct (Hs tx S) as (h & e & G & Ge & <-).
      now rewrite G, Ge.
  - intros coin. split.
    + intros E.
      destruct (mget String.eqb hash (mp_map s)) as [e|] eqn:Ge;
        [|discriminate].
      destruct (mhas key_eqb (hash, index) (mp_spents s)) eqn:Hm;
        [discriminate|].
      destruct (tx_outputs (e_tx e) <=? index)%nat eqn:Hi; [discriminate|].
      inversion E; subst coin. exists e. split; [reflexivity|].
      apply Nat.leb_gt in Hi. split; [exact Hi|]. split; [reflexivity|].
      intros S. apply Hb in S. congruence.
    + intros (e & Ge & Hi & -> & N). rewrite Ge.
      destruct (mhas key_eqb (hash, index) (mp_spents s)) eqn:Hm.
      * exfalso. apply N, Hb. reflexivity.
      * apply Nat.leb_gt in Hi. now rewrite Hi.
Qed.

Lemma spent_queries_witness :
  isSpent "t1" 0 demo_pool12' = Ret true demo_pool12'
  /\ getSpentTX "t1" 0 demo_pool12' = Ret (Some demo_T2) demo_pool12'
  /\ getCoin "t1" 0 demo_pool12' = Ret None demo_pool12'
  /\ exists tx h e,
       mget String.eqb h (mp_map demo_pool12') = Some e /\ e_tx e = tx /\
       In ("t1", 0%nat) (inputKeys tx).
Proof.
  assert (R : calls demo_env 5
                [AddTX demo_T1 None; AddTX demo_T1x None; AddTX demo_T2 None]
                demo_new = Some demo_pool12') by (vm_compute; reflexivity).
  destruct (calls_sound demo_env 5 _ _ _ (sound_new "genesis" demo_env) R)
    as ((Hok & _) & Hcl).
  destruct (spent_queries demo_env demo_pool12' "t1" 0%nat (conj Hok Hcl))
    as (b & o & c & Eb & Eo & Ec & Hb & _).
  assert (Eb' : isSpent "t1" 0 demo_pool12' = Ret true demo_pool12')
    by (vm_compute; reflexivity).
  split; [exact Eb'|].
  split; [vm_compute; reflexivity|]. split; [vm_compute; reflexivity|].
  apply Hb. rewrite Eb' in Eb. now inversion Eb.
Defined.

(** X22: the in-pool parents of a transaction.  [getDepends(tx)] lists,
    each once, exactly the hashes of the parents of [tx] that are in the
    pool map, and [hasDepends(tx)] is true exactly when there is one. *)
Theorem getDepends_parents (tx : TX) (s : Mempool) :
  exists l,
    getDepends tx s = Ret l s
    /\ NoDup l
    /\ (forall p, In p l <-> parentOf (mp_map s) tx p)
    /\ hasDepends tx s = Ret (negb (List.length l =? 0)%nat) s.
Proof.
  set (l := filter (fun hash => mhas String.eqb hash (mp_map s))
              (getPrevout tx)).
  assert (Hin : forall p, In p l <-> parentOf (mp_map s) tx p).
  { intros p. unfold l. rewrite filter_In, getPrevout_In. unfold parentOf.
    rewrite in_map_iff.
    split; intros ((inp & A & B) & Hm); (split; [eauto | exact Hm]). }
  assert (ND : NoDup l) by (apply NoDup_filter, getPrevout_NoDup).
  exists l. split; [reflexivity|]. split; [exact ND|]. split; [exact Hin|].
  clearbody l. unfold hasDepends, gets. f_equal.
  destruct (existsb _ (tx_inputs tx)) eqn:Ex.
  - apply existsb_exists in Ex as (inp & Hi & Hm).
    assert (P : parentOf (mp_map s) tx (op_hash (prevout inp))).
    { split; [|exact Hm]. apply in_map_iff. eauto. }
    apply Hin in P. destruct l; [destruct P | reflexivity].
  - destruct l as [|p r]; [reflexivity|].
    exfalso. assert (P : parentOf (mp_map s) tx p)
      by (apply Hin; now left).
    destruct P as (Hi & Hm). apply in_map_iff in Hi as (inp & <- & Hi).
    assert (C : existsb
                  (fun inp => mhas String.eqb (op_hash (prevout inp))
                                (mp_map s)) (tx_inputs tx) = true).
    { apply existsb_exists. eauto. }
    congruence.
Qed.

(** ** Eviction does not throw *)

(** What is reached through the spenders of a pool that has only lost
    spent keys and entries was reached before. *)
Lemma Reach_shrink (s0 s : Mempool) :
  (forall k x, mget key_eqb k (mp_spents s) = Some x ->
               mget key_eqb k (mp_spents s0) = Some x) ->
  (forall h e, mget String.eqb h (mp_map s) = Some e ->
     exists e0, mget String.eqb h (mp_map s0) = Some e0 /\
                e_tx e0 = e_tx e) ->
  forall e e0 h, e_tx e0 = e_tx e ->
    Descendant s e h -> Descendant s0 e0 h.
Proof.
  intros HA HB.
  assert (Hsp : forall x x0 h c,
            e_tx x0 = e_tx x -> In (h, c) (spenders s x) ->
            exists c0, In (h, c0) (spenders s0 x0)).
  { intros x x0 h c Etx Is.
    apply spenders_In in Is as (i & k & Hi & Gk & Gc & ->).
    destruct (HB _ _ Gc) as (c0 & Gc0 & Ec).
    exists c0. apply spenders_In. exists i, k.
    split; [now rewrite Etx|]. split.
    - apply HA. unfold e_hash in *. now rewrite Etx.
    - split; [exact Gc0|]. unfold e_hash. now rewrite Ec. }
  intros e e0 h Etx D. unfold Descendant in *.
  induction D as [h c Is | a xa h c _ IH Ga Is].
  - destruct (Hsp e e0 h c Etx Is) as (c0 & Is0).
    exact (@Reach_next _ _ e0 h c0 Is0).
  - destruct (HB _ _ Ga) as (xa0 & Ga0 & Ea).
    destruct (Hsp xa xa0 h c Ea Is) as (c0 & Is0).
    exact (@Reach_step _ _ e0 a xa0 h c0 IH Ga0 Is0).
Qed.

Lemma acyclic_shrink (s0 s : Mempool) :
  (forall k x, mget key_eqb k (mp_spents s) = Some x ->
               mget key_eqb k (mp_spents s0) = Some x) ->
  (forall h e, mget String.eqb h (mp_map s) = Some e ->
     exists e0, mget String.eqb h (mp_map s0) = Some e0 /\
                e_tx e0 = e_tx e) ->
  acyclic s0 -> acyclic s.
Proof.
  intros HA HB Hac h e G D.
  destruct (HB _ _ G) as (e0 & G0 & Etx).
  exact (Hac h e0 G0 (Reach_shrink s0 s HA HB e e0 h Etx D)).
Qed.

Lemma Descendant_trans s e a xa h :
  Descendant s e a -> mget String.eqb a (mp_map s) = Some xa ->
  Descendant s xa h -> Descendant s e h.
Proof.
  intros D Ga D'. unfold Descendant in *.
  induction D' as [h c Is | b xb h c _ IH Gb Is].
  - exact (@Reach_step _ _ e a xa h c D Ga Is).
  - exact (@Reach_step _ _ e b xb h c IH Gb Is).
Qed.

Lemma Descendant_version s a b h :
  e_tx a = e_tx b -> Descendant s a h -> Descendant s b h.
Proof.
  intros E D. unfold Descendant in *.
  induction D as [h c Is | x xa h c _ IH Gx Is].
  - rewrite (spenders_version s a b E) in Is.
    exact (@Reach_next _ _ b h c Is).
  - exact (@Reach_step _ _ b x xa h c IH Gx Is).
Qed.

Lemma evicting_shrinks s0 R s :
  evicting s0 R s ->
  (forall k x, mget key_eqb k (mp_spents s) = Some x ->
               mget key_eqb k (mp_spents s0) = Some x)
  /\ (forall h e, mget String.eqb h (mp_map s) = Some e ->
        exists e0, mget String.eqb h (mp_map s0) = Some e0 /\
                   e_tx e0 = e_tx e).
Proof.
  intros (HA & HB & _). split.
  - intros k x G. now apply HA.
  - intros h e G. destruct (HB h e G) as (e0 & G0 & Etx & _). eauto.
Qed.

Lemma removeEntry_returns env e e' s :
  mget String.eqb (e_hash e) (mp_map s) = Some e' ->
  isCoinbase (methods env) (e_tx e) = false ->
  exists s', removeEntry env e s = Ret tt s'.
Proof.
  intros G Hcb. unfold removeEntry, bind. rewrite untrackEntry_eq.
  unfold mhas. rewrite G, Hcb. cbv zeta. eexists. reflexivity.
Qed.

Lemma consistent_sound env s : consistent env s <-> sound env [] s.
Proof.
  split.
  - intros (Hok & Hcl). split; [split; [exact Hok | intros e []] | exact Hcl].
  - intros ((Hok & _) & Hcl). split; assumption.
Qed.

(** *** Chains of spenders *)

Lemma spenders_shrink (s0 s : Mempool) :
  (forall k x, mget key_eqb k (mp_spents s) = Some x ->
               mget key_eqb k (mp_spents s0) = Some x) ->
  (forall h e, mget String.eqb h (mp_map s) = Some e ->
     exists e0, mget String.eqb h (mp_map s0) = Some e0 /\
                e_tx e0 = e_tx e) ->
  forall x x0 h c,
    e_tx x0 = e_tx x -> In (h, c) (spenders s x) ->
    exists c0, In (h, c0) (spenders s0 x0).
Proof.
  intros HA HB x x0 h c Etx Is.
  apply spenders_In in Is as (i & k & Hi & Gk & Gc & ->).
  destruct (HB _ _ Gc) as (c0 & Gc0 & Ec).
  exists c0. apply spenders_In. exists i, k.
  split; [now rewrite Etx|]. split.
  - apply HA. unfold e_hash in *. now rewrite Etx.
  - split; [exact Gc0|]. unfold e_hash. now rewrite Ec.
Qed.

Lemma chain_shrink (s0 s : Mempool) :
  (forall k x, mget key_eqb k (mp_spents s) = Some x ->
               mget key_eqb k (mp_spents s0) = Some x) ->
  (forall h e, mget String.eqb h (mp_map s) = Some e ->
     exists e0, mget String.eqb h (mp_map s0) = Some e0 /\
                e_tx e0 = e_tx e) ->
  forall h n, spendChain s h n -> spendChain s0 h n.
Proof.
  intros HA HB h n C.
  induction C as [h | h e k c n G Is _ IH]; [constructor|].
  destruct (HB _ _ G) as (e0 & G0 & Etx).
  destruct (spenders_shrink s0 s HA HB e e0 k c Etx Is) as (c0 & Is0).
  exact (@spendChain_S s0 h e0 k c0 n G0 Is0 IH).
Qed.

Lemma Descendant_node env s e x :
  pool_ok env s -> Descendant s e x ->
  exists c, mget String.eqb x (mp_map s) = Some c.
Proof.
  intros Hok D. unfold Descendant in D.
  destruct D as [h c Is | a xa h c _ _ Is];
    apply spenders_In in Is as (i & k & _ & _ & Gc & ->);
    exists c; rewrite (keyed0 env s Hok _ _ Gc); exact Gc.
Qed.

(** The hashes along a chain of a pool without cycles are distinct
    descendants of its first entry. *)
Lemma chain_list env s :
  pool_ok env s -> acyclic s ->
  forall h n, spendChain s h n ->
  forall e, mget String.eqb h (mp_map s) = Some e ->
  exists l, List.length l = n /\ NoDup l
            /\ forall x, In x l -> Descendant s e x.
Proof.
  intros Hok Hac h n C.
  induction C as [h | h e k c n G Is C IH]; intros e' G'.
  - exists []. split; [reflexivity|]. split; [constructor | intros x []].
  - rewrite G in G'. inversion G'; subst e'.
    pose proof Is as Is'.
    apply spenders_In in Is' as (i & k' & Hi & Gk & Gc & Ek).
    pose proof (keyed0 env s Hok _ _ Gc) as Ekey.
    assert (Gk0 : mget String.eqb k (mp_map s) = Some c)
      by (rewrite Ek, Ekey; exact Gc).
    assert (Dk : Descendant s e k) by exact (@Reach_next _ _ e k c Is).
    destruct (IH c Gk0) as (l & Hl & ND & Hd).
    exists (k :: l). split; [simpl; now rewrite Hl|]. split.
    + constructor; [|exact ND]. intros C'. exact (Hac _ _ Gk0 (Hd _ C')).
    + intros x [<-|Hx]; [exact Dk|].
      exact (Descendant_trans s e k c x Dk Gk0 (Hd x Hx)).
Qed.

Lemma chain_bound env s h e n :
  pool_ok env s -> acyclic s ->
  mget String.eqb h (mp_map s) = Some e -> spendChain s h n ->
  (n < List.length (mkeys (mp_map s)))%nat.
Proof.
  intros Hok Hac G C.
  destruct (chain_list env s Hok Hac h n C e G) as (l & Hl & ND & Hd).
  assert (ND' : NoDup (h :: l)).
  { constructor; [|exact ND]. intros C'. exact (Hac _ _ G (Hd _ C')). }
  assert (Hin : incl (h :: l) (mkeys (mp_map s))).
  { intros x [<-|Hx].
    - apply (mget_In String.eqb String.eqb_spec) in G.
      unfold mkeys. apply in_map_iff. exists (h, e). now split.
    - destruct (Descendant_node env s e x Hok (Hd x Hx)) as (c & Gc).
      apply (mget_In String.eqb String.eqb_spec) in Gc.
      unfold mkeys. apply in_map_iff. exists (x, c). now split. }
  pose proof (NoDup_incl_length ND' Hin) as L.
  cbn [List.length] in L. unfold Hash in *. lia.
Qed.

(** [removeSpenders] on an entry of a consistent pool without cycles: no
    assertion fails, and fuel runs out only at the end of a chain of
    spenders as long as the fuel. *)
Lemma removeSpenders_outcome env fuel : forall e e0 s,
  sound env [] s -> acyclic s ->
  mget String.eqb (e_hash e) (mp_map s) = Some e0 -> e_tx e0 = e_tx e ->
  match removeSpenders env fuel e s with
  | Ret _ _ => True
  | Thr _ _ => False
  | OutOfFuel => spendChain s (e_hash e) fuel
  end.
Proof.
  induction fuel as [|fuel IH]; intros e e0 s Hs Hac G0 Etx;
    [constructor|].
  cbn [removeSpenders].
  assert (Loop : forall idxs s,
            (forall i, In i idxs -> (i < tx_outputs (e_tx e))%nat) ->
            sound env [] s -> acyclic s ->
            (exists e0, mget String.eqb (e_hash e) (mp_map s) = Some e0 /\
                        e_tx e0 = e_tx e) ->
            match
              forEach idxs
                (fun i =>
                   spender <- getSpent (e_hash e) i ;;
                   match spender with
                   | None => ret tt
                   | Some spender =>
                       removeSpenders env fuel spender ;;
                       removeEntry env spender
                   end) s
            with
            | Ret _ _ => True
            | Thr _ _ => False
            | OutOfFuel => spendChain s (e_hash e) (S fuel)
            end).
  { clear s Hs Hac G0 Etx e0.
    induction idxs as [|i rest IHl]; intros s Hi Hs Hac (e0 & G0 & Etx);
      [exact I|].
    cbn [forEach]. unfold bind at 1. unfold bind at 1.
    unfold getSpent, gets.
    assert (Hrest : forall j, In j rest -> (j < tx_outputs (e_tx e))%nat)
      by (intros j Hj; apply Hi; now right).
    destruct (mget key_eqb (e_hash e, i) (mp_spents s)) as [k|] eqn:Gk;
      [|apply IHl; eauto].
    destruct (mget String.eqb k (mp_map s)) as [sp|] eqn:Gsp;
      [|apply IHl; eauto].
    pose proof Hs as ((Hok & _) & Hcl).
    pose proof (keyed0 env s Hok _ _ Gsp) as Ek.
    assert (Gsp' : mget String.eqb (e_hash sp) (mp_map s) = Some sp)
      by (now rewrite Ek).
    assert (Hcb : isCoinbase (methods env) (e_tx sp) = false).
    { destruct Hok as (_ & _ & Hent & _). now apply (Hent k sp). }
    assert (Is : In (k, sp) (spenders s e0)).
    { apply spenders_In. exists i, k. unfold e_hash. rewrite Etx.
      split; [apply Hi; now left|]. split; [exact Gk|].
      split; [exact Gsp | now rewrite <- Ek]. }
    assert (Dsp : Descendant s e0 k) by exact (@Reach_next _ _ e0 k sp Is).
    pose proof (IH sp sp s Hs Hac Gsp' eq_refl) as Hout.
    unfold bind at 1.
    destruct (removeSpenders env fuel sp s) as [[] s2|err2 s2|] eqn:H1;
      [|exact Hout|].
    2:{ rewrite Ek in Hout. exact (@spendChain_S s _ e0 k sp fuel G0 Is Hout). }
    destruct (removeSpenders_evicting env s sp sp Hok Gsp' eq_refl fuel
                sp sp s s2 Gsp' eq_refl (or_introl eq_refl)
                (evicting_start env s Hok _) H1) as (Hs2 & _ & Cl2).
    assert (Hin2 : exists sp2,
              mget String.eqb (e_hash sp) (mp_map s2) = Some sp2).
    { destruct (mhas String.eqb (e_hash sp) (mp_map s2)) eqn:Hm.
      - now apply mhas_true in Hm.
      - exfalso. destruct Hs2 as (_ & _ & HC & _).
        apply (Hac _ _ Gsp'). apply HC; [|exact Hm].
        unfold mhas. now rewrite Gsp'. }
    destruct Hin2 as (sp2 & Gsp2).
    destruct (removeEntry_returns env sp sp2 s2 Gsp2 Hcb) as (s3 & H3).
    rewrite H3.
    apply (evicting_weaken s _ (evicted s sp) s2
             (fun h D => or_intror D)) in Hs2.
    destruct (removeEntry_evicting env s Hok _ sp sp s2 s3 Gsp' eq_refl
                (or_introl eq_refl) Hs2 Cl2 H3) as (Hs3 & _).
    destruct (evicting_shrinks _ _ _ Hs3) as (HA3 & HB3).
    assert (R : match
                  forEach rest
                    (fun i =>
                       spender <- getSpent (e_hash e) i ;;
                       match spender with
                       | None => ret tt
                       | Some spender =>
                           removeSpenders env fuel spender ;;
                           removeEntry env spender
                       end) s3
                with
                | Ret _ _ => True
                | Thr _ _ => False
                | OutOfFuel => spendChain s3 (e_hash e) (S fuel)
                end).
    { apply IHl;
        [exact Hrest | | exact (acyclic_shrink s s3 HA3 HB3 Hac) |].
      - assert (P : preserves (sound env [sp])
                      (removeSpenders env fuel sp ;; removeEntry env sp)).
        { apply preserves_bind; [apply removeSpenders_sound|].
          intros _. apply removeEntry_sound. now left. }
        specialize (P s (sound_live env [] s k sp Hs Gsp)).
        unfold bind in P. rewrite H1, H3 in P.
        exact (sound_nil env [sp] s3 P).
      - destruct (mhas String.eqb (e_hash e) (mp_map s3)) eqn:Hm.
        + apply mhas_true in Hm as (e3 & G3).
          destruct (HB3 _ _ G3) as (e0' & G0' & Etx').
          rewrite G0 in G0'. inversion G0'; subst e0'.
          exists e3. split; [exact G3 | congruence].
        + exfalso. destruct Hs3 as (_ & _ & HC & _).
          assert (Hev : evicted s sp (e_hash e)).
          { apply HC; [|exact Hm]. unfold mhas. now rewrite G0. }
          apply (Hac _ _ G0).
          destruct Hev as [E|D].
          * rewrite E, Ek. exact Dsp.
          * exact (Descendant_trans s e0 k sp _ Dsp Gsp D). }
    unfold getSpent, gets, bind in R |- *.
    destruct (forEach rest _ s3); try exact R.
    exact (chain_shrink s s3 HA3 HB3 _ _ R). }
  apply (Loop (seq 0 (tx_outputs (e_tx e))) s); auto.
  - intros i Hi. apply in_seq in Hi. lia.
  - eauto.
Qed.

Lemma evictEntry_Ret env fuel e e0 s :
  evictable env fuel s ->
  mget String.eqb (e_hash e) (mp_map s) = Some e0 -> e_tx e0 = e_tx e ->
  exists s', evictEntry env fuel e s = Ret tt s'.
Proof.
  intros (Hc & Hac & Hf) G0 Etx. pose proof Hc as (Hok & Hcl).
  unfold evictEntry. unfold bind at 1.
  pose proof (removeSpenders_outcome env fuel e e0 s
                (proj1 (consistent_sound env s) Hc) Hac G0 Etx) as Hout.
  destruct (removeSpenders env fuel e s) as [[] s1|err1 s1|] eqn:H1;
    [|destruct Hout|].
  2:{ exfalso.
      pose proof (chain_bound env s _ e0 fuel Hok Hac G0 Hout) as L.
      unfold Hash in *. lia. }
  destruct (removeSpenders_evicting env s e e0 Hok G0 Etx fuel e e0 s s1
              G0 Etx (or_introl eq_refl) (evicting_start env s Hok _) H1)
    as (Hs1 & _ & Cl1).
  destruct (updateAncestors_bounded env e RemoveFee s1) as (k & s2 & U & _).
  unfold bind at 1. rewrite U.
  pose proof (updateAncestors_evicting env s _ e RemoveFee
                (e_hash e) (tx_outputs (e_tx e)) s1 (conj Hs1 Cl1)) as P2.
  rewrite U in P2. destruct P2 as ((_ & _ & HC & _) & _).
  assert (Hin : exists e2, mget String.eqb (e_hash e) (mp_map s2) = Some e2).
  { destruct (mhas String.eqb (e_hash e) (mp_map s2)) eqn:Hm.
    - now apply mhas_true in Hm.
    - exfalso. apply (Hac _ _ G0).
      apply (Descendant_version s e e0); [now symmetry|].
      apply HC; [|exact Hm]. unfold mhas. now rewrite G0. }
  destruct Hin as (e2 & G2).
  assert (Hcb : isCoinbase (methods env) (e_tx e) = false).
  { destruct Hok as (_ & _ & Hent & _). rewrite <- Etx.
    now apply (Hent _ _ G0). }
  destruct (removeEntry_returns env e e2 s2 G2 Hcb) as (s3 & H3).
  exists s3. exact H3.
Qed.

(** An eviction that returns leaves a consistent pool without cycles. *)
Lemma evictEntry_keeps env fuel h e e0 s s' :
  consistent env s -> acyclic s ->
  mget String.eqb h (mp_map s) = Some e0 -> e_tx e0 = e_tx e ->
  evictEntry env fuel e s = Ret tt s' ->
  consistent env s' /\ acyclic s'.
Proof.
  intros Hc Hac G0 Etx H.
  destruct (evictEntry_body_exact env fuel h e e0 s s' Hc G0 Etx H)
    as (_ & HB & Hc' & _ & HA).
  split; [exact Hc'|].
  apply (acyclic_shrink s s' HA); [|exact Hac].
  intros x e' G'. destruct (HB x e' G') as (e1 & G1 & E1).
  exists e1. split; [exact G1|]. now rewrite E1.
Qed.

(** The eviction of an entry of an evictable pool returns, and the pool
    can be evicted from again. *)
Lemma evictEntry_runs env fuel h e e0 s :
  evictable env fuel s ->
  mget String.eqb h (mp_map s) = Some e0 -> e_tx e0 = e_tx e ->
  exists s', evictEntry env fuel e s = Ret tt s' /\ evictable env fuel s'.
Proof.
  intros Hev G0 Etx. pose proof Hev as (Hc & Hac & Hf).
  pose proof Hc as (Hok & _).
  assert (Eh : e_hash e = h).
  { rewrite <- (keyed0 env s Hok _ _ G0). unfold e_hash. now rewrite Etx. }
  assert (G0' : mget String.eqb (e_hash e) (mp_map s) = Some e0)
    by (now rewrite Eh).
  destruct (evictEntry_Ret env fuel e e0 s Hev G0' Etx) as (s' & H).
  exists s'. split; [exact H|].
  destruct (evictEntry_keeps env fuel h e e0 s s' Hc Hac G0 Etx H)
    as (Hc' & Hac').
  destruct (evictEntry_body_exact env fuel h e e0 s s' Hc G0 Etx H)
    as (Hx & _).
  split; [exact Hc'|]. split; [exact Hac'|].
  assert (L : (List.length (mkeys (mp_map s'))
               <= List.length (mkeys (mp_map s)))%nat).
  { apply NoDup_incl_length.
    - destruct Hc' as ((_ & ND & _) & _). exact ND.
    - intros x Hx'. apply In_mkeys_mget in Hx' as (v & Gv).
      assert (M : mhas String.eqb x (mp_map s') = true)
        by (unfold mhas; now rewrite Gv).
      apply Hx in M as (M & _). apply mhas_true in M as (v0 & Gv0).
      apply (mget_In String.eqb String.eqb_spec) in Gv0.
      unfold mkeys. apply in_map_iff. exists (x, v0). now split. }
  unfold Hash in *. lia.
Qed.

Lemma evictable_events env fuel evs s :
  evictable env fuel s -> evictable env fuel (with_events evs s).
Proof. intros H. exact H. Qed.

Lemma removeDoubleSpends_runs env fuel : forall inputs s,
  evictable env fuel s ->
  exists s',
    forEach inputs
      (fun inp =>
         spent <- getSpent (op_hash (prevout inp))
                    (op_index (prevout inp)) ;;
         match spent with
         | None => ret tt
         | Some spent =>
             evictEntry env fuel spent ;; emit (EvDoubleSpend spent)
         end) s = Ret tt s'
    /\ evictable env fuel s'.
Proof.
  induction inputs as [|inp rest IH]; intros s Hev;
    [exists s; split; [reflexivity | exact Hev]|].
  cbn [forEach]. unfold bind at 1. unfold bind at 1.
  unfold getSpent, gets.
  destruct (mget key_eqb _ (mp_spents s)) as [k|]; [|now apply IH].
  destruct (mget String.eqb k (mp_map s)) as [spent|] eqn:G;
    [|now apply IH].
  destruct (evictEntry_runs env fuel k spent spent s Hev G eq_refl)
    as (s1 & H1 & Hev1).
  unfold bind at 1. rewrite H1. unfold emit, modify.
  apply IH. now apply evictable_events.
Qed.

Lemma handleReorg_runs env fuel : forall remove s,
  evictable env fuel s ->
  exists s',
    forEach remove
      (fun hash =>
         entry <- getEntry hash ;;
         match entry with
         | None => ret tt
         | Some entry => evictEntry env fuel entry
         end) s = Ret tt s'
    /\ evictable env fuel s'.
Proof.
  induction remove as [|h rest IH]; intros s Hev;
    [exists s; split; [reflexivity | exact Hev]|].
  cbn [forEach]. unfold bind at 1. unfold bind at 1.
  unfold getEntry, gets.
  destruct (mget String.eqb h (mp_map s)) as [entry|] eqn:G;
    [|now apply IH].
  destruct (evictEntry_runs env fuel h entry entry s Hev G eq_refl)
    as (s1 & H1 & Hev1).
  rewrite H1. now apply IH.
Qed.

(** *** The heap of [limitSize] *)

Lemma heap_shift_NoDup {B} (f : MempoolEntry -> B) : forall q m r,
  heap_shift q = Some (m, r) -> NoDup (List.map f q) ->
  In m q /\ incl r q /\ NoDup (List.map f r)
  /\ ~ In (f m) (List.map f r).
Proof.
  induction q as [|x q IH]; intros m r H ND; simpl in H; [discriminate|].
  simpl in ND. inversion ND as [|? ? Hx ND']; subst.
  destruct (heap_shift q) as [[m' r']|] eqn:E.
  - destruct (IH m' r' eq_refl ND') as (Hm & Hr & NDr & Nm).
    destruct (cmpRate m' x <? 0); inversion H; subst.
    + split; [now right|]. split.
      * intros y [<-|Hy]; [now left | right; now apply Hr].
      * split.
        -- simpl. constructor; [|exact NDr].
           intros C. apply Hx. apply in_map_iff in C as (y & Ey & Hy).
           apply in_map_iff. exists y. split; [exact Ey | now apply Hr].
        -- simpl. intros [C|C]; [|now apply Nm].
           apply Hx. rewrite C. now apply in_map.
    + split; [now left|]. split; [intros y Hy; now right|].
      split; [exact ND' | exact Hx].
  - inversion H; subst. split; [now left|].
    split; [intros y []|]. split; [constructor | intros []].
Qed.

Lemma root_not_evicted env s q hx x x0 :
  consistent env s -> rootOf s q ->
  mget String.eqb hx (mp_map s) = Some x0 -> e_tx x0 = e_tx x ->
  e_hash q <> hx -> ~ evicted s x (e_hash q).
Proof.
  intros (Hok & Hcl) ((q' & Gq & Eq) & Hdep) Gx Etx Nh.
  pose proof (keyed0 env s Hok) as Hkey.
  assert (Ex : e_hash x = hx).
  { rewrite <- (Hkey _ _ Gx). unfold e_hash. now rewrite Etx. }
  assert (Step : forall xa c,
            mhas String.eqb (e_hash xa) (mp_map s) = true ->
            In (e_hash q, c) (spenders s xa) -> False).
  { intros xa c Hxa Is.
    apply spenders_In in Is as (i & k & Hi & Gk & Gc & Eh).
    pose proof (Hkey _ _ Gc) as Ek. rewrite <- Eh in Ek. subst k.
    rewrite Gq in Gc. inversion Gc; subst c.
    destruct (spent0 env s Hok _ _ Gk) as (e1 & G1 & Ik).
    rewrite Gq in G1. inversion G1; subst e1. rewrite Eq in Ik.
    unfold inputKeys in Ik. apply in_map_iff in Ik as (inp & Ei & Hin).
    assert (C : existsb
                  (fun inp => mhas String.eqb (op_hash (prevout inp))
                                (mp_map s)) (tx_inputs (e_tx q)) = true).
    { apply existsb_exists. exists inp. split; [exact Hin|].
      unfold toKey in Ei. inversion Ei as [[E1 E2]]. now rewrite E1. }
    congruence. }
  intros [E|D]; [apply Nh; now rewrite E|].
  unfold Descendant in D.
  assert (Hx : mhas String.eqb (e_hash x) (mp_map s) = true)
    by (rewrite Ex; unfold mhas; now rewrite Gx).
  remember (e_hash q) as hq eqn:Ehq.
  destruct D as [h c Is | a xa h c _ Ga Is]; subst h.
  - exact (Step x c Hx Is).
  - apply (Step xa c); [|exact Is].
    rewrite (Hkey _ _ Ga). unfold mhas. now rewrite Ga.
Qed.

Lemma root_survives env fuel s s' q hx x x0 :
  consistent env s -> rootOf s q ->
  mget String.eqb hx (mp_map s) = Some x0 -> e_tx x0 = e_tx x ->
  e_hash q <> hx ->
  evictEntry env fuel x s = Ret tt s' ->
  rootOf s' q.
Proof.
  intros Hc Hq Gx Etx Nh H.
  pose proof (root_not_evicted env s q hx x x0 Hc Hq Gx Etx Nh) as Nev.
  destruct (evictEntry_body_exact env fuel hx x x0 s s' Hc Gx Etx H)
    as (Hx & HB & _).
  destruct Hq as ((q' & Gq & Eq) & Hdep). split.
  - assert (Hm : mhas String.eqb (e_hash q) (mp_map s') = true).
    { apply Hx. split; [|exact Nev]. unfold mhas. now rewrite Gq. }
    apply mhas_true in Hm as (q2 & G2). exists q2. split; [exact G2|].
    destruct (HB _ _ G2) as (q1 & G1 & E1). rewrite Gq in G1.
    inversion G1; subst q1. rewrite E1. exact Eq.
  - destruct (existsb
                (fun inp => mhas String.eqb (op_hash (prevout inp))
                              (mp_map s')) (tx_inputs (e_tx q))) eqn:Ex;
      [|reflexivity].
    apply existsb_exists in Ex as (inp & Hin & Hm).
    apply Hx in Hm as (Hm & _).
    assert (C : existsb
                  (fun inp => mhas String.eqb (op_hash (prevout inp))
                                (mp_map s)) (tx_inputs (e_tx q)) = true).
    { apply existsb_exists. eauto. }
    congruence.
Qed.

Lemma queue_ok_evict env fuel s s' hashes queue hx x x0 :
  consistent env s -> queue_ok s hashes queue ->
  mget String.eqb hx (mp_map s) = Some x0 -> e_tx x0 = e_tx x ->
  (forall q, In q queue -> e_hash q <> hx) ->
  evictEntry env fuel x s = Ret tt s' ->
  queue_ok s' hashes queue.
Proof.
  intros Hc (ND & Hq) Gx Etx Hne H. split; [exact ND|].
  intros q Iq. destruct (Hq q Iq) as (Hr & Hn). split; [|exact Hn].
  exact (root_survives env fuel s s' q hx x x0 Hc Hr Gx Etx (Hne q Iq) H).
Qed.

Lemma limitSize_expire_runs env fuel : forall hashes queue s,
  evictable env fuel s -> NoDup hashes -> queue_ok s hashes queue ->
  exists queue' s',
    limitSize_expire env fuel hashes queue s = Ret queue' s'
    /\ evictable env fuel s' /\ queue_ok s' [] queue'.
Proof.
  induction hashes as [|hash rest IH]; intros queue s Hev ND Hq.
  - exists queue, s. split; [reflexivity|]. split; [exact Hev | exact Hq].
  - inversion ND as [|? ? Nh NDr]; subst.
    assert (Hq' : queue_ok s rest queue).
    { destruct Hq as (NDq & Hq). split; [exact NDq|].
      intros q Iq. destruct (Hq q Iq) as (Hr & Hn). split; [exact Hr|].
      intros C. apply Hn. now right. }
    cbn [limitSize_expire]. unfold bind at 1. unfold getEntry, gets at 1.
    destruct (mget String.eqb hash (mp_map s)) as [entry|] eqn:G;
      [|now apply IH].
    unfold bind at 1. unfold hasDepends, gets at 1.
    destruct (existsb _ (tx_inputs (e_tx entry))) eqn:Hdep;
      [now apply IH|].
    pose proof Hev as (Hc & _). pose proof Hc as (Hok & _).
    pose proof (keyed0 env s Hok _ _ G) as Ek.
    assert (Hne : forall q, In q queue -> e_hash q <> hash).
    { intros q Iq C. destruct Hq as (_ & Hq).
      destruct (Hq q Iq) as (_ & Hn). apply Hn. now left. }
    destruct (now env <? e_time entry + expiryTime (options env)).
    + apply IH; [exact Hev | exact NDr |].
      destruct Hq' as (NDq & Hq'). unfold heap_insert. split.
      * rewrite map_app. simpl. apply NoDup_app; [exact NDq| |].
        -- constructor; [intros [] | constructor].
        -- intros a Ia [C|[]]. rewrite Ek in C. subst a.
           apply in_map_iff in Ia as (q & Eq & Iq). exact (Hne q Iq Eq).
      * intros q Iq. apply in_app_or in Iq as [Iq|[<-|[]]];
          [now apply Hq'|].
        split; [|now rewrite Ek].
        split; [|exact Hdep].
        exists entry. split; [now rewrite Ek | reflexivity].
    + destruct (evictEntry_runs env fuel hash entry entry s Hev G eq_refl)
        as (s1 & H1 & Hev1).
      unfold bind at 1. rewrite H1.
      apply IH; [exact Hev1 | exact NDr |].
      exact (queue_ok_evict env fuel s s1 rest queue hash entry entry
               Hc Hq' G eq_refl Hne H1).
Qed.

Lemma limitSize_evict_runs env fuel : forall n queue s,
  evictable env fuel s -> queue_ok s [] queue ->
  exists s',
    limitSize_evict env fuel n queue s = Ret tt s' /\ evictable env fuel s'.
Proof.
  induction n as [|n IH]; intros queue s Hev Hq.
  - exists s. split; [reflexivity | exact Hev].
  - cbn [limitSize_evict].
    destruct (heap_shift queue) as [[entry queue']|] eqn:Hs;
      [|exists s; split; [reflexivity | exact Hev]].
    destruct Hq as (NDq & Hq).
    destruct (heap_shift_NoDup e_hash queue entry queue' Hs NDq)
      as (Ie & Hincl & ND' & Nin).
    destruct (Hq entry Ie) as (((e0 & G0 & Etx) & _) & _).
    unfold bind at 1. unfold hasEntry, gets at 1. unfold mhas.
    rewrite G0. unfold assert. unfold bind at 1. unfold ret at 1.
    pose proof Hev as (Hc & _).
    destruct (evictEntry_runs env fuel (e_hash entry) entry e0 s Hev G0 Etx)
      as (s1 & H1 & Hev1).
    unfold bind at 1. rewrite H1. unfold bind at 1. unfold gets at 1.
    destruct (underThreshold (mp_size s1) (maxSize (options env)));
      [exists s1; split; [reflexivity | exact Hev1]|].
    apply IH; [exact Hev1|].
    apply (queue_ok_evict env fuel s s1 [] queue' (e_hash entry) entry e0
             Hc); [|exact G0 | exact Etx | | exact H1].
    + split; [exact ND'|]. intros q Iq. apply Hq. now apply Hincl.
    + intros q Iq C. apply Nin. rewrite <- C. now apply in_map.
Qed.

Lemma limitSize_runs env fuel added s :
  evictable env fuel s ->
  exists r s', limitSize env fuel added s = Ret r s'
               /\ evictable env fuel s'.
Proof.
  intros Hev. unfold limitSize. unfold bind at 1. unfold gets at 1.
  destruct (mp_size s <=? maxSize (options env));
    [exists false, s; split; [reflexivity | exact Hev]|].
  unfold bind at 1. unfold gets at 1.
  pose proof Hev as (((_ & ND & _) & _) & _).
  destruct (limitSize_expire_runs env fuel (mkeys (mp_map s)) [] s Hev ND)
    as (queue & s1 & H1 & Hev1 & Hq1).
  { split; [constructor | intros q []]. }
  unfold bind at 1. rewrite H1. unfold bind at 1. unfold gets at 1.
  destruct (underThreshold (mp_size s1) (maxSize (options env))).
  - unfold bind, hasEntry, gets, ret. eexists _, s1.
    split; [reflexivity | exact Hev1].
  - destruct (limitSize_evict_runs env fuel (List.length queue) queue s1
                Hev1 Hq1) as (s2 & H2 & Hev2).
    unfold bind at 1. rewrite H2.
    unfold bind, hasEntry, gets, ret. eexists _, s2.
    split; [reflexivity | exact Hev2].
Qed.

(** A pool whose recorded spends all go up in rank has no cycle. *)
Lemma acyclic_ranked env rank s :
  pool_ok env s -> ranked rank s = true -> acyclic s.
Proof.
  intros Hok Hr.
  assert (Step : forall e h c,
            In (h, c) (spenders s e) -> (rank (e_hash e) < rank h)%nat).
  { intros e h c Is.
    apply spenders_In in Is as (i & k & _ & Gk & Gc & ->).
    rewrite (keyed0 env s Hok _ _ Gc).
    apply (mget_In key_eqb key_eqb_spec) in Gk.
    unfold ranked in Hr. rewrite forallb_forall in Hr.
    specialize (Hr _ Gk). simpl in Hr. now apply Nat.ltb_lt in Hr. }
  assert (Up : forall e h, Descendant s e h ->
                           (rank (e_hash e) < rank h)%nat).
  { intros e h D. unfold Descendant in D.
    induction D as [h c Is | a xa h c _ IH Ga Is]; [now apply (Step e h c)|].
    pose proof (Step xa h c Is) as L.
    rewrite (keyed0 env s Hok _ _ Ga) in L. lia. }
  intros h e G D. pose proof (Up e h D) as L.
  rewrite (keyed0 env s Hok _ _ G) in L. lia.
Qed.

(** X23: on a consistent pool in which no entry is its own descendant,
    and with fuel for as many nested calls as the pool has entries, the
    eviction of an entry of the pool returns: no assertion of
    [removeEntry] or [untrackEntry] fails, for the entry or for any of its
    descendants. The pool it leaves is again consistent and without
    cycles. *)
Theorem evictEntry_returns env fuel h entry s :
  consistent env s -> acyclic s ->
  (List.length (mkeys (mp_map s)) <= fuel)%nat ->
  mget String.eqb h (mp_map s) = Some entry ->
  exists s', evictEntry env fuel entry s = Ret tt s'
             /\ consistent env s' /\ acyclic s'.
Proof.
  intros Hc Hac Hf G.
  destruct (evictEntry_runs env fuel h entry entry s
              (conj Hc (conj Hac Hf)) G eq_refl) as (s' & H & Hc' & Hac' & _).
  exists s'. split; [exact H|]. split; assumption.
Qed.

Lemma evictEntry_returns_witness :
  mkeys (mp_map demo_pool12') = ["t1"; "t2"]
  /\ exists s', evictEntry demo_env 5 demo_t1_entry demo_pool12' = Ret tt s'
                /\ consistent demo_env s' /\ acyclic s'.
Proof.
  assert (R : calls demo_env 5
                [AddTX demo_T1 None; AddTX demo_T1x None; AddTX demo_T2 None]
                demo_new = Some demo_pool12') by (vm_compute; reflexivity).
  destruct (calls_sound demo_env 5 _ _ _ (sound_new "genesis" demo_env) R)
    as ((Hok & _) & Hcl).
  split; [reflexivity|].
  apply (evictEntry_returns demo_env 5 "t1" demo_t1_entry demo_pool12').
  - exact (conj Hok Hcl).
  - exact (acyclic_ranked demo_env demo_rank demo_pool12' Hok eq_refl).
  - vm_compute. lia.
  - reflexivity.
Defined.

(** X24: on a consistent pool without cycles, and with fuel for as many
    nested calls as the pool has entries, [limitSize] returns its boolean:
    the assertion [this.hasEntry(hash)] on the entries shifted from the
    heap never fails, because the heap holds entries without parents in
    the pool, one per hash, and the eviction of one of them leaves the
    others in the pool. The pool it leaves is again consistent and
    without cycles. *)
Theorem limitSize_returns env fuel added s :
  consistent env s -> acyclic s ->
  (List.length (mkeys (mp_map s)) <= fuel)%nat ->
  exists r s', limitSize env fuel added s = Ret r s'
               /\ consistent env s' /\ acyclic s'.
Proof.
  intros Hc Hac Hf.
  destruct (limitSize_runs env fuel added s (conj Hc (conj Hac Hf)))
    as (r & s' & H & Hc' & Hac' & _).
  exists r, s'. split; [exact H|]. split; assumption.
Qed.

Lemma limitSize_returns_witness :
  mkeys (mp_map demo_pool14) = ["t1"; "t4"]
  /\ limitSize demo_tight_env 5 "t4" demo_pool14
     = Ret false demo_pool14_limited
  /\ mkeys (mp_map demo_pool14_limited) = ["t4"]
  /\ exists r s', limitSize demo_tight_env 5 "t4" demo_pool14 = Ret r s'
                  /\ consistent demo_tight_env s' /\ acyclic s'.
Proof.
  assert (R : calls demo_env 5 [AddTX demo_T1 None; AddTX demo_T4 None]
                demo_new = Some demo_pool14) by (vm_compute; reflexivity).
  destruct (calls_sound demo_env 5 _ _ _ (sound_new "genesis" demo_env) R)
    as ((Hok & _) & Hcl).
  split; [reflexivity|]. split; [vm_compute; reflexivity|].
  split; [reflexivity|].
  apply (limitSize_returns demo_tight_env 5 "t4" demo_pool14).
  - exact (conj Hok Hcl).
  - exact (acyclic_ranked demo_env demo_rank demo_pool14 Hok eq_refl).
  - vm_compute. lia.
Defined.

(** X25: on a consistent pool without cycles, and with fuel for as many
    nested calls as the pool has entries, [removeDoubleSpends] returns for
    every transaction: each spender it finds is evicted without a failed
    assertion, and the pool it leaves is again consistent and without
    cycles. *)
Theorem removeDoubleSpends_returns env fuel tx s :
  consistent env s -> acyclic s ->
  (List.length (mkeys (mp_map s)) <= fuel)%nat ->
  exists s', removeDoubleSpends env fuel tx s = Ret tt s'
             /\ consistent env s' /\ acyclic s'.
Proof.
  intros Hc Hac Hf.
  destruct (removeDoubleSpends_runs env fuel (tx_inputs tx) s
              (conj Hc (conj Hac Hf))) as (s' & H & Hc' & Hac' & _).
  exists s'. split; [exact H|]. split; assumption.
Qed.

Lemma removeDoubleSpends_returns_witness :
  exists s', removeDoubleSpends demo_env 5 demo_T1x demo_pool12' = Ret tt s'
             /\ consistent demo_env s' /\ acyclic s'.
Proof.
  assert (R : calls demo_env 5
                [AddTX demo_T1 None; AddTX demo_T1x None; AddTX demo_T2 None]
                demo_new = Some demo_pool12') by (vm_compute; reflexivity).
  destruct (calls_sound demo_env 5 _ _ _ (sound_new "genesis" demo_env) R)
    as ((Hok & _) & Hcl).
  apply (removeDoubleSpends_returns demo_env 5 demo_T1x demo_pool12').
  - exact (conj Hok Hcl).
  - exact (acyclic_ranked demo_env demo_rank demo_pool12' Hok eq_refl).
  - vm_compute. lia.
Defined.

(** X26: once the median time is there, [_handleReorg] on a consistent
    pool without cycles, with fuel for as many nested calls as the pool
    has entries, returns: every entry it picks and still finds is evicted
    without a failed assertion, and the pool it leaves is again consistent
    and without cycles. *)
Theorem handleReorg_returns env isFinal mtp flag fuel s :
  consistent env s -> acyclic s ->
  (List.length (mkeys (mp_map s)) <= fuel)%nat ->
  exists s', _handleReorg env isFinal (Done mtp) flag fuel s = Ret tt s'
             /\ consistent env s' /\ acyclic s'.
Proof.
  intros Hc Hac Hf. unfold _handleReorg.
  destruct (handleReorg_runs env fuel
              (mkeys (filter
                        (fun he => reorgRemoves isFinal flag
                                     (ch_height (chain env) + 1) mtp
                                     (snd he)) (mp_map s))) s
              (conj Hc (conj Hac Hf))) as (s' & H & Hc' & Hac' & _).
  exists s'. split; [exact H|]. split; assumption.
Qed.

Lemma handleReorg_returns_witness :
  exists s', _handleReorg demo_env demo_isFinal (Done 4000) 2147483648 5
               demo_pool14 = Ret tt s'
             /\ consistent demo_env s' /\ acyclic s'.
Proof.
  assert (R : calls demo_env 5 [AddTX demo_T1 None; AddTX demo_T4 None]
                demo_new = Some demo_pool14) by (vm_compute; reflexivity).
  destruct (calls_sound demo_env 5 _ _ _ (sound_new "genesis" demo_env) R)
    as ((Hok & _) & Hcl).
  apply (handleReorg_returns demo_env demo_isFinal 4000 2147483648 5
           demo_pool14).
  - exact (conj Hok Hcl).
  - exact (acyclic_ranked demo_env demo_rank demo_pool14 Hok eq_refl).
  - vm_compute. lia.
Defined.

(** ** The pool over time *)

(** What is said of the pool depends on the environment through the
    methods of the transactions only. *)
Lemma sound_sameNode env env' K s :
  sameNode env env' -> sound env K s -> sound env' K s.
Proof.
  intros (_ & _ & Hm) H.
  unfold sound, okWith, pool_ok, sumMem, memUsage in *.
  rewrite Hm. exact H.
Qed.

Lemma sameNode_sym env env' : sameNode env env' -> sameNode env' env.
Proof. intros (A & B & C). repeat split; now symmetry. Qed.

Lemma history_sound env : forall cs s st,
  Forall (fun c => sameNode env (fst (fst c))) cs ->
  sound env [] s -> history cs s = Some st -> sound env [] st.
Proof.
  induction cs as [|[[env' fuel] c] rest IH]; intros s st HF Hs; simpl.
  - intros E. inversion E; subst. exact Hs.
  - inversion HF as [|? ? Hn HF']; subst. simpl in Hn.
    pose proof (call_sound env' fuel c s (sound_sameNode env env' [] s Hn Hs))
      as P.
    destruct (call env' fuel c s) as [a s'|e s'|]; try discriminate;
      intros R;
      exact (IH s' st HF'
               (sound_sameNode env' env [] s' (sameNode_sym _ _ Hn) P) R).
Qed.

Lemma history_apart : forall cs s st,
  apart [] s -> history cs s = Some st -> apart [] st.
Proof.
  induction cs as [|[[env' fuel] c] rest IH]; intros s st Hs; simpl.
  - intros E. inversion E; subst. exact Hs.
  - pose proof (call_apart env' fuel c s Hs) as P.
    destruct (call env' fuel c s) as [a s'|e s'|]; try discriminate;
      intros R; exact (IH s' st P R).
Qed.

Lemma cap_call env fuel c :
  preserves (orphansCapped env) (call env fuel c).
Proof.
  apply (oinv_call env (orphansCapped env)).
  - unfold orphansCapped. intros s s' -> _. auto.
  - intros h. apply cap_removeOrphan.
  - apply cap_maybeOrphan.
  - intros parent. apply cap_resolveOrphans.
  - intros s _. unfold orphansCapped. simpl. (unfold Hash in *; lia).
Qed.

Lemma history_capped env : forall cs s st,
  Forall (fun c => sameNode env (fst (fst c))) cs ->
  orphansCapped env s -> history cs s = Some st -> orphansCapped env st.
Proof.
  induction cs as [|[[env' fuel] c] rest IH]; intros s st HF Hs; simpl.
  - intros E. inversion E; subst. exact Hs.
  - inversion HF as [|? ? Hn HF']; subst. simpl in Hn.
    destruct Hn as (Ho & _).
    assert (Hs' : orphansCapped env' s)
      by (unfold orphansCapped in *; now rewrite Ho).
    pose proof (cap_call env' fuel c s Hs') as P.
    destruct (call env' fuel c s) as [a s'|e s'|]; try discriminate;
      intros R; apply (IH s' st HF'); try exact R;
      unfold orphansCapped in *; now rewrite <- Ho.
Qed.

(** X6: the orphan limit holds over time.  In every pool reached from a
    new pool by calls of [addTX], [addBlock], [removeBlock] and [reset],
    each made at its own time, chain state, random source and listeners,
    by a pool that keeps its options, including calls that throw, the
    orphan map holds at most [maxOrphans] orphans. *)
Theorem orphans_capped env genesis (cs : list (Env * nat * Call))
  (st : Mempool) :
  Forall (fun c => sameNode env (fst (fst c))) cs ->
  history cs (Mempool_new genesis) = Some st ->
  (List.length (mp_orphans st) <= maxOrphans (options env))%nat.
Proof.
  intros HF R.
  apply (history_capped env cs (Mempool_new genesis) st HF); [|exact R].
  unfold orphansCapped. simpl. (unfold Hash in *; lia).
Qed.

Lemma orphans_capped_witness :
  history demo_history demo_new = Some demo_later /\
  mkeys (mp_orphans demo_later) = ["o"; "o2"] /\
  (List.length (mp_orphans demo_later) <= 10)%nat.
Proof.
  assert (R : history demo_history (Mempool_new "genesis") = Some demo_later)
    by (vm_compute; reflexivity).
  split; [exact R|]. split; [reflexivity|].
  apply (orphans_capped demo_env "genesis" demo_history demo_later);
    [|exact R].
  repeat constructor.
Defined.

(** X8: the accounting of the pool holds over time.  In every pool
    reached from a new pool by calls of [addTX], [addBlock], [removeBlock]
    and [reset], each made at its own time, chain state, random source and
    listeners, including calls that throw: [size] is the sum of [memUsage]
    over the entries; every key of the spent map points to an entry of
    the pool that has the key among its inputs; and every input of every
    entry is a key of the spent map that points to that entry. *)
Theorem api_keeps_accounting env genesis (cs : list (Env * nat * Call))
  (st : Mempool) :
  Forall (fun c => sameNode env (fst (fst c))) cs ->
  history cs (Mempool_new genesis) = Some st ->
  mp_size st = sumMem env (mp_map st)
  /\ (forall k h, mget key_eqb k (mp_spents st) = Some h ->
        exists e, mget String.eqb h (mp_map st) = Some e /\
                  In k (inputKeys (e_tx e)))
  /\ (forall h e, mget String.eqb h (mp_map st) = Some e ->
        forall k, In k (inputKeys (e_tx e)) ->
          mget key_eqb k (mp_spents st) = Some h).
Proof.
  intros HF R.
  destruct (history_sound env cs _ st HF (sound_new genesis env) R)
    as (((Hsz & _ & _ & Hsp) & _) & Hcl).
  split; [exact Hsz|]. split; [|exact Hcl].
  intros k h G. destruct (Hsp k h G) as (e & Ge & _ & Hk). eauto.
Qed.

Lemma api_keeps_accounting_witness :
  history demo_history12 demo_new = Some demo_later12 /\
  mkeys (mp_map demo_later12) = ["t1"; "t2"] /\
  mp_size demo_later12 = sumMem demo_env (mp_map demo_later12).
Proof.
  assert (R : history demo_history12 (Mempool_new "genesis")
              = Some demo_later12) by (vm_compute; reflexivity).
  split; [exact R|]. split; [reflexivity|].
  apply (api_keeps_accounting demo_env "genesis" demo_history12
           demo_later12); [|exact R].
  repeat constructor.
Defined.

(** X9: the pool never holds a double spend.  In every pool reached from a
    new pool by calls of [addTX], [addBlock], [removeBlock] and [reset],
    each made at its own time, chain state, random source and listeners,
    no two entries spend the same outpoint, and the key of an entry is the
    hash of its transaction, which is no coinbase. *)
Theorem api_conflict_free env genesis (cs : list (Env * nat * Call))
  (st : Mempool) :
  Forall (fun c => sameNode env (fst (fst c))) cs ->
  history cs (Mempool_new genesis) = Some st ->
  conflictFree st
  /\ forall h e, mget String.eqb h (mp_map st) = Some e ->
       tx_hash (e_tx e) = h /\ isCoinbase (methods env) (e_tx e) = false.
Proof.
  intros HF R.
  destruct (history_sound env cs _ st HF (sound_new genesis env) R)
    as (((_ & _ & Hent & _) & _) & Hcl).
  split; [|exact Hent].
  intros h1 e1 h2 e2 k G1 G2 K1 K2.
  pose proof (Hcl _ _ G1 k K1) as C1. pose proof (Hcl _ _ G2 k K2) as C2.
  congruence.
Qed.

Lemma api_conflict_free_witness :
  history demo_history12 demo_new = Some demo_later12
  /\ conflictFree demo_later12.
Proof.
  assert (R : history demo_history12 (Mempool_new "genesis")
              = Some demo_later12) by (vm_compute; reflexivity).
  split; [exact R|].
  apply (api_conflict_free demo_env "genesis" demo_history12 demo_later12);
    [|exact R].
  repeat constructor.
Defined.

(** X19: a transaction is in the pool or among the orphans, never both.
    In every pool reached from a new pool by calls of [addTX], [addBlock],
    [removeBlock] and [reset], each made in an environment of its own
    (whatever its clock, chain, options and listeners), including calls
    that throw, no hash is a key of the pool map and of the orphan map at
    once, and every orphan is stored under the hash of the transaction it
    holds. *)
Theorem api_pool_orphans_apart genesis (cs : list (Env * nat * Call))
  (st : Mempool) :
  history cs (Mempool_new genesis) = Some st ->
  (forall h, mhas String.eqb h (mp_map st) = true ->
             mhas String.eqb h (mp_orphans st) = false)
  /\ (forall h o tx,
        mget String.eqb h (mp_orphans st) = Some o ->
        toTX o = Some tx -> tx_hash tx = h).
Proof.
  intros R.
  destruct (history_apart cs _ st (apart_new genesis) R) as (HK & HD & _).
  split; [exact HD | exact HK].
Qed.

Lemma api_pool_orphans_apart_witness :
  history demo_history demo_new = Some demo_later
  /\ mkeys (mp_map demo_later) = ["x"]
  /\ mkeys (mp_orphans demo_later) = ["o"; "o2"]
  /\ (forall h, mhas String.eqb h (mp_map demo_later) = true ->
                mhas String.eqb h (mp_orphans demo_later) = false)
  /\ (forall h o tx,
        mget String.eqb h (mp_orphans demo_later) = Some o ->
        toTX o = Some tx -> tx_hash tx = h).
Proof.
  assert (R : history demo_history demo_new = Some demo_later)
    by (vm_compute; reflexivity).
  split; [exact R|]. split; [reflexivity|]. split; [reflexivity|].
  exact (api_pool_orphans_apart "genesis" demo_history demo_later R).
Defined.

(** X20: a connected block leaves the pool.  In a pool reached from a new
    pool by calls of [addTX], [addBlock], [removeBlock] and [reset], each
    made at its own time, chain state, random source and listeners, when
    [_addBlock(block, txs)] returns, no transaction of the block but the
    first is in the pool map; and unless the pool map was empty at the
    call, none of them is among the orphans either. *)
Theorem addBlock_clears_block env fuel genesis
  (cs : list (Env * nat * Call)) (s : Mempool) block txs s' :
  Forall (fun c => sameNode env (fst (fst c))) cs ->
  history cs (Mempool_new genesis) = Some s ->
  _addBlock env fuel block txs s = Ret tt s' ->
  forall tx, In tx (tl txs) ->
    mhas String.eqb (tx_hash tx) (mp_map s') = false
    /\ (mp_map s <> [] ->
        mhas String.eqb (tx_hash tx) (mp_orphans s') = false).
Proof.
  intros HF R H tx Hin.
  pose proof (history_sound env cs _ s HF (sound_new genesis env) R)
    as Hsound.
  pose proof (history_apart cs _ s (apart_new genesis) R) as Hs.
  unfold _addBlock in H. unfold bind at 1 in H. unfold gets at 1 in H.
  destruct (List.length (mp_map s) =? 0)%nat eqn:Hn.
  - unfold modify in H. inversion H; subst s'.
    apply Nat.eqb_eq in Hn. apply length_zero_iff_nil in Hn.
    cbn [mp_map with_tip]. rewrite Hn. split; [reflexivity|].
    intros C. now contradiction C.
  - apply bind_Ret in H as ([] & s1 & H1 & H2).
    destruct (addBlock_loop_clears env fuel block _ [] s s1 Hsound Hs H1)
      as (X' & (_ & _ & HG) & _ & Hall).
    unfold rejects_reset, bind, modify in H2. inversion H2; subst s'.
    cbn [mp_map mp_orphans with_tip with_rejects].
    assert (I : In tx (rev (tl txs))) by (now apply in_rev in Hin).
    destruct (HG _ (Hall tx I)) as (G1 & G2). auto.
Qed.

Lemma addBlock_clears_block_witness :
  mkeys (mp_map demo_later12) = ["t1"; "t2"]
  /\ mkeys (mp_map demo_later12_connected) = ["t2"]
  /\ forall tx, In tx (tl [demo_coinbase; demo_T1]) ->
       mhas String.eqb (tx_hash tx) (mp_map demo_later12_connected) = false
       /\ (mp_map demo_later12 <> [] ->
           mhas String.eqb (tx_hash tx)
             (mp_orphans demo_later12_connected) = false).
Proof.
  assert (R : history demo_history12 demo_new = Some demo_later12)
    by (vm_compute; reflexivity).
  assert (E : _addBlock demo_later_env 5 demo_block [demo_coinbase; demo_T1]
                demo_later12 = Ret tt demo_later12_connected)
    by (vm_compute; reflexivity).
  assert (HF : Forall (fun c => sameNode demo_later_env (fst (fst c)))
                 demo_history12) by (repeat constructor).
  split; [reflexivity|]. split; [reflexivity|].
  exact (addBlock_clears_block demo_later_env 5 "genesis" demo_history12
           demo_later12 demo_block [demo_coinbase; demo_T1]
           demo_later12_connected HF R E).
Defined.
